(** * picol: a shallow embedding of the Tcl-like interpreter of [picol.c]

    The development follows the source file top to bottom: the C character
    classification it relies on, the parser ([picolParser] and the
    [picolParse...] functions), the environment and command registry, the
    escape decoder [picolEscape], the evaluator [picolEval] and the built-in
    commands.  C strings are lists of byte values (a [Z] in [0, 256));
    pointers into a buffer are [Z] offsets; every read checks that the
    offset lies inside the buffer (the bytes of the string and its
    terminating NUL) and is undefined behaviour otherwise. *)

From Stdlib Require Import ZArith String Ascii Bool Lia.
From Stdlib Require Import Decimal DecimalPos.
From Stdlib Require Import DecimalString List.
Import ListNotations.
Local Open Scope Z_scope.

(** ** Outcomes of running C code *)

(** The ways the modelled C code leaves defined behaviour. *)
Inductive ub_kind : Type :=
| OutOfBounds   (* a read or write outside the buffer and its NUL *)
| NullDeref     (* dereference of a NULL pointer *)
| EmptyArgv     (* [argv[argc-1]] with [argc == 0] in the evaluator *)
| DivByZero     (* [a / b] with [b == 0] *)
| IntOverflow.  (* a value outside the range of [int] *)

(** A run returns a value, leaves defined behaviour, or needs more fuel
    than it was given.  Only the evaluator can really fail to terminate;
    the scanning loops of the parser and of the escape decoder carry a
    bound of their own, which is proved sufficient below. *)
Inductive outcome (A : Type) : Type :=
| Ret (a : A)
| Undef (u : ub_kind)
| Timeout.
Arguments Ret {A} a.
Arguments Undef {A} u.
Arguments Timeout {A}.

Definition bind {A B : Type} (m : outcome A) (f : A -> outcome B) : outcome B :=
  match m with
  | Ret a => f a
  | Undef u => Undef u
  | Timeout => Timeout
  end.

Notation "x <- m ;; k" := (bind m (fun x => k))
  (at level 61, m at next level, right associativity).
Notation "' pat <- m ;; k" := (bind m (fun x => match x with pat => k end))
  (at level 61, pat pattern, m at next level, right associativity).

(** ** Bytes and C strings *)

Definition cstring : Type := list Z.

(** The bytes of a literal. *)
Definition bytes (s : string) : cstring :=
  map (fun a => Z.of_N (N_of_ascii a)) (list_ascii_of_string s).

(** What a C string function sees of a buffer: the bytes before the first
    NUL. *)
Fixpoint cstr (b : list Z) : cstring :=
  match b with
  | [] => []
  | c :: b' => if c =? 0 then [] else c :: cstr b'
  end.

Fixpoint cstring_eqb (a b : cstring) : bool :=
  match a, b with
  | [], [] => true
  | x :: a', y :: b' => (x =? y) && cstring_eqb a' b'
  | _, _ => false
  end.

(** [strcmp(a,b) == 0] *)
Definition strcmp0 (a b : cstring) : bool := cstring_eqb a b.

Definition strlen (s : cstring) : Z := Z.of_nat (length s).

(** [b[k]] for a buffer holding the bytes [b] followed by a NUL. *)
Definition rd (b : list Z) (k : Z) : outcome Z :=
  if k <? 0 then Undef OutOfBounds
  else if k <? strlen b then Ret (nth (Z.to_nat k) b 0)
  else if k =? strlen b then Ret 0
  else Undef OutOfBounds.

(** The list [b] with its element [k] replaced by [v]. *)
Fixpoint upd (b : list Z) (k : nat) (v : Z) : list Z :=
  match b, k with
  | [], _ => []
  | _ :: b', O => v :: b'
  | c :: b', S k' => c :: upd b' k' v
  end.

(** The value a [char] holds after an [int] is stored in it. *)
Definition to_char (v : Z) : Z := v mod 256.

(** *** <ctype.h>, "C" locale *)

Definition isdigit (c : Z) : bool := (48 <=? c) && (c <=? 57).
Definition isupper (c : Z) : bool := (65 <=? c) && (c <=? 90).
Definition islower (c : Z) : bool := (97 <=? c) && (c <=? 122).
Definition isalpha_b (c : Z) : bool := isupper c || islower c.
(** [isalpha] as the [int] the source passes on to [toxdigit]: zero, or a
    non-zero value for a letter.  C leaves the non-zero value to the
    library; it is the class bit of the GNU C library here, 1024, and
    matters only where [picolEscape] decodes a single hex digit that is a
    letter. *)
Definition isalpha (c : Z) : Z := if isalpha_b c then 1024 else 0.
Definition isalnum (c : Z) : bool := isalpha_b c || isdigit c.
Definition isgraph (c : Z) : bool := (33 <=? c) && (c <=? 126).
Definition isspace (c : Z) : bool := (c =? 32) || ((9 <=? c) && (c <=? 13)).
Definition isxdigit (c : Z) : bool :=
  isdigit c || ((65 <=? c) && (c <=? 70)) || ((97 <=? c) && (c <=? 102)).
Definition toupper (c : Z) : Z := if islower c then c - 32 else c.

(** Character constants of the source. *)
Definition ch_nl : Z := 10.        (* '\n' *)
Definition ch_cr : Z := 13.        (* '\r' *)
Definition ch_tab : Z := 9.        (* '\t' *)
Definition ch_space : Z := 32.     (* ' ' *)
Definition ch_dquote : Z := 34.    (* the double quote *)
Definition ch_hash : Z := 35.      (* '#' *)
Definition ch_dollar : Z := 36.    (* '$' *)
Definition ch_semi : Z := 59.      (* ';' *)
Definition ch_lbracket : Z := 91.  (* '[' *)
Definition ch_bslash : Z := 92.    (* '\\' *)
Definition ch_rbracket : Z := 93.  (* ']' *)
Definition ch_underscore : Z := 95.
Definition ch_lbrace : Z := 123.   (* '{' *)
Definition ch_rbrace : Z := 125.   (* '}' *)

(** ** Return codes and token types *)

Inductive retcode : Type :=
| PICOL_OK | PICOL_ERR | PICOL_RETURN | PICOL_BREAK | PICOL_CONTINUE.

Inductive ptype : Type :=
| PT_ESC | PT_STR | PT_CMD | PT_VAR | PT_SEP | PT_EOL | PT_EOF.

Definition retcode_eqb (a b : retcode) : bool :=
  match a, b with
  | PICOL_OK, PICOL_OK | PICOL_ERR, PICOL_ERR | PICOL_RETURN, PICOL_RETURN
  | PICOL_BREAK, PICOL_BREAK | PICOL_CONTINUE, PICOL_CONTINUE => true
  | _, _ => false
  end.

Definition ptype_eqb (a b : ptype) : bool :=
  match a, b with
  | PT_ESC, PT_ESC | PT_STR, PT_STR | PT_CMD, PT_CMD | PT_VAR, PT_VAR
  | PT_SEP, PT_SEP | PT_EOL, PT_EOL | PT_EOF, PT_EOF => true
  | _, _ => false
  end.

(** ** The parser *)

(** [struct picolParser]: [pos], [start] and [end] are offsets into
    [text]. *)
Record picolParser : Type := mkParser {
  text : cstring;
  pos : Z;
  start : Z;
  end_ : Z;
  len : Z;
  type : ptype;
  insidequote : bool
}.

Definition set_pos (p : picolParser) (x : Z) : picolParser :=
  mkParser (text p) x (start p) (end_ p) (len p) (type p) (insidequote p).
Definition set_start (p : picolParser) (x : Z) : picolParser :=
  mkParser (text p) (pos p) x (end_ p) (len p) (type p) (insidequote p).
Definition set_end (p : picolParser) (x : Z) : picolParser :=
  mkParser (text p) (pos p) (start p) x (len p) (type p) (insidequote p).
Definition set_len (p : picolParser) (x : Z) : picolParser :=
  mkParser (text p) (pos p) (start p) (end_ p) x (type p) (insidequote p).
Definition set_type (p : picolParser) (x : ptype) : picolParser :=
  mkParser (text p) (pos p) (start p) (end_ p) (len p) x (insidequote p).
Definition set_insidequote (p : picolParser) (x : bool) : picolParser :=
  mkParser (text p) (pos p) (start p) (end_ p) (len p) (type p) x.

(** [p->pos++, p->len--] *)
Definition advance (p : picolParser) : picolParser :=
  set_len (set_pos p (pos p + 1)) (len p - 1).

(** [*p->pos] *)
Definition peek (p : picolParser) : outcome Z := rd (text p) (pos p).

(** Every scanning loop of the parser moves [pos] forward by at least one
    byte per iteration and a read beyond the NUL is already undefined, so
    the length of the text plus two bounds its iterations. *)
Definition scan_fuel (p : picolParser) : nat := S (S (length (text p))).

Definition picolInitParser (s : cstring) : picolParser :=
  let t := cstr s in
  mkParser t 0 0 0 (strlen t) PT_EOL false.

Fixpoint picolParseSep_loop (fuel : nat) (p : picolParser) (eol : Z)
  : outcome picolParser :=
  match fuel with
  | O => Timeout
  | S fuel' =>
      c <- peek p ;;
      if negb (isgraph c) || (negb (eol =? 0) && (c =? eol))
      then picolParseSep_loop fuel' (advance p) eol
      else Ret p
  end.

Definition picolParseSep (p : picolParser) (eol : Z)
  : outcome (retcode * picolParser) :=
  p <- picolParseSep_loop (scan_fuel p) (set_start p (pos p)) eol ;;
  let p := set_end p (pos p - 1) in
  let p := set_type p (if eol =? 0 then PT_SEP else PT_EOL) in
  Ret (PICOL_OK, p).

Fixpoint picolParseCommand_loop (fuel : nat) (p : picolParser)
  (level blevel : Z) : outcome picolParser :=
  match fuel with
  | O => Timeout
  | S fuel' =>
      if len p >? 0 then
        c <- peek p ;;
        if c =? ch_bslash then
          let p := if len p >? 1 then advance p else p in
          picolParseCommand_loop fuel' (advance p) level blevel
        else if c =? ch_lbracket then
          let level := if blevel =? 0 then level + 1 else level in
          picolParseCommand_loop fuel' (advance p) level blevel
        else if c =? ch_rbracket then
          if blevel =? 0 then
            if level - 1 =? 0 then Ret p
            else picolParseCommand_loop fuel' (advance p) (level - 1) blevel
          else picolParseCommand_loop fuel' (advance p) level blevel
        else if c =? ch_lbrace then
          picolParseCommand_loop fuel' (advance p) level (blevel + 1)
        else if c =? ch_rbrace then
          let blevel := if negb (blevel =? 0) then blevel - 1 else blevel in
          picolParseCommand_loop fuel' (advance p) level blevel
        else picolParseCommand_loop fuel' (advance p) level blevel
      else Ret p
  end.

Definition picolParseCommand (p : picolParser)
  : outcome (retcode * picolParser) :=
  let p := advance p in
  let p := set_start p (pos p) in
  p <- picolParseCommand_loop (scan_fuel p) p 1 0 ;;
  let p := set_end p (pos p - 1) in
  let p := set_type p PT_CMD in
  c <- peek p ;;
  let p := if c =? ch_rbracket then advance p else p in
  Ret (PICOL_OK, p).

Fixpoint picolParseVar_loop (fuel : nat) (p : picolParser)
  : outcome picolParser :=
  match fuel with
  | O => Timeout
  | S fuel' =>
      c <- peek p ;;
      if isalnum c || (c =? ch_underscore)
      then picolParseVar_loop fuel' (advance p)
      else Ret p
  end.

Definition picolParseVar (p : picolParser)
  : outcome (retcode * picolParser) :=
  let p := advance p in
  let p := set_start p (pos p) in
  p <- picolParseVar_loop (scan_fuel p) p ;;
  if start p =? pos p then
    let p := set_end (set_start p (pos p - 1)) (pos p - 1) in
    Ret (PICOL_OK, set_type p PT_STR)
  else
    let p := set_end p (pos p - 1) in
    Ret (PICOL_OK, set_type p PT_VAR).

Fixpoint picolParseBrace_loop (fuel : nat) (p : picolParser) (level : Z)
  : outcome picolParser :=
  match fuel with
  | O => Timeout
  | S fuel' =>
      if len p >? 0 then
        c <- peek p ;;
        if c =? ch_lbrace then
          picolParseBrace_loop fuel' (advance p) (level + 1)
        else if (len p >=? 2) && (c =? ch_bslash) then
          picolParseBrace_loop fuel' (advance (advance p)) level
        else if c =? ch_rbrace then
          if level - 1 =? 0 then Ret p
          else picolParseBrace_loop fuel' (advance p) (level - 1)
        else picolParseBrace_loop fuel' (advance p) level
      else Ret p
  end.

Definition picolParseBrace (p : picolParser)
  : outcome (retcode * picolParser) :=
  let p := advance p in
  let p := set_start p (pos p) in
  p <- picolParseBrace_loop (scan_fuel p) p 1 ;;
  let p := set_end p (pos p - 1) in
  let p := if len p >? 0 then advance p else p in
  Ret (PICOL_OK, set_type p PT_STR).

(** The [for]/[switch] of [picolParseString]: [inl p] is the [return]
    taken on a closing quote, [inr p] the exit through the label [end]
    or through the loop condition. *)
Fixpoint picolParseString_loop (fuel : nat) (p : picolParser)
  : outcome (picolParser + picolParser) :=
  match fuel with
  | O => Timeout
  | S fuel' =>
      if len p >? 0 then
        c <- peek p ;;
        if (c =? ch_dollar) || (c =? ch_lbracket) then Ret (inr p)
        else if c =? ch_dquote then
          if negb (insidequote p) then picolParseString_loop fuel' (advance p)
          else
            let p := set_end p (pos p - 1) in
            let p := set_type p PT_ESC in
            let p := advance p in
            Ret (inl (set_insidequote p false))
        else if c =? ch_bslash then
          let p := if len p >=? 2 then advance p else p in
          picolParseString_loop fuel' (advance p)
        else if (negb (isgraph c) || (c =? ch_semi)) && negb (insidequote p)
        then Ret (inr p)
        else picolParseString_loop fuel' (advance p)
      else Ret (inr p)
  end.

Definition picolParseString (p : picolParser)
  : outcome (retcode * picolParser) :=
  let newword :=
    ptype_eqb (type p) PT_SEP || ptype_eqb (type p) PT_EOL
    || ptype_eqb (type p) PT_STR in
  c <- peek p ;;
  if newword && (c =? ch_lbrace) then picolParseBrace p
  else
    let p := if newword && (c =? ch_dquote)
             then advance (set_insidequote p true) else p in
    r <- picolParseString_loop (scan_fuel p) (set_start p (pos p)) ;;
    match r with
    | inl p => Ret (PICOL_OK, p)
    | inr p => Ret (PICOL_OK, set_type (set_end p (pos p - 1)) PT_ESC)
    end.

Fixpoint picolParseComment_loop (fuel : nat) (p : picolParser)
  : outcome picolParser :=
  match fuel with
  | O => Timeout
  | S fuel' =>
      if negb (len p =? 0) then
        c <- peek p ;;
        if negb (c =? ch_nl) then picolParseComment_loop fuel' (advance p)
        else Ret p
      else Ret p
  end.

Definition picolParseComment (p : picolParser)
  : outcome (retcode * picolParser) :=
  p <- picolParseComment_loop (scan_fuel p) p ;;
  Ret (PICOL_OK, p).

Fixpoint picolGetToken_loop (fuel : nat) (p : picolParser)
  : outcome (retcode * picolParser) :=
  match fuel with
  | O => Timeout
  | S fuel' =>
      if len p >? 0 then
        c <- peek p ;;
        if (c =? ch_nl) || (c =? ch_semi) then
          if insidequote p then picolParseString p
          else picolParseSep p ch_semi
        else if c =? ch_lbracket then picolParseCommand p
        else if c =? ch_dollar then picolParseVar p
        else if c =? ch_hash then
          if negb (ptype_eqb (type p) PT_EOL) then picolParseString p
          else
            '(_, p) <- picolParseComment p ;;
            picolGetToken_loop fuel' p
        else if isgraph c || insidequote p then picolParseString p
        else picolParseSep p 0
      else
        let t := if negb (ptype_eqb (type p) PT_EOL)
                    && negb (ptype_eqb (type p) PT_EOF)
                 then PT_EOL else PT_EOF in
        Ret (PICOL_OK, set_type p t)
  end.

Definition picolGetToken (p : picolParser) : outcome (retcode * picolParser) :=
  picolGetToken_loop (scan_fuel p) p.

(** ** The interpreter state *)

(** [struct picolVar]; the [next] pointers are the list the variable
    sits in. *)
Record picolVar : Type := mkVar {
  name : cstring;
  val : cstring
}.

(** [struct picolCallFrame]: the variables, head first, and the parent
    frame ([None] is the NULL parent of the top level). *)
#[local] Unset Elimination Schemes.
Inductive picolCallFrame : Type :=
| CallFrame (vars : list picolVar) (parent : option picolCallFrame).
#[local] Set Elimination Schemes.

Definition vars (cf : picolCallFrame) : list picolVar :=
  match cf with CallFrame vs _ => vs end.
Definition parent (cf : picolCallFrame) : option picolCallFrame :=
  match cf with CallFrame _ pa => pa end.

(** The functions a [picolCmdFunc] pointer of this program can hold. *)
Inductive picolCmdFunc : Type :=
| CommandMath | CommandSet | CommandPuts | CommandIf | CommandWhile
| CommandRetCodes | CommandCallProc | CommandProc | CommandReturn.

(** [struct picolCmd].  [privdata] is NULL ([None]) or the two-element
    array built by [picolCommandProc]: argument list and body. *)
Record picolCmd : Type := mkCmd {
  cmd_name : cstring;
  func : picolCmdFunc;
  privdata : option (cstring * cstring)
}.

(** [struct picolInterp], together with what the process has written to
    its standard output ([puts] is the one place that writes). *)
Record picolInterp : Type := mkInterp {
  level : Z;
  callframe : option picolCallFrame;
  commands : list picolCmd;
  result : cstring;
  stdout : list cstring
}.

Definition set_callframe (i : picolInterp) (cf : option picolCallFrame)
  : picolInterp :=
  mkInterp (level i) cf (commands i) (result i) (stdout i).
Definition set_commands (i : picolInterp) (cs : list picolCmd) : picolInterp :=
  mkInterp (level i) (callframe i) cs (result i) (stdout i).
Definition set_stdout (i : picolInterp) (o : list cstring) : picolInterp :=
  mkInterp (level i) (callframe i) (commands i) (result i) o.

Definition picolSetResult (i : picolInterp) (s : cstring) : picolInterp :=
  mkInterp (level i) (callframe i) (commands i) (cstr s) (stdout i).

(** [picolErr] with its format already expanded to [msg]. *)
Definition picolErr (i : picolInterp) (msg : cstring) : retcode * picolInterp :=
  (PICOL_ERR, picolSetResult i msg).

Definition picolInitInterp : picolInterp :=
  mkInterp 0 (Some (CallFrame [] None)) [] [] [].

(** Depth of the chain of frames that starts at [cf]. *)
Fixpoint frame_depth (cf : picolCallFrame) : nat :=
  match cf with
  | CallFrame _ None => 1
  | CallFrame _ (Some pa) => S (frame_depth pa)
  end.

Definition depth (i : picolInterp) : nat :=
  match callframe i with
  | None => O
  | Some cf => frame_depth cf
  end.

(** *** Variables *)

Fixpoint find_var (vs : list picolVar) (n : cstring) : option picolVar :=
  match vs with
  | [] => None
  | v :: vs' => if strcmp0 (name v) n then Some v else find_var vs' n
  end.

Definition picolGetVar (i : picolInterp) (n : cstring)
  : outcome (option picolVar) :=
  match callframe i with
  | None => Undef NullDeref
  | Some cf => Ret (find_var (vars cf) n)
  end.

(** The in-place [v->val = strdup(val)] on the first variable called
    [n]. *)
Fixpoint replace_var (vs : list picolVar) (n v : cstring) : list picolVar :=
  match vs with
  | [] => []
  | x :: vs' =>
      if strcmp0 (name x) n then mkVar (name x) v :: vs'
      else x :: replace_var vs' n v
  end.

Definition picolSetVar (i : picolInterp) (n v : cstring)
  : outcome (retcode * picolInterp) :=
  found <- picolGetVar i n ;;
  match callframe i with
  | None => Undef NullDeref
  | Some (CallFrame vs pa) =>
      let vs' := match found with
                 | Some _ => replace_var vs n (cstr v)
                 | None => mkVar (cstr n) (cstr v) :: vs
                 end in
      Ret (PICOL_OK, set_callframe i (Some (CallFrame vs' pa)))
  end.

(** *** Commands *)

Fixpoint picolGetCommand_in (cs : list picolCmd) (n : cstring)
  : option picolCmd :=
  match cs with
  | [] => None
  | c :: cs' => if strcmp0 (cmd_name c) n then Some c
                else picolGetCommand_in cs' n
  end.

Definition picolGetCommand (i : picolInterp) (n : cstring) : option picolCmd :=
  picolGetCommand_in (commands i) n.

Definition picolRegisterCommand (i : picolInterp) (n : cstring)
  (f : picolCmdFunc) (pd : option (cstring * cstring))
  : retcode * picolInterp :=
  match picolGetCommand i n with
  | Some _ =>
      picolErr i (bytes "Command '" ++ cstr n ++ bytes "' already defined")
  | None => (PICOL_OK, set_commands i (mkCmd (cstr n) f pd :: commands i))
  end.

(** ** The escape decoder *)

(** Reads and writes on an explicit buffer, terminator included. *)
Definition rdb (b : list Z) (k : Z) : outcome Z :=
  if (0 <=? k) && (k <? Z.of_nat (length b))
  then Ret (nth (Z.to_nat k) b 0) else Undef OutOfBounds.

Definition wrb (b : list Z) (k : Z) (v : Z) : outcome (list Z) :=
  if (0 <=? k) && (k <? Z.of_nat (length b))
  then Ret (upd b (Z.to_nat k) v) else Undef OutOfBounds.

Definition toxdigit (c : Z) : Z :=
  if negb (isalpha c =? 0) then 10 + (toupper c - 65) else c - 48.

(** [strchr(b, c)] as an offset, [None] for NULL. *)
Fixpoint strchr_from (b : list Z) (c : Z) (k : Z) : option Z :=
  match b with
  | [] => None
  | x :: b' => if x =? c then Some k
               else if x =? 0 then None
               else strchr_from b' c (k + 1)
  end.
Definition strchr (b : list Z) (c : Z) : option Z := strchr_from b c 0.

(** The inner [for] of the default case: skip non-printable bytes. *)
Fixpoint picolEscape_skip (fuel : nat) (b : list Z) (s n : Z)
  : outcome (Z * Z) :=
  match fuel with
  | O => Timeout
  | S fuel' =>
      if n >? 0 then
        c <- rdb b s ;;
        if negb (isgraph c) then picolEscape_skip fuel' b (s + 1) (n - 1)
        else Ret (s, n)
      else Ret (s, n)
  end.

(** The [for (char *t = s; *s; )] loop; [s] and [t] are offsets in [b]. *)
Fixpoint picolEscape_loop (fuel : nat) (b : list Z) (s t n : Z)
  : outcome (list Z * Z) :=
  match fuel with
  | O => Timeout
  | S fuel' =>
      c <- rdb b s ;;
      if c =? 0 then Ret (b, n)
      else if c =? ch_bslash then
        c1 <- rdb b (s + 1) ;;
        if (c1 =? 88) || (c1 =? 120) then          (* 'X', 'x' *)
          let s := s + 2 in
          let n := n - 2 in
          h <- rdb b s ;;
          if isxdigit h then
            l <- rdb b (s + 1) ;;
            if isxdigit l then
              b <- wrb b t (to_char (Z.lor (Z.shiftl (toxdigit h) 4)
                                           (toxdigit l))) ;;
              picolEscape_loop fuel' b (s + 2) (t + 1) (n - 2)
            else
              b <- wrb b t (to_char (toxdigit (isalpha h))) ;;
              picolEscape_loop fuel' b (s + 1) (t + 1) (n - 1)
          else picolEscape_loop fuel' b s t n
        else if c1 =? 110 then                     (* 'n' *)
          b <- wrb b t ch_nl ;;
          picolEscape_loop fuel' b (s + 2) (t + 1) (n - 1)
        else if c1 =? 114 then                     (* 'r' *)
          b <- wrb b t ch_cr ;;
          picolEscape_loop fuel' b (s + 2) (t + 1) (n - 1)
        else if c1 =? 116 then                     (* 't' *)
          b <- wrb b t ch_tab ;;
          picolEscape_loop fuel' b (s + 2) (t + 1) (n - 1)
        else if c1 =? 0 then
          picolEscape_loop fuel' b (s + 1) t (n - 1)
        else
          let s := s + 1 in
          let n := n - 1 in
          if isgraph c1 then
            b <- wrb b t c1 ;;
            picolEscape_loop fuel' b (s + 1) (t + 1) n
          else
            '(s, n) <- picolEscape_skip (S (length b)) b (s + 1) (n - 1) ;;
            picolEscape_loop fuel' b s t n
      else
        b <- wrb b t c ;;
        picolEscape_loop fuel' b (s + 1) (t + 1) n
  end.

(** [picolEscape(b, n)]: the rewritten buffer and the returned length. *)
Definition picolEscape (b : list Z) (n : Z) : outcome (list Z * Z) :=
  '(b, n) <- match strchr b ch_bslash with
             | Some s => picolEscape_loop (S (length b)) b s s n
             | None => Ret (b, n)
             end ;;
  b <- wrb b n 0 ;;
  Ret (b, n).

(** The decoder applied to the word [w], as the evaluator calls it: the
    buffer holds [w] and a NUL, the length is that of [w]; the result is
    the C string left in the buffer and the returned length. *)
Definition escape_word (w : cstring) : outcome (cstring * Z) :=
  '(b, n) <- picolEscape (w ++ [0]) (strlen w) ;;
  Ret (cstr b, n).

(** ** Integers: [atoi] and ["%d"] *)

Definition INT_MIN : Z := - 2 ^ 31.
Definition INT_MAX : Z := 2 ^ 31 - 1.
Definition in_int (v : Z) : bool := (INT_MIN <=? v) && (v <=? INT_MAX).

Fixpoint skip_space (s : cstring) : cstring :=
  match s with
  | c :: s' => if isspace c then skip_space s' else s
  | [] => []
  end.

Fixpoint atoi_digits (s : cstring) (acc : Z) : Z :=
  match s with
  | c :: s' => if isdigit c then atoi_digits s' (acc * 10 + (c - 48)) else acc
  | [] => acc
  end.

(** [atoi]: white space, an optional sign, the longest run of digits; a
    value that does not fit an [int] is undefined. *)
Definition atoi (s : cstring) : outcome Z :=
  let s := skip_space s in
  let v := match s with
           | c :: s' =>
               if c =? 45 then - atoi_digits s' 0
               else if c =? 43 then atoi_digits s' 0
               else atoi_digits s 0
           | [] => 0
           end in
  if in_int v then Ret v else Undef IntOverflow.

(** The text ["%d"] prints for [c]. *)
Definition decimal_repr (c : Z) : cstring :=
  bytes (NilZero.string_of_int (Z.to_int c)).

(** [snprintf(buf, size, "%d", c)]: at most [size - 1] bytes and a NUL. *)
Definition snprintf_d (size : Z) (c : Z) : cstring :=
  firstn (Z.to_nat (size - 1)) (decimal_repr c).

(** ** The evaluator and the built-in commands *)

(** [argv[k]]; an index at or past [argc] is outside the array. *)
Definition arg (argv : list cstring) (k : Z) : outcome cstring :=
  if k <? 0 then Undef OutOfBounds
  else match nth_error argv (Z.to_nat k) with
       | Some a => Ret a
       | None => Undef OutOfBounds
       end.

Definition argc_of (argv : list cstring) : Z := Z.of_nat (length argv).

(** [memcpy(malloc(n+1), b+k, n)] from a buffer holding [b] and a NUL. *)
Definition memcpy_from (b : list Z) (k n : Z) : outcome (list Z) :=
  if (0 <=? k) && (0 <=? n) && (k + n <=? strlen b + 1)
  then Ret (firstn (Z.to_nat n) (skipn (Z.to_nat k) (b ++ [0])))
  else Undef OutOfBounds.

Definition picolArityErr (i : picolInterp) (nm : cstring)
  : retcode * picolInterp :=
  picolErr i (bytes "Wrong number of args for " ++ nm).

(** [int] arithmetic: a result out of range is undefined. *)
Definition int_of (v : Z) : outcome Z :=
  if in_int v then Ret v else Undef IntOverflow.
Definition int_div (a b : Z) : outcome Z :=
  if b =? 0 then Undef DivByZero else int_of (Z.quot a b).
Definition int_of_bool (b : bool) : outcome Z := Ret (if b then 1 else 0).

(** [sizeof buf] in [picolCommandMath], for a 32-bit [int] and 8-bit
    bytes: [(sizeof(int)*CHAR_BIT)/3]. *)
Definition math_buf_size : Z := (4 * 8) / 3.

Definition picolCommandMath (i : picolInterp) (argv : list cstring)
  : outcome (retcode * picolInterp) :=
  a0 <- arg argv 0 ;;
  if negb (argc_of argv =? 3) then Ret (picolArityErr i a0)
  else
    c0 <- rd a0 0 ;;
    c1 <- rd a0 1 ;;
    let o := Z.lxor c0 (Z.shiftl c1 8) in
    a1 <- arg argv 1 ;;
    a <- atoi a1 ;;
    a2 <- arg argv 2 ;;
    b <- atoi a2 ;;
    c <- (if o =? 43 then int_of (a + b)                                (* + *)
          else if o =? 45 then int_of (a - b)                           (* - *)
          else if o =? 42 then int_of (a * b)                           (* * *)
          else if o =? 47 then int_div a b                              (* / *)
          else if o =? 62 then int_of_bool (a >? b)                     (* > *)
          else if o =? Z.lxor 62 (Z.shiftl 61 8) then int_of_bool (a >=? b)
          else if o =? 60 then int_of_bool (a <? b)                     (* < *)
          else if o =? Z.lxor 60 (Z.shiftl 61 8) then int_of_bool (a <=? b)
          else if o =? Z.lxor 61 (Z.shiftl 61 8) then int_of_bool (a =? b)
          else if o =? Z.lxor 33 (Z.shiftl 61 8)
               then int_of_bool (negb (a =? b))
          else Ret 0) ;;
    Ret (PICOL_OK, picolSetResult i (snprintf_d math_buf_size c)).

Definition picolCommandSet (i : picolInterp) (argv : list cstring)
  : outcome (retcode * picolInterp) :=
  a0 <- arg argv 0 ;;
  if negb (argc_of argv =? 3) then Ret (picolArityErr i a0)
  else
    a1 <- arg argv 1 ;;
    a2 <- arg argv 2 ;;
    '(_, i) <- picolSetVar i a1 a2 ;;
    Ret (PICOL_OK, picolSetResult i a2).

Definition picolCommandPuts (i : picolInterp) (argv : list cstring)
  : outcome (retcode * picolInterp) :=
  a0 <- arg argv 0 ;;
  if negb (argc_of argv =? 2) then Ret (picolArityErr i a0)
  else
    a1 <- arg argv 1 ;;
    Ret (PICOL_OK, set_stdout i (stdout i ++ [a1 ++ [ch_nl]])).

Definition picolCommandRetCodes (i : picolInterp) (argv : list cstring)
  : outcome (retcode * picolInterp) :=
  a0 <- arg argv 0 ;;
  if negb (argc_of argv =? 1) then Ret (picolArityErr i a0)
  else if strcmp0 a0 (bytes "break") then Ret (PICOL_BREAK, i)
  else if strcmp0 a0 (bytes "continue") then Ret (PICOL_CONTINUE, i)
  else Ret (PICOL_OK, i).

Definition picolDropCallFrame (i : picolInterp) : outcome picolInterp :=
  match callframe i with
  | None => Undef NullDeref
  | Some cf => Ret (set_callframe i (parent cf))
  end.

Definition picolCommandProc (i : picolInterp) (argv : list cstring)
  : outcome (retcode * picolInterp) :=
  a0 <- arg argv 0 ;;
  if negb (argc_of argv =? 4) then Ret (picolArityErr i a0)
  else
    a1 <- arg argv 1 ;;
    a2 <- arg argv 2 ;;
    a3 <- arg argv 3 ;;
    Ret (picolRegisterCommand i a1 CommandCallProc (Some (cstr a2, cstr a3))).

Definition picolCommandReturn (i : picolInterp) (argv : list cstring)
  : outcome (retcode * picolInterp) :=
  a0 <- arg argv 0 ;;
  if negb (argc_of argv =? 1) && negb (argc_of argv =? 2)
  then Ret (picolArityErr i a0)
  else if argc_of argv =? 2 then
    a1 <- arg argv 1 ;;
    Ret (PICOL_RETURN, picolSetResult i a1)
  else Ret (PICOL_RETURN, picolSetResult i []).

(** The inner [for] of [picolCommandCallProc]: the bytes from [s] up to
    the next space or the NUL, and what follows the space ([None] when the
    scan stopped at the NUL). *)
Fixpoint scan_formal (s : cstring) : cstring * option cstring :=
  match s with
  | [] => ([], None)
  | c :: s' =>
      if c =? ch_space then ([], Some s')
      else let (nm, rest) := scan_formal s' in (c :: nm, rest)
  end.

(** The outer [for]: [inl i] is the jump to [arityerr], [inr (arity, i)]
    the normal exit of the loop. *)
Fixpoint bind_formals (fuel : nat) (s : cstring) (arity : Z)
  (i : picolInterp) (argv : list cstring)
  : outcome (picolInterp + Z * picolInterp) :=
  match fuel with
  | O => Timeout
  | S fuel' =>
      match scan_formal s with
      | ([], Some s') => bind_formals fuel' s' arity i argv
      | ([], None) => Ret (inr (arity, i))
      | (nm, rest) =>
          let arity := arity + 1 in
          if arity >? argc_of argv - 1 then Ret (inl i)
          else
            a <- arg argv arity ;;
            '(_, i) <- picolSetVar i nm a ;;
            match rest with
            | None => Ret (inr (arity, i))
            | Some s' => bind_formals fuel' s' arity i argv
            end
      end
  end.

(** [tlen] in [picolEval]: [p.end-p.start+1], or 0 when that is
    negative. *)
Definition token_len (p : picolParser) : Z :=
  let tlen := end_ p - start p + 1 in
  if tlen <? 0 then 0 else tlen.

Section Evaluator.

(** [picolEval] as the commands and the token loop call it. *)
Variable ev : picolInterp -> cstring -> outcome (retcode * picolInterp).

Definition picolCommandIf (i : picolInterp) (argv : list cstring)
  : outcome (retcode * picolInterp) :=
  a0 <- arg argv 0 ;;
  if negb (argc_of argv =? 3) && negb (argc_of argv =? 5)
  then Ret (picolArityErr i a0)
  else
    a1 <- arg argv 1 ;;
    '(rc, i) <- ev i a1 ;;
    if negb (retcode_eqb rc PICOL_OK) then Ret (rc, i)
    else
      c <- atoi (result i) ;;
      if negb (c =? 0) then a2 <- arg argv 2 ;; ev i a2
      else if argc_of argv =? 5 then a4 <- arg argv 4 ;; ev i a4
      else Ret (PICOL_OK, i).

(** One pass through the [for] of [picolCommandWhile]; [again] is the
    next iteration. *)
Definition picolCommandWhile_body
  (again : picolInterp -> list cstring -> outcome (retcode * picolInterp))
  (i : picolInterp) (argv : list cstring)
  : outcome (retcode * picolInterp) :=
  if argc_of argv =? 3 then
    a1 <- arg argv 1 ;;
    '(rc, i) <- ev i a1 ;;
    if negb (retcode_eqb rc PICOL_OK) then Ret (rc, i)
    else
      c <- atoi (result i) ;;
      if c =? 0 then Ret (PICOL_OK, i)
      else
        a2 <- arg argv 2 ;;
        '(rc, i) <- ev i a2 ;;
        if retcode_eqb rc PICOL_CONTINUE then again i argv
        else if retcode_eqb rc PICOL_OK then again i argv
        else if negb (retcode_eqb rc PICOL_BREAK) then Ret (rc, i)
        else again i argv
  else
    a0 <- arg argv 0 ;;
    Ret (picolArityErr i a0).

Fixpoint picolCommandWhile (fuel : nat) (i : picolInterp)
  (argv : list cstring) : outcome (retcode * picolInterp) :=
  match fuel with
  | O => Timeout
  | S fuel' => picolCommandWhile_body (picolCommandWhile fuel') i argv
  end.

Definition picolCommandCallProc (i : picolInterp) (argv : list cstring)
  (pd : option (cstring * cstring)) : outcome (retcode * picolInterp) :=
  match pd with
  | None => Undef NullDeref
  | Some (alist, body) =>
      let arityerr (i : picolInterp) :=
        i <- picolDropCallFrame i ;;
        a0 <- arg argv 0 ;;
        Ret (picolErr i (bytes "Proc '" ++ a0
                         ++ bytes "' called with wrong arg num")) in
      let i := set_callframe i (Some (CallFrame [] (callframe i))) in
      r <- bind_formals (S (length alist)) alist 0 i argv ;;
      match r with
      | inl i => arityerr i
      | inr (arity, i) =>
          if negb (arity =? argc_of argv - 1) then arityerr i
          else
            '(errcode, i) <- ev i body ;;
            let errcode := if retcode_eqb errcode PICOL_RETURN
                           then PICOL_OK else errcode in
            i <- picolDropCallFrame i ;;
            Ret (errcode, i)
      end
  end.

(** [c->func(i, argc, argv, c->privdata)] *)
Definition call_func (fuel : nat) (c : picolCmd) (i : picolInterp)
  (argv : list cstring) : outcome (retcode * picolInterp) :=
  match func c with
  | CommandMath => picolCommandMath i argv
  | CommandSet => picolCommandSet i argv
  | CommandPuts => picolCommandPuts i argv
  | CommandIf => picolCommandIf i argv
  | CommandWhile => picolCommandWhile fuel i argv
  | CommandRetCodes => picolCommandRetCodes i argv
  | CommandCallProc => picolCommandCallProc i argv (privdata c)
  | CommandProc => picolCommandProc i argv
  | CommandReturn => picolCommandReturn i argv
  end.

(** The tail of the loop body of [picolEval]: the word [t], of which
    [tlen] bytes count, starts a new argument or is appended to the
    last one. *)
Definition append_word (prevtype : ptype) (argv : list cstring)
  (t : list Z) (tlen : Z) : outcome (list cstring) :=
  if ptype_eqb prevtype PT_SEP || ptype_eqb prevtype PT_EOL
  then Ret (argv ++ [cstr t])
  else match rev argv with
       | [] => Undef EmptyArgv
       | last :: front =>
           Ret (rev front ++ [cstr (last ++ firstn (Z.to_nat tlen) t)])
       end.

(** One pass through the [for] of [picolEval], from the call of
    [picolGetToken] in its condition; [call] invokes a command and
    [again] is the next iteration. *)
Definition picolEval_body
  (call : picolCmd -> picolInterp -> list cstring
          -> outcome (retcode * picolInterp))
  (again : picolInterp -> picolParser -> ptype -> list cstring -> retcode
           -> outcome (retcode * picolInterp))
  (i : picolInterp) (p : picolParser) (prevtype : ptype)
  (argv : list cstring) (rc : retcode) : outcome (retcode * picolInterp) :=
  '(tok, p) <- picolGetToken p ;;
  if negb (retcode_eqb tok PICOL_OK) then Ret (rc, i)
  else if ptype_eqb (type p) PT_EOF then Ret (rc, i)
  else
    let tlen := token_len p in
    t <- memcpy_from (text p) (start p) tlen ;;
    let next (i : picolInterp) (t : list Z) (tlen : Z) (rc : retcode) :=
      argv <- append_word prevtype argv t tlen ;;
      again i p (type p) argv rc in
    match type p with
    | PT_VAR =>
        v <- picolGetVar i (cstr t) ;;
        match v with
        | None =>
            Ret (picolErr i (bytes "No such variable '" ++ cstr t
                             ++ bytes "'"))
        | Some v => next i (val v) (strlen (val v)) rc
        end
    | PT_CMD =>
        '(rc, i) <- ev i (cstr t) ;;
        if negb (retcode_eqb rc PICOL_OK) then Ret (rc, i)
        else next i (result i) (strlen (result i)) rc
    | PT_ESC =>
        '(b, tlen) <- picolEscape (t ++ [0]) tlen ;;
        next i b tlen rc
    | PT_SEP => again i p (type p) argv rc
    | PT_EOL =>
        match argv with
        | [] => again i p (type p) [] rc
        | a0 :: _ =>
            match picolGetCommand i a0 with
            | None =>
                Ret (picolErr i (bytes "No such command '" ++ a0
                                 ++ bytes "'"))
            | Some c =>
                '(rc, i) <- call c i argv ;;
                if negb (retcode_eqb rc PICOL_OK) then Ret (rc, i)
                else again i p (type p) [] rc
            end
        end
    | _ => next i t tlen rc
    end.

Fixpoint picolEval_loop (fuel : nat) (i : picolInterp) (p : picolParser)
  (prevtype : ptype) (argv : list cstring) (rc : retcode)
  : outcome (retcode * picolInterp) :=
  match fuel with
  | O => Timeout
  | S fuel' =>
      picolEval_body (call_func fuel') (picolEval_loop fuel')
        i p prevtype argv rc
  end.

End Evaluator.

(** [picolEval(i, s)].  The fuel bounds the token loop, the iterations of
    [while] and the depth of nested evaluations together; running out of
    it is [Timeout]. *)
Fixpoint picolEval (fuel : nat) (i : picolInterp) (s : cstring)
  : outcome (retcode * picolInterp) :=
  match fuel with
  | O => Timeout
  | S fuel' =>
      picolEval_loop (picolEval fuel') fuel' (picolSetResult i [])
        (picolInitParser s) PT_EOL [] PICOL_OK
  end.

(** [picolRegisterCoreCommands], the return codes ignored as in the
    source. *)
Definition picolRegisterCoreCommands (i : picolInterp) : picolInterp :=
  let reg (f : picolCmdFunc) (i : picolInterp) (n : string) :=
    snd (picolRegisterCommand i (bytes n) f None) in
  let i := fold_left (reg CommandMath) 
             ["+"; "-"; "*"; "/"; ">"; ">="; "<"; "<="; "=="; "!="]%string i in
  let i := reg CommandSet i "set"%string in
  let i := reg CommandPuts i "puts"%string in
  let i := reg CommandIf i "if"%string in
  let i := reg CommandWhile i "while"%string in
  let i := reg CommandRetCodes i "break"%string in
  let i := reg CommandRetCodes i "continue"%string in
  let i := reg CommandProc i "proc"%string in
  reg CommandReturn i "return"%string.

(** The interpreter [main] evaluates its input with. *)
Definition fresh_interp : picolInterp :=
  picolRegisterCoreCommands picolInitInterp.

(** ** Predicates of the statements *)

(** [o] is not the undefined interpolation onto an empty argument
    vector. *)
Definition no_empty_argv {A : Type} (o : outcome A) : Prop :=
  o <> Undef EmptyArgv.

(** [o] returns nothing that violates [P] ([P] holds of the value when
    there is one). *)
Definition returns {A : Type} (P : A -> Prop) (o : outcome A) : Prop :=
  forall a, o = Ret a -> P a.

(** [o'] is [o] run with more fuel: the same outcome unless [o] ran out. *)
Definition refines {A : Type} (o o' : outcome A) : Prop :=
  o = Timeout \/ o = o'.

(** The interpreter returned with [r] has [d] frames. *)
Definition has_depth (d : nat) (r : retcode * picolInterp) : Prop :=
  depth (snd r) = d.

(** The loop invariant of [picolEval]: the previous token was a
    separator or an end of line, or an argument is under construction. *)
Definition word_started (prevtype : ptype) (argv : list cstring) : Prop :=
  prevtype = PT_SEP \/ prevtype = PT_EOL \/ argv <> [].

(** A frame binding [x] on top of a frame binding [y]: [y] is not found,
    [x] is. *)
Definition two_frames : picolInterp :=
  mkInterp 1
    (Some (CallFrame [mkVar (bytes "x") (bytes "1")]
             (Some (CallFrame [mkVar (bytes "y") (bytes "2")] None))))
    [] [] [].

(** What the math commands are to compute, in the words of the
    specification: the usual integer operation for each of the ten
    operator names (the quotient is that of C, rounded towards zero), a
    comparison being 1 when it holds and 0 when it does not. *)
Definition math_spec (op : cstring) (a b : Z) : option Z :=
  if cstring_eqb op (bytes "+") then Some (a + b)
  else if cstring_eqb op (bytes "-") then Some (a - b)
  else if cstring_eqb op (bytes "*") then Some (a * b)
  else if cstring_eqb op (bytes "/") then Some (Z.quot a b)
  else if cstring_eqb op (bytes ">") then Some (Z.b2z (a >? b))
  else if cstring_eqb op (bytes ">=") then Some (Z.b2z (a >=? b))
  else if cstring_eqb op (bytes "<") then Some (Z.b2z (a <? b))
  else if cstring_eqb op (bytes "<=") then Some (Z.b2z (a <=? b))
  else if cstring_eqb op (bytes "==") then Some (Z.b2z (a =? b))
  else if cstring_eqb op (bytes "!=") then Some (Z.b2z (negb (a =? b)))
  else None.

Definition is_comparison (op : cstring) : bool :=
  existsb (cstring_eqb op)
    [bytes ">"; bytes ">="; bytes "<"; bytes "<="; bytes "=="; bytes "!="].

(** The cursor is on the text or on its NUL, or one past the NUL (where
    no read is defined). *)
Definition parser_ok (p : picolParser) : Prop :=
  0 <= pos p <= strlen (text p) + 1.

(** [fuel] iterations take the cursor of [p] beyond the NUL. *)
Definition enough (fuel : nat) (p : picolParser) : Prop :=
  parser_ok p /\ strlen (text p) + 1 < Z.of_nat fuel + pos p.

(** The cursor is on the text or on its NUL. *)
Definition on_text (p : picolParser) : Prop :=
  0 <= pos p <= strlen (text p).

(** [q] is [p] further on in the same text. *)
Definition after (p q : picolParser) : Prop :=
  text q = text p /\ pos p <= pos q /\ parser_ok q.

(** [o] did not run out of fuel, and what it returns satisfies [Q]. *)
Definition total {A : Type} (Q : A -> Prop) (o : outcome A) : Prop :=
  o <> Timeout /\ forall a, o = Ret a -> Q a.

(** ** Predicates of the further properties *)

(** A byte string that is a C string: it holds no NUL. *)
Definition nul_free (w : cstring) : Prop := cstr w = w.

(** The frames below the current one: the parent chain of the current
    frame ([None] when there is no current frame). *)
Definition below (i : picolInterp) : option (option picolCallFrame) :=
  option_map parent (callframe i).

(** [i'] has the frames [d] below its current frame, its output starts
    with [out], and its registry is [cs] with user procedures put in
    front of it that hide no command of [cs]. *)
Definition extends (d : option (option picolCallFrame))
  (out : list cstring) (cs : list picolCmd) (i' : picolInterp) : Prop :=
  below i' = d
  /\ (exists more, stdout i' = out ++ more)
  /\ (exists procs,
        commands i' = procs ++ cs
        /\ Forall (fun c => func c = CommandCallProc) procs
        /\ forall n c, picolGetCommand_in cs n = Some c ->
                       picolGetCommand_in (procs ++ cs) n = Some c).

(** [q] has the same text as [p] and the same sum of cursor and remaining
    length: what the cursor gained, [len] lost. *)
Definition same_input (p q : picolParser) : Prop :=
  text q = text p /\ pos q + len q = pos p + len p.

(** What a parser function returns: the code OK, and a parser on the same
    input as [p0]. *)
Definition token_of (p0 : picolParser) (r : retcode * picolParser) : Prop :=
  fst r = PICOL_OK /\ same_input p0 (snd r).

(** The cursor of [q] is beyond that of [p], within the text. *)
Definition moved (p q : picolParser) : Prop :=
  pos p < pos q /\ parser_ok q /\ text q = text p.

(** The types of the tokens the loop of [picolEval] is handed by
    [picolGetToken] before the EOF at which it breaks. *)
Fixpoint token_types (fuel : nat) (p : picolParser) : outcome (list ptype) :=
  match fuel with
  | O => Timeout
  | S fuel' =>
      '(_, q) <- picolGetToken p ;;
      if ptype_eqb (type q) PT_EOF then Ret []
      else ts <- token_types fuel' q ;; Ret (type q :: ts)
  end.

(** A bound on the calls of [picolGetToken] up to the EOF token. *)
Definition calls_left (p : picolParser) : nat :=
  if len p >? 0 then Z.to_nat (len p) + 2
  else if ptype_eqb (type p) PT_EOL || ptype_eqb (type p) PT_EOF then 1
  else 2.

(** What a word without hex escapes and without a backslash before a
    non-printable byte decodes to: [\n], [\r] and [\t] are the control
    characters, a backslash before any other printable byte is dropped,
    and so is a backslash that ends the word.  [None] for the other
    words. *)
Fixpoint decode_simple (w : cstring) : option cstring :=
  match w with
  | [] => Some []
  | c :: w' =>
      if c =? ch_bslash then
        match w' with
        | [] => Some []
        | c1 :: w'' =>
            if (c1 =? 88) || (c1 =? 120) then None
            else if isgraph c1 then
              option_map
                (cons (if c1 =? 110 then ch_nl
                       else if c1 =? 114 then ch_cr
                       else if c1 =? 116 then ch_tab
                       else c1))
                (decode_simple w'')
            else None
        end
      else if c =? 0 then None
      else option_map (cons c) (decode_simple w')
  end.

(** ** Reading the input: [picolGets] *)

Definition EOF : Z := -1.

(** [fgetc] on a stream given by the bytes not yet read: the next byte as
    an [unsigned char], or [EOF], which a stream at its end gives on every
    call. *)
Definition fgetc (inp : list Z) : Z * list Z :=
  match inp with
  | [] => (EOF, [])
  | c :: inp' => (c mod 256, inp')
  end.

(** A [realloc(buf, size)] that succeeds: the old bytes, and [fill] in
    the bytes that are new, whose value C leaves open. *)
Definition realloc (fill : Z) (buf : list Z) (size : Z) : list Z :=
  firstn (Z.to_nat size) buf
  ++ repeat fill (Z.to_nat size - length buf).

(** The [for] of [picolGets], from its condition: [buf[n] = 0] is
    stored, which makes the left operand of [||] false, and the next
    byte is compared with [end]. *)
Fixpoint picolGets_loop (fill : Z) (fuel : nat) (inp : list Z) (end_c : Z)
  (buf : list Z) (n z : Z) : outcome (list Z * list Z) :=
  match fuel with
  | O => Timeout
  | S fuel' =>
      buf <- wrb buf n 0 ;;
      let (c, inp) := fgetc inp in
      if c =? end_c then Ret (buf, inp)
      else
        '(buf, z) <- (if n =? z then
                        z <- int_of ((z + 1) + Z.shiftr z 1) ;;
                        size <- int_of (z + 1) ;;
                        Ret (realloc fill buf size, z)
                      else Ret (buf, z)) ;;
        buf <- wrb buf n (to_char c) ;;
        n <- int_of (n + 1) ;;
        picolGets_loop fill fuel' inp end_c buf n z
  end.

(** [picolGets(in, end)]: the buffer returned and what is left of the
    stream.  The byte [malloc(1)] gives is [fill] as well. *)
Definition picolGets (fill : Z) (fuel : nat) (inp : list Z) (end_c : Z)
  : outcome (list Z * list Z) :=
  picolGets_loop fill fuel inp end_c [fill] 0 0.

(** The pieces of an argument list between its spaces. *)
Fixpoint split_spaces (s : cstring) : list cstring :=
  match s with
  | [] => [[]]
  | c :: s' =>
      if c =? ch_space then [] :: split_spaces s'
      else match split_spaces s' with
           | w :: ws => (c :: w) :: ws
           | [] => [[c]]
           end
  end.

(** The formal parameters an argument list names: its pieces that are
    not empty. *)
Definition formal_names (alist : cstring) : list cstring :=
  filter (fun w => negb (cstring_eqb w [])) (split_spaces alist).

(** What [picolSetVar] does to the variables of the current frame. *)
Definition set_var (vs : list picolVar) (n v : cstring) : list picolVar :=
  match find_var vs n with
  | Some _ => replace_var vs n (cstr v)
  | None => mkVar (cstr n) (cstr v) :: vs
  end.

(** The formals set one after the other to the actuals, and whether there
    was an actual for each of them. *)
Fixpoint bind_names (vs : list picolVar) (names actuals : list cstring)
  : list picolVar * bool :=
  match names, actuals with
  | [], _ => (vs, true)
  | _ :: _, [] => (vs, false)
  | n :: names', a :: actuals' => bind_names (set_var vs n a) names' actuals'
  end.

(** The frame of a call: each formal with its actual, the last one
    first. *)
Definition bound_vars (names actuals : list cstring) : list picolVar :=
  rev (map (fun na => mkVar (fst na) (cstr (snd na))) (combine names actuals)).

(** A printable byte that means nothing to the parser. *)
Definition plain_char (c : Z) : bool :=
  isgraph c
  && negb ((c =? ch_dollar) || (c =? ch_lbracket) || (c =? ch_dquote)
           || (c =? ch_bslash) || (c =? ch_semi)).

(** A word the parser hands on as it stands: plain bytes, the first of
    them opening neither a brace nor a comment. *)
Definition plain_word (w : cstring) : Prop :=
  Forall (fun c => plain_char c = true) w
  /\ exists c w', w = c :: w' /\ c <> ch_lbrace /\ c <> ch_hash.

(** The braces of [b] are balanced: read from the left at nesting depth
    [d], no closing brace comes at depth 0 and the depth ends at 0. *)
Fixpoint nesting (b : cstring) (d : Z) : bool :=
  match b with
  | [] => d =? 0
  | c :: b' =>
      if c =? ch_lbrace then nesting b' (d + 1)
      else if c =? ch_rbrace then (0 <? d) && nesting b' (d - 1)
      else nesting b' d
  end.

(** A byte of a variable name after [$]. *)
Definition var_char (c : Z) : bool := isalnum c || (c =? ch_underscore).

(** A byte of a script between brackets that has no brackets, braces or
    backslashes of its own. *)
Definition flat_char (c : Z) : bool :=
  negb ((c =? ch_lbracket) || (c =? ch_rbracket) || (c =? ch_lbrace)
        || (c =? ch_rbrace) || (c =? ch_bslash) || (c =? 0)).

(** A byte between double quotes that is taken as it stands. *)
Definition quoted_char (c : Z) : bool :=
  negb ((c =? ch_dollar) || (c =? ch_lbracket) || (c =? ch_dquote)
        || (c =? ch_bslash) || (c =? 0)).

(** What is substituted in a word: the value of a variable, or the
    result of a script in brackets. *)
Inductive subst : Type :=
| Var (n : cstring)
| Cmd (s : cstring).

Definition subst_text (s : subst) : cstring :=
  match s with
  | Var n => ch_dollar :: n
  | Cmd s => ch_lbracket :: s ++ [ch_rbracket]
  end.

(** What follows the first text between double quotes: substitutions,
    each with the text after it. *)
Fixpoint parts_text (ps : list (subst * cstring)) : cstring :=
  match ps with
  | [] => []
  | (s, t) :: ps' => subst_text s ++ t ++ parts_text ps'
  end.

(** The words of a command: a plain word, text in braces, text in
    double quotes with the substitutions in it, a substitution on its
    own. *)
Inductive word : Type :=
| Plain (w : cstring)
| Braced (b : cstring)
| Quoted (q : cstring) (ps : list (subst * cstring))
| Subst (s : subst).

(** The word as written. *)
Definition word_text (w : word) : cstring :=
  match w with
  | Plain w => w
  | Braced b => ch_lbrace :: b ++ [ch_rbrace]
  | Quoted q ps => ch_dquote :: q ++ parts_text ps ++ [ch_dquote]
  | Subst s => subst_text s
  end.

(** The argument a word stands for, when it needs no evaluation. *)
Definition literal (w : word) : option cstring :=
  match w with
  | Plain w | Braced w | Quoted w [] => Some w
  | Quoted _ (_ :: _) | Subst _ => None
  end.

(** A variable has a name; a script in brackets is flat. *)
Definition subst_ok (s : subst) : Prop :=
  match s with
  | Var n => n <> [] /\ Forall (fun c => var_char c = true) n
  | Cmd s => Forall (fun c => flat_char c = true) s
  end.

(** The text after a substitution between quotes holds no byte that
    substitutes or escapes, and does not go on the name of a variable. *)
Definition part_ok (st : subst * cstring) : Prop :=
  subst_ok (fst st)
  /\ Forall (fun c => quoted_char c = true) (snd st)
  /\ match fst st, snd st with
     | Var _, c :: _ => var_char c = false
     | _, _ => True
     end.

(** Text in braces is taken as it stands when its own braces are
    balanced and it holds neither a backslash nor a NUL; text in quotes,
    when it holds no byte that substitutes or escapes. *)
Definition word_ok (w : word) : Prop :=
  match w with
  | Plain w => plain_word w
  | Braced b => nesting b 0 = true /\ ~ In ch_bslash b /\ ~ In 0 b
  | Quoted q ps =>
      Forall (fun c => quoted_char c = true) q /\ Forall part_ok ps
  | Subst s => subst_ok s
  end.

(** The tokens of a word: one, but for text in quotes, where each
    substitution is a token and so is the text after it; no token stands
    for an empty text between two substitutions. *)
Fixpoint parts_tokens (ps : list (subst * cstring)) : nat :=
  match ps with
  | [] => 0
  | (_, t) :: ps' =>
      match ps', t with
      | _ :: _, [] => 1 + parts_tokens ps'
      | _, _ => 2 + parts_tokens ps'
      end
  end.

Definition word_tokens (w : word) : nat :=
  match w with
  | Quoted _ ps => 1 + parts_tokens ps
  | _ => 1
  end.

(** What may follow a word: the end of the text, a byte that is not
    printable, or a semicolon. *)
Definition word_end (post : list Z) : Prop :=
  match post with
  | [] => True
  | c :: _ => negb (isgraph c) || (c =? ch_semi) = true
  end.

(** A byte that separates words: not printable, and neither the NUL nor
    the newline. *)
Definition blank (c : Z) : bool :=
  negb (isgraph c) && negb (c =? 0) && negb (c =? ch_nl).

Definition blanks (s : cstring) : Prop :=
  s <> [] /\ Forall (fun c => blank c = true) s.

(** The text of a command: the word [w0], then each further word after
    its separator. *)
Fixpoint command_line (w0 : word) (rest : list (cstring * word))
  : cstring :=
  match rest with
  | [] => word_text w0
  | (s, w) :: rest' => word_text w0 ++ s ++ command_line w rest'
  end.

(** What the evaluator does with a complete command: the lookup of its
    first word, and the call. *)
Definition run_command
  (ev : picolInterp -> cstring -> outcome (retcode * picolInterp))
  (fuel : nat) (i : picolInterp) (argv : list cstring)
  : outcome (retcode * picolInterp) :=
  match argv with
  | [] => Ret (PICOL_OK, i)
  | a0 :: _ =>
      match picolGetCommand i a0 with
      | None =>
          Ret (picolErr i (bytes "No such command '" ++ a0 ++ bytes "'"))
      | Some c => call_func ev fuel c i argv
      end
  end.
(** The tokens of a command line: those of its words, and one for each
    run of blanks. *)
Fixpoint command_tokens (w0 : word) (rest : list (cstring * word)) : nat :=
  match rest with
  | [] => word_tokens w0
  | (_, w) :: rest' => word_tokens w0 + 1 + command_tokens w rest'
  end.

(** What a substitution stands for, evaluated in [i]: [inl] ends the
    evaluation of the command, with the error of an unknown variable or
    with the code a script in brackets returned; [inr] is the interpreter
    after the substitution, and the value. *)
Definition eval_subst
  (ev : picolInterp -> cstring -> outcome (retcode * picolInterp))
  (i : picolInterp) (s : subst)
  : outcome (retcode * picolInterp + picolInterp * cstring) :=
  match s with
  | Var n =>
      v <- picolGetVar i n ;;
      match v with
      | None =>
          Ret (inl (picolErr i (bytes "No such variable '" ++ n
                                ++ bytes "'")))
      | Some v => Ret (inr (i, cstr (val v)))
      end
  | Cmd s =>
      '(rc, i) <- ev i s ;;
      if negb (retcode_eqb rc PICOL_OK) then Ret (inl (rc, i))
      else Ret (inr (i, cstr (result i)))
  end.

(** The substitutions between quotes, from left to right: each value and
    the text after it are added to the argument [acc]. *)
Fixpoint eval_parts
  (ev : picolInterp -> cstring -> outcome (retcode * picolInterp))
  (i : picolInterp) (acc : cstring) (ps : list (subst * cstring))
  : outcome (retcode * picolInterp + picolInterp * cstring) :=
  match ps with
  | [] => Ret (inr (i, acc))
  | (s, t) :: ps' =>
      r <- eval_subst ev i s ;;
      match r with
      | inl x => Ret (inl x)
      | inr (i, v) => eval_parts ev i (acc ++ v ++ t) ps'
      end
  end.

(** What a word adds to the arguments. *)
Definition eval_word
  (ev : picolInterp -> cstring -> outcome (retcode * picolInterp))
  (i : picolInterp) (w : word)
  : outcome (retcode * picolInterp + picolInterp * cstring) :=
  match w with
  | Plain v | Braced v => Ret (inr (i, v))
  | Quoted q ps => eval_parts ev i q ps
  | Subst s => eval_subst ev i s
  end.

(** The words of a command evaluated from left to right. *)
Fixpoint eval_words
  (ev : picolInterp -> cstring -> outcome (retcode * picolInterp))
  (i : picolInterp) (ws : list word) (argv : list cstring)
  : outcome (retcode * picolInterp + picolInterp * list cstring) :=
  match ws with
  | [] => Ret (inr (i, argv))
  | w :: ws' =>
      r <- eval_word ev i w ;;
      match r with
      | inl x => Ret (inl x)
      | inr (i, v) => eval_words ev i ws' (argv ++ [v])
      end
  end.

(** A type that a token inside quotes leaves in the parser. *)
Definition inner_type (t : ptype) : Prop :=
  t = PT_ESC \/ t = PT_VAR \/ t = PT_CMD.

(** The interpreter after [proc name alist body] has defined [name]. *)
Definition with_proc (i : picolInterp) (name alist body : cstring)
  : picolInterp :=
  set_commands (picolSetResult i [])
    (mkCmd name CommandCallProc (Some (alist, body)) :: commands i).

(** The numbers of words, the name of the command included, that the
    built-in commands take.  A user procedure checks its arguments
    against its own argument list. *)
Definition arity_ok (f : picolCmdFunc) (argc : Z) : bool :=
  match f with
  | CommandMath | CommandSet | CommandWhile => argc =? 3
  | CommandPuts => argc =? 2
  | CommandIf => (argc =? 3) || (argc =? 5)
  | CommandRetCodes => argc =? 1
  | CommandProc => argc =? 4
  | CommandReturn => (argc =? 1) || (argc =? 2)
  | CommandCallProc => true
  end.

(** ** The program: [main] *)

Definition EXIT_SUCCESS : Z := 0.
Definition EXIT_FAILURE : Z := 1.

(** The values of the [enum] of return codes, as ["%d"] prints them. *)
Definition retcode_int (rc : retcode) : Z :=
  match rc with
  | PICOL_OK => 0
  | PICOL_ERR => 1
  | PICOL_RETURN => 2
  | PICOL_BREAK => 3
  | PICOL_CONTINUE => 4
  end.

(** [printf] and [puts] of [main] write where the [puts] command
    writes. *)
Definition print (i : picolInterp) (s : cstring) : picolInterp :=
  set_stdout i (stdout i ++ [s]).

(** The first [for] of [main], entered with [argc == 1]: prompt, read a
    line, stop at [quit], evaluate, print the result if there is one.
    [inp] is what is left of standard input, which is returned with the
    exit status and the interpreter. *)
Fixpoint main_prompt (fill : Z) (fuel : nat) (i : picolInterp)
  (inp : list Z) : outcome (Z * picolInterp * list Z) :=
  match fuel with
  | O => Timeout
  | S fuel' =>
      let i := print i (bytes "picol> ") in
      '(buf, inp) <- picolGets fill fuel' inp ch_nl ;;
      if strcmp0 (cstr buf) (bytes "quit") then Ret (EXIT_SUCCESS, i, inp)
      else
        '(rc, i) <- picolEval fuel' i buf ;;
        let i := match result i with
                 | [] => i
                 | _ :: _ =>
                     print i (bytes "[" ++ decimal_repr (retcode_int rc)
                              ++ bytes "] " ++ result i ++ [ch_nl])
                 end in
        main_prompt fill fuel' i inp
  end.

(** The second [for] of [main] and what follows it: [args] are
    [argv[1]] and the arguments after it, [fs] gives the content of the
    files that [fopen] opens for reading.  What [perror] writes goes to
    standard error, which is not kept. *)
Fixpoint main_files (fill : Z) (fuel : nat) (i : picolInterp)
  (fs : cstring -> option (list Z)) (args : list cstring)
  : outcome (Z * picolInterp) :=
  match args with
  | [] => Ret (EXIT_SUCCESS, i)
  | a :: args' =>
      match fs (cstr a) with
      | None => Ret (EXIT_FAILURE, i)
      | Some content =>
          '(buf, _) <- picolGets fill fuel content EOF ;;
          '(rc, i) <- picolEval fuel i buf ;;
          let i := if negb (retcode_eqb rc PICOL_OK)
                   then print i (result i ++ [ch_nl]) else i in
          main_files fill fuel i fs args'
      end
  end.

(** [main(argc, argv)] with [argv] the list of its [argc] arguments. *)
Definition main (fill : Z) (fuel : nat) (argv : list cstring)
  (inp : list Z) (fs : cstring -> option (list Z))
  : outcome (Z * picolInterp) :=
  let i := picolRegisterCoreCommands picolInitInterp in
  match argv with
  | [_] => '(st, i, _) <- main_prompt fill fuel i inp ;; Ret (st, i)
  | _ => main_files fill fuel i fs (tl argv)
  end.

(** The lines of a stream that end with a newline: each byte is read as
    [fgetc] gives it. *)
Fixpoint next_line (inp : list Z) : option (list Z * list Z) :=
  match inp with
  | [] => None
  | c :: inp' =>
      if c mod 256 =? ch_nl then Some ([], inp')
      else match next_line inp' with
           | Some (l, r) => Some (c mod 256 :: l, r)
           | None => None
           end
  end.

(** No line of the stream, as a C string, is [quit]. *)
Inductive no_quit : list Z -> Prop :=
| no_quit_end (inp : list Z) : next_line inp = None -> no_quit inp
| no_quit_line (inp l r : list Z) :
    next_line inp = Some (l, r) -> cstr l <> bytes "quit" -> no_quit r ->
    no_quit inp.

(** What separates two commands: a newline or a semicolon, and any
    bytes after it that are semicolons or not printable. *)
Definition eol_char (c : Z) : bool :=
  (negb (isgraph c) || (c =? ch_semi)) && negb (c =? 0).

Definition eol_sep (s : cstring) : Prop :=
  Forall (fun c => eol_char c = true) s
  /\ exists c s', s = c :: s' /\ (c = ch_nl \/ c = ch_semi).

(** A comment: the bytes after its [#], up to the newline, and the
    separator that starts with this newline. *)
Definition comment : Type := cstring * cstring.

Definition comment_ok (k : comment) : Prop :=
  Forall (fun c => c <> ch_nl /\ c <> 0) (fst k)
  /\ eol_sep (snd k) /\ exists s', snd k = ch_nl :: s'.

Fixpoint comments_text (ks : list comment) : cstring :=
  match ks with
  | [] => []
  | (t, s) :: ks' => ch_hash :: t ++ s ++ comments_text ks'
  end.

(** What stands between two commands: a separator, and the comments
    after it. *)
Definition gap : Type := cstring * list comment.

Definition gap_text (g : gap) : cstring := fst g ++ comments_text (snd g).

Definition gap_ok (g : gap) : Prop :=
  eol_sep (fst g) /\ Forall comment_ok (snd g).

(** A command: its first word and the further words, each after its
    blanks. *)
Definition command : Type := word * list (cstring * word).

Definition command_ok (c : command) : Prop :=
  word_ok (fst c)
  /\ Forall (fun sw => blanks (fst sw) /\ word_ok (snd sw)) (snd c).

(** The text of a script: the command [c], then each further command
    after its gap. *)
Fixpoint script_text (c : command) (more : list (gap * command))
  : cstring :=
  match more with
  | [] => command_line (fst c) (snd c)
  | (g, c') :: more' =>
      command_line (fst c) (snd c) ++ gap_text g ++ script_text c' more'
  end.

(** The passes the loop of [picolEval] makes over a script: one for
    each token of a command, one for each separator, each comment and the
    end of the text, and the last one that finds EOF. *)
Fixpoint script_tokens (c : command) (more : list (gap * command))
  : nat :=
  match more with
  | [] => command_tokens (fst c) (snd c) + 2
  | (g, c') :: more' =>
      command_tokens (fst c) (snd c) + 1
      + (length (snd g) + script_tokens c' more')
  end.

(** The commands of a script run one after the other, up to the first
    that does not return OK; the comments are passed over. *)
Fixpoint run_script
  (ev : picolInterp -> cstring -> outcome (retcode * picolInterp))
  (fuel : nat) (i : picolInterp) (c : command)
  (more : list (gap * command)) : outcome (retcode * picolInterp) :=
  r <- eval_words ev i (fst c :: map snd (snd c)) [] ;;
  match r with
  | inl x => Ret x
  | inr (i, argv) =>
      match more with
      | [] => run_command ev (S fuel) i argv
      | (g, c') :: more' =>
          '(rc, i) <- run_command ev
                        (length (snd g) + script_tokens c' more' + fuel)
                        i argv ;;
          if negb (retcode_eqb rc PICOL_OK) then Ret (rc, i)
          else run_script ev fuel i c' more'
      end
  end.

(** * Properties *)

(** ** Reasoning about outcomes *)

Lemma no_empty_argv_bind {A B : Type} (m : outcome A) (f : A -> outcome B) :
  no_empty_argv m -> (forall a, no_empty_argv (f a)) ->
  no_empty_argv (bind m f).
Proof.
  unfold no_empty_argv. destruct m as [a | u | ]; simpl; intros Hm Hf.
  - apply Hf.
  - intro E. apply Hm. injection E as ->. reflexivity.
  - discriminate.
Qed.

Lemma no_empty_argv_Ret {A : Type} (a : A) : no_empty_argv (Ret a).
Proof. discriminate. Qed.

Lemma no_empty_argv_Timeout {A : Type} : no_empty_argv (@Timeout A).
Proof. discriminate. Qed.

Lemma no_empty_argv_Undef {A : Type} (u : ub_kind) :
  u <> EmptyArgv -> no_empty_argv (@Undef A u).
Proof. intros H E. apply H. congruence. Qed.

Lemma returns_bind {A B : Type} (m : outcome A) (f : A -> outcome B)
  (P : A -> Prop) (Q : B -> Prop) :
  returns P m -> (forall a, P a -> returns Q (f a)) -> returns Q (bind m f).
Proof.
  unfold returns. destruct m as [a | u | ]; simpl; intros Hm Hf b E;
    try discriminate.
  eapply Hf; [apply Hm; reflexivity | exact E].
Qed.

Lemma returns_bind_any {A B : Type} (m : outcome A) (f : A -> outcome B)
  (Q : B -> Prop) :
  (forall a, returns Q (f a)) -> returns Q (bind m f).
Proof.
  intros Hf. apply returns_bind with (P := fun _ => True).
  - intros a _. exact I.
  - intros a _. apply Hf.
Qed.

Lemma returns_Ret {A : Type} (P : A -> Prop) (a : A) : P a -> returns P (Ret a).
Proof. intros H b E. injection E as <-. exact H. Qed.

Lemma returns_Undef {A : Type} (P : A -> Prop) (u : ub_kind) :
  returns P (Undef u).
Proof. intros b E. discriminate. Qed.

Lemma returns_Timeout {A : Type} (P : A -> Prop) : returns P Timeout.
Proof. intros b E. discriminate. Qed.

Lemma refines_refl {A : Type} (o : outcome A) : refines o o.
Proof. right. reflexivity. Qed.

Lemma refines_Timeout {A : Type} (o : outcome A) : refines Timeout o.
Proof. left. reflexivity. Qed.

Lemma refines_trans {A : Type} (o1 o2 o3 : outcome A) :
  refines o1 o2 -> refines o2 o3 -> refines o1 o3.
Proof.
  intros [-> | ->] H23; [left; reflexivity | exact H23].
Qed.

Lemma refines_bind {A B : Type} (m m' : outcome A) (f f' : A -> outcome B) :
  refines m m' -> (forall a, refines (f a) (f' a)) ->
  refines (bind m f) (bind m' f').
Proof.
  intros [-> | ->] Hf.
  - left. reflexivity.
  - destruct m' as [a | u | ]; simpl.
    + apply Hf.
    + right. reflexivity.
    + left. reflexivity.
Qed.

Lemma refines_final {A : Type} (o o' : outcome A) :
  refines o o' -> o <> Timeout -> o' = o.
Proof. intros [-> | ->] H; [contradiction | reflexivity]. Qed.

Create HintDb picol discriminated.

#[local] Hint Resolve no_empty_argv_Ret no_empty_argv_Timeout
  returns_Undef returns_Timeout refines_refl refines_Timeout : picol.

#[local] Hint Extern 1 (no_empty_argv (Undef _)) =>
  (apply no_empty_argv_Undef; discriminate) : picol.

(** Walk down a goal [no_empty_argv e] along the binds and case
    distinctions of [e]. *)
Ltac ne_step :=
  match goal with
  | |- no_empty_argv (bind _ _) => apply no_empty_argv_bind; [ | intros ? ]
  | |- no_empty_argv (if ?b then _ else _) => destruct b
  | |- no_empty_argv (match ?x with _ => _ end) => destruct x
  | |- no_empty_argv (let _ := _ in _) => cbv zeta
  end.
Ltac ne_tac := repeat (first [ ne_step | solve [ auto with picol ] ]).

(** The same walk for [refines e e'] when [e] and [e'] differ only in the
    functions they call. *)
Ltac mono_step :=
  match goal with
  | |- refines (bind _ _) (bind _ _) => apply refines_bind; [ | intros ? ]
  | |- refines (if ?b then _ else _) (if ?b then _ else _) => destruct b
  | |- refines (match ?x with _ => _ end) (match ?x with _ => _ end) =>
      destruct x
  end.
Ltac mono_tac := repeat (first [ solve [ auto with picol ] | mono_step ]).

(** ** The interpolation branch never meets an empty argument vector *)

Lemma rd_no_empty_argv (b : list Z) (k : Z) : no_empty_argv (rd b k).
Proof. unfold rd. ne_tac. Qed.

Lemma rdb_no_empty_argv (b : list Z) (k : Z) : no_empty_argv (rdb b k).
Proof. unfold rdb. ne_tac. Qed.

Lemma wrb_no_empty_argv (b : list Z) (k v : Z) : no_empty_argv (wrb b k v).
Proof. unfold wrb. ne_tac. Qed.

Lemma peek_no_empty_argv (p : picolParser) : no_empty_argv (peek p).
Proof. apply rd_no_empty_argv. Qed.

#[local] Hint Resolve rd_no_empty_argv rdb_no_empty_argv wrb_no_empty_argv
  peek_no_empty_argv : picol.

Lemma picolParseSep_no_empty_argv (p : picolParser) (eol : Z) :
  no_empty_argv (picolParseSep p eol).
Proof.
  assert (L : forall fuel q, no_empty_argv (picolParseSep_loop fuel q eol)).
  { induction fuel as [ | fuel IH]; intros q; simpl; ne_tac. }
  unfold picolParseSep. ne_tac.
Qed.

Lemma picolParseCommand_no_empty_argv (p : picolParser) :
  no_empty_argv (picolParseCommand p).
Proof.
  assert (L : forall fuel q l bl,
             no_empty_argv (picolParseCommand_loop fuel q l bl)).
  { induction fuel as [ | fuel IH]; intros q l bl; simpl; ne_tac. }
  unfold picolParseCommand. ne_tac.
Qed.

Lemma picolParseVar_no_empty_argv (p : picolParser) :
  no_empty_argv (picolParseVar p).
Proof.
  assert (L : forall fuel q, no_empty_argv (picolParseVar_loop fuel q)).
  { induction fuel as [ | fuel IH]; intros q; simpl; ne_tac. }
  unfold picolParseVar. ne_tac.
Qed.

Lemma picolParseBrace_no_empty_argv (p : picolParser) :
  no_empty_argv (picolParseBrace p).
Proof.
  assert (L : forall fuel q l, no_empty_argv (picolParseBrace_loop fuel q l)).
  { induction fuel as [ | fuel IH]; intros q l; simpl; ne_tac. }
  unfold picolParseBrace. ne_tac.
Qed.

#[local] Hint Resolve picolParseSep_no_empty_argv
  picolParseCommand_no_empty_argv picolParseVar_no_empty_argv
  picolParseBrace_no_empty_argv : picol.

Lemma picolParseString_no_empty_argv (p : picolParser) :
  no_empty_argv (picolParseString p).
Proof.
  assert (L : forall fuel q, no_empty_argv (picolParseString_loop fuel q)).
  { induction fuel as [ | fuel IH]; intros q; simpl; ne_tac. }
  unfold picolParseString. ne_tac.
Qed.

Lemma picolParseComment_no_empty_argv (p : picolParser) :
  no_empty_argv (picolParseComment p).
Proof.
  assert (L : forall fuel q, no_empty_argv (picolParseComment_loop fuel q)).
  { induction fuel as [ | fuel IH]; intros q; simpl; ne_tac. }
  unfold picolParseComment. ne_tac.
Qed.

#[local] Hint Resolve picolParseString_no_empty_argv
  picolParseComment_no_empty_argv : picol.

Lemma picolGetToken_no_empty_argv (p : picolParser) :
  no_empty_argv (picolGetToken p).
Proof.
  unfold picolGetToken. generalize (scan_fuel p). intros fuel. revert p.
  induction fuel as [ | fuel IH]; intros p; simpl; ne_tac.
Qed.

Lemma picolEscape_no_empty_argv (b : list Z) (n : Z) :
  no_empty_argv (picolEscape b n).
Proof.
  assert (K : forall fuel c s m, no_empty_argv (picolEscape_skip fuel c s m)).
  { induction fuel as [ | fuel IH]; intros c s m; simpl; ne_tac. }
  assert (L : forall fuel c s t m,
             no_empty_argv (picolEscape_loop fuel c s t m)).
  { induction fuel as [ | fuel IH]; intros c s t m.
    - simpl. ne_tac.
    - cbn [picolEscape_loop]. ne_tac. }
  unfold picolEscape. ne_tac.
Qed.

Lemma atoi_no_empty_argv (s : cstring) : no_empty_argv (atoi s).
Proof. unfold atoi. ne_tac. Qed.

Lemma arg_no_empty_argv (argv : list cstring) (k : Z) :
  no_empty_argv (arg argv k).
Proof. unfold arg. ne_tac. Qed.

Lemma memcpy_from_no_empty_argv (b : list Z) (k n : Z) :
  no_empty_argv (memcpy_from b k n).
Proof. unfold memcpy_from. ne_tac. Qed.

Lemma picolGetVar_no_empty_argv (i : picolInterp) (n : cstring) :
  no_empty_argv (picolGetVar i n).
Proof. unfold picolGetVar. ne_tac. Qed.

#[local] Hint Resolve picolGetToken_no_empty_argv picolEscape_no_empty_argv
  atoi_no_empty_argv arg_no_empty_argv memcpy_from_no_empty_argv
  picolGetVar_no_empty_argv : picol.

Lemma picolSetVar_no_empty_argv (i : picolInterp) (n v : cstring) :
  no_empty_argv (picolSetVar i n v).
Proof. unfold picolSetVar. ne_tac. Qed.

Lemma picolDropCallFrame_no_empty_argv (i : picolInterp) :
  no_empty_argv (picolDropCallFrame i).
Proof. unfold picolDropCallFrame. ne_tac. Qed.

#[local] Hint Resolve picolSetVar_no_empty_argv
  picolDropCallFrame_no_empty_argv : picol.

Lemma bind_formals_no_empty_argv (fuel : nat) (s : cstring) (arity : Z)
  (i : picolInterp) (argv : list cstring) :
  no_empty_argv (bind_formals fuel s arity i argv).
Proof.
  revert s arity i.
  induction fuel as [ | fuel IH]; intros s arity i; simpl; ne_tac.
Qed.

Lemma int_of_no_empty_argv (v : Z) : no_empty_argv (int_of v).
Proof. unfold int_of. ne_tac. Qed.

#[local] Hint Resolve int_of_no_empty_argv : picol.

Lemma int_div_no_empty_argv (a b : Z) : no_empty_argv (int_div a b).
Proof. unfold int_div. ne_tac. Qed.

Lemma int_of_bool_no_empty_argv (b : bool) : no_empty_argv (int_of_bool b).
Proof. unfold int_of_bool. ne_tac. Qed.

#[local] Hint Resolve int_div_no_empty_argv int_of_bool_no_empty_argv : picol.

Lemma picolCommandMath_no_empty_argv (i : picolInterp) (argv : list cstring) :
  no_empty_argv (picolCommandMath i argv).
Proof. unfold picolCommandMath. ne_tac. Qed.

Lemma picolCommandSet_no_empty_argv (i : picolInterp) (argv : list cstring) :
  no_empty_argv (picolCommandSet i argv).
Proof. unfold picolCommandSet. ne_tac. Qed.

Lemma picolCommandPuts_no_empty_argv (i : picolInterp) (argv : list cstring) :
  no_empty_argv (picolCommandPuts i argv).
Proof. unfold picolCommandPuts. ne_tac. Qed.

Lemma picolCommandRetCodes_no_empty_argv (i : picolInterp)
  (argv : list cstring) : no_empty_argv (picolCommandRetCodes i argv).
Proof. unfold picolCommandRetCodes. ne_tac. Qed.

Lemma picolCommandProc_no_empty_argv (i : picolInterp) (argv : list cstring) :
  no_empty_argv (picolCommandProc i argv).
Proof. unfold picolCommandProc. ne_tac. Qed.

Lemma picolCommandReturn_no_empty_argv (i : picolInterp)
  (argv : list cstring) : no_empty_argv (picolCommandReturn i argv).
Proof. unfold picolCommandReturn. ne_tac. Qed.

#[local] Hint Resolve bind_formals_no_empty_argv
  picolCommandMath_no_empty_argv picolCommandSet_no_empty_argv
  picolCommandPuts_no_empty_argv picolCommandRetCodes_no_empty_argv
  picolCommandProc_no_empty_argv picolCommandReturn_no_empty_argv : picol.

Section NoEmptyArgv.

Variable ev : picolInterp -> cstring -> outcome (retcode * picolInterp).
Hypothesis ev_ok : forall i s, no_empty_argv (ev i s).

Lemma picolCommandIf_no_empty_argv (i : picolInterp) (argv : list cstring) :
  no_empty_argv (picolCommandIf ev i argv).
Proof. unfold picolCommandIf. ne_tac. Qed.

Lemma picolCommandWhile_no_empty_argv (fuel : nat) (i : picolInterp)
  (argv : list cstring) : no_empty_argv (picolCommandWhile ev fuel i argv).
Proof.
  revert i. induction fuel as [ | fuel IH]; intros i; simpl.
  - ne_tac.
  - unfold picolCommandWhile_body. ne_tac.
Qed.

Lemma picolCommandCallProc_no_empty_argv (i : picolInterp)
  (argv : list cstring) (pd : option (cstring * cstring)) :
  no_empty_argv (picolCommandCallProc ev i argv pd).
Proof. unfold picolCommandCallProc. ne_tac. Qed.

#[local] Hint Resolve picolCommandIf_no_empty_argv
  picolCommandWhile_no_empty_argv picolCommandCallProc_no_empty_argv : picol.

Lemma call_func_no_empty_argv (fuel : nat) (c : picolCmd) (i : picolInterp)
  (argv : list cstring) : no_empty_argv (call_func ev fuel c i argv).
Proof. unfold call_func. ne_tac. Qed.

Lemma append_word_no_empty_argv (prevtype : ptype) (argv : list cstring)
  (t : list Z) (tlen : Z) :
  word_started prevtype argv ->
  no_empty_argv (append_word prevtype argv t tlen).
Proof.
  unfold append_word. intros [-> | [-> | Hne]]; simpl; auto with picol.
  destruct (ptype_eqb prevtype PT_SEP || ptype_eqb prevtype PT_EOL);
    auto with picol.
  destruct (rev argv) as [ | l front] eqn:E; auto with picol.
  exfalso. apply Hne. rewrite <- (rev_involutive argv), E. reflexivity.
Qed.

Lemma append_word_nonempty (prevtype : ptype) (argv argv' : list cstring)
  (t : list Z) (tlen : Z) :
  append_word prevtype argv t tlen = Ret argv' -> argv' <> [].
Proof.
  unfold append_word.
  destruct (ptype_eqb prevtype PT_SEP || ptype_eqb prevtype PT_EOL).
  - intros E. injection E as <-. destruct argv; discriminate.
  - destruct (rev argv) as [ | l front]; [discriminate | ].
    intros E. injection E as <-. destruct (rev front); discriminate.
Qed.

Lemma picolEval_loop_no_empty_argv (fuel : nat) :
  forall i p prevtype argv rc,
    word_started prevtype argv ->
    no_empty_argv (picolEval_loop ev fuel i p prevtype argv rc).
Proof.
  induction fuel as [ | fuel IH]; intros i p prevtype argv rc Hinv; simpl.
  - ne_tac.
  - assert (Hnext : forall j q ty t tlen rc',
      no_empty_argv
        (argv' <- append_word prevtype argv t tlen ;;
         picolEval_loop ev fuel j q ty argv' rc')).
    { intros j q ty t tlen rc'.
      destruct (append_word prevtype argv t tlen) as [argv' | u | ] eqn:E;
        simpl.
      - apply IH. right. right. eapply append_word_nonempty. exact E.
      - apply no_empty_argv_Undef. intros ->.
        apply (append_word_no_empty_argv prevtype argv t tlen Hinv).
        exact E.
      - ne_tac. }
    assert (Hcall := call_func_no_empty_argv).
    unfold picolEval_body.
    apply no_empty_argv_bind; [auto with picol | intros [tok q]].
    destruct (negb (retcode_eqb tok PICOL_OK)); [ne_tac | ].
    destruct (ptype_eqb (type q) PT_EOF); [ne_tac | ].
    cbv zeta.
    apply no_empty_argv_bind; [auto with picol | intros t].
    destruct (type q) eqn:Et; try apply Hnext.
    + apply no_empty_argv_bind; [auto with picol | intros [b tlen]].
      apply Hnext.
    + apply no_empty_argv_bind; [auto with picol | intros [rc' j]].
      destruct (negb (retcode_eqb rc' PICOL_OK)); [ne_tac | ].
      apply Hnext.
    + apply no_empty_argv_bind; [auto with picol | intros [v | ]].
      * apply Hnext.
      * ne_tac.
    + apply IH. left. reflexivity.
    + destruct argv as [ | a0 argv0].
      * apply IH. right. left. reflexivity.
      * destruct (picolGetCommand i a0) as [c | ]; [ | ne_tac].
        apply no_empty_argv_bind; [apply Hcall | intros [rc' j]].
        destruct (negb (retcode_eqb rc' PICOL_OK)); [ne_tac | ].
        apply IH. right. left. reflexivity.
Qed.

End NoEmptyArgv.

Lemma picolEval_no_empty_argv (fuel : nat) :
  forall i s, no_empty_argv (picolEval fuel i s).
Proof.
  induction fuel as [ | fuel IH]; intros i s; simpl.
  - discriminate.
  - apply picolEval_loop_no_empty_argv; [exact IH | ].
    right. left. reflexivity.
Qed.

(** ** The depth of the frame stack across an evaluation *)

Ltac kd_step :=
  match goal with
  | |- returns _ (bind _ _) =>
      first [ eapply returns_bind;
                [ solve [ eauto with picol ]
                | intros [? ?] ?; unfold has_depth in *; simpl in * ]
            | apply returns_bind_any; intros ? ]
  | |- returns _ (if ?b then _ else _) => destruct b
  | |- returns _ (match ?x with _ => _ end) => destruct x
  | |- returns _ (Ret _) => apply returns_Ret; unfold has_depth; simpl
  | |- returns _ (let _ := _ in _) => cbv zeta
  end.
Ltac kd_tac := repeat (first [ solve [ eauto with picol ] | kd_step ]).

Lemma depth_picolSetResult (i : picolInterp) (s : cstring) :
  depth (picolSetResult i s) = depth i.
Proof. reflexivity. Qed.

Lemma depth_picolErr (i : picolInterp) (msg : cstring) :
  depth (snd (picolErr i msg)) = depth i.
Proof. reflexivity. Qed.

Lemma depth_picolRegisterCommand (i : picolInterp) (n : cstring)
  (f : picolCmdFunc) (pd : option (cstring * cstring)) :
  depth (snd (picolRegisterCommand i n f pd)) = depth i.
Proof.
  unfold picolRegisterCommand. destruct (picolGetCommand i n); reflexivity.
Qed.

Lemma picolSetVar_depth (d : nat) (i : picolInterp) (n v : cstring) :
  depth i = d -> returns (has_depth d) (picolSetVar i n v).
Proof.
  intros Hd. unfold picolSetVar, picolGetVar.
  destruct i as [lv cf cs r out]. unfold depth in Hd. simpl in *.
  destruct cf as [[vs pa] | ]; simpl.
  - apply returns_Ret. exact Hd.
  - apply returns_Undef.
Qed.

Lemma picolDropCallFrame_depth (d : nat) (i : picolInterp) :
  depth i = S d -> returns (fun j => depth j = d) (picolDropCallFrame i).
Proof.
  intros Hd. unfold picolDropCallFrame.
  destruct i as [lv cf cs r out]. unfold depth in Hd. simpl in *.
  destruct cf as [[vs pa] | ]; [ | discriminate].
  apply returns_Ret. unfold depth. simpl.
  destruct pa as [pa | ]; simpl in Hd; congruence.
Qed.

#[local] Hint Resolve picolSetVar_depth picolDropCallFrame_depth : picol.

Lemma bind_formals_depth (d : nat) (fuel : nat) :
  forall s arity i argv,
    depth i = d ->
    returns (fun r => match r with
                      | inl j => depth j = d
                      | inr (_, j) => depth j = d
                      end) (bind_formals fuel s arity i argv).
Proof.
  induction fuel as [ | fuel IH]; intros s arity i argv Hd; simpl.
  - apply returns_Timeout.
  - destruct (scan_formal s) as [nm rest].
    assert (Hbind :
      returns (fun r => match r with
                        | inl j => depth j = d
                        | inr (_, j) => depth j = d
                        end)
        (if arity + 1 >? argc_of argv - 1 then Ret (inl i)
         else a <- arg argv (arity + 1) ;;
              '(_, i0) <- picolSetVar i nm a ;;
              match rest with
              | None => Ret (inr (arity + 1, i0))
              | Some s' => bind_formals fuel s' (arity + 1) i0 argv
              end)).
    { kd_tac. }
    destruct nm as [ | c nm]; [ | exact Hbind].
    destruct rest as [s' | ].
    + apply IH. exact Hd.
    + apply returns_Ret. exact Hd.
Qed.

Lemma picolCommandMath_depth (d : nat) (i : picolInterp)
  (argv : list cstring) :
  depth i = d -> returns (has_depth d) (picolCommandMath i argv).
Proof. intros Hd. unfold picolCommandMath. kd_tac. Qed.

Lemma picolCommandSet_depth (d : nat) (i : picolInterp)
  (argv : list cstring) :
  depth i = d -> returns (has_depth d) (picolCommandSet i argv).
Proof. intros Hd. unfold picolCommandSet. kd_tac. Qed.

Lemma picolCommandPuts_depth (d : nat) (i : picolInterp)
  (argv : list cstring) :
  depth i = d -> returns (has_depth d) (picolCommandPuts i argv).
Proof. intros Hd. unfold picolCommandPuts. kd_tac. Qed.

Lemma picolCommandRetCodes_depth (d : nat) (i : picolInterp)
  (argv : list cstring) :
  depth i = d -> returns (has_depth d) (picolCommandRetCodes i argv).
Proof. intros Hd. unfold picolCommandRetCodes. kd_tac. Qed.

Lemma picolCommandProc_depth (d : nat) (i : picolInterp)
  (argv : list cstring) :
  depth i = d -> returns (has_depth d) (picolCommandProc i argv).
Proof.
  intros Hd. unfold picolCommandProc. kd_tac.
  rewrite depth_picolRegisterCommand. exact Hd.
Qed.

Lemma picolCommandReturn_depth (d : nat) (i : picolInterp)
  (argv : list cstring) :
  depth i = d -> returns (has_depth d) (picolCommandReturn i argv).
Proof. intros Hd. unfold picolCommandReturn. kd_tac. Qed.

#[local] Hint Resolve bind_formals_depth picolCommandMath_depth
  picolCommandSet_depth picolCommandPuts_depth picolCommandRetCodes_depth
  picolCommandProc_depth picolCommandReturn_depth : picol.

Section Depth.

Variable ev : picolInterp -> cstring -> outcome (retcode * picolInterp).
Hypothesis ev_depth :
  forall d i s, depth i = d -> returns (has_depth d) (ev i s).

#[local] Hint Resolve ev_depth : picol.

Lemma picolCommandIf_depth (d : nat) (i : picolInterp) (argv : list cstring) :
  depth i = d -> returns (has_depth d) (picolCommandIf ev i argv).
Proof. intros Hd. unfold picolCommandIf. kd_tac. Qed.

Lemma picolCommandWhile_depth (d : nat) (fuel : nat) :
  forall i argv,
    depth i = d -> returns (has_depth d) (picolCommandWhile ev fuel i argv).
Proof.
  induction fuel as [ | fuel IH]; intros i argv Hd; simpl.
  - kd_tac.
  - unfold picolCommandWhile_body. kd_tac.
Qed.

Lemma picolCommandCallProc_depth (d : nat) (i : picolInterp)
  (argv : list cstring) (pd : option (cstring * cstring)) :
  depth i = d -> returns (has_depth d) (picolCommandCallProc ev i argv pd).
Proof.
  intros Hd. unfold picolCommandCallProc.
  destruct pd as [[alist body] | ]; [ | apply returns_Undef].
  cbv zeta.
  assert (Hpush : depth (set_callframe i (Some (CallFrame [] (callframe i))))
                  = S d).
  { unfold depth in *. simpl. destruct (callframe i); congruence. }
  assert (Harity : forall j, depth j = S d ->
    returns (has_depth d)
      (j' <- picolDropCallFrame j ;;
       a0 <- arg argv 0 ;;
       Ret (picolErr j' (bytes "Proc '" ++ a0
                         ++ bytes "' called with wrong arg num")))).
  { intros j Hj. eapply returns_bind.
    - apply picolDropCallFrame_depth. exact Hj.
    - intros j' Hj'. simpl in Hj'. kd_tac. }
  eapply returns_bind.
  - apply (bind_formals_depth (S d)). exact Hpush.
  - intros [j | [arity j]] Hj; simpl in Hj.
    + apply Harity. exact Hj.
    + destruct (negb (arity =? argc_of argv - 1)).
      * apply Harity. exact Hj.
      * eapply returns_bind.
        -- apply (ev_depth (S d)). exact Hj.
        -- intros [errcode j'] Hj'. simpl in Hj'.
           eapply returns_bind.
           ++ apply picolDropCallFrame_depth. exact Hj'.
           ++ intros j'' Hj''. apply returns_Ret. exact Hj''.
Qed.

#[local] Hint Resolve picolCommandIf_depth picolCommandWhile_depth
  picolCommandCallProc_depth : picol.

Lemma call_func_depth (d : nat) (fuel : nat) (c : picolCmd)
  (i : picolInterp) (argv : list cstring) :
  depth i = d -> returns (has_depth d) (call_func ev fuel c i argv).
Proof. intros Hd. unfold call_func. kd_tac. Qed.

#[local] Hint Resolve call_func_depth : picol.

Lemma picolEval_loop_depth (d : nat) (fuel : nat) :
  forall i p prevtype argv rc,
    depth i = d ->
    returns (has_depth d) (picolEval_loop ev fuel i p prevtype argv rc).
Proof.
  induction fuel as [ | fuel IH]; intros i p prevtype argv rc Hd; simpl.
  - kd_tac.
  - unfold picolEval_body. kd_tac.
Qed.

End Depth.

Lemma picolEval_depth (fuel : nat) :
  forall d i s, depth i = d -> returns (has_depth d) (picolEval fuel i s).
Proof.
  induction fuel as [ | fuel IH]; intros d i s Hd; simpl.
  - apply returns_Timeout.
  - apply picolEval_loop_depth; [exact IH | exact Hd].
Qed.

(** ** More fuel does not change an outcome *)

Lemma picolCommandWhile_S
  (ev : picolInterp -> cstring -> outcome (retcode * picolInterp))
  (fuel : nat) (i : picolInterp) (argv : list cstring) :
  picolCommandWhile ev (S fuel) i argv
  = picolCommandWhile_body ev (picolCommandWhile ev fuel) i argv.
Proof. reflexivity. Qed.

Lemma picolEval_loop_S
  (ev : picolInterp -> cstring -> outcome (retcode * picolInterp))
  (fuel : nat) (i : picolInterp) (p : picolParser) (prevtype : ptype)
  (argv : list cstring) (rc : retcode) :
  picolEval_loop ev (S fuel) i p prevtype argv rc
  = picolEval_body ev (call_func ev fuel) (picolEval_loop ev fuel)
      i p prevtype argv rc.
Proof. reflexivity. Qed.

Lemma picolEval_S (fuel : nat) (i : picolInterp) (s : cstring) :
  picolEval (S fuel) i s
  = picolEval_loop (picolEval fuel) fuel (picolSetResult i [])
      (picolInitParser s) PT_EOL [] PICOL_OK.
Proof. reflexivity. Qed.

Section Monotone.

Variables ev ev' : picolInterp -> cstring -> outcome (retcode * picolInterp).
Hypothesis ev_mono : forall i s, refines (ev i s) (ev' i s).

Lemma picolCommandIf_mono (i : picolInterp) (argv : list cstring) :
  refines (picolCommandIf ev i argv) (picolCommandIf ev' i argv).
Proof. unfold picolCommandIf. mono_tac. Qed.

Lemma picolCommandWhile_body_mono
  (again again' : picolInterp -> list cstring
                  -> outcome (retcode * picolInterp)) :
  (forall i argv, refines (again i argv) (again' i argv)) ->
  forall i argv,
    refines (picolCommandWhile_body ev again i argv)
            (picolCommandWhile_body ev' again' i argv).
Proof. intros Hagain i argv. unfold picolCommandWhile_body. mono_tac. Qed.

Lemma picolCommandWhile_mono (fuel : nat) :
  forall i argv,
    refines (picolCommandWhile ev fuel i argv)
            (picolCommandWhile ev' (S fuel) i argv).
Proof.
  induction fuel as [ | fuel IH]; intros i argv.
  - apply refines_Timeout.
  - rewrite !picolCommandWhile_S.
    apply picolCommandWhile_body_mono. exact IH.
Qed.

Lemma picolCommandCallProc_mono (i : picolInterp) (argv : list cstring)
  (pd : option (cstring * cstring)) :
  refines (picolCommandCallProc ev i argv pd)
          (picolCommandCallProc ev' i argv pd).
Proof. unfold picolCommandCallProc. mono_tac. Qed.

Lemma call_func_mono (fuel : nat) (c : picolCmd) (i : picolInterp)
  (argv : list cstring) :
  refines (call_func ev fuel c i argv) (call_func ev' (S fuel) c i argv).
Proof.
  unfold call_func.
  destruct (func c); auto with picol.
  - apply picolCommandIf_mono.
  - apply picolCommandWhile_mono.
  - apply picolCommandCallProc_mono.
Qed.

Lemma picolEval_body_mono
  (call call' : picolCmd -> picolInterp -> list cstring
                -> outcome (retcode * picolInterp))
  (again again' : picolInterp -> picolParser -> ptype -> list cstring
                  -> retcode -> outcome (retcode * picolInterp)) :
  (forall c i argv, refines (call c i argv) (call' c i argv)) ->
  (forall i p t argv rc,
      refines (again i p t argv rc) (again' i p t argv rc)) ->
  forall i p prevtype argv rc,
    refines (picolEval_body ev call again i p prevtype argv rc)
            (picolEval_body ev' call' again' i p prevtype argv rc).
Proof.
  intros Hcall Hagain i p prevtype argv rc.
  unfold picolEval_body. mono_tac.
Qed.

Lemma picolEval_loop_mono (fuel : nat) :
  forall i p prevtype argv rc,
    refines (picolEval_loop ev fuel i p prevtype argv rc)
            (picolEval_loop ev' (S fuel) i p prevtype argv rc).
Proof.
  induction fuel as [ | fuel IH]; intros i p prevtype argv rc.
  - apply refines_Timeout.
  - rewrite !picolEval_loop_S.
    apply picolEval_body_mono.
    + intros c j av. apply call_func_mono.
    + exact IH.
Qed.

End Monotone.

Lemma picolEval_mono_S (fuel : nat) :
  forall i s, refines (picolEval fuel i s) (picolEval (S fuel) i s).
Proof.
  induction fuel as [ | fuel IH]; intros i s.
  - apply refines_Timeout.
  - rewrite !picolEval_S. apply picolEval_loop_mono. exact IH.
Qed.

Lemma picolEval_mono (n m : nat) (i : picolInterp) (s : cstring) :
  (n <= m)%nat -> refines (picolEval n i s) (picolEval m i s).
Proof.
  induction 1 as [ | m Hle IH].
  - apply refines_refl.
  - eapply refines_trans; [exact IH | apply picolEval_mono_S].
Qed.

(** An outcome other than [Timeout] is the outcome at every larger
    fuel. *)
Lemma picolEval_fuel (n m : nat) (i : picolInterp) (s : cstring)
  (o : outcome (retcode * picolInterp)) :
  picolEval n i s = o -> o <> Timeout -> (n <= m)%nat ->
  picolEval m i s = o.
Proof.
  intros E Hfin Hle. subst o.
  apply refines_final; [apply picolEval_mono; exact Hle | exact Hfin].
Qed.

(** ** The scanning loops have fuel enough *)

Lemma total_bind {A B : Type} (m : outcome A) (f : A -> outcome B)
  (P : A -> Prop) (Q : B -> Prop) :
  total P m -> (forall a, m = Ret a -> P a -> total Q (f a)) ->
  total Q (bind m f).
Proof.
  unfold total. destruct m as [a | u | ]; simpl; intros [Hm HP] Hf.
  - apply Hf; [reflexivity | apply HP; reflexivity].
  - split; [discriminate | intros b E; discriminate E].
  - contradiction.
Qed.

Lemma total_Ret {A : Type} (Q : A -> Prop) (a : A) : Q a -> total Q (Ret a).
Proof.
  intros H. split; [discriminate | ]. intros b E. injection E as <-. exact H.
Qed.

Lemma total_Undef {A : Type} (Q : A -> Prop) (u : ub_kind) :
  total Q (Undef u).
Proof. split; [discriminate | intros b E; discriminate E]. Qed.

Lemma total_weaken {A : Type} (P Q : A -> Prop) (o : outcome A) :
  total P o -> (forall a, P a -> Q a) -> total Q o.
Proof.
  intros [Hm HP] HPQ. split; [exact Hm | ].
  intros a E. apply HPQ, HP, E.
Qed.

Lemma rd_Ret (b : list Z) (k c : Z) :
  rd b k = Ret c -> 0 <= k <= strlen b /\ (c <> 0 -> k < strlen b).
Proof.
  unfold rd. destruct (k <? 0) eqn:E0; [discriminate | ].
  apply Z.ltb_ge in E0.
  destruct (k <? strlen b) eqn:E1.
  - apply Z.ltb_lt in E1. intros _. lia.
  - destruct (k =? strlen b) eqn:E2; [ | discriminate].
    apply Z.eqb_eq in E2. intros H. injection H as <-. lia.
Qed.

(** A read either is undefined or finds the cursor on the text or its
    NUL, and off the NUL when the byte is not 0. *)
Lemma total_peek (p : picolParser) :
  total (fun c => 0 <= pos p <= strlen (text p)
                  /\ (c <> 0 -> pos p < strlen (text p))) (peek p).
Proof.
  unfold peek. split.
  - unfold rd. destruct (pos p <? 0); [discriminate | ].
    destruct (pos p <? strlen (text p)); [discriminate | ].
    destruct (pos p =? strlen (text p)); discriminate.
  - intros c E. apply rd_Ret. exact E.
Qed.

Lemma enough_0 (p : picolParser) : ~ enough 0 p.
Proof. unfold enough, parser_ok. simpl. lia. Qed.

Lemma enough_scan_fuel (p : picolParser) :
  parser_ok p -> enough (scan_fuel p) p.
Proof.
  unfold enough, parser_ok, scan_fuel, strlen. intros H.
  split; [exact H | ]. lia.
Qed.

Lemma eqb_nonzero (c k : Z) : (c =? k) = true -> k <> 0 -> c <> 0.
Proof. intros E Hk. apply Z.eqb_eq in E. lia. Qed.

(** Unfold the bounds and let [lia] finish. *)
Ltac bounds :=
  unfold enough, after, parser_ok, on_text, scan_fuel, advance, set_pos,
    set_len, set_start, set_end, set_type, set_insidequote, strlen in *;
  cbn [text pos start end_ len type insidequote snd] in *;
  repeat match goal with
         | H : _ /\ _ |- _ => destruct H
         end;
  repeat match goal with
         | H : text ?q = text ?p |- _ => rewrite H in *; clear H
         end;
  intuition (try lia; try congruence).

(** One more iteration of a scanning loop: the recursive call at the
    cursor moved by [advance]. *)
Ltac scan_again IH :=
  eapply total_weaken; [apply IH; bounds | intros ? ?; bounds].

Lemma picolParseSep_loop_total (fuel : nat) :
  forall p eol,
    enough fuel p -> total (after p) (picolParseSep_loop fuel p eol).
Proof.
  induction fuel as [ | fuel IH]; intros p eol He.
  - destruct (enough_0 p He).
  - simpl. eapply total_bind; [apply total_peek | intros c _ [Hc Hnz]].
    destruct (negb (isgraph c) || (negb (eol =? 0) && (c =? eol))).
    + scan_again IH.
    + apply total_Ret. bounds.
Qed.

Lemma picolParseVar_loop_total (fuel : nat) :
  forall p, enough fuel p -> total (after p) (picolParseVar_loop fuel p).
Proof.
  induction fuel as [ | fuel IH]; intros p He.
  - destruct (enough_0 p He).
  - simpl. eapply total_bind; [apply total_peek | intros c _ [Hc Hnz]].
    destruct (isalnum c || (c =? ch_underscore)).
    + scan_again IH.
    + apply total_Ret. bounds.
Qed.

Lemma picolParseComment_loop_total (fuel : nat) :
  forall p, enough fuel p -> total (after p) (picolParseComment_loop fuel p).
Proof.
  induction fuel as [ | fuel IH]; intros p He.
  - destruct (enough_0 p He).
  - simpl. destruct (negb (len p =? 0)); [ | apply total_Ret; bounds].
    eapply total_bind; [apply total_peek | intros c _ [Hc Hnz]].
    destruct (negb (c =? ch_nl)).
    + scan_again IH.
    + apply total_Ret. bounds.
Qed.

Lemma picolParseCommand_loop_total (fuel : nat) :
  forall p level blevel,
    enough fuel p ->
    total (after p) (picolParseCommand_loop fuel p level blevel).
Proof.
  induction fuel as [ | fuel IH]; intros p level blevel He.
  - destruct (enough_0 p He).
  - simpl. destruct (len p >? 0); [ | apply total_Ret; bounds].
    eapply total_bind; [apply total_peek | intros c _ [Hc Hnz]].
    destruct (c =? ch_bslash) eqn:Eb.
    { assert (c <> 0) by (eapply eqb_nonzero; [exact Eb | discriminate]).
      destruct (len p >? 1); scan_again IH. }
    destruct (c =? ch_lbracket); [scan_again IH | ].
    destruct (c =? ch_rbracket).
    { destruct (blevel =? 0); [ | scan_again IH].
      destruct (level - 1 =? 0); [apply total_Ret; bounds | scan_again IH]. }
    destruct (c =? ch_lbrace); [scan_again IH | ].
    destruct (c =? ch_rbrace); scan_again IH.
Qed.

Lemma picolParseBrace_loop_total (fuel : nat) :
  forall p level,
    enough fuel p ->
    total (fun q => after p q
                    /\ (len q > 0 -> pos q < strlen (text q)))
      (picolParseBrace_loop fuel p level).
Proof.
  induction fuel as [ | fuel IH]; intros p level He.
  - destruct (enough_0 p He).
  - simpl. destruct (Z.gtb_spec (len p) 0) as [Hl | Hl];
      [ | apply total_Ret; bounds].
    eapply total_bind; [apply total_peek | intros c _ [Hc Hnz]].
    destruct (c =? ch_lbrace); [scan_again IH | ].
    destruct ((len p >=? 2) && (c =? ch_bslash)) eqn:Eb.
    { apply andb_true_iff in Eb. destruct Eb as [_ Eb].
      assert (c <> 0) by (eapply eqb_nonzero; [exact Eb | discriminate]).
      scan_again IH. }
    destruct (c =? ch_rbrace) eqn:Er; [ | scan_again IH].
    assert (c <> 0) by (eapply eqb_nonzero; [exact Er | discriminate]).
    destruct (level - 1 =? 0); [apply total_Ret; bounds | scan_again IH].
Qed.

Lemma picolParseString_loop_total (fuel : nat) :
  forall p,
    enough fuel p ->
    total (fun r => match r with inl q | inr q => after p q end)
      (picolParseString_loop fuel p).
Proof.
  induction fuel as [ | fuel IH]; intros p He.
  - destruct (enough_0 p He).
  - simpl. destruct (len p >? 0); [ | apply total_Ret; bounds].
    eapply total_bind; [apply total_peek | intros c _ [Hc Hnz]].
    destruct ((c =? ch_dollar) || (c =? ch_lbracket));
      [apply total_Ret; bounds | ].
    destruct (c =? ch_dquote) eqn:Eq.
    { assert (c <> 0) by (eapply eqb_nonzero; [exact Eq | discriminate]).
      destruct (negb (insidequote p)).
      - eapply total_weaken; [apply IH; bounds | intros [q | q] ?; bounds].
      - apply total_Ret. bounds. }
    destruct (c =? ch_bslash) eqn:Eb.
    { assert (c <> 0) by (eapply eqb_nonzero; [exact Eb | discriminate]).
      destruct (len p >=? 2);
        (eapply total_weaken; [apply IH; bounds | intros [q | q] ?; bounds]). }
    destruct ((negb (isgraph c) || (c =? ch_semi)) && negb (insidequote p));
      [apply total_Ret; bounds | ].
    eapply total_weaken; [apply IH; bounds | intros [q | q] ?; bounds].
Qed.

Lemma enough_scan_fuel_advance (p : picolParser) :
  on_text p -> enough (scan_fuel p) (advance p).
Proof.
  unfold on_text, scan_fuel, strlen. intros H. bounds.
Qed.

Lemma picolParseSep_total (p : picolParser) (eol : Z) :
  parser_ok p -> total (fun r => after p (snd r)) (picolParseSep p eol).
Proof.
  intros Hok. unfold picolParseSep.
  eapply total_bind.
  - apply picolParseSep_loop_total.
    apply (enough_scan_fuel (set_start p (pos p))). exact Hok.
  - intros q _ Hq. apply total_Ret. bounds.
Qed.

Lemma picolParseCommand_total (p : picolParser) :
  on_text p -> total (fun r => after p (snd r)) (picolParseCommand p).
Proof.
  intros Hok. unfold picolParseCommand. cbv zeta.
  eapply total_bind.
  - apply picolParseCommand_loop_total.
    apply (enough_scan_fuel_advance p) in Hok. unfold scan_fuel in *. bounds.
  - intros q _ Hq. cbv beta.
    eapply total_bind; [apply total_peek | intros c _ [Hc Hnz]].
    cbn [pos text set_type set_end] in Hc, Hnz.
    destruct (c =? ch_rbracket) eqn:Er.
    + assert (c <> 0) by (eapply eqb_nonzero; [exact Er | discriminate]).
      apply total_Ret. unfold on_text in Hok. bounds.
    + apply total_Ret. unfold on_text in Hok. bounds.
Qed.

Lemma picolParseVar_total (p : picolParser) :
  on_text p -> total (fun r => after p (snd r)) (picolParseVar p).
Proof.
  intros Hok. unfold picolParseVar. cbv zeta.
  eapply total_bind.
  - apply picolParseVar_loop_total.
    apply (enough_scan_fuel_advance p) in Hok. unfold scan_fuel in *. bounds.
  - intros q _ Hq. cbv beta. unfold on_text in Hok.
    destruct (start q =? pos q); apply total_Ret; bounds.
Qed.

Lemma picolParseBrace_total (p : picolParser) :
  on_text p -> total (fun r => after p (snd r)) (picolParseBrace p).
Proof.
  intros Hok. unfold picolParseBrace. cbv zeta.
  eapply total_bind.
  - apply picolParseBrace_loop_total.
    apply (enough_scan_fuel_advance p) in Hok. unfold scan_fuel in *. bounds.
  - intros q _ [Hq Hlen]. cbv beta. unfold on_text in Hok.
    cbn [len set_end].
    destruct (Z.gtb_spec (len q) 0) as [Hl | Hl]; apply total_Ret; bounds.
Qed.

Lemma picolParseString_total (p : picolParser) :
  parser_ok p -> total (fun r => after p (snd r)) (picolParseString p).
Proof.
  intros Hok. unfold picolParseString. cbv zeta.
  eapply total_bind; [apply total_peek | intros c _ [Hc Hnz]].
  destruct ((ptype_eqb (type p) PT_SEP || ptype_eqb (type p) PT_EOL
             || ptype_eqb (type p) PT_STR) && (c =? ch_lbrace)).
  { apply picolParseBrace_total. exact Hc. }
  destruct ((ptype_eqb (type p) PT_SEP || ptype_eqb (type p) PT_EOL
             || ptype_eqb (type p) PT_STR) && (c =? ch_dquote)) eqn:Eq.
  - apply andb_true_iff in Eq. destruct Eq as [_ Eq].
    assert (c <> 0) by (eapply eqb_nonzero; [exact Eq | discriminate]).
    eapply total_bind.
    + apply picolParseString_loop_total.
      assert (He := enough_scan_fuel_advance p Hc).
      unfold scan_fuel in *. bounds.
    + intros [q | q] _ Hq; apply total_Ret; bounds.
  - eapply total_bind.
    + apply picolParseString_loop_total.
      apply (enough_scan_fuel (set_start p (pos p))). exact Hok.
    + intros [q | q] _ Hq; apply total_Ret; bounds.
Qed.

Lemma picolGetToken_loop_total (fuel : nat) :
  forall p,
    enough fuel p ->
    total (fun r => after p (snd r)) (picolGetToken_loop fuel p).
Proof.
  induction fuel as [ | fuel IH]; intros p He.
  - destruct (enough_0 p He).
  - assert (Hok : parser_ok p) by apply He.
    simpl. destruct (Z.gtb_spec (len p) 0) as [Hl | Hl];
      [ | apply total_Ret; bounds].
    eapply total_bind; [apply total_peek | intros c Hpeek [Hc Hnz]].
    destruct ((c =? ch_nl) || (c =? ch_semi)).
    { destruct (insidequote p);
        [apply picolParseString_total | apply picolParseSep_total]; exact Hok. }
    destruct (c =? ch_lbracket); [apply picolParseCommand_total; exact Hc | ].
    destruct (c =? ch_dollar); [apply picolParseVar_total; exact Hc | ].
    destruct (c =? ch_hash) eqn:Eh.
    { destruct (negb (ptype_eqb (type p) PT_EOL));
        [apply picolParseString_total; exact Hok | ].
      assert (Hcom : picolParseComment p
                     = (q <- picolParseComment_loop (S (length (text p)))
                               (advance p) ;;
                        Ret (PICOL_OK, q))).
      { unfold picolParseComment, scan_fuel.
        change (picolParseComment_loop (S (S (length (text p)))) p)
          with (if negb (len p =? 0)
                then c0 <- peek p ;;
                     if negb (c0 =? ch_nl)
                     then picolParseComment_loop (S (length (text p)))
                            (advance p)
                     else Ret p
                else Ret p).
        replace (len p =? 0) with false by (symmetry; apply Z.eqb_neq; lia).
        rewrite Hpeek. simpl.
        apply Z.eqb_eq in Eh. subst c. reflexivity. }
      rewrite Hcom.
      apply (total_bind _ _ (fun r => after (advance p) (snd r))).
      - eapply total_bind.
        + apply picolParseComment_loop_total.
          assert (He' := enough_scan_fuel_advance p Hc).
          unfold scan_fuel in He'. bounds.
        + intros q _ Hq. apply total_Ret. exact Hq.
      - intros [rc q] _ Hq. simpl in Hq.
        eapply total_weaken; [apply IH; bounds | intros ? ?; bounds]. }
    destruct (isgraph c || insidequote p);
      [apply picolParseString_total | apply picolParseSep_total]; exact Hok.
Qed.

(** [picolGetToken] never runs out of its scanning fuel, and leaves the
    cursor in the same text, not before where it was. *)
Lemma picolGetToken_total (p : picolParser) :
  parser_ok p -> total (fun r => after p (snd r)) (picolGetToken p).
Proof.
  intros Hok. apply picolGetToken_loop_total, enough_scan_fuel, Hok.
Qed.

Lemma picolInitParser_ok (s : cstring) : parser_ok (picolInitParser s).
Proof. unfold parser_ok, picolInitParser, strlen. simpl. lia. Qed.

(** *** The escape decoder and the binding of formals *)

Lemma rdb_total (b : list Z) (k : Z) :
  total (fun _ => 0 <= k < Z.of_nat (length b)) (rdb b k).
Proof.
  unfold rdb.
  destruct (Z.leb_spec 0 k); destruct (Z.ltb_spec k (Z.of_nat (length b)));
    simpl; try apply total_Undef.
  apply total_Ret. lia.
Qed.

Lemma upd_length (b : list Z) (k : nat) (v : Z) :
  length (upd b k v) = length b.
Proof.
  revert k. induction b as [ | c b IH]; intros [ | k]; simpl;
    try reflexivity.
  rewrite IH. reflexivity.
Qed.

Lemma wrb_total (b : list Z) (k v : Z) :
  total (fun b' => length b' = length b) (wrb b k v).
Proof.
  unfold wrb.
  destruct ((0 <=? k) && (k <? Z.of_nat (length b)));
    [apply total_Ret, upd_length | apply total_Undef].
Qed.

Lemma picolEscape_skip_total (fuel : nat) :
  forall b s n,
    0 <= s <= Z.of_nat (length b) ->
    Z.of_nat (length b) < Z.of_nat fuel + s ->
    total (fun r => s <= fst r <= Z.of_nat (length b))
      (picolEscape_skip fuel b s n).
Proof.
  induction fuel as [ | fuel IH]; intros b s n Hs Hf; [exfalso; lia | ].
  simpl. destruct (n >? 0); [ | apply total_Ret; cbn [fst]; lia].
  eapply total_bind; [apply rdb_total | intros c _ Hc; cbv beta in Hc].
  destruct (negb (isgraph c)); [ | apply total_Ret; cbn [fst]; lia].
  eapply total_weaken; [apply IH; lia | intros [s' n'] H; cbn [fst] in *; lia].
Qed.

Lemma picolEscape_loop_total (fuel : nat) :
  forall b s t n,
    0 <= s <= Z.of_nat (length b) ->
    Z.of_nat (length b) < Z.of_nat fuel + s ->
    total (fun _ => True) (picolEscape_loop fuel b s t n).
Proof.
  induction fuel as [ | fuel IH]; intros b s t n Hs Hf; [exfalso; lia | ].
  assert (Hwr : forall k v s' t' n',
    0 <= s' <= Z.of_nat (length b) ->
    Z.of_nat (length b) < Z.of_nat fuel + s' ->
    total (fun _ => True)
      (b' <- wrb b k v ;; picolEscape_loop fuel b' s' t' n')).
  { intros k v s' t' n' Hs' Hf'.
    eapply total_bind; [apply wrb_total | intros b' _ Hb'; cbv beta in Hb'].
    apply IH; rewrite Hb'; assumption. }
  cbn [picolEscape_loop].
  eapply total_bind; [apply rdb_total | intros c _ Hc; cbv beta in Hc].
  destruct (c =? 0); [apply total_Ret; exact I | ].
  destruct (c =? ch_bslash); [ | apply Hwr; lia].
  eapply total_bind; [apply rdb_total | intros c1 _ Hc1; cbv beta in Hc1].
  destruct ((c1 =? 88) || (c1 =? 120)).
  { cbv zeta.
    eapply total_bind; [apply rdb_total | intros h _ Hh; cbv beta in Hh].
    destruct (isxdigit h); [ | apply IH; lia].
    eapply total_bind; [apply rdb_total | intros l _ Hl; cbv beta in Hl].
    destruct (isxdigit l); apply Hwr; lia. }
  destruct (c1 =? 110); [apply Hwr; lia | ].
  destruct (c1 =? 114); [apply Hwr; lia | ].
  destruct (c1 =? 116); [apply Hwr; lia | ].
  destruct (c1 =? 0); [apply IH; lia | ].
  cbv zeta. destruct (isgraph c1); [apply Hwr; lia | ].
  eapply total_bind.
  - apply picolEscape_skip_total; lia.
  - intros [s' n'] _ Hs'. cbn [fst] in Hs'. apply IH; lia.
Qed.

Lemma strchr_from_bound (b : list Z) (c k s : Z) :
  strchr_from b c k = Some s -> k <= s < k + Z.of_nat (length b).
Proof.
  revert k. induction b as [ | x b IH]; intros k; simpl; [discriminate | ].
  destruct (x =? c); [intros E; injection E as <-; lia | ].
  destruct (x =? 0); [discriminate | ].
  intros E. apply IH in E. lia.
Qed.

(** [picolEscape] never runs out of its scanning fuel. *)
Lemma picolEscape_total (b : list Z) (n : Z) :
  total (fun _ => True) (picolEscape b n).
Proof.
  unfold picolEscape.
  eapply total_bind with (P := fun _ => True).
  - destruct (strchr b ch_bslash) as [s | ] eqn:E.
    + apply strchr_from_bound in E.
      apply picolEscape_loop_total; rewrite ?Nat2Z.inj_succ; lia.
    + apply total_Ret. exact I.
  - intros [b' n'] _ _.
    eapply total_bind; [apply wrb_total | intros b'' _ _].
    apply total_Ret. exact I.
Qed.

Lemma scan_formal_shorter (s nm s' : cstring) :
  scan_formal s = (nm, Some s') -> (length s' < length s)%nat.
Proof.
  revert nm. induction s as [ | c s IH]; intros nm; simpl; [discriminate | ].
  destruct (c =? ch_space).
  - intros E. injection E as _ <-. lia.
  - destruct (scan_formal s) as [nm0 rest] eqn:E0.
    intros E. injection E as _ ->.
    specialize (IH nm0 eq_refl). lia.
Qed.

Lemma arg_total (argv : list cstring) (k : Z) :
  total (fun _ => True) (arg argv k).
Proof.
  unfold arg. destruct (k <? 0); [apply total_Undef | ].
  destruct (nth_error argv (Z.to_nat k));
    [apply total_Ret; exact I | apply total_Undef].
Qed.

Lemma picolSetVar_total (i : picolInterp) (n v : cstring) :
  total (fun _ => True) (picolSetVar i n v).
Proof.
  unfold picolSetVar, picolGetVar.
  destruct (callframe i) as [[vs pa] | ]; simpl;
    [apply total_Ret; exact I | apply total_Undef].
Qed.

(** [bind_formals] never runs out of its scanning fuel. *)
Lemma bind_formals_total (fuel : nat) :
  forall s arity i argv,
    (length s < fuel)%nat ->
    total (fun _ => True) (bind_formals fuel s arity i argv).
Proof.
  induction fuel as [ | fuel IH]; intros s arity i argv Hf; [exfalso; lia | ].
  simpl. destruct (scan_formal s) as [nm rest] eqn:E.
  assert (Hrest : forall s', rest = Some s' -> (length s' < fuel)%nat).
  { intros s' ->. apply scan_formal_shorter in E. lia. }
  assert (Hbind :
    total (fun _ => True)
      (if arity + 1 >? argc_of argv - 1 then Ret (inl i)
       else a <- arg argv (arity + 1) ;;
            '(_, i0) <- picolSetVar i nm a ;;
            match rest with
            | None => Ret (inr (arity + 1, i0))
            | Some s' => bind_formals fuel s' (arity + 1) i0 argv
            end)).
  { destruct (arity + 1 >? argc_of argv - 1); [apply total_Ret; exact I | ].
    eapply total_bind; [apply arg_total | intros a _ _].
    eapply total_bind; [apply picolSetVar_total | intros [rc i0] _ _].
    destruct rest as [s' | ]; [ | apply total_Ret; exact I].
    apply IH, Hrest. reflexivity. }
  destruct nm as [ | c nm]; [ | exact Hbind].
  destruct rest as [s' | ]; [ | apply total_Ret; exact I].
  apply IH, Hrest. reflexivity.
Qed.

(** ** String comparison *)

Lemma cstring_eqb_eq (a b : cstring) : cstring_eqb a b = true <-> a = b.
Proof.
  revert b. induction a as [ | x a IH]; intros [ | y b]; simpl;
    try (split; [discriminate | discriminate]); try (split; reflexivity).
  rewrite andb_true_iff, Z.eqb_eq, IH. split.
  - intros [-> ->]. reflexivity.
  - intros E. injection E as -> ->. split; reflexivity.
Qed.

Lemma find_var_Some (vs : list picolVar) (n : cstring) (v : picolVar) :
  find_var vs n = Some v -> In v vs /\ name v = n.
Proof.
  induction vs as [ | x vs IH]; simpl; [discriminate | ].
  destruct (strcmp0 (name x) n) eqn:E.
  - intros H. injection H as <-. split; [left; reflexivity | ].
    apply cstring_eqb_eq. exact E.
  - intros H. destruct (IH H) as [Hin Hn]. split; [right; exact Hin | exact Hn].
Qed.

Lemma find_var_In (vs : list picolVar) (n : cstring) (v : picolVar) :
  In v vs -> name v = n -> exists w, find_var vs n = Some w.
Proof.
  induction vs as [ | x vs IH]; simpl; [contradiction | ].
  intros [-> | Hin] Hn.
  - exists v. unfold strcmp0.
    replace (cstring_eqb (name v) n) with true; [reflexivity | ].
    symmetry. apply cstring_eqb_eq. exact Hn.
  - destruct (strcmp0 (name x) n); [exists x; reflexivity | ].
    apply IH; assumption.
Qed.

(** ** The claims *)

(** C8.  The environment lookup [picolGetVar] searches the current (top)
    call frame only.  For an interpreter whose current frame holds the
    variables [vs] and has the parent chain [pa]: the lookup is the first
    variable of [vs] with that name; it finds a variable if and only if
    [vs] holds one with that name; whatever it finds is in [vs]; and the
    frames of the parent chain play no part, the answer being the same
    with any other chain [pa'] in their place. *)
Theorem picolGetVar_current_frame_only
  (i : picolInterp) (vs : list picolVar) (pa : option picolCallFrame)
  (n : cstring) :
  callframe i = Some (CallFrame vs pa) ->
  picolGetVar i n = Ret (find_var vs n)
  /\ ((exists v, picolGetVar i n = Ret (Some v))
      <-> (exists v, In v vs /\ name v = n))
  /\ (forall v, picolGetVar i n = Ret (Some v) -> In v vs /\ name v = n)
  /\ (forall pa', picolGetVar (set_callframe i (Some (CallFrame vs pa'))) n
                  = picolGetVar i n).
Proof.
  intros Hcf. unfold picolGetVar. rewrite Hcf. simpl.
  split; [reflexivity | ]. split; [ | split].
  - split.
    + intros [v Hv]. exists v. apply find_var_Some. congruence.
    + intros [v [Hin Hn]]. destruct (find_var_In vs n v Hin Hn) as [w Hw].
      exists w. rewrite Hw. reflexivity.
  - intros v Hv. apply find_var_Some. congruence.
  - intros pa'. reflexivity.
Qed.

Lemma picolGetVar_current_frame_only_witness :
  callframe two_frames
  = Some (CallFrame [mkVar (bytes "x") (bytes "1")]
            (Some (CallFrame [mkVar (bytes "y") (bytes "2")] None)))
  /\ picolGetVar two_frames (bytes "y") = Ret None
  /\ picolGetVar two_frames (bytes "x")
     = Ret (Some (mkVar (bytes "x") (bytes "1"))).
Proof.
  split; [reflexivity | ]. split.
  - exact (proj1 (picolGetVar_current_frame_only two_frames _ _ (bytes "y")
                    eq_refl)).
  - exact (proj1 (picolGetVar_current_frame_only two_frames _ _ (bytes "x")
                    eq_refl)).
Defined.

(** The interpolation branch of [picolEval] on an empty argument vector
    is the undefined case. *)
Lemma append_word_empty_argv (t : list Z) (tlen : Z) :
  append_word PT_ESC [] t tlen = Undef EmptyArgv
  /\ append_word PT_STR [] t tlen = Undef EmptyArgv
  /\ append_word PT_CMD [] t tlen = Undef EmptyArgv
  /\ append_word PT_VAR [] t tlen = Undef EmptyArgv.
Proof. repeat split. Qed.

(** C10.  No run of [picolEval], on any interpreter state, any source
    string and with any fuel, ends in the interpolation onto an empty
    argument vector: whenever the loop reaches the interpolation branch
    the vector holds a word.  (The invariant behind it is
    [word_started]: the previous token type is SEP or EOL, or the vector
    is not empty; it holds initially because [picolInitParser] sets the
    type to EOL.) *)
Theorem picolEval_interpolation_has_word :
  forall (fuel : nat) (i : picolInterp) (s : cstring),
    picolEval fuel i s <> Undef EmptyArgv.
Proof. intros fuel i s. apply picolEval_no_empty_argv. Qed.

(** C5.  The frame stack has the same depth after [picolEval] returns as
    before the call, whatever the return code; and so has it after the
    user-procedure dispatcher [picolCommandCallProc] returns, on each of its
    paths. *)
Theorem picolEval_preserves_depth :
  (forall (fuel : nat) (i : picolInterp) (s : cstring)
          (rc : retcode) (i' : picolInterp),
      picolEval fuel i s = Ret (rc, i') -> depth i' = depth i)
  /\ (forall (fuel : nat) (i : picolInterp) (argv : list cstring)
             (pd : option (cstring * cstring))
             (rc : retcode) (i' : picolInterp),
         picolCommandCallProc (picolEval fuel) i argv pd = Ret (rc, i') ->
         depth i' = depth i).
Proof.
  split.
  - intros fuel i s rc i' E.
    exact (picolEval_depth fuel (depth i) i s eq_refl (rc, i') E).
  - intros fuel i argv pd rc i' E.
    exact (picolCommandCallProc_depth (picolEval fuel)
             (picolEval_depth fuel) (depth i) i argv pd eq_refl (rc, i') E).
Qed.

(** The three paths of the dispatcher, each on a fresh interpreter: the
    body returns, the body fails, the call has the wrong number of
    arguments. *)
Lemma picolEval_preserves_depth_witness :
  (exists rc i',
      picolEval 20 fresh_interp (bytes "proc sq {n} {return [* $n $n]};sq 7")
      = Ret (rc, i')
      /\ depth i' = depth fresh_interp)
  /\ (exists rc i',
         picolEval 20 fresh_interp (bytes "proc g {} {nosuch};g")
         = Ret (rc, i')
         /\ depth i' = depth fresh_interp)
  /\ (exists rc i',
         picolEval 20 fresh_interp (bytes "proc f {a b} {return $a};f 1")
         = Ret (rc, i')
         /\ depth i' = depth fresh_interp).
Proof.
  split; [ | split];
    match goal with
    | |- exists rc i', ?run = _ /\ _ =>
        destruct run as [[rc i'] | u | ] eqn:E;
        [ exists rc, i'; split;
          [ reflexivity
          | exact (proj1 picolEval_preserves_depth _ _ _ _ _ E) ]
        | vm_compute in E; discriminate E
        | vm_compute in E; discriminate E ]
    end.
Defined.

(** Once the input is used up ([len] is not positive) [picolGetToken]
    returns OK and only changes the token type: EOL after any token but
    EOL and EOF, EOF after those. *)
Lemma picolGetToken_exhausted (p : picolParser) :
  len p <= 0 ->
  picolGetToken p
  = Ret (PICOL_OK,
         set_type p (if negb (ptype_eqb (type p) PT_EOL)
                        && negb (ptype_eqb (type p) PT_EOF)
                     then PT_EOL else PT_EOF)).
Proof.
  intros Hlen. unfold picolGetToken, scan_fuel. simpl.
  destruct (len p >? 0) eqn:E; [ | reflexivity].
  apply Z.gtb_lt in E. lia.
Qed.

(** C9, at the input that consists of one space.  [picolGetToken] hands
    the space to [picolParseSep], whose loop tests the class of the byte
    only: the terminating NUL is not printable either, so the loop steps
    over it and reads the byte behind the buffer. *)
Theorem picolGetToken_reads_past_terminator :
  picolGetToken (picolInitParser (bytes " ")) = Undef OutOfBounds.
Proof. vm_compute. reflexivity. Qed.

(** C2, at the word [a\x41b].  The four bytes of the escape become the
    one byte 0x41, but the length is cut by four instead of three: the
    decoder returns 2, and the NUL it writes at that offset removes the
    [b] it had copied. *)
Theorem picolEscape_hex_pair_length :
  picolEscape (bytes "a\x41b" ++ [0]) 6 = Ret ([97; 65; 0; 52; 49; 98; 0], 2)
  /\ escape_word (bytes "a\x41b") = Ret (bytes "aA", 2).
Proof. split; vm_compute; reflexivity. Qed.

(** C3, at the word [\x7z].  With one hex digit the decoder stores
    [toxdigit(isalpha('7'))], that is [toxdigit(0)], which is [0 - '0']
    and 208 as a byte, not the digit's value 7; the returned length, 1,
    is one short as well and cuts the [z]. *)
Theorem picolEscape_single_hex_digit :
  picolEscape (bytes "\x7z" ++ [0]) 4 = Ret ([208; 0; 55; 122; 0], 1)
  /\ escape_word (bytes "\x7z") = Ret ([208], 1).
Proof. split; vm_compute; reflexivity. Qed.

(** When the body of [while] returns BREAK the loop goes round again:
    the last [else if] of the chain only returns for codes other than
    BREAK, and nothing follows it. *)
Lemma picolCommandWhile_break
  (ev : picolInterp -> cstring -> outcome (retcode * picolInterp))
  (fuel : nat) (i i1 i2 : picolInterp) (w c b : cstring) (v : Z) :
  ev i c = Ret (PICOL_OK, i1) ->
  atoi (result i1) = Ret v -> v <> 0 ->
  ev i1 b = Ret (PICOL_BREAK, i2) ->
  picolCommandWhile ev (S fuel) i [w; c; b]
  = picolCommandWhile ev fuel i2 [w; c; b].
Proof.
  intros Hc Hv Hnz Hb. rewrite picolCommandWhile_S.
  unfold picolCommandWhile_body. simpl. rewrite Hc. simpl. rewrite Hv. simpl.
  destruct (v =? 0) eqn:E; [apply Z.eqb_eq in E; contradiction | ].
  rewrite Hb. reflexivity.
Qed.

(** The other cases of the loop: a condition that does not return OK,
    a condition whose result is 0, a body that returns ERR or RETURN. *)
Lemma picolCommandWhile_exits
  (ev : picolInterp -> cstring -> outcome (retcode * picolInterp))
  (fuel : nat) (i i1 : picolInterp) (w c b : cstring) :
  (forall rc, ev i c = Ret (rc, i1) -> rc <> PICOL_OK ->
              picolCommandWhile ev (S fuel) i [w; c; b] = Ret (rc, i1))
  /\ (ev i c = Ret (PICOL_OK, i1) -> atoi (result i1) = Ret 0 ->
      picolCommandWhile ev (S fuel) i [w; c; b] = Ret (PICOL_OK, i1))
  /\ (forall v rc i2,
         ev i c = Ret (PICOL_OK, i1) -> atoi (result i1) = Ret v -> v <> 0 ->
         ev i1 b = Ret (rc, i2) -> rc = PICOL_ERR \/ rc = PICOL_RETURN ->
         picolCommandWhile ev (S fuel) i [w; c; b] = Ret (rc, i2))
  /\ (forall v rc i2,
         ev i c = Ret (PICOL_OK, i1) -> atoi (result i1) = Ret v -> v <> 0 ->
         ev i1 b = Ret (rc, i2) -> rc = PICOL_OK \/ rc = PICOL_CONTINUE ->
         picolCommandWhile ev (S fuel) i [w; c; b]
         = picolCommandWhile ev fuel i2 [w; c; b]).
Proof.
  rewrite picolCommandWhile_S. unfold picolCommandWhile_body. simpl.
  repeat split.
  - intros rc Hc Hrc. rewrite Hc. simpl.
    destruct rc; try reflexivity. contradiction.
  - intros Hc Hv. rewrite Hc. simpl. rewrite Hv. reflexivity.
  - intros v rc i2 Hc Hv Hnz Hb Hrc. rewrite Hc. simpl. rewrite Hv. simpl.
    destruct (v =? 0) eqn:E; [apply Z.eqb_eq in E; contradiction | ].
    rewrite Hb. destruct Hrc as [-> | ->]; reflexivity.
  - intros v rc i2 Hc Hv Hnz Hb Hrc. rewrite Hc. simpl. rewrite Hv. simpl.
    destruct (v =? 0) eqn:E; [apply Z.eqb_eq in E; contradiction | ].
    rewrite Hb. destruct Hrc as [-> | ->]; reflexivity.
Qed.

(** C6, at a loop whose body ends in [break].  The body runs three times,
    until the condition fails: the variable ends at 3 and not at 1. *)
Theorem picolCommandWhile_ignores_break :
  exists i',
    picolEval 20 fresh_interp
      (bytes "set i 0;while {< $i 3} {set i [+ $i 1];break}")
    = Ret (PICOL_OK, i')
    /\ picolGetVar i' (bytes "i") = Ret (Some (mkVar (bytes "i") (bytes "3"))).
Proof. eexists. split; vm_compute; reflexivity. Qed.

(** C1, as stated, fails: the source has four words and [if] takes three
    or five, so no run of it returns OK. *)
Lemma picolCommandIf_four_words_counterexample :
  ~ (exists fuel i',
        picolEval fuel fresh_interp
          (bytes "if { == 1 1 } { set r yes } { set r no }")
        = Ret (PICOL_OK, i')
        /\ result i' = bytes "yes"
        /\ picolGetVar i' (bytes "r")
           = Ret (Some (mkVar (bytes "r") (bytes "yes")))).
Proof.
  intros [fuel [i' [E _]]].
  assert (E1 := picolEval_fuel fuel (Nat.max fuel 9) _ _ _ E
                  ltac:(discriminate) (Nat.le_max_l _ _)).
  assert (E2 : picolEval 9 fresh_interp
                 (bytes "if { == 1 1 } { set r yes } { set r no }")
               = Ret (PICOL_ERR,
                      picolSetResult fresh_interp
                        (bytes "Wrong number of args for if"))).
  { vm_compute. reflexivity. }
  assert (E3 := picolEval_fuel 9 (Nat.max fuel 9) _ _ _ E2
                  ltac:(discriminate) (Nat.le_max_r _ _)).
  rewrite E1 in E3. discriminate E3.
Qed.

(** C1, amended.  With enough fuel, the five-word form
    [if {== 1 1} {set r yes} else {set r no}] on a fresh interpreter
    returns OK with result [yes] and leaves [r] bound to [yes] in the
    current frame; the four-word source returns ERR with result
    [Wrong number of args for if] and changes nothing else. *)
Theorem picolCommandIf_else_scenario (fuel : nat) :
  (12 <= fuel)%nat ->
  (exists i',
      picolEval fuel fresh_interp
        (bytes "if {== 1 1} {set r yes} else {set r no}")
      = Ret (PICOL_OK, i')
      /\ result i' = bytes "yes"
      /\ picolGetVar i' (bytes "r")
         = Ret (Some (mkVar (bytes "r") (bytes "yes"))))
  /\ picolEval fuel fresh_interp
       (bytes "if { == 1 1 } { set r yes } { set r no }")
     = Ret (PICOL_ERR,
            picolSetResult fresh_interp (bytes "Wrong number of args for if")).
Proof.
  intros Hle. split.
  - destruct (picolEval 12 fresh_interp
                (bytes "if {== 1 1} {set r yes} else {set r no}"))
      as [[rc i'] | u | ] eqn:E;
      [ | vm_compute in E; discriminate E | vm_compute in E; discriminate E].
    exists i'.
    assert (Hrc : rc = PICOL_OK).
    { vm_compute in E. injection E as <- _. reflexivity. }
    subst rc. split; [ | split].
    + apply (picolEval_fuel 12 fuel); [exact E | discriminate | exact Hle].
    + vm_compute in E. injection E as <-. reflexivity.
    + vm_compute in E. injection E as <-. reflexivity.
  - apply (picolEval_fuel 9 fuel); [vm_compute; reflexivity | discriminate | ].
    lia.
Qed.

Lemma picolCommandIf_else_scenario_witness :
  (12 <= 12)%nat
  /\ (exists i',
         picolEval 12 fresh_interp
           (bytes "if {== 1 1} {set r yes} else {set r no}")
         = Ret (PICOL_OK, i')
         /\ result i' = bytes "yes"
         /\ picolGetVar i' (bytes "r")
            = Ret (Some (mkVar (bytes "r") (bytes "yes")))).
Proof.
  split; [apply le_n | ].
  exact (proj1 (picolCommandIf_else_scenario 12 (le_n 12))).
Defined.

Lemma snprintf_d_fits (c : Z) :
  (length (decimal_repr c) <= 9)%nat ->
  snprintf_d math_buf_size c = decimal_repr c.
Proof. intros H. unfold snprintf_d. apply firstn_all2. exact H. Qed.

(** Division by zero is undefined in C: the command does not return. *)
Lemma picolCommandMath_div_by_zero :
  picolCommandMath fresh_interp [bytes "/"; bytes "1"; bytes "0"]
  = Undef DivByZero.
Proof. vm_compute. reflexivity. Qed.

(** C4, at [+ 999999999 1] and at [- 0 100000000].  The operands are
    read as the claim says and the value is an [int], 1000000000 and
    -100000000; but the buffer the value is printed into,
    [buf[(sizeof(int)*CHAR_BIT)/3]], has ten bytes, so that [snprintf]
    keeps nine characters of the ten: the result is [100000000] and
    [-10000000], a tenth of the value, and not its decimal
    representation. *)
Theorem picolCommandMath_truncates :
  (atoi (bytes "999999999") = Ret 999999999 /\ atoi (bytes "1") = Ret 1
   /\ math_spec (bytes "+") 999999999 1 = Some 1000000000
   /\ in_int 1000000000 = true
   /\ decimal_repr 1000000000 = bytes "1000000000"
   /\ exists i',
        picolCommandMath fresh_interp
          [bytes "+"; bytes "999999999"; bytes "1"]
        = Ret (PICOL_OK, i')
        /\ result i' = bytes "100000000"
        /\ result i' <> decimal_repr 1000000000)
  /\ (atoi (bytes "0") = Ret 0 /\ atoi (bytes "100000000") = Ret 100000000
      /\ math_spec (bytes "-") 0 100000000 = Some (-100000000)
      /\ in_int (-100000000) = true
      /\ decimal_repr (-100000000) = bytes "-100000000"
      /\ exists i',
           picolCommandMath fresh_interp
             [bytes "-"; bytes "0"; bytes "100000000"]
           = Ret (PICOL_OK, i')
           /\ result i' = bytes "-10000000"
           /\ result i' <> decimal_repr (-100000000)).
Proof.
  split.
  - repeat (split; [vm_compute; reflexivity | ]).
    eexists. split; [vm_compute; reflexivity | ].
    split; [reflexivity | vm_compute; discriminate].
  - repeat (split; [vm_compute; reflexivity | ]).
    eexists. split; [vm_compute; reflexivity | ].
    split; [reflexivity | vm_compute; discriminate].
Qed.

(** * Further properties *)

(** ** The environment and the registry *)

Lemma cstr_idem (b : list Z) : cstr (cstr b) = cstr b.
Proof.
  induction b as [ | c b IH]; simpl; [reflexivity | ].
  destruct (c =? 0) eqn:E; simpl; [reflexivity | ].
  rewrite E, IH. reflexivity.
Qed.

Lemma strcmp0_refl (a : cstring) : strcmp0 a a = true.
Proof. apply cstring_eqb_eq. reflexivity. Qed.

Lemma strcmp0_neq (a b : cstring) : a <> b -> strcmp0 a b = false.
Proof.
  intros H. destruct (strcmp0 a b) eqn:E; [ | reflexivity].
  apply cstring_eqb_eq in E. contradiction.
Qed.

Lemma find_var_replace_same (vs : list picolVar) (n v : cstring)
  (x : picolVar) :
  find_var vs n = Some x ->
  find_var (replace_var vs n v) n = Some (mkVar (name x) v).
Proof.
  induction vs as [ | y vs IH]; simpl; [discriminate | ].
  destruct (strcmp0 (name y) n) eqn:E; simpl.
  - intros H. injection H as <-. rewrite E. reflexivity.
  - intros H. rewrite E. apply IH. exact H.
Qed.

Lemma find_var_replace_other (vs : list picolVar) (n m v : cstring) :
  m <> n -> find_var (replace_var vs n v) m = find_var vs m.
Proof.
  intros Hmn. induction vs as [ | y vs IH]; simpl; [reflexivity | ].
  destruct (strcmp0 (name y) n) eqn:E; simpl.
  - apply cstring_eqb_eq in E.
    rewrite (strcmp0_neq (name y) m) by congruence. reflexivity.
  - rewrite IH. reflexivity.
Qed.

Lemma replace_var_names (vs : list picolVar) (n v : cstring) :
  map name (replace_var vs n v) = map name vs.
Proof.
  induction vs as [ | y vs IH]; simpl; [reflexivity | ].
  destruct (strcmp0 (name y) n); simpl; [reflexivity | ].
  rewrite IH. reflexivity.
Qed.

Lemma replace_var_twice (vs : list picolVar) (n v w : cstring) :
  replace_var (replace_var vs n v) n w = replace_var vs n w.
Proof.
  induction vs as [ | y vs IH]; simpl; [reflexivity | ].
  destruct (strcmp0 (name y) n) eqn:E; simpl; rewrite E; [reflexivity | ].
  rewrite IH. reflexivity.
Qed.

Lemma find_var_None_names (vs : list picolVar) (n : cstring) :
  find_var vs n = None -> ~ In n (map name vs).
Proof.
  induction vs as [ | y vs IH]; simpl; [intros _ []| ].
  destruct (strcmp0 (name y) n) eqn:E; [discriminate | ].
  intros H [Hy | Hin]; [ | exact (IH H Hin)].
  rewrite Hy, strcmp0_refl in E. discriminate.
Qed.

(** X1.  After [picolSetVar] the variable is found with the value set, every
    other name is looked up as before, and nothing but the variables of
    the current frame has changed. *)
Theorem picolSetVar_then_picolGetVar
  (i : picolInterp) (vs : list picolVar) (pa : option picolCallFrame)
  (n v : cstring) :
  callframe i = Some (CallFrame vs pa) -> nul_free n ->
  exists vs',
    picolSetVar i n v
    = Ret (PICOL_OK, set_callframe i (Some (CallFrame vs' pa)))
    /\ find_var vs' n = Some (mkVar n (cstr v))
    /\ (forall m, m <> n -> find_var vs' m = find_var vs m).
Proof.
  intros Hcf Hn. unfold picolSetVar, picolGetVar. rewrite Hcf. simpl.
  destruct (find_var vs n) as [x | ] eqn:E.
  - exists (replace_var vs n (cstr v)). split; [reflexivity | ]. split.
    + rewrite (find_var_replace_same vs n (cstr v) x E).
      destruct (find_var_Some vs n x E) as [_ ->]. reflexivity.
    + intros m Hm. apply find_var_replace_other. exact Hm.
  - exists (mkVar (cstr n) (cstr v) :: vs). split; [reflexivity | ].
    unfold nul_free in Hn. rewrite Hn. simpl. split.
    + rewrite strcmp0_refl. reflexivity.
    + intros m Hm. rewrite strcmp0_neq by congruence. reflexivity.
Qed.

Lemma picolSetVar_then_picolGetVar_witness :
  callframe two_frames
  = Some (CallFrame [mkVar (bytes "x") (bytes "1")]
            (Some (CallFrame [mkVar (bytes "y") (bytes "2")] None)))
  /\ nul_free (bytes "y")
  /\ exists vs',
       picolSetVar two_frames (bytes "y") (bytes "3")
       = Ret (PICOL_OK,
              set_callframe two_frames
                (Some (CallFrame vs'
                         (Some (CallFrame [mkVar (bytes "y") (bytes "2")]
                                  None)))))
       /\ find_var vs' (bytes "y") = Some (mkVar (bytes "y") (cstr (bytes "3")))
       /\ (forall m, m <> bytes "y" ->
                     find_var vs' m
                     = find_var [mkVar (bytes "x") (bytes "1")] m).
Proof.
  split; [reflexivity | ]. split; [reflexivity | ].
  exact (picolSetVar_then_picolGetVar two_frames _ _ (bytes "y") (bytes "3")
           eq_refl eq_refl).
Defined.

(** X2.  Setting a variable twice is setting it once to the second value, and
    the names of a frame stay pairwise distinct. *)
Theorem picolSetVar_overwrites
  (i : picolInterp) (vs : list picolVar) (pa : option picolCallFrame)
  (n v w : cstring) :
  callframe i = Some (CallFrame vs pa) -> nul_free n ->
  NoDup (map name vs) ->
  ('(_, i1) <- picolSetVar i n v ;; picolSetVar i1 n w) = picolSetVar i n w
  /\ exists vs',
       picolSetVar i n w
       = Ret (PICOL_OK, set_callframe i (Some (CallFrame vs' pa)))
       /\ NoDup (map name vs')
       /\ (length vs <= length vs' <= S (length vs))%nat.
Proof.
  intros Hcf Hn Hnd. unfold picolSetVar, picolGetVar. rewrite Hcf. simpl.
  unfold nul_free in Hn.
  destruct (find_var vs n) as [x | ] eqn:E; simpl.
  - rewrite (find_var_replace_same vs n (cstr v) x E).
    rewrite replace_var_twice. split; [reflexivity | ].
    exists (replace_var vs n (cstr w)). split; [reflexivity | ].
    rewrite replace_var_names. split; [exact Hnd | ].
    rewrite <- (length_map name (replace_var vs n (cstr w))),
      replace_var_names, length_map. lia.
  - rewrite Hn, strcmp0_refl. simpl.
    split; [reflexivity | ].
    exists (mkVar n (cstr w) :: vs). split; [reflexivity | ].
    simpl. split; [ | lia].
    constructor; [apply find_var_None_names; exact E | exact Hnd].
Qed.

Lemma picolSetVar_overwrites_witness :
  callframe picolInitInterp = Some (CallFrame [] None)
  /\ nul_free (bytes "x") /\ NoDup (map name (@nil picolVar))
  /\ ('(_, i1) <- picolSetVar picolInitInterp (bytes "x") (bytes "v") ;;
      picolSetVar i1 (bytes "x") (bytes "w"))
     = picolSetVar picolInitInterp (bytes "x") (bytes "w").
Proof.
  split; [reflexivity | ]. split; [reflexivity | ]. split; [constructor | ].
  exact (proj1 (picolSetVar_overwrites picolInitInterp [] None (bytes "x")
                  (bytes "v") (bytes "w") eq_refl eq_refl (NoDup_nil _))).
Defined.

Lemma cstr_app (a b : list Z) : cstr a = a -> cstr (a ++ b) = a ++ cstr b.
Proof.
  induction a as [ | c a IH]; [reflexivity | ].
  change (cstr ((c :: a) ++ b))
    with (if c =? 0 then [] else c :: cstr (a ++ b)).
  change (cstr (c :: a)) with (if c =? 0 then [] else c :: cstr a).
  destruct (c =? 0); [discriminate | ].
  intros E. injection E as E. rewrite (IH E). reflexivity.
Qed.

(** An error message about a name is stored whole. *)
Lemma cstr_message (pre n post : cstring) :
  cstr pre = pre -> cstr n = n -> cstr post = post ->
  cstr (pre ++ n ++ post) = pre ++ n ++ post.
Proof.
  intros Hpre Hn Hpost.
  rewrite (cstr_app pre _ Hpre), (cstr_app n _ Hn), Hpost. reflexivity.
Qed.

(** X3.  [picolRegisterCommand] refuses a name that is taken, with the error
    message and the registry as it was; it adds a free name, which is then
    found with the function and private data given, every other name being
    looked up as before. *)
Theorem picolRegisterCommand_lookup
  (i : picolInterp) (n : cstring) (f : picolCmdFunc)
  (pd : option (cstring * cstring)) :
  nul_free n ->
  (forall c, picolGetCommand i n = Some c ->
             exists i',
               picolRegisterCommand i n f pd = (PICOL_ERR, i')
               /\ result i'
                  = bytes "Command '" ++ n ++ bytes "' already defined"
               /\ commands i' = commands i /\ callframe i' = callframe i
               /\ stdout i' = stdout i)
  /\ (picolGetCommand i n = None ->
      exists i',
        picolRegisterCommand i n f pd = (PICOL_OK, i')
        /\ picolGetCommand i' n = Some (mkCmd n f pd)
        /\ (forall m, m <> n -> picolGetCommand i' m = picolGetCommand i m)
        /\ callframe i' = callframe i /\ result i' = result i).
Proof.
  intros Hn. unfold nul_free in Hn. unfold picolRegisterCommand. split.
  - intros c Hc. rewrite Hc, Hn. unfold picolErr.
    eexists. split; [reflexivity | ].
    split; [ | repeat split; reflexivity].
    cbn [result picolSetResult].
    exact (cstr_message (bytes "Command '") n (bytes "' already defined")
             eq_refl Hn eq_refl).
  - intros Hnone. rewrite Hnone, Hn.
    eexists. split; [reflexivity | ].
    unfold picolGetCommand. simpl. rewrite strcmp0_refl.
    split; [reflexivity | ]. split; [ | split; reflexivity].
    intros m Hm. rewrite strcmp0_neq by congruence. reflexivity.
Qed.

Lemma picolRegisterCommand_lookup_witness :
  nul_free (bytes "set") /\ nul_free (bytes "sq")
  /\ (exists i',
         picolRegisterCommand fresh_interp (bytes "set") CommandCallProc None
         = (PICOL_ERR, i')
         /\ result i' = bytes "Command 'set' already defined"
         /\ commands i' = commands fresh_interp)
  /\ exists i',
       picolRegisterCommand fresh_interp (bytes "sq") CommandCallProc None
       = (PICOL_OK, i')
       /\ picolGetCommand i' (bytes "sq")
          = Some (mkCmd (bytes "sq") CommandCallProc None).
Proof.
  split; [reflexivity | ]. split; [reflexivity | ]. split.
  - destruct (proj1 (picolRegisterCommand_lookup fresh_interp (bytes "set")
                       CommandCallProc None eq_refl)
                (mkCmd (bytes "set") CommandSet None) eq_refl)
      as [i' [H1 [H2 [H3 _]]]].
    exists i'. split; [exact H1 | ]. split; [exact H2 | exact H3].
  - destruct (proj2 (picolRegisterCommand_lookup fresh_interp (bytes "sq")
                       CommandCallProc None eq_refl) eq_refl)
      as [i' [H1 [H2 _]]].
    exists i'. split; assumption.
Defined.

(** ** What an evaluation leaves alone *)

Ltac ext_step :=
  match goal with
  | |- returns _ (bind _ _) =>
      first [ eapply returns_bind;
                [ solve [ eauto with picol ]
                | first [ intros [? ?] ? | intros ? ? ]; cbn [snd] in * ]
            | apply returns_bind_any; intros ? ]
  | |- returns _ (if ?b then _ else _) => destruct b
  | |- returns _ (match ?x with _ => _ end) => destruct x
  | |- returns _ (Ret _) => apply returns_Ret; cbn [snd]
  | |- returns _ (let _ := _ in _) => cbv zeta
  end.
Ltac ext_tac := repeat (first [ solve [ eauto with picol ] | ext_step ]).

Lemma extends_picolSetResult d out cs (i : picolInterp) (s : cstring) :
  extends d out cs i -> extends d out cs (picolSetResult i s).
Proof. intros H. exact H. Qed.

Lemma extends_picolErr d out cs (i : picolInterp) (msg : cstring) :
  extends d out cs i -> extends d out cs (snd (picolErr i msg)).
Proof. intros H. exact H. Qed.

Lemma extends_picolArityErr d out cs (i : picolInterp) (nm : cstring) :
  extends d out cs i -> extends d out cs (snd (picolArityErr i nm)).
Proof. intros H. exact H. Qed.

Lemma extends_puts d out cs (i : picolInterp) (l : cstring) :
  extends d out cs i -> extends d out cs (set_stdout i (stdout i ++ [l])).
Proof.
  intros [Hb [[more Ho] Hc]]. split; [exact Hb | ]. split; [ | exact Hc].
  exists (more ++ [l]). simpl. rewrite Ho, app_assoc. reflexivity.
Qed.

Lemma extends_picolRegisterCommand d out cs (i : picolInterp) (n : cstring)
  (pd : option (cstring * cstring)) :
  nul_free n ->
  extends d out cs i ->
  extends d out cs (snd (picolRegisterCommand i n CommandCallProc pd)).
Proof.
  intros Hn [Hb [Ho [procs [Hc [Hp Hl]]]]]. unfold picolRegisterCommand.
  destruct (picolGetCommand i n) eqn:E.
  - split; [exact Hb | ]. split; [exact Ho | ].
    exists procs. repeat split; assumption.
  - split; [exact Hb | ]. split; [exact Ho | ].
    exists (mkCmd (cstr n) CommandCallProc pd :: procs). simpl.
    rewrite Hc. split; [reflexivity | ].
    split; [constructor; [reflexivity | exact Hp] | ].
    intros m c Hm. unfold nul_free in Hn. rewrite Hn.
    destruct (strcmp0 n m) eqn:Enm; [ | apply Hl; exact Hm].
    apply cstring_eqb_eq in Enm. subst m.
    unfold picolGetCommand in E. rewrite Hc, (Hl n c Hm) in E.
    discriminate E.
Qed.

Lemma arg_nul_free (argv : list cstring) (k : Z) :
  Forall nul_free argv -> returns nul_free (arg argv k).
Proof.
  intros H. unfold arg. destruct (k <? 0); [apply returns_Undef | ].
  destruct (nth_error argv (Z.to_nat k)) as [a | ] eqn:E;
    [ | apply returns_Undef].
  apply returns_Ret. rewrite Forall_forall in H. apply H.
  eapply nth_error_In. exact E.
Qed.

(** The words of the argument vector are C strings. *)
Lemma append_word_nul_free (prevtype : ptype) (argv : list cstring)
  (t : list Z) (tlen : Z) :
  Forall nul_free argv ->
  returns (Forall nul_free) (append_word prevtype argv t tlen).
Proof.
  intros H. unfold append_word.
  destruct (ptype_eqb prevtype PT_SEP || ptype_eqb prevtype PT_EOL).
  - apply returns_Ret. apply Forall_app. split; [exact H | ].
    constructor; [apply cstr_idem | constructor].
  - destruct (rev argv) as [ | l front] eqn:E; [apply returns_Undef | ].
    apply returns_Ret. apply Forall_app. split.
    + apply Forall_rev. apply Forall_rev in H. rewrite E in H.
      inversion H. assumption.
    + constructor; [apply cstr_idem | constructor].
Qed.

#[local] Hint Resolve arg_nul_free append_word_nul_free : picol.
#[local] Hint Resolve Forall_nil : picol.

#[local] Hint Resolve extends_picolSetResult extends_picolErr
  extends_picolArityErr extends_puts extends_picolRegisterCommand : picol.

Lemma picolSetVar_extends d out cs (i : picolInterp) (n v : cstring) :
  extends d out cs i ->
  returns (fun r => extends d out cs (snd r)) (picolSetVar i n v).
Proof.
  intros H. unfold picolSetVar, picolGetVar.
  destruct i as [lv cf cmds r o]. unfold extends, below in *. simpl in *.
  destruct cf as [[vs pa] | ]; simpl; [ | apply returns_Undef].
  apply returns_Ret. exact H.
Qed.

#[local] Hint Resolve picolSetVar_extends : picol.

Lemma bind_formals_extends d out cs (fuel : nat) :
  forall s arity i argv,
    extends d out cs i ->
    returns (fun r => match r with
                      | inl j => extends d out cs j
                      | inr (_, j) => extends d out cs j
                      end) (bind_formals fuel s arity i argv).
Proof.
  induction fuel as [ | fuel IH]; intros s arity i argv Hd; simpl.
  - apply returns_Timeout.
  - destruct (scan_formal s) as [nm rest].
    assert (Hbind :
      returns (fun r => match r with
                        | inl j => extends d out cs j
                        | inr (_, j) => extends d out cs j
                        end)
        (if arity + 1 >? argc_of argv - 1 then Ret (inl i)
         else a <- arg argv (arity + 1) ;;
              '(_, i0) <- picolSetVar i nm a ;;
              match rest with
              | None => Ret (inr (arity + 1, i0))
              | Some s' => bind_formals fuel s' (arity + 1) i0 argv
              end)).
    { ext_tac. }
    destruct nm as [ | c nm]; [ | exact Hbind].
    destruct rest as [s' | ].
    + apply IH. exact Hd.
    + apply returns_Ret. exact Hd.
Qed.

Lemma picolCommandMath_extends d out cs (i : picolInterp)
  (argv : list cstring) :
  extends d out cs i ->
  returns (fun r => extends d out cs (snd r)) (picolCommandMath i argv).
Proof. intros Hd. unfold picolCommandMath. ext_tac. Qed.

Lemma picolCommandSet_extends d out cs (i : picolInterp)
  (argv : list cstring) :
  extends d out cs i ->
  returns (fun r => extends d out cs (snd r)) (picolCommandSet i argv).
Proof. intros Hd. unfold picolCommandSet. ext_tac. Qed.

Lemma picolCommandPuts_extends d out cs (i : picolInterp)
  (argv : list cstring) :
  extends d out cs i ->
  returns (fun r => extends d out cs (snd r)) (picolCommandPuts i argv).
Proof. intros Hd. unfold picolCommandPuts. ext_tac. Qed.

Lemma picolCommandRetCodes_extends d out cs (i : picolInterp)
  (argv : list cstring) :
  extends d out cs i ->
  returns (fun r => extends d out cs (snd r)) (picolCommandRetCodes i argv).
Proof. intros Hd. unfold picolCommandRetCodes. ext_tac. Qed.

Lemma picolCommandProc_extends d out cs (i : picolInterp)
  (argv : list cstring) :
  Forall nul_free argv ->
  extends d out cs i ->
  returns (fun r => extends d out cs (snd r)) (picolCommandProc i argv).
Proof. intros Hargv Hd. unfold picolCommandProc. ext_tac. Qed.

Lemma picolCommandReturn_extends d out cs (i : picolInterp)
  (argv : list cstring) :
  extends d out cs i ->
  returns (fun r => extends d out cs (snd r)) (picolCommandReturn i argv).
Proof. intros Hd. unfold picolCommandReturn. ext_tac. Qed.

#[local] Hint Resolve bind_formals_extends picolCommandMath_extends
  picolCommandSet_extends picolCommandPuts_extends
  picolCommandRetCodes_extends picolCommandProc_extends
  picolCommandReturn_extends : picol.

Section Extends.

Variable ev : picolInterp -> cstring -> outcome (retcode * picolInterp).
Hypothesis ev_extends :
  forall d out cs i s,
    extends d out cs i -> returns (fun r => extends d out cs (snd r)) (ev i s).

#[local] Hint Resolve ev_extends : picol.

Lemma picolCommandIf_extends d out cs (i : picolInterp)
  (argv : list cstring) :
  extends d out cs i ->
  returns (fun r => extends d out cs (snd r)) (picolCommandIf ev i argv).
Proof. intros Hd. unfold picolCommandIf. ext_tac. Qed.

Lemma picolCommandWhile_extends d out cs (fuel : nat) :
  forall i argv,
    extends d out cs i ->
    returns (fun r => extends d out cs (snd r))
      (picolCommandWhile ev fuel i argv).
Proof.
  induction fuel as [ | fuel IH]; intros i argv Hd; simpl.
  - ext_tac.
  - unfold picolCommandWhile_body. ext_tac.
Qed.

(** The dispatcher gives the frame stack back exactly as it got it. *)
Lemma picolCommandCallProc_extends d out cs (i : picolInterp)
  (argv : list cstring) (pd : option (cstring * cstring)) :
  extends d out cs i ->
  returns (fun r => extends d out cs (snd r)
                    /\ callframe (snd r) = callframe i)
    (picolCommandCallProc ev i argv pd).
Proof.
  intros Hd. unfold picolCommandCallProc.
  destruct pd as [[alist body] | ]; [ | apply returns_Undef].
  cbv zeta.
  assert (Hpush : extends (Some (callframe i)) out cs
                    (set_callframe i (Some (CallFrame [] (callframe i))))).
  { destruct Hd as [_ Hd]. split; [reflexivity | exact Hd]. }
  assert (Hdrop : forall j, extends (Some (callframe i)) out cs j ->
    returns (fun j' => extends d out cs j' /\ callframe j' = callframe i)
      (picolDropCallFrame j)).
  { intros j [Hb Hj]. unfold picolDropCallFrame.
    destruct j as [lv cf cmds r o]. unfold below in Hb. simpl in *.
    destruct cf as [cf | ]; [ | apply returns_Undef].
    simpl in Hb. injection Hb as Hb.
    apply returns_Ret. simpl. split; [ | exact Hb].
    split; [ | exact Hj].
    unfold below. simpl. rewrite Hb. apply Hd. }
  assert (Harity : forall j, extends (Some (callframe i)) out cs j ->
    returns (fun r => extends d out cs (snd r)
                      /\ callframe (snd r) = callframe i)
      (j' <- picolDropCallFrame j ;;
       a0 <- arg argv 0 ;;
       Ret (picolErr j' (bytes "Proc '" ++ a0
                         ++ bytes "' called with wrong arg num")))).
  { intros j Hj. eapply returns_bind; [apply Hdrop; exact Hj | ].
    intros j' Hj'. apply returns_bind_any. intros a0.
    apply returns_Ret. exact Hj'. }
  eapply returns_bind.
  - apply (bind_formals_extends (Some (callframe i)) out cs). exact Hpush.
  - intros [j | [arity j]] Hj; cbv beta iota in Hj.
    + apply Harity. exact Hj.
    + destruct (negb (arity =? argc_of argv - 1)).
      * apply Harity. exact Hj.
      * eapply returns_bind.
        -- apply (ev_extends (Some (callframe i)) out cs). exact Hj.
        -- intros [errcode j'] Hj'. cbn [snd] in Hj'.
           eapply returns_bind; [apply Hdrop; exact Hj' | ].
           intros j'' Hj''. apply returns_Ret. exact Hj''.
Qed.

Lemma picolCommandCallProc_extends' d out cs (i : picolInterp)
  (argv : list cstring) (pd : option (cstring * cstring)) :
  extends d out cs i ->
  returns (fun r => extends d out cs (snd r))
    (picolCommandCallProc ev i argv pd).
Proof.
  intros Hd r E.
  apply (picolCommandCallProc_extends d out cs i argv pd Hd r E).
Qed.

#[local] Hint Resolve picolCommandIf_extends picolCommandWhile_extends
  picolCommandCallProc_extends' : picol.

Lemma call_func_extends d out cs (fuel : nat) (c : picolCmd)
  (i : picolInterp) (argv : list cstring) :
  Forall nul_free argv ->
  extends d out cs i ->
  returns (fun r => extends d out cs (snd r)) (call_func ev fuel c i argv).
Proof. intros Hargv Hd. unfold call_func. ext_tac. Qed.

#[local] Hint Resolve call_func_extends : picol.

Lemma picolEval_loop_extends d out cs (fuel : nat) :
  forall i p prevtype argv rc,
    Forall nul_free argv ->
    extends d out cs i ->
    returns (fun r => extends d out cs (snd r))
      (picolEval_loop ev fuel i p prevtype argv rc).
Proof.
  induction fuel as [ | fuel IH]; intros i p prevtype argv rc Hargv Hd; simpl.
  - ext_tac.
  - unfold picolEval_body. ext_tac.
Qed.

End Extends.

Lemma picolEval_extends (fuel : nat) :
  forall d out cs i s,
    extends d out cs i ->
    returns (fun r => extends d out cs (snd r)) (picolEval fuel i s).
Proof.
  induction fuel as [ | fuel IH]; intros d out cs i s Hd; simpl.
  - apply returns_Timeout.
  - apply picolEval_loop_extends; [exact IH | constructor | exact Hd].
Qed.

Lemma extends_refl (i : picolInterp) :
  extends (below i) (stdout i) (commands i) i.
Proof.
  split; [reflexivity | ]. split.
  - exists []. rewrite app_nil_r. reflexivity.
  - exists []. split; [reflexivity | ]. split; [constructor | ].
    intros n c H. exact H.
Qed.

(** X4.  An evaluation writes variables in the current frame only: the frames
    below it are the same when [picolEval] returns; and a call of a user
    procedure gives the whole frame stack back as it was, so the body of a
    procedure cannot touch a variable of its caller. *)
Theorem picolEval_keeps_frames_below :
  (forall (fuel : nat) (i : picolInterp) (s : cstring)
          (rc : retcode) (i' : picolInterp),
      picolEval fuel i s = Ret (rc, i') -> below i' = below i)
  /\ (forall (fuel : nat) (i : picolInterp) (argv : list cstring)
             (pd : option (cstring * cstring))
             (rc : retcode) (i' : picolInterp),
         picolCommandCallProc (picolEval fuel) i argv pd = Ret (rc, i') ->
         callframe i' = callframe i).
Proof.
  split.
  - intros fuel i s rc i' E.
    apply (picolEval_extends fuel _ _ _ i s (extends_refl i) (rc, i') E).
  - intros fuel i argv pd rc i' E.
    apply (picolCommandCallProc_extends (picolEval fuel)
             (picolEval_extends fuel) _ _ _ i argv pd (extends_refl i)
             (rc, i') E).
Qed.

(** [set y 1], then a procedure that sets its own [y]: the caller's [y]
    is still 1. *)
Lemma picolEval_keeps_frames_below_witness :
  exists rc i',
    picolEval 20 fresh_interp (bytes "proc f {x} {set y $x};set y 1;f 2")
    = Ret (rc, i')
    /\ below i' = below fresh_interp
    /\ picolGetVar i' (bytes "y") = Ret (Some (mkVar (bytes "y") (bytes "1"))).
Proof.
  destruct (picolEval 20 fresh_interp
              (bytes "proc f {x} {set y $x};set y 1;f 2"))
    as [[rc i'] | u | ] eqn:E;
    [ | vm_compute in E; discriminate E | vm_compute in E; discriminate E].
  exists rc, i'. split; [reflexivity | ]. split.
  - exact (proj1 picolEval_keeps_frames_below _ _ _ _ _ E).
  - vm_compute in E. injection E as _ <-. reflexivity.
Defined.

(** X5.  An evaluation only ever adds to the output: what was written before
    [picolEval] is a prefix of what is written after. *)
Theorem picolEval_appends_output
  (fuel : nat) (i : picolInterp) (s : cstring)
  (rc : retcode) (i' : picolInterp) :
  picolEval fuel i s = Ret (rc, i') ->
  exists more, stdout i' = stdout i ++ more.
Proof.
  intros E.
  apply (picolEval_extends fuel _ _ _ i s (extends_refl i) (rc, i') E).
Qed.

Lemma picolEval_appends_output_witness :
  exists rc i',
    picolEval 20 (set_stdout fresh_interp [bytes "before"])
      (bytes "puts a;puts b;nosuch")
    = Ret (rc, i')
    /\ (exists more, stdout i' = [bytes "before"] ++ more)
    /\ stdout i' = [bytes "before"; [97; 10]; [98; 10]].
Proof.
  destruct (picolEval 20 (set_stdout fresh_interp [bytes "before"])
              (bytes "puts a;puts b;nosuch"))
    as [[rc i'] | u | ] eqn:E;
    [ | vm_compute in E; discriminate E | vm_compute in E; discriminate E].
  exists rc, i'. split; [reflexivity | ]. split.
  - exact (picolEval_appends_output _ _ _ _ _ E).
  - vm_compute in E. injection E as _ <-. reflexivity.
Defined.

(** X6.  An evaluation never removes, replaces or hides a command: when
    [picolEval] returns, the registry is the one before with user
    procedures added in front, and every name that was registered is
    looked up to the same command. *)
Theorem picolEval_keeps_commands
  (fuel : nat) (i : picolInterp) (s : cstring)
  (rc : retcode) (i' : picolInterp) :
  picolEval fuel i s = Ret (rc, i') ->
  (exists procs,
      commands i' = procs ++ commands i
      /\ Forall (fun c => func c = CommandCallProc) procs)
  /\ (forall n c, picolGetCommand i n = Some c ->
                  picolGetCommand i' n = Some c).
Proof.
  intros E.
  destruct (picolEval_extends fuel _ _ _ i s (extends_refl i) (rc, i') E)
    as [_ [_ [procs [Hc [Hp Hl]]]]].
  cbn [snd] in *. split.
  - exists procs. split; assumption.
  - intros n c Hn. unfold picolGetCommand in *. rewrite Hc.
    apply Hl. exact Hn.
Qed.

(** A script that tries to redefine [set] and then defines [f]: [set] is
    still the built-in. *)
Lemma picolEval_keeps_commands_witness :
  exists rc i',
    picolEval 20 fresh_interp (bytes "proc f {} {};proc set {} {}")
    = Ret (rc, i')
    /\ picolGetCommand i' (bytes "set")
       = Some (mkCmd (bytes "set") CommandSet None)
    /\ picolGetCommand i' (bytes "f")
       = Some (mkCmd (bytes "f") CommandCallProc (Some ([], []))).
Proof.
  destruct (picolEval 20 fresh_interp (bytes "proc f {} {};proc set {} {}"))
    as [[rc i'] | u | ] eqn:E;
    [ | vm_compute in E; discriminate E | vm_compute in E; discriminate E].
  exists rc, i'. split; [reflexivity | ]. split.
  - apply (proj2 (picolEval_keeps_commands _ _ _ _ _ E)). reflexivity.
  - vm_compute in E. injection E as _ <-. reflexivity.
Defined.

(** ** Each token consumes input *)

Lemma same_input_refl (p : picolParser) : same_input p p.
Proof. split; reflexivity. Qed.

Lemma same_input_trans (p q r : picolParser) :
  same_input p q -> same_input q r -> same_input p r.
Proof. unfold same_input. intros [H1 H2] [H3 H4]. split; congruence. Qed.

Lemma same_input_advance (p q : picolParser) :
  same_input p q -> same_input p (advance q).
Proof.
  unfold same_input, advance. simpl. intros [H1 H2].
  split; [exact H1 | lia].
Qed.

Lemma same_input_set_start (p q : picolParser) (x : Z) :
  same_input p q -> same_input p (set_start q x).
Proof. intros H. exact H. Qed.

Lemma same_input_set_end (p q : picolParser) (x : Z) :
  same_input p q -> same_input p (set_end q x).
Proof. intros H. exact H. Qed.

Lemma same_input_set_type (p q : picolParser) (x : ptype) :
  same_input p q -> same_input p (set_type q x).
Proof. intros H. exact H. Qed.

Lemma same_input_set_insidequote (p q : picolParser) (x : bool) :
  same_input p q -> same_input p (set_insidequote q x).
Proof. intros H. exact H. Qed.

#[local] Hint Resolve same_input_refl same_input_advance
  same_input_set_start same_input_set_end same_input_set_type
  same_input_set_insidequote : picol.

(** Walk down [returns Q e] along the binds and case distinctions of a
    parser function, the parsers met being on the input of [p0]. *)
Ltac in_step p0 :=
  match goal with
  | |- context [if ?b then _ else _] => destruct b; cbv beta iota
  | |- returns _ (bind _ _) =>
      first [ apply (returns_bind _ _ (same_input p0));
                [ solve [ eauto 8 with picol ] | intros ? ? ]
            | apply (returns_bind _ _
                       (fun r => match r with
                                 | inl q => same_input p0 q
                                 | inr q => same_input p0 q
                                 end));
                [ solve [ eauto 8 with picol ] | intros [? | ?] ? ]
            | apply (returns_bind _ _ (fun r => fst r = PICOL_OK
                                               /\ same_input p0 (snd r)));
                [ solve [ eauto 8 with picol ]
                | intros [? ?] [_ ?]; cbn [snd] in * ]
            | apply returns_bind_any; intros ? ]
  | |- returns _ (if ?b then _ else _) => destruct b
  | |- returns _ (match ?x with _ => _ end) => destruct x
  | |- returns _ (Ret _) => apply returns_Ret
  | |- returns _ (let _ := _ in _) => cbv zeta
  end.
Ltac in_tac p0 :=
  repeat (first [ solve [ eauto 8 with picol ] | in_step p0 ]).

Lemma picolParseSep_loop_same (p0 : picolParser) (fuel : nat) :
  forall p eol, same_input p0 p ->
                returns (same_input p0) (picolParseSep_loop fuel p eol).
Proof. induction fuel as [ | fuel IH]; intros p eol H; simpl; in_tac p0. Qed.

Lemma picolParseCommand_loop_same (p0 : picolParser) (fuel : nat) :
  forall p l b, same_input p0 p ->
                returns (same_input p0) (picolParseCommand_loop fuel p l b).
Proof. induction fuel as [ | fuel IH]; intros p l b H; simpl; in_tac p0. Qed.

Lemma picolParseVar_loop_same (p0 : picolParser) (fuel : nat) :
  forall p, same_input p0 p ->
            returns (same_input p0) (picolParseVar_loop fuel p).
Proof. induction fuel as [ | fuel IH]; intros p H; simpl; in_tac p0. Qed.

Lemma picolParseBrace_loop_same (p0 : picolParser) (fuel : nat) :
  forall p l, same_input p0 p ->
              returns (same_input p0) (picolParseBrace_loop fuel p l).
Proof. induction fuel as [ | fuel IH]; intros p l H; simpl; in_tac p0. Qed.

Lemma picolParseString_loop_same (p0 : picolParser) (fuel : nat) :
  forall p, same_input p0 p ->
            returns (fun r => match r with
                              | inl q => same_input p0 q
                              | inr q => same_input p0 q
                              end) (picolParseString_loop fuel p).
Proof. induction fuel as [ | fuel IH]; intros p H; simpl; in_tac p0. Qed.

Lemma picolParseComment_loop_same (p0 : picolParser) (fuel : nat) :
  forall p, same_input p0 p ->
            returns (same_input p0) (picolParseComment_loop fuel p).
Proof. induction fuel as [ | fuel IH]; intros p H; simpl; in_tac p0. Qed.

#[local] Hint Resolve picolParseSep_loop_same picolParseCommand_loop_same
  picolParseVar_loop_same picolParseBrace_loop_same
  picolParseString_loop_same picolParseComment_loop_same : picol.

Lemma token_of_intro (p0 q : picolParser) :
  same_input p0 q -> token_of p0 (PICOL_OK, q).
Proof. intros H. split; [reflexivity | exact H]. Qed.

#[local] Hint Resolve token_of_intro : picol.

Lemma picolParseSep_same (p0 p : picolParser) (eol : Z) :
  same_input p0 p -> returns (token_of p0) (picolParseSep p eol).
Proof. intros H. unfold picolParseSep. in_tac p0. Qed.

Lemma picolParseCommand_same (p0 p : picolParser) :
  same_input p0 p -> returns (token_of p0) (picolParseCommand p).
Proof. intros H. unfold picolParseCommand. in_tac p0. Qed.

Lemma picolParseVar_same (p0 p : picolParser) :
  same_input p0 p -> returns (token_of p0) (picolParseVar p).
Proof. intros H. unfold picolParseVar. in_tac p0. Qed.

Lemma picolParseBrace_same (p0 p : picolParser) :
  same_input p0 p -> returns (token_of p0) (picolParseBrace p).
Proof. intros H. unfold picolParseBrace. in_tac p0. Qed.

#[local] Hint Resolve picolParseSep_same picolParseCommand_same
  picolParseVar_same picolParseBrace_same : picol.

Lemma picolParseString_same (p0 p : picolParser) :
  same_input p0 p -> returns (token_of p0) (picolParseString p).
Proof. intros H. unfold picolParseString. in_tac p0. Qed.

Lemma picolParseComment_same (p0 p : picolParser) :
  same_input p0 p -> returns (token_of p0) (picolParseComment p).
Proof. intros H. unfold picolParseComment. in_tac p0. Qed.

#[local] Hint Resolve picolParseString_same picolParseComment_same : picol.

Lemma picolGetToken_loop_same (p0 : picolParser) (fuel : nat) :
  forall p, same_input p0 p ->
            returns (token_of p0) (picolGetToken_loop fuel p).
Proof.
  induction fuel as [ | fuel IH]; intros p H; simpl; in_tac p0.
Qed.

Lemma total_returns {A : Type} (Q : A -> Prop) (o : outcome A) :
  total Q o -> returns Q o.
Proof. intros [_ H]. exact H. Qed.

Lemma returns_weaken {A : Type} (P Q : A -> Prop) (o : outcome A) :
  returns P o -> (forall a, P a -> Q a) -> returns Q o.
Proof. intros H HPQ a E. apply HPQ, H, E. Qed.

Lemma picolParseSep_loop_S (fuel : nat) (p : picolParser) (eol : Z) :
  picolParseSep_loop (S fuel) p eol
  = (c <- peek p ;;
     if negb (isgraph c) || (negb (eol =? 0) && (c =? eol))
     then picolParseSep_loop fuel (advance p) eol
     else Ret p).
Proof. reflexivity. Qed.

Lemma picolParseString_loop_S (fuel : nat) (p : picolParser) :
  picolParseString_loop (S fuel) p
  = (if len p >? 0 then
       c <- peek p ;;
       if (c =? ch_dollar) || (c =? ch_lbracket) then Ret (inr p)
       else if c =? ch_dquote then
         if negb (insidequote p) then picolParseString_loop fuel (advance p)
         else
           let p := set_end p (pos p - 1) in
           let p := set_type p PT_ESC in
           let p := advance p in
           Ret (inl (set_insidequote p false))
       else if c =? ch_bslash then
         let p := if len p >=? 2 then advance p else p in
         picolParseString_loop fuel (advance p)
       else if (negb (isgraph c) || (c =? ch_semi)) && negb (insidequote p)
       then Ret (inr p)
       else picolParseString_loop fuel (advance p)
     else Ret (inr p)).
Proof. reflexivity. Qed.

Lemma picolParseComment_loop_S (fuel : nat) (p : picolParser) :
  picolParseComment_loop (S fuel) p
  = (if negb (len p =? 0) then
       c <- peek p ;;
       if negb (c =? ch_nl) then picolParseComment_loop fuel (advance p)
       else Ret p
     else Ret p).
Proof. reflexivity. Qed.

Lemma picolGetToken_loop_S (fuel : nat) (p : picolParser) :
  picolGetToken_loop (S fuel) p
  = (if len p >? 0 then
       c <- peek p ;;
       if (c =? ch_nl) || (c =? ch_semi) then
         if insidequote p then picolParseString p
         else picolParseSep p ch_semi
       else if c =? ch_lbracket then picolParseCommand p
       else if c =? ch_dollar then picolParseVar p
       else if c =? ch_hash then
         if negb (ptype_eqb (type p) PT_EOL) then picolParseString p
         else
           '(_, p) <- picolParseComment p ;;
           picolGetToken_loop fuel p
       else if isgraph c || insidequote p then picolParseString p
       else picolParseSep p 0
     else
       let t := if negb (ptype_eqb (type p) PT_EOL)
                   && negb (ptype_eqb (type p) PT_EOF)
                then PT_EOL else PT_EOF in
       Ret (PICOL_OK, set_type p t)).
Proof. reflexivity. Qed.

Lemma peek_on_text (p : picolParser) (c : Z) :
  peek p = Ret c -> on_text p /\ (c <> 0 -> pos p < strlen (text p)).
Proof. intros H. apply (proj2 (total_peek p) c H). Qed.

Lemma picolParseSep_progress (p : picolParser) (eol c : Z) :
  peek p = Ret c ->
  negb (isgraph c) || (negb (eol =? 0) && (c =? eol)) = true ->
  returns (fun r => moved p (snd r)) (picolParseSep p eol).
Proof.
  intros Hc Hcond. destruct (peek_on_text p c Hc) as [Hon _].
  unfold picolParseSep, scan_fuel. rewrite picolParseSep_loop_S.
  change (peek (set_start p (pos p))) with (peek p).
  rewrite Hc. cbn [bind]. rewrite Hcond.
  eapply returns_bind.
  - apply total_returns, picolParseSep_loop_total. bounds.
  - intros q Hq. apply returns_Ret. unfold moved. bounds.
Qed.

Lemma picolParseCommand_progress (p : picolParser) :
  on_text p -> returns (fun r => moved p (snd r)) (picolParseCommand p).
Proof.
  intros Hok. unfold picolParseCommand. cbv zeta.
  eapply returns_bind.
  - apply total_returns, picolParseCommand_loop_total.
    apply (enough_scan_fuel_advance p) in Hok. unfold scan_fuel in *. bounds.
  - intros q Hq. cbv beta.
    eapply returns_bind; [apply total_returns, total_peek | ].
    intros c [Hc Hnz].
    cbn [pos text set_type set_end] in Hc, Hnz.
    destruct (c =? ch_rbracket) eqn:Er.
    + assert (c <> 0) by (eapply eqb_nonzero; [exact Er | discriminate]).
      apply returns_Ret. unfold moved, on_text in *. bounds.
    + apply returns_Ret. unfold moved, on_text in *. bounds.
Qed.

Lemma picolParseVar_progress (p : picolParser) :
  on_text p -> returns (fun r => moved p (snd r)) (picolParseVar p).
Proof.
  intros Hok. unfold picolParseVar. cbv zeta.
  eapply returns_bind.
  - apply total_returns, picolParseVar_loop_total.
    apply (enough_scan_fuel_advance p) in Hok. unfold scan_fuel in *. bounds.
  - intros q Hq. cbv beta. unfold moved, on_text in *.
    destruct (start q =? pos q); apply returns_Ret; bounds.
Qed.

Lemma picolParseBrace_progress (p : picolParser) :
  on_text p -> returns (fun r => moved p (snd r)) (picolParseBrace p).
Proof.
  intros Hok. unfold picolParseBrace. cbv zeta.
  eapply returns_bind.
  - apply total_returns, picolParseBrace_loop_total.
    apply (enough_scan_fuel_advance p) in Hok. unfold scan_fuel in *. bounds.
  - intros q [Hq Hlen]. cbv beta. unfold moved, on_text in *.
    cbn [len set_end].
    destruct (Z.gtb_spec (len q) 0) as [Hl | Hl]; apply returns_Ret; bounds.
Qed.

Lemma picolParseString_progress (p : picolParser) (c : Z) :
  peek p = Ret c -> len p > 0 ->
  (c =? ch_dollar) || (c =? ch_lbracket) = false ->
  (negb (isgraph c) || (c =? ch_semi)) && negb (insidequote p) = false ->
  returns (fun r => moved p (snd r)) (picolParseString p).
Proof.
  intros Hc Hlen Hsub Hstop. destruct (peek_on_text p c Hc) as [Hon Hnz].
  unfold picolParseString. cbv zeta. rewrite Hc. cbn [bind].
  destruct ((ptype_eqb (type p) PT_SEP || ptype_eqb (type p) PT_EOL
             || ptype_eqb (type p) PT_STR) && (c =? ch_lbrace)).
  { apply picolParseBrace_progress. exact Hon. }
  assert (Hret : forall q : picolParser, after (advance p) q -> moved p q).
  { intros q Hq. unfold moved, on_text in *. bounds. }
  destruct ((ptype_eqb (type p) PT_SEP || ptype_eqb (type p) PT_EOL
             || ptype_eqb (type p) PT_STR) && (c =? ch_dquote)) eqn:Eq.
  - apply andb_true_iff in Eq. destruct Eq as [_ Eq].
    assert (c <> 0) by (eapply eqb_nonzero; [exact Eq | discriminate]).
    eapply returns_bind.
    + apply total_returns, picolParseString_loop_total.
      assert (He := enough_scan_fuel_advance p Hon).
      unfold scan_fuel in *. bounds.
    + intros [q | q] Hq; apply returns_Ret; apply Hret; bounds.
  - unfold scan_fuel. rewrite picolParseString_loop_S.
    cbn [len set_start].
    replace (len p >? 0) with true by (symmetry; apply Z.gtb_lt; lia).
    change (peek (set_start p (pos p))) with (peek p).
    rewrite Hc. cbn [bind]. rewrite Hsub.
    assert (Hgo : forall p1,
      after (advance p) p1 ->
      strlen (text p1) + 1 < Z.of_nat (S (length (text p))) + pos p1 ->
      returns (fun r => moved p (snd r))
        (r <- picolParseString_loop (S (length (text p))) p1 ;;
         match r with
         | inl q => Ret (PICOL_OK, q)
         | inr q => Ret (PICOL_OK, set_type (set_end q (pos q - 1)) PT_ESC)
         end)).
    { intros p1 Hp1 Hf. eapply returns_bind.
      - apply total_returns, picolParseString_loop_total.
        split; [apply Hp1 | exact Hf].
      - intros [q | q] Hq; apply returns_Ret; apply Hret; bounds. }
    destruct (c =? ch_dquote) eqn:Edq.
    { assert (c <> 0) by (eapply eqb_nonzero; [exact Edq | discriminate]).
      cbn [insidequote set_start]. destruct (negb (insidequote p)).
      - apply Hgo; bounds.
      - cbv zeta. cbn [bind]. apply returns_Ret. apply Hret. bounds. }
    destruct (c =? ch_bslash) eqn:Eb.
    { assert (c <> 0) by (eapply eqb_nonzero; [exact Eb | discriminate]).
      cbv zeta. cbn [len set_start].
      destruct (len p >=? 2); apply Hgo; bounds. }
    cbn [insidequote set_start]. rewrite Hstop.
    apply Hgo; bounds.
Qed.

Lemma moved_trans (p q r : picolParser) : moved p q -> moved q r -> moved p r.
Proof. unfold moved. intros [H1 [H2 H3]] [H4 [H5 H6]]. bounds. Qed.

Lemma picolParseComment_progress (p : picolParser) (c : Z) :
  peek p = Ret c -> len p > 0 -> (c =? ch_nl) = false ->
  returns (fun r => moved p (snd r)) (picolParseComment p).
Proof.
  intros Hc Hlen Hnl. destruct (peek_on_text p c Hc) as [Hon _].
  unfold picolParseComment, scan_fuel. rewrite picolParseComment_loop_S.
  replace (len p =? 0) with false by (symmetry; apply Z.eqb_neq; lia).
  cbn [negb]. rewrite Hc. cbn [bind]. rewrite Hnl. cbn [negb].
  eapply returns_bind.
  - apply total_returns, picolParseComment_loop_total.
    assert (He := enough_scan_fuel_advance p Hon).
    unfold scan_fuel in He. bounds.
  - intros q Hq. apply returns_Ret. unfold moved, on_text in *. bounds.
Qed.

Lemma picolGetToken_loop_progress (fuel : nat) :
  forall p,
    len p > 0 ->
    returns (fun r => moved p (snd r)) (picolGetToken_loop fuel p).
Proof.
  induction fuel as [ | fuel IH]; intros p Hlen; [apply returns_Timeout | ].
  rewrite picolGetToken_loop_S.
  replace (len p >? 0) with true by (symmetry; apply Z.gtb_lt; lia).
  destruct (peek p) as [c | u | ] eqn:Hc; cbn [bind];
    [ | apply returns_Undef | apply returns_Timeout].
  destruct (peek_on_text p c Hc) as [Hon _].
  destruct ((c =? ch_nl) || (c =? ch_semi)) eqn:Eeol.
  { destruct (insidequote p) eqn:Eq.
    - apply (picolParseString_progress p c Hc Hlen).
      + apply orb_true_iff in Eeol.
        destruct Eeol as [E | E]; apply Z.eqb_eq in E; subst c; reflexivity.
      + rewrite Eq. apply andb_false_r.
    - apply (picolParseSep_progress p ch_semi c Hc).
      apply orb_true_iff in Eeol.
      destruct Eeol as [E | E]; apply Z.eqb_eq in E; subst c; reflexivity. }
  apply orb_false_iff in Eeol. destruct Eeol as [Enl Esemi].
  destruct (c =? ch_lbracket) eqn:Elb;
    [apply picolParseCommand_progress; exact Hon | ].
  destruct (c =? ch_dollar) eqn:Edl;
    [apply picolParseVar_progress; exact Hon | ].
  destruct (c =? ch_hash) eqn:Eh.
  { apply Z.eqb_eq in Eh.
    destruct (negb (ptype_eqb (type p) PT_EOL)).
    - apply (picolParseString_progress p c Hc Hlen);
        subst c; reflexivity.
    - eapply returns_bind;
        [apply (picolParseComment_progress p c Hc Hlen Enl) | ].
      intros [rc q] Hq. cbn [snd] in Hq.
      destruct (Z.gtb_spec (len q) 0) as [Hl | Hl].
      + eapply returns_weaken; [apply IH; lia | ].
        intros r Hr. eapply moved_trans; eassumption.
      + destruct fuel as [ | fuel']; [apply returns_Timeout | ].
        rewrite picolGetToken_loop_S.
        replace (len q >? 0) with false
          by (symmetry; destruct (Z.gtb_spec (len q) 0); [lia | reflexivity]).
        cbv zeta. apply returns_Ret. exact Hq. }
  destruct (isgraph c || insidequote p) eqn:Eg.
  - apply (picolParseString_progress p c Hc Hlen).
    + rewrite Edl, Elb. reflexivity.
    + rewrite Esemi. destruct (isgraph c); destruct (insidequote p);
        try reflexivity; discriminate Eg.
  - apply (picolParseSep_progress p 0 c Hc).
    apply orb_false_iff in Eg. destruct Eg as [-> _]. reflexivity.
Qed.

Lemma picolGetToken_advances
  (p p' : picolParser) (rc : retcode) :
  len p > 0 ->
  picolGetToken p = Ret (rc, p') ->
  rc = PICOL_OK
  /\ text p' = text p
  /\ pos p < pos p' <= strlen (text p) + 1
  /\ pos p' + len p' = pos p + len p.
Proof.
  intros Hlen E.
  destruct (picolGetToken_loop_same p (scan_fuel p) p (same_input_refl p)
              (rc, p') E) as [Hrc [Ht Hs]].
  destruct (picolGetToken_loop_progress (scan_fuel p) p Hlen (rc, p') E)
    as [Hpos [Hok _]].
  cbn [fst snd] in *. unfold parser_ok in Hok. rewrite Ht in Hok.
  repeat split; try assumption; lia.
Qed.

(** X7.  Every call of [picolGetToken] on input that is not used up returns
    OK -- when it returns -- with the cursor moved forward by at least one
    byte and still within the text, [len] having lost what the cursor
    gained. *)
Theorem picolGetToken_consumes
  (p p' : picolParser) (rc : retcode) :
  len p > 0 ->
  picolGetToken p = Ret (rc, p') ->
  rc = PICOL_OK
  /\ text p' = text p
  /\ pos p < pos p' <= strlen (text p) + 1
  /\ pos p' + len p' = pos p + len p.
Proof.
  intros Hlen E.
  destruct (picolGetToken_loop_same p (scan_fuel p) p (same_input_refl p)
              (rc, p') E) as [Hrc [Ht Hs]].
  destruct (picolGetToken_loop_progress (scan_fuel p) p Hlen (rc, p') E)
    as [Hpos [Hok _]].
  cbn [fst snd] in *. unfold parser_ok in Hok. rewrite Ht in Hok.
  repeat split; try assumption; lia.
Qed.

Lemma picolGetToken_consumes_witness :
  len (picolInitParser (bytes "set x $y")) > 0
  /\ picolGetToken (picolInitParser (bytes "set x $y"))
     = Ret (PICOL_OK, mkParser (bytes "set x $y") 3 0 2 5 PT_ESC false)
  /\ pos (picolInitParser (bytes "set x $y")) < 3
  /\ 3 + 5 = pos (picolInitParser (bytes "set x $y"))
             + len (picolInitParser (bytes "set x $y")).
Proof.
  assert (Hlen : len (picolInitParser (bytes "set x $y")) > 0)
    by (vm_compute; reflexivity).
  assert (E : picolGetToken (picolInitParser (bytes "set x $y"))
              = Ret (PICOL_OK,
                     mkParser (bytes "set x $y") 3 0 2 5 PT_ESC false))
    by (vm_compute; reflexivity).
  destruct (picolGetToken_consumes _ _ _ Hlen E) as [_ [_ [[H1 _] H2]]].
  split; [exact Hlen | ]. split; [exact E | ]. split; [exact H1 | exact H2].
Defined.

Lemma token_types_total (fuel : nat) :
  forall p,
    parser_ok p -> (calls_left p <= fuel)%nat ->
    total (fun ts => (length ts < calls_left p)%nat) (token_types fuel p).
Proof.
  induction fuel as [ | fuel IH]; intros p Hok Hfuel.
  - exfalso. unfold calls_left in Hfuel.
    destruct (len p >? 0); [lia | ].
    destruct (ptype_eqb (type p) PT_EOL || ptype_eqb (type p) PT_EOF); lia.
  - cbn [token_types].
    destruct (Z.gtb_spec (len p) 0) as [Hl | Hl].
    + eapply total_bind; [apply picolGetToken_total; exact Hok | ].
      intros [rc q] E _.
      destruct (picolGetToken_advances p q rc ltac:(lia) E)
        as [_ [Ht [Hpos Hsum]]].
      assert (Hq : parser_ok q)
        by (unfold parser_ok in *; rewrite Ht; lia).
      assert (Hp : calls_left p = (Z.to_nat (len p) + 2)%nat).
      { unfold calls_left.
        destruct (Z.gtb_spec (len p) 0); [reflexivity | lia]. }
      assert (Hcq : (calls_left q < calls_left p)%nat).
      { rewrite Hp. unfold calls_left.
        destruct (Z.gtb_spec (len q) 0); [lia | ].
        destruct (ptype_eqb (type q) PT_EOL || ptype_eqb (type q) PT_EOF);
          lia. }
      destruct (ptype_eqb (type q) PT_EOF).
      * apply total_Ret. simpl. lia.
      * eapply total_bind; [apply IH; [exact Hq | lia] | ].
        intros ts _ Hts. cbv beta in Hts. apply total_Ret. simpl. lia.
    + rewrite (picolGetToken_exhausted p Hl). cbn [bind].
      assert (Hp : calls_left p
                   = if ptype_eqb (type p) PT_EOL || ptype_eqb (type p) PT_EOF
                     then 1%nat else 2%nat).
      { unfold calls_left.
        destruct (Z.gtb_spec (len p) 0); [lia | reflexivity]. }
      assert (Hq : forall t,
                calls_left (set_type p t)
                = if ptype_eqb t PT_EOL || ptype_eqb t PT_EOF
                  then 1%nat else 2%nat).
      { intros t. unfold calls_left. cbn [len type set_type].
        destruct (Z.gtb_spec (len p) 0); [lia | reflexivity]. }
      rewrite Hp in *. clear Hp.
      destruct (type p) eqn:Ety; cbn [ptype_eqb orb andb negb] in *;
        try (apply total_Ret; simpl; lia);
        (eapply total_bind;
         [ apply IH; [exact Hok | rewrite Hq; cbn; lia]
         | intros ts _ Hts; cbv beta in Hts; rewrite Hq in Hts; cbn in Hts;
           apply total_Ret; simpl; lia ]).
Qed.

(** X8.  The token stream of every text is finite: with fuel for [len + 2]
    calls the loop reaches EOF (or an undefined read), having seen at most
    [len + 1] tokens. *)
Theorem token_stream_finite (s : cstring) (fuel : nat) :
  (length (cstr s) + 2 <= fuel)%nat ->
  token_types fuel (picolInitParser s) <> Timeout
  /\ forall ts, token_types fuel (picolInitParser s) = Ret ts ->
                (length ts <= length (cstr s) + 1)%nat.
Proof.
  intros Hfuel.
  assert (Hc : (calls_left (picolInitParser s) <= length (cstr s) + 2)%nat).
  { unfold calls_left, picolInitParser, strlen. cbn [len type].
    destruct (Z.gtb_spec (Z.of_nat (length (cstr s))) 0);
      [rewrite Nat2Z.id; lia | cbn; lia]. }
  destruct (token_types_total fuel (picolInitParser s)
              (picolInitParser_ok s) ltac:(lia)) as [Hno Hts].
  split; [exact Hno | ]. intros ts E. specialize (Hts ts E). lia.
Qed.

Lemma token_stream_finite_witness :
  (length (cstr (bytes "puts $x;# no")) + 2 <= 14)%nat
  /\ token_types 14 (picolInitParser (bytes "puts $x;# no"))
     = Ret [PT_ESC; PT_SEP; PT_VAR; PT_EOL].
Proof.
  assert (H : (length (cstr (bytes "puts $x;# no")) + 2 <= 14)%nat)
    by (vm_compute; lia).
  split; [exact H | ].
  destruct (token_types 14 (picolInitParser (bytes "puts $x;# no")))
    as [ts | u | ] eqn:E.
  - vm_compute in E. injection E as <-. reflexivity.
  - vm_compute in E. discriminate E.
  - destruct (proj1 (token_stream_finite (bytes "puts $x;# no") 14 H) E).
Defined.

(** ** The escape decoder on words without hex escapes *)

Lemma rdb_app (a b : list Z) (c : Z) :
  rdb (a ++ c :: b) (Z.of_nat (length a)) = Ret c.
Proof.
  unfold rdb. rewrite length_app. cbn [length].
  replace ((0 <=? Z.of_nat (length a))
           && (Z.of_nat (length a) <? Z.of_nat (length a + S (length b))))
    with true
    by (symmetry; apply andb_true_iff; split;
        [apply Z.leb_le | apply Z.ltb_lt]; lia).
  rewrite Nat2Z.id, nth_middle. reflexivity.
Qed.

Lemma upd_app (a b : list Z) (c v : Z) :
  upd (a ++ c :: b) (length a) v = a ++ v :: b.
Proof.
  induction a as [ | x a IH]; simpl; [reflexivity | ].
  rewrite IH. reflexivity.
Qed.

Lemma wrb_app (a b : list Z) (c v : Z) :
  wrb (a ++ c :: b) (Z.of_nat (length a)) v = Ret (a ++ v :: b).
Proof.
  unfold wrb. rewrite length_app. cbn [length].
  replace ((0 <=? Z.of_nat (length a))
           && (Z.of_nat (length a) <? Z.of_nat (length a + S (length b))))
    with true
    by (symmetry; apply andb_true_iff; split;
        [apply Z.leb_le | apply Z.ltb_lt]; lia).
  rewrite Nat2Z.id, upd_app. reflexivity.
Qed.

Lemma strchr_from_absent (b : list Z) (c k : Z) :
  ~ In c b -> c <> 0 -> strchr_from (b ++ [0]) c k = None.
Proof.
  revert k. induction b as [ | x b IH]; intros k Hin Hc.
  - change (strchr_from ([] ++ [0]) c k)
      with (if 0 =? c then Some k
            else if 0 =? 0 then None else strchr_from [] c (k + 1)).
    destruct (Z.eqb_spec 0 c); [lia | reflexivity].
  - change (strchr_from ((x :: b) ++ [0]) c k)
      with (if x =? c then Some k
            else if x =? 0 then None else strchr_from (b ++ [0]) c (k + 1)).
    destruct (x =? c) eqn:E.
    + apply Z.eqb_eq in E. exfalso. apply Hin. left. exact E.
    + destruct (x =? 0); [reflexivity | ].
      apply IH; [ | exact Hc]. intros H. apply Hin. right. exact H.
Qed.

(** X9.  A word without a backslash is left as it is, at its full length. *)
Theorem picolEscape_no_backslash (w : cstring) :
  ~ In ch_bslash w ->
  picolEscape (w ++ [0]) (strlen w) = Ret (w ++ [0], strlen w).
Proof.
  intros Hin. unfold picolEscape, strchr.
  rewrite (strchr_from_absent w ch_bslash 0 Hin) by discriminate.
  cbn [bind]. unfold strlen. rewrite wrb_app. reflexivity.
Qed.

Lemma picolEscape_no_backslash_witness :
  ~ In ch_bslash (bytes "hello")
  /\ picolEscape (bytes "hello" ++ [0]) (strlen (bytes "hello"))
     = Ret (bytes "hello" ++ [0], strlen (bytes "hello")).
Proof.
  assert (H : ~ In ch_bslash (bytes "hello")).
  { vm_compute. intros H.
    repeat (destruct H as [H | H]; [discriminate H | ]). exact H. }
  split; [exact H | apply (picolEscape_no_backslash _ H)].
Defined.

Lemma app_cons_split (junk used : list Z) :
  used <> [] ->
  exists y junk',
    junk ++ used = y :: junk'
    /\ (length junk' + 1 = length junk + length used)%nat.
Proof.
  intros Hu. destruct junk as [ | j js].
  - destruct used as [ | u us]; [contradiction | ].
    exists u, us. split; [reflexivity | simpl; lia].
  - exists j, (js ++ used). split; [reflexivity | ].
    simpl. rewrite length_app. lia.
Qed.

Lemma decode_simple_nul_free_upto (k : nat) :
  forall w d, (length w <= k)%nat -> decode_simple w = Some d -> cstr d = d.
Proof.
  induction k as [ | k IH]; intros w d Hk.
  - destruct w; [ | simpl in Hk; lia]. simpl. intros E.
    injection E as <-. reflexivity.
  - destruct w as [ | c w']; cbn [decode_simple].
    + intros E. injection E as <-. reflexivity.
    + cbn [length] in Hk. destruct (c =? ch_bslash).
      * destruct w' as [ | c1 w''].
        -- intros E. injection E as <-. reflexivity.
        -- cbn [length] in Hk.
           destruct ((c1 =? 88) || (c1 =? 120)); [discriminate | ].
           destruct (isgraph c1) eqn:Eg; [ | discriminate].
           destruct (decode_simple w'') as [d' | ] eqn:E'; [ | discriminate].
           cbn [option_map]. intros E. injection E as <-.
           assert (Hd' : cstr d' = d') by (apply (IH w''); [lia | exact E']).
           cbn [cstr]. rewrite Hd'.
           unfold ch_nl, ch_cr, ch_tab.
           destruct (c1 =? 110); [reflexivity | ].
           destruct (c1 =? 114); [reflexivity | ].
           destruct (c1 =? 116); [reflexivity | ].
           destruct (Z.eqb_spec c1 0) as [-> | _];
             [discriminate Eg | reflexivity].
      * destruct (c =? 0) eqn:E0; [discriminate | ].
        destruct (decode_simple w') as [d' | ] eqn:E'; [ | discriminate].
        cbn [option_map]. intros E. injection E as <-.
        cbn [cstr]. rewrite E0.
        rewrite (IH w' d' ltac:(lia) E'). reflexivity.
Qed.

Lemma decode_simple_nul_free (w d : cstring) :
  decode_simple w = Some d -> cstr d = d.
Proof. apply (decode_simple_nul_free_upto (length w)). lia. Qed.

Lemma cstr_app_nul (d tl : list Z) : cstr d = d -> cstr (d ++ 0 :: tl) = d.
Proof.
  induction d as [ | c d IH]; [reflexivity | ].
  change (cstr ((c :: d) ++ 0 :: tl))
    with (if c =? 0 then [] else c :: cstr (d ++ 0 :: tl)).
  change (cstr (c :: d)) with (if c =? 0 then [] else c :: cstr d).
  destruct (c =? 0); [discriminate | ].
  intros E. injection E as E. rewrite (IH E). reflexivity.
Qed.

(** The first backslash of a decodable word, as [strchr] finds it. *)
Lemma decode_simple_strchr (w : cstring) :
  forall d k,
    decode_simple w = Some d ->
    (strchr_from (w ++ [0]) ch_bslash k = None /\ d = w)
    \/ (exists pre rest dr,
           w = pre ++ rest
           /\ strchr_from (w ++ [0]) ch_bslash k
              = Some (k + Z.of_nat (length pre))
           /\ decode_simple rest = Some dr /\ d = pre ++ dr).
Proof.
  induction w as [ | c w IH]; intros d k Hd.
  - left. cbn [decode_simple] in Hd. injection Hd as <-.
    split; reflexivity.
  - change (strchr_from ((c :: w) ++ [0]) ch_bslash k)
      with (if c =? ch_bslash then Some k
            else if c =? 0 then None
            else strchr_from (w ++ [0]) ch_bslash (k + 1)).
    destruct (c =? ch_bslash) eqn:Eb.
    + right. exists [], (c :: w), d. cbn [app length].
      rewrite Z.add_0_r. repeat split. exact Hd.
    + cbn [decode_simple] in Hd. rewrite Eb in Hd.
      destruct (c =? 0); [discriminate Hd | ].
      destruct (decode_simple w) as [d' | ] eqn:Ed'; [ | discriminate Hd].
      cbn [option_map] in Hd. injection Hd as <-.
      destruct (IH d' (k + 1) eq_refl)
        as [[Hn ->] | [pre [rest [dr [-> [Hs [Hr ->]]]]]]].
      * left. split; [exact Hn | reflexivity].
      * right. exists (c :: pre), rest, dr. cbn [app length].
        rewrite Hs. repeat split; [f_equal; lia | exact Hr].
Qed.

Lemma picolEscape_loop_simple (fuel : nat) :
  forall rest d out junk s t n,
    decode_simple rest = Some d ->
    (length rest < fuel)%nat ->
    s = Z.of_nat (length out + length junk) ->
    t = Z.of_nat (length out) ->
    n = Z.of_nat (length out + length rest) ->
    exists y tl,
      picolEscape_loop fuel (out ++ junk ++ rest ++ [0]) s t n
      = Ret (out ++ d ++ y :: tl, Z.of_nat (length out + length d)).
Proof.
  induction fuel as [ | fuel IH]; intros rest d out junk s t n Hd Hf Hs Ht Hn;
    [lia | ].
  (* one read at the cursor [s] *)
  assert (Hrd : forall c tl,
    rdb (out ++ junk ++ c :: tl) s = Ret c).
  { intros c tl. subst s. rewrite app_assoc, <- length_app. apply rdb_app. }
  (* one store at [t], after [used] has been read *)
  assert (Hstep : forall used rest' d' v s' n',
    used <> [] ->
    decode_simple rest' = Some d' ->
    (length rest' < fuel)%nat ->
    s' = Z.of_nat (length out + length junk + length used) ->
    n' = Z.of_nat (length out + 1 + length rest') ->
    exists y tl,
      (b <- wrb (out ++ junk ++ used ++ rest' ++ [0]) t v ;;
       picolEscape_loop fuel b s' (t + 1) n')
      = Ret (out ++ (v :: d') ++ y :: tl,
             Z.of_nat (length out + length (v :: d')))).
  { intros used rest' d' v s' n' Hu Hd' Hf' Hs' Hn'.
    destruct (app_cons_split junk used Hu) as [y0 [junk' [Hj Hl]]].
    replace (out ++ junk ++ used ++ rest' ++ [0])
      with (out ++ y0 :: (junk' ++ rest' ++ [0]))
      by (rewrite (app_assoc junk), Hj; reflexivity).
    subst t. rewrite wrb_app. cbn [bind].
    destruct (IH rest' d' (out ++ [v]) junk' s'
                (Z.of_nat (length out) + 1) n' Hd' Hf')
      as [y [tl E]];
      try (rewrite length_app; cbn [length]; lia).
    exists y, tl.
    replace (out ++ v :: junk' ++ rest' ++ [0])
      with ((out ++ [v]) ++ junk' ++ rest' ++ [0])
      by (rewrite <- app_assoc; reflexivity).
    rewrite E. rewrite <- app_assoc. cbn [app length].
    rewrite length_app. cbn [length].
    replace (length out + 1 + length d')%nat
      with (length out + S (length d'))%nat by lia.
    reflexivity. }
  assert (Hrd2 : forall c c1 tl,
    rdb (out ++ junk ++ c :: c1 :: tl) (s + 1) = Ret c1).
  { intros c c1 tl. subst s.
    replace (out ++ junk ++ c :: c1 :: tl)
      with ((out ++ junk ++ [c]) ++ c1 :: tl)
      by (rewrite <- !app_assoc; reflexivity).
    replace (Z.of_nat (length out + length junk) + 1)
      with (Z.of_nat (length (out ++ junk ++ [c])))
      by (rewrite !length_app; cbn [length]; lia).
    apply rdb_app. }
  destruct rest as [ | c rest'].
  - (* the terminator *)
    cbn [decode_simple] in Hd. injection Hd as <-.
    destruct (app_cons_split junk [0] ltac:(discriminate))
      as [y0 [junk' [Hj _]]].
    exists y0, junk'. change ([] ++ [0]) with [0].
    cbn [picolEscape_loop]. rewrite Hrd. cbn [bind].
    change (0 =? 0) with true. cbv iota.
    rewrite Hj. subst n. cbn [length]. reflexivity.
  - cbn [decode_simple] in Hd. cbn [length] in Hf, Hn.
    change ((c :: rest') ++ [0]) with (c :: rest' ++ [0]).
    cbn [picolEscape_loop]. rewrite Hrd. cbn [bind].
    destruct (c =? ch_bslash) eqn:Eb.
    + apply Z.eqb_eq in Eb. subst c.
      change (ch_bslash =? 0) with false. cbv iota.
      destruct rest' as [ | c1 rest''].
      * (* a backslash ends the word *)
        injection Hd as <-.
        change ([] ++ [0]) with [0]. rewrite Hrd2. cbn [bind].
        change ((0 =? 88) || (0 =? 120)) with false.
        change (0 =? 110) with false. change (0 =? 114) with false.
        change (0 =? 116) with false. change (0 =? 0) with true. cbv iota.
        destruct (IH [] [] out (junk ++ [ch_bslash]) (s + 1) t (n - 1)
                    eq_refl)
          as [y [tl E]];
          try (subst; rewrite ?length_app; cbn [length] in *; lia).
        exists y, tl.
        replace (out ++ (junk ++ [ch_bslash]) ++ [] ++ [0])
          with (out ++ junk ++ [ch_bslash; 0]) in E
          by (rewrite <- app_assoc; reflexivity).
        rewrite E. reflexivity.
      * change ((c1 :: rest'') ++ [0]) with (c1 :: rest'' ++ [0]).
        rewrite Hrd2. cbn [bind].
        destruct ((c1 =? 88) || (c1 =? 120)); [discriminate Hd | ].
        destruct (isgraph c1) eqn:Eg; [ | discriminate Hd].
        destruct (decode_simple rest'') as [d'' | ] eqn:Ed'';
          [ | discriminate Hd].
        cbn [option_map] in Hd. injection Hd as <-.
        cbn [length] in Hf, Hn.
        assert (Hnz : (c1 =? 0) = false).
        { destruct (Z.eqb_spec c1 0) as [-> | _];
            [discriminate Eg | reflexivity]. }
        destruct (c1 =? 110);
          [ apply (Hstep [ch_bslash; c1] rest'' d'' ch_nl (s + 2) (n - 1));
            try discriminate; try assumption;
            subst; cbn [length]; lia | ].
        destruct (c1 =? 114);
          [ apply (Hstep [ch_bslash; c1] rest'' d'' ch_cr (s + 2) (n - 1));
            try discriminate; try assumption;
            subst; cbn [length]; lia | ].
        destruct (c1 =? 116);
          [ apply (Hstep [ch_bslash; c1] rest'' d'' ch_tab (s + 2) (n - 1));
            try discriminate; try assumption;
            subst; cbn [length]; lia | ].
        rewrite Hnz. cbv zeta.
        apply (Hstep [ch_bslash; c1] rest'' d'' c1 (s + 1 + 1) (n - 1));
          try discriminate; try assumption;
          subst; cbn [length]; lia.
    + destruct (c =? 0) eqn:E0; [discriminate Hd | ].
      destruct (decode_simple rest') as [d' | ] eqn:Ed'; [ | discriminate Hd].
      cbn [option_map] in Hd. injection Hd as <-.
      apply (Hstep [c] rest' d' c (s + 1) n);
        try discriminate; try assumption;
        subst; cbn [length]; lia.
Qed.

(** X10.  On a word whose escapes are [\n], [\r], [\t], a backslash before
    another printable byte other than [x] and [X], or a backslash at its
    end, [picolEscape] leaves the decoded word in the buffer and returns
    its length. *)
Theorem picolEscape_simple_escapes (w d : cstring) :
  decode_simple w = Some d ->
  escape_word w = Ret (d, strlen d).
Proof.
  intros Hd. assert (Hnf := decode_simple_nul_free w d Hd).
  unfold escape_word, picolEscape, strchr.
  destruct (decode_simple_strchr w d 0 Hd)
    as [[Hn ->] | [pre [rest [dr [-> [Hs [Hr ->]]]]]]].
  - rewrite Hn. cbn [bind]. unfold strlen. rewrite wrb_app. cbn [bind].
    rewrite cstr_app_nul by exact Hnf. reflexivity.
  - rewrite Hs. cbn [bind].
    destruct (picolEscape_loop_simple (S (length ((pre ++ rest) ++ [0])))
                rest dr pre [] (0 + Z.of_nat (length pre))
                (0 + Z.of_nat (length pre)) (strlen (pre ++ rest)) Hr)
      as [y [tl E]];
      try (unfold strlen; rewrite ?length_app; cbn [length]; lia).
    change (pre ++ [] ++ rest ++ [0]) with (pre ++ rest ++ [0]) in E.
    rewrite (app_assoc pre rest [0]) in E. rewrite E. cbn [bind].
    rewrite <- length_app, app_assoc, wrb_app. cbn [bind].
    rewrite cstr_app_nul by exact Hnf. reflexivity.
Qed.

Lemma picolEscape_simple_escapes_witness :
  decode_simple (bytes "a\tb\$c\")
  = Some [97; 9; 98; 36; 99]
  /\ escape_word (bytes "a\tb\$c\") = Ret ([97; 9; 98; 36; 99], 5).
Proof.
  split; [reflexivity | ].
  exact (picolEscape_simple_escapes (bytes "a\tb\$c\") [97; 9; 98; 36; 99]
           eq_refl).
Defined.

(** ** Reading the input *)

Lemma realloc_grow (fill : Z) (buf : list Z) (size : Z) :
  Z.of_nat (length buf) <= size ->
  realloc fill buf size
  = buf ++ repeat fill (Z.to_nat size - length buf).
Proof.
  intros H. unfold realloc. rewrite firstn_all2 by lia. reflexivity.
Qed.

Lemma int_of_in (v : Z) : - 2147483648 <= v <= 2147483647 -> int_of v = Ret v.
Proof.
  intros H. unfold int_of, in_int.
  change INT_MIN with (- 2147483648). change INT_MAX with 2147483647.
  replace ((-2147483648 <=? v) && (v <=? 2147483647)) with true;
    [reflexivity | ].
  symmetry. apply andb_true_intro. split; apply Z.leb_le; lia.
Qed.

Lemma picolGets_loop_reads (fill : Z) (end_c : Z) (tail rest : list Z) :
  fgetc tail = (end_c, rest) ->
  forall (line : list Z) (fuel : nat) (done slack : list Z) (n z : Z),
    Forall (fun c => 0 <= c < 256) line -> ~ In end_c line ->
    (length line < fuel)%nat ->
    n = Z.of_nat (length done) ->
    Z.of_nat (length done + length slack) = z + 1 ->
    n <= z -> z <= 2147483647 ->
    n + Z.of_nat (length line) < 1073741824 ->
    exists slack',
      picolGets_loop fill fuel (line ++ tail) end_c (done ++ slack) n z
      = Ret (done ++ line ++ 0 :: slack', rest).
Proof.
  intros Htail.
  induction line as [ | c line IH];
    intros fuel done slack n z Hb Hne Hf Hn Hlen Hnz Hz Hsmall;
    (destruct fuel as [ | fuel]; [cbn [length] in Hf; lia | ]);
    (destruct slack as [ | y slack]; [cbn [length] in Hlen; lia | ]);
    cbn [picolGets_loop]; subst n; rewrite wrb_app; cbn [bind app].
  - rewrite Htail. rewrite Z.eqb_refl. exists slack. reflexivity.
  - cbn [fgetc]. inversion Hb as [ | c' l' Hc Hb' ]; subst c' l'.
    rewrite Z.mod_small by exact Hc.
    destruct (Z.eqb_spec c end_c) as [-> | Hce];
      [exfalso; apply Hne; left; reflexivity | ].
    cbn [length] in *.
    assert (Hne' : ~ In end_c line) by (intros H; apply Hne; right; exact H).
    assert (Hgrow : exists sl z1,
      (if Z.of_nat (length done) =? z
       then z0 <- int_of (z + 1 + Z.shiftr z 1) ;;
            size <- int_of (z0 + 1) ;;
            Ret (realloc fill (done ++ 0 :: slack) size, z0)
       else Ret (done ++ 0 :: slack, z))
      = Ret (done ++ 0 :: sl, z1)
      /\ Z.of_nat (length done + S (length sl)) = z1 + 1
      /\ Z.of_nat (length done) < z1 /\ z1 <= 2147483647).
    { destruct (Z.eqb_spec (Z.of_nat (length done)) z) as [Hz0 | Hz0].
      - assert (Hsh : 0 <= Z.shiftr z 1 <= z).
        { rewrite Z.shiftr_div_pow2 by lia. change (2 ^ 1) with 2.
          split; [apply Z.div_pos; lia | ].
          apply Z.div_le_upper_bound; lia. }
        rewrite (int_of_in (z + 1 + Z.shiftr z 1)) by lia. cbn [bind].
        rewrite (int_of_in (z + 1 + Z.shiftr z 1 + 1)) by lia. cbn [bind].
        assert (Hs0 : slack = []).
        { destruct slack; [reflexivity | cbn [length] in Hlen; lia]. }
        subst slack.
        rewrite realloc_grow by (rewrite length_app; cbn [length]; lia).
        rewrite <- app_assoc. cbn [app].
        eexists. eexists. split; [reflexivity | ].
        rewrite repeat_length, length_app. cbn [length]. lia.
      - exists slack, z. split; [reflexivity | ]. lia. }
    destruct Hgrow as [sl [z1 [-> [Hlen1 [Hn1 Hz1]]]]]. cbn [bind].
    rewrite wrb_app. cbn [bind].
    unfold to_char. rewrite Z.mod_small by exact Hc.
    rewrite (int_of_in (Z.of_nat (length done) + 1)) by lia. cbn [bind].
    assert (Hsl : sl <> []).
    { intros ->. cbn [length] in Hlen1. lia. }
    destruct (IH fuel (done ++ [c]) sl (Z.of_nat (length done) + 1) z1 Hb'
                Hne' ltac:(lia)) as [slack' E];
      try (rewrite ?length_app; cbn [length]; lia).
    exists slack'. rewrite <- app_assoc in E. cbn [app] in E.
    rewrite E, <- app_assoc. reflexivity.
Qed.

(** X11.  [picolGets] returns the bytes of the stream up to the first one that
    [fgetc] gives as [end] -- the delimiter, or [EOF] at the end of the
    stream -- followed by a NUL, and leaves the stream after it. *)
Theorem picolGets_reads_up_to_end
  (fill end_c : Z) (line tail rest : list Z) :
  Forall (fun c => 0 <= c < 256) line -> ~ In end_c line ->
  fgetc tail = (end_c, rest) ->
  Z.of_nat (length line) < 2 ^ 30 ->
  exists buf,
    picolGets fill (S (length line)) (line ++ tail) end_c = Ret (buf, rest)
    /\ firstn (S (length line)) buf = line ++ [0]
    /\ cstr buf = cstr line.
Proof.
  intros Hb Hne Htail Hsmall. change (2 ^ 30) with 1073741824 in Hsmall.
  destruct (picolGets_loop_reads fill end_c tail rest Htail line
              (S (length line)) [] [fill] 0 0 Hb Hne)
    as [slack' E]; try (cbn [length]; lia).
  cbn [app] in E. unfold picolGets. rewrite E.
  eexists. split; [reflexivity | ]. split.
  - replace (S (length line)) with (length (line ++ [0%Z]) + 0)%nat
      by (rewrite length_app; cbn [length]; lia).
    change (line ++ 0 :: slack') with (line ++ [0] ++ slack').
    rewrite app_assoc, firstn_app_2. cbn [firstn]. apply app_nil_r.
  - clear. induction line as [ | c line IH]; cbn [app cstr].
    + reflexivity.
    + rewrite IH. reflexivity.
Qed.

Lemma picolGets_reads_up_to_end_witness :
  exists buf,
    picolGets 0 5 (bytes "quit" ++ [10; 120]) 10 = Ret (buf, [120])
    /\ firstn 5 buf = bytes "quit" ++ [0]
    /\ cstr buf = cstr (bytes "quit").
Proof.
  apply (picolGets_reads_up_to_end 0 10 (bytes "quit") [10; 120] [120]).
  - repeat constructor; cbn; lia.
  - cbn. intros H. repeat (destruct H as [H | H]; [discriminate H | ]).
    exact H.
  - reflexivity.
  - cbn. lia.
Defined.

(** X12.  Without the delimiter in the stream [picolGets] never returns, unless
    the delimiter is [EOF]: at the end of the stream it goes on storing
    the [EOF] it is given and growing the buffer, until the size no longer
    fits an [int]. *)
Theorem picolGets_needs_its_delimiter
  (fill end_c : Z) (inp : list Z) (fuel : nat) :
  end_c <> EOF -> (forall c, In c inp -> c mod 256 <> end_c) ->
  forall r, picolGets fill fuel inp end_c <> Ret r.
Proof.
  intros He Hin. unfold picolGets.
  generalize [fill] as buf. generalize 0 at 1 as n. generalize 0 as z.
  revert inp Hin.
  induction fuel as [ | fuel IH]; intros inp Hin z n buf r;
    cbn [picolGets_loop]; [discriminate | ].
  destruct (wrb buf n 0) as [b1 | u | ]; cbn [bind]; try discriminate.
  assert (Hc : fst (fgetc inp) <> end_c
               /\ forall c, In c (snd (fgetc inp)) -> c mod 256 <> end_c).
  { destruct inp as [ | c inp]; cbn [fgetc fst snd].
    - split; [congruence | intros c []].
    - split; [apply Hin; left; reflexivity | ].
      intros c' H. apply Hin. right. exact H. }
  destruct (fgetc inp) as [c inp']. cbn [fst snd] in Hc.
  destruct Hc as [Hc Hin'].
  destruct (Z.eqb_spec c end_c) as [Hce | _]; [contradiction | ].
  destruct (if n =? z
            then z0 <- int_of (z + 1 + Z.shiftr z 1) ;;
                 size <- int_of (z0 + 1) ;;
                 Ret (realloc fill b1 size, z0)
            else Ret (b1, z)) as [[b2 z2] | u | ];
    cbn [bind]; try discriminate.
  destruct (wrb b2 n (to_char c)) as [b3 | u | ]; cbn [bind];
    try discriminate.
  destruct (int_of (n + 1)) as [n3 | u | ]; cbn [bind]; try discriminate.
  apply IH. exact Hin'.
Qed.

Lemma picolGets_needs_its_delimiter_witness :
  10 <> EOF
  /\ (forall c, In c (bytes "quit") -> c mod 256 <> 10)
  /\ picolGets 0 100 (bytes "quit") 10 = Timeout.
Proof.
  assert (H1 : 10 <> EOF) by discriminate.
  assert (H2 : forall c, In c (bytes "quit") -> c mod 256 <> 10).
  { cbn. intros c H.
    repeat (destruct H as [H | H]; [subst c; discriminate | ]).
    destruct H. }
  split; [exact H1 | ]. split; [exact H2 | ].
  destruct (picolGets 0 100 (bytes "quit") 10) as [r | u | ] eqn:E.
  - exfalso. exact (picolGets_needs_its_delimiter 0 10 (bytes "quit") 100
                      H1 H2 r E).
  - vm_compute in E. discriminate E.
  - reflexivity.
Defined.

(** ** Calling a procedure *)

Lemma split_spaces_scan (s : cstring) :
  split_spaces s
  = fst (scan_formal s)
    :: match snd (scan_formal s) with
       | None => []
       | Some s' => split_spaces s'
       end.
Proof.
  induction s as [ | c s IH]; cbn [split_spaces scan_formal];
    [reflexivity | ].
  destruct (c =? ch_space); [reflexivity | ].
  rewrite IH. destruct (scan_formal s) as [nm rest]. reflexivity.
Qed.

Lemma formal_names_scan (s : cstring) :
  formal_names s
  = match scan_formal s with
    | ([], None) => []
    | ([], Some s') => formal_names s'
    | (nm, None) => [nm]
    | (nm, Some s') => nm :: formal_names s'
    end.
Proof.
  unfold formal_names. rewrite (split_spaces_scan s).
  destruct (scan_formal s) as [[ | c nm] [s' | ]]; reflexivity.
Qed.

Lemma picolSetVar_set_var (i : picolInterp) (vs : list picolVar)
  (pa : option picolCallFrame) (n v : cstring) :
  picolSetVar (set_callframe i (Some (CallFrame vs pa))) n v
  = Ret (PICOL_OK, set_callframe i (Some (CallFrame (set_var vs n v) pa))).
Proof.
  unfold picolSetVar, picolGetVar, set_var. cbn.
  destruct (find_var vs n); reflexivity.
Qed.

Lemma skipn_nth_error (argv : list cstring) (m : nat) :
  match skipn m argv with
  | [] => (length argv <= m)%nat
  | a :: rest =>
      nth_error argv m = Some a /\ (m < length argv)%nat
      /\ skipn (S m) argv = rest
  end.
Proof.
  revert argv. induction m as [ | m IH]; intros [ | a argv];
    cbn [skipn nth_error length]; try lia.
  - repeat split. lia.
  - specialize (IH argv). destruct (skipn m argv) as [ | b rest] eqn:E.
    + lia.
    + destruct IH as [Ha [Hlt Hs]].
      split; [exact Ha | ]. split; [lia | ].
      destruct argv; [destruct m; discriminate E | exact Hs].
Qed.

Lemma skipn_arg (argv : list cstring) (k : Z) :
  0 <= k ->
  match skipn (Z.to_nat k) argv with
  | [] => argc_of argv <= k
  | a :: rest =>
      arg argv k = Ret a /\ k < argc_of argv
      /\ skipn (Z.to_nat (k + 1)) argv = rest
  end.
Proof.
  intros Hk. unfold arg, argc_of.
  destruct (Z.ltb_spec k 0) as [H | _]; [lia | ].
  replace (Z.to_nat (k + 1)) with (S (Z.to_nat k)) by lia.
  pose proof (skipn_nth_error argv (Z.to_nat k)) as H.
  destruct (skipn (Z.to_nat k) argv) as [ | a rest]; [lia | ].
  destruct H as [-> [Hlt Hs]]. split; [reflexivity | ].
  split; [lia | exact Hs].
Qed.

Lemma bind_formals_bind_names (fuel : nat) :
  forall (s : cstring) (k : Z) (i : picolInterp) (argv : list cstring)
         (vs : list picolVar) (pa : option picolCallFrame),
    (length s < fuel)%nat -> 0 <= k ->
    bind_formals fuel s k (set_callframe i (Some (CallFrame vs pa))) argv
    = let r := bind_names vs (formal_names s)
                 (skipn (Z.to_nat (k + 1)) argv) in
      let i' := set_callframe i (Some (CallFrame (fst r) pa)) in
      Ret (if snd r
           then inr (k + Z.of_nat (length (formal_names s)), i')
           else inl i').
Proof.
  induction fuel as [ | fuel IH]; intros s k i argv vs pa Hf Hk; [lia | ].
  cbn [bind_formals]. rewrite (formal_names_scan s).
  destruct (scan_formal s) as [[ | c nm] [s' | ]] eqn:E.
  - rewrite IH; [reflexivity | | exact Hk].
    apply scan_formal_shorter in E. lia.
  - cbn. rewrite Z.add_0_r. reflexivity.
  - pose proof (skipn_arg argv (k + 1) ltac:(lia)) as Ha.
    destruct (skipn (Z.to_nat (k + 1)) argv) as [ | a rest].
    + replace (k + 1 >? argc_of argv - 1) with true
        by (symmetry; apply Z.gtb_lt; lia).
      reflexivity.
    + destruct Ha as [Ha [Hlt Hs]].
      replace (k + 1 >? argc_of argv - 1) with false
        by (symmetry; rewrite Z.gtb_ltb; apply Z.ltb_ge; lia).
      rewrite Ha. cbn [bind]. rewrite picolSetVar_set_var. cbn [bind].
      rewrite IH; [ | apply scan_formal_shorter in E; lia | lia].
      rewrite Hs. cbn [bind_names length].
      destruct (bind_names (set_var vs (c :: nm) a) (formal_names s') rest)
        as [vs' [ | ]]; cbn [fst snd]; [ | reflexivity].
      do 3 f_equal. lia.
  - pose proof (skipn_arg argv (k + 1) ltac:(lia)) as Ha.
    destruct (skipn (Z.to_nat (k + 1)) argv) as [ | a rest].
    + replace (k + 1 >? argc_of argv - 1) with true
        by (symmetry; apply Z.gtb_lt; lia).
      reflexivity.
    + destruct Ha as [Ha [Hlt Hs]].
      replace (k + 1 >? argc_of argv - 1) with false
        by (symmetry; rewrite Z.gtb_ltb; apply Z.ltb_ge; lia).
      rewrite Ha. cbn [bind]. rewrite picolSetVar_set_var. cbn [bind].
      cbn [bind_names length fst snd]. reflexivity.
Qed.

Lemma bind_names_all (names : list cstring) :
  forall vs actuals,
    snd (bind_names vs names actuals) = true
    <-> (length names <= length actuals)%nat.
Proof.
  induction names as [ | n names IH]; intros vs [ | a actuals];
    cbn [bind_names snd length].
  - split; [lia | reflexivity].
  - split; [lia | reflexivity].
  - split; [discriminate | lia].
  - rewrite IH. lia.
Qed.

Lemma set_callframe_back (i : picolInterp) (cf : option picolCallFrame) :
  set_callframe (set_callframe i cf) (callframe i) = i.
Proof. destruct i. reflexivity. Qed.

(** X13.  A procedure called with a number of arguments that is not the number
    of its formal parameters fails with the message of the source, its
    body not evaluated; the interpreter is left as it was but for the
    result. *)
Theorem picolCommandCallProc_wrong_arg_num
  (ev : picolInterp -> cstring -> outcome (retcode * picolInterp))
  (i : picolInterp) (a0 : cstring) (actuals : list cstring)
  (alist body : cstring) :
  nul_free a0 ->
  length (formal_names alist) <> length actuals ->
  exists i',
    picolCommandCallProc ev i (a0 :: actuals) (Some (alist, body))
    = Ret (PICOL_ERR, i')
    /\ result i' = bytes "Proc '" ++ a0 ++ bytes "' called with wrong arg num"
    /\ callframe i' = callframe i /\ commands i' = commands i
    /\ stdout i' = stdout i.
Proof.
  intros Ha0 Hlen.
  exists (picolSetResult i
            (bytes "Proc '" ++ a0 ++ bytes "' called with wrong arg num")).
  split; [ | split; [ | repeat split; reflexivity]];
    [ | cbn [result picolSetResult];
        exact (cstr_message (bytes "Proc '") a0
                 (bytes "' called with wrong arg num") eq_refl Ha0 eq_refl)].
  unfold picolCommandCallProc.
  rewrite bind_formals_bind_names by lia.
  change (skipn (Z.to_nat (0 + 1)) (a0 :: actuals)) with actuals.
  cbv zeta.
  pose proof (bind_names_all (formal_names alist) [] actuals) as Hall.
  destruct (bind_names [] (formal_names alist) actuals) as [vs' ok].
  cbn [fst snd bind] in *.
  destruct ok.
  - assert (Hle : (length (formal_names alist) <= length actuals)%nat)
      by (apply Hall; reflexivity).
    replace (0 + Z.of_nat (length (formal_names alist))
             =? argc_of (a0 :: actuals) - 1) with false
      by (symmetry; apply Z.eqb_neq; unfold argc_of; cbn [length]; lia).
    cbn [negb]. unfold picolDropCallFrame, picolErr. cbn.
    destruct i. reflexivity.
  - unfold picolDropCallFrame, picolErr. cbn. destruct i. reflexivity.
Qed.

Lemma picolCommandCallProc_wrong_arg_num_witness :
  nul_free (bytes "f")
  /\ length (formal_names (bytes " a  b ")) <> length [bytes "1"]
  /\ exists i',
       picolCommandCallProc (picolEval 10) fresh_interp
         [bytes "f"; bytes "1"] (Some (bytes " a  b ", bytes "puts $a"))
       = Ret (PICOL_ERR, i')
       /\ result i' = bytes "Proc 'f' called with wrong arg num"
       /\ callframe i' = callframe fresh_interp
       /\ stdout i' = stdout fresh_interp.
Proof.
  assert (H : length (formal_names (bytes " a  b ")) <> length [bytes "1"])
    by (vm_compute; discriminate).
  split; [reflexivity | ]. split; [exact H | ].
  destruct (picolCommandCallProc_wrong_arg_num (picolEval 10) fresh_interp
              (bytes "f") [bytes "1"] (bytes " a  b ") (bytes "puts $a")
              eq_refl H)
    as [i' [H1 [H2 [H3 [_ H4]]]]].
  exists i'. split; [exact H1 | ]. split; [exact H2 | ].
  split; [exact H3 | exact H4].
Defined.

Lemma nul_free_not_In (w : cstring) : nul_free w <-> ~ In 0 w.
Proof.
  unfold nul_free. induction w as [ | c w IH]; cbn [cstr In].
  - split; [intros _ [] | reflexivity].
  - destruct (Z.eqb_spec c 0) as [-> | Hc].
    + split; [discriminate | intros H; exfalso; apply H; left; reflexivity].
    + split.
      * intros E. injection E as E. intros [H | H]; [congruence | ].
        apply IH in E. contradiction.
      * intros H. f_equal. apply IH. intros H0. apply H. right. exact H0.
Qed.

Lemma split_spaces_In (s w : cstring) (c : Z) :
  In w (split_spaces s) -> In c w -> In c s.
Proof.
  revert w. induction s as [ | x s IH]; intros w; cbn [split_spaces].
  - intros [<- | []] [].
  - destruct (x =? ch_space).
    + intros [<- | H] Hc; [destruct Hc | right; exact (IH w H Hc)].
    + destruct (split_spaces s) as [ | w0 ws].
      * intros [<- | []] [<- | []]. left. reflexivity.
      * intros [<- | H] Hc.
        -- destruct Hc as [<- | Hc]; [left; reflexivity | ].
           right. apply (IH w0); [left; reflexivity | exact Hc].
        -- right. apply (IH w); [right; exact H | exact Hc].
Qed.

Lemma formal_names_nul_free (alist : cstring) :
  nul_free alist -> Forall nul_free (formal_names alist).
Proof.
  intros H. apply Forall_forall. intros w Hw.
  apply filter_In in Hw. destruct Hw as [Hw _].
  apply nul_free_not_In. intros H0.
  apply nul_free_not_In in H. apply H.
  exact (split_spaces_In alist w 0 Hw H0).
Qed.

Lemma find_var_not_In (vs : list picolVar) (n : cstring) :
  ~ In n (map name vs) -> find_var vs n = None.
Proof.
  intros H. destruct (find_var vs n) as [v | ] eqn:E; [ | reflexivity].
  destruct (find_var_Some vs n v E) as [Hin <-].
  exfalso. apply H. apply in_map. exact Hin.
Qed.

Lemma find_var_unique (vs : list picolVar) (v : picolVar) :
  NoDup (map name vs) -> In v vs -> find_var vs (name v) = Some v.
Proof.
  induction vs as [ | x vs IH]; cbn [map In find_var]; [intros _ [] | ].
  intros Hnd Hin. inversion Hnd as [ | n l Hx Hnd']; subst n l.
  destruct (strcmp0 (name x) (name v)) eqn:E.
  - apply cstring_eqb_eq in E. destruct Hin as [-> | Hin]; [reflexivity | ].
    exfalso. apply Hx. rewrite E. apply in_map. exact Hin.
  - destruct Hin as [-> | Hin]; [rewrite strcmp0_refl in E; discriminate | ].
    exact (IH Hnd' Hin).
Qed.

Lemma bound_vars_cons (n a : cstring) (names actuals : list cstring) :
  bound_vars (n :: names) (a :: actuals)
  = bound_vars names actuals ++ [mkVar n (cstr a)].
Proof. reflexivity. Qed.

Lemma bind_names_fresh (names : list cstring) :
  forall (actuals : list cstring) (vs : list picolVar),
    length names = length actuals ->
    NoDup names -> Forall nul_free names ->
    (forall n, In n names -> ~ In n (map name vs)) ->
    bind_names vs names actuals = (bound_vars names actuals ++ vs, true).
Proof.
  induction names as [ | n names IH]; intros [ | a actuals] vs Hlen Hnd Hnf Hvs;
    try discriminate Hlen; [reflexivity | ].
  cbn [bind_names]. rewrite bound_vars_cons, <- app_assoc. cbn [app].
  inversion Hnd as [ | n' l Hn Hnd']; subst n' l.
  inversion Hnf as [ | n' l Hn0 Hnf']; subst n' l.
  unfold set_var. rewrite find_var_not_In by (apply Hvs; left; reflexivity).
  unfold nul_free in Hn0. rewrite Hn0.
  apply IH; [injection Hlen as Hlen; exact Hlen | exact Hnd' | exact Hnf' | ].
  intros m Hm. cbn [map name In]. intros [<- | H]; [contradiction | ].
  apply (Hvs m); [right; exact Hm | exact H].
Qed.

Lemma bound_vars_names (names : list cstring) :
  forall actuals, length names = length actuals ->
                  map name (bound_vars names actuals) = rev names.
Proof.
  induction names as [ | n names IH]; intros [ | a actuals] Hlen;
    try discriminate Hlen; [reflexivity | ].
  rewrite bound_vars_cons, map_app, IH by (injection Hlen as H; exact H).
  reflexivity.
Qed.

Lemma bound_vars_In (names : list cstring) :
  forall actuals k n a,
    nth_error names k = Some n -> nth_error actuals k = Some a ->
    In (mkVar n (cstr a)) (bound_vars names actuals).
Proof.
  induction names as [ | n0 names IH]; intros [ | a0 actuals] [ | k] n a;
    cbn [nth_error]; try discriminate.
  - intros E1 E2. injection E1 as ->. injection E2 as ->.
    rewrite bound_vars_cons. apply in_or_app. right. left. reflexivity.
  - intros E1 E2. rewrite bound_vars_cons. apply in_or_app. left.
    exact (IH actuals k n a E1 E2).
Qed.

(** The call of a procedure with as many arguments as it has formal
    parameters: the body is evaluated in the new frame. *)
Lemma picolCommandCallProc_enters
  (ev : picolInterp -> cstring -> outcome (retcode * picolInterp))
  (i : picolInterp) (a0 : cstring) (actuals : list cstring)
  (alist body : cstring) :
  nul_free alist -> NoDup (formal_names alist) ->
  length (formal_names alist) = length actuals ->
  picolCommandCallProc ev i (a0 :: actuals) (Some (alist, body))
  = ('(rc, i1) <- ev (set_callframe i
                        (Some (CallFrame
                                 (bound_vars (formal_names alist) actuals)
                                 (callframe i)))) body ;;
     i2 <- picolDropCallFrame i1 ;;
     Ret (if retcode_eqb rc PICOL_RETURN then PICOL_OK else rc, i2)).
Proof.
  intros Hnf Hnd Hlen. unfold picolCommandCallProc.
  rewrite bind_formals_bind_names by lia.
  change (skipn (Z.to_nat (0 + 1)) (a0 :: actuals)) with actuals.
  rewrite (bind_names_fresh (formal_names alist) actuals [] Hlen Hnd
             (formal_names_nul_free alist Hnf))
    by (intros n _ []).
  rewrite app_nil_r. cbv zeta. cbn [fst snd bind].
  replace (0 + Z.of_nat (length (formal_names alist))
           =? argc_of (a0 :: actuals) - 1) with true
    by (symmetry; apply Z.eqb_eq; unfold argc_of; cbn [length]; lia).
  reflexivity.
Qed.

(** X14.  A procedure called with as many arguments as it has formal
    parameters evaluates its body in a new frame that holds exactly the
    formals with the actuals as their values and has the frame of the
    caller as its parent; it then drops the frame and returns what the
    body returned, OK for RETURN.  In that frame each formal is looked up
    to its own actual. *)
Theorem picolCommandCallProc_binds_formals
  (ev : picolInterp -> cstring -> outcome (retcode * picolInterp))
  (i : picolInterp) (a0 : cstring) (actuals : list cstring)
  (alist body : cstring) :
  nul_free alist -> NoDup (formal_names alist) ->
  length (formal_names alist) = length actuals ->
  picolCommandCallProc ev i (a0 :: actuals) (Some (alist, body))
  = ('(rc, i1) <- ev (set_callframe i
                        (Some (CallFrame
                                 (bound_vars (formal_names alist) actuals)
                                 (callframe i)))) body ;;
     i2 <- picolDropCallFrame i1 ;;
     Ret (if retcode_eqb rc PICOL_RETURN then PICOL_OK else rc, i2))
  /\ forall k n a,
       nth_error (formal_names alist) k = Some n ->
       nth_error actuals k = Some a ->
       find_var (bound_vars (formal_names alist) actuals) n
       = Some (mkVar n (cstr a)).
Proof.
  intros Hnf Hnd Hlen. split.
  - exact (picolCommandCallProc_enters ev i a0 actuals alist body Hnf Hnd
             Hlen).
  - intros k n a Hn Ha.
    apply (find_var_unique _ (mkVar n (cstr a))).
    + rewrite bound_vars_names by exact Hlen.
      apply NoDup_rev. exact Hnd.
    + exact (bound_vars_In _ _ k n a Hn Ha).
Qed.

Lemma picolCommandCallProc_binds_formals_witness :
  nul_free (bytes "a b") /\ NoDup (formal_names (bytes "a b"))
  /\ length (formal_names (bytes "a b")) = length [bytes "1"; bytes "2"]
  /\ picolCommandCallProc (picolEval 10) fresh_interp
       [bytes "f"; bytes "1"; bytes "2"] (Some (bytes "a b", bytes "+ $a $b"))
     = Ret (PICOL_OK, picolSetResult fresh_interp (bytes "3"))
  /\ find_var (bound_vars (formal_names (bytes "a b")) [bytes "1"; bytes "2"])
       (bytes "b")
     = Some (mkVar (bytes "b") (bytes "2")).
Proof.
  assert (H1 : nul_free (bytes "a b")) by reflexivity.
  assert (H2 : NoDup (formal_names (bytes "a b"))).
  { change (NoDup [bytes "a"; bytes "b"]).
    repeat constructor; cbn; intros H;
      repeat (destruct H as [H | H]; [discriminate H | ]); exact H. }
  assert (H3 : length (formal_names (bytes "a b"))
               = length [bytes "1"; bytes "2"]) by reflexivity.
  destruct (picolCommandCallProc_binds_formals (picolEval 10) fresh_interp
              (bytes "f") [bytes "1"; bytes "2"] (bytes "a b")
              (bytes "+ $a $b") H1 H2 H3) as [E L].
  split; [exact H1 | ]. split; [exact H2 | ]. split; [exact H3 | ]. split.
  - rewrite E. vm_compute. reflexivity.
  - exact (L 1%nat (bytes "b") (bytes "2") eq_refl eq_refl).
Defined.

(** ** A command of plain words *)

Lemma rd_mid (pre post : list Z) (c : Z) :
  rd (pre ++ c :: post) (Z.of_nat (length pre)) = Ret c.
Proof.
  unfold rd, strlen. rewrite length_app. cbn [length].
  destruct (Z.ltb_spec (Z.of_nat (length pre)) 0); [lia | ].
  destruct (Z.ltb_spec (Z.of_nat (length pre))
              (Z.of_nat (length pre + S (length post)))); [ | lia].
  rewrite Nat2Z.id, app_nth2, Nat.sub_diag by lia. reflexivity.
Qed.

Lemma plain_char_facts (c : Z) :
  plain_char c = true ->
  isgraph c = true /\ c <> ch_dollar /\ c <> ch_lbracket /\ c <> ch_dquote
  /\ c <> ch_bslash /\ c <> ch_semi /\ c <> ch_nl /\ c <> 0.
Proof.
  unfold plain_char. intros H. apply andb_true_iff in H.
  destruct H as [Hg H]. apply negb_true_iff in H.
  repeat (apply orb_false_iff in H; destruct H as [H ?]).
  repeat match goal with
         | E : (_ =? _) = false |- _ => apply Z.eqb_neq in E
         end.
  repeat split; try assumption;
    intros ->; discriminate Hg.
Qed.

Lemma not_graph_facts (c : Z) :
  isgraph c = false ->
  c <> ch_dollar /\ c <> ch_lbracket /\ c <> ch_dquote /\ c <> ch_bslash
  /\ c <> ch_semi /\ c <> ch_hash.
Proof. intros H. repeat split; intros ->; discriminate H. Qed.

Lemma word_end_facts (c : Z) :
  negb (isgraph c) || (c =? ch_semi) = true ->
  c <> ch_dollar /\ c <> ch_lbracket /\ c <> ch_dquote /\ c <> ch_bslash.
Proof.
  intros H. repeat split; intros ->; discriminate H.
Qed.

Ltac eqb_false :=
  repeat match goal with
         | H : ?a <> ?b |- context [?a =? ?b] =>
             rewrite (proj2 (Z.eqb_neq a b) H)
         end.

(** The loop of [picolParseString] runs over a plain word and stops
    behind it. *)
Lemma picolParseString_loop_plain (w : cstring) :
  forall (pre post : list Z) (fuel : nat) (q : picolParser),
    text q = pre ++ w ++ post -> pos q = Z.of_nat (length pre) ->
    len q = Z.of_nat (length w + length post) ->
    insidequote q = false ->
    Forall (fun c => plain_char c = true) w ->
    word_end post ->
    (length w < fuel)%nat ->
    picolParseString_loop fuel q
    = Ret (inr (mkParser (text q) (pos q + Z.of_nat (length w)) (start q)
                  (end_ q) (len q - Z.of_nat (length w)) (type q) false)).
Proof.
  induction w as [ | c w IH]; intros pre post fuel q Ht Hp Hl Hq Hw Hpost Hf;
    (destruct fuel as [ | fuel]; [cbn [length] in Hf; lia | ]);
    cbn [picolParseString_loop].
  - cbn [app length] in *.
    assert (Heta : q = mkParser (text q) (pos q + Z.of_nat 0) (start q)
                         (end_ q) (len q - Z.of_nat 0) (type q) false).
    { destruct q. cbn in *. subst. f_equal; lia. }
    destruct post as [ | c post].
    + replace (len q >? 0) with false
        by (symmetry; rewrite Z.gtb_ltb; apply Z.ltb_ge; rewrite Hl;
            cbn [length]; lia).
      rewrite <- Heta. reflexivity.
    + replace (len q >? 0) with true
        by (symmetry; apply Z.gtb_lt; rewrite Hl; cbn [length]; lia).
      assert (Hpk : peek q = Ret c)
        by (unfold peek; rewrite Ht, Hp; apply rd_mid).
      rewrite Hpk. cbn [bind].
      cbn [word_end] in Hpost.
      destruct (word_end_facts c Hpost) as [? [? [? ?]]].
      eqb_false. rewrite Hpost, Hq. cbn [orb negb andb].
      rewrite <- Heta. reflexivity.
  - cbn [app length] in *.
    replace (len q >? 0) with true
      by (symmetry; apply Z.gtb_lt; rewrite Hl; lia).
    assert (Hpk : peek q = Ret c)
      by (unfold peek; rewrite Ht, Hp; apply rd_mid).
    rewrite Hpk. cbn [bind].
    inversion Hw as [ | c' w' Hc Hw']; subst c' w'.
    destruct (plain_char_facts c Hc) as [Hg [? [? [? [? [? [? ?]]]]]]].
    eqb_false. rewrite Hg, Hq. cbn [orb negb andb].
    rewrite (IH (pre ++ [c]) post fuel (advance q));
      try assumption; cbn [advance set_len set_pos text pos len insidequote
                           start end_ type];
      try (rewrite ?length_app; cbn [length]; lia).
    + do 2 f_equal. f_equal; lia.
    + rewrite Ht, <- app_assoc. reflexivity.
Qed.

(** The loop of [picolParseSep] runs over blanks and stops at a printable
    byte. *)
Lemma picolParseSep_loop_blanks (s : cstring) :
  forall (pre post : list Z) (c : Z) (fuel : nat) (q : picolParser),
    text q = pre ++ s ++ c :: post -> pos q = Z.of_nat (length pre) ->
    Forall (fun c => blank c = true) s -> isgraph c = true ->
    (length s < fuel)%nat ->
    picolParseSep_loop fuel q 0
    = Ret (mkParser (text q) (pos q + Z.of_nat (length s)) (start q)
             (end_ q) (len q - Z.of_nat (length s)) (type q) (insidequote q)).
Proof.
  induction s as [ | x s IH]; intros pre post c fuel q Ht Hp Hs Hc Hf;
    (destruct fuel as [ | fuel]; [cbn [length] in Hf; lia | ]);
    cbn [picolParseSep_loop]; cbn [app length] in *;
    match goal with
    | |- context [peek q] =>
        match type of Ht with
        | _ = pre ++ ?y :: _ =>
            assert (Hpk : peek q = Ret y)
              by (unfold peek; rewrite Ht, Hp; apply rd_mid)
        end
    end; rewrite Hpk; cbn [bind].
  - rewrite Hc. cbn [negb orb]. change (0 =? 0) with true. cbn [negb andb].
    destruct q. cbn in *. do 2 f_equal; lia.
  - inversion Hs as [ | x' s' Hx Hs']; subst x' s'.
    unfold blank in Hx. apply andb_true_iff in Hx. destruct Hx as [Hx _].
    apply andb_true_iff in Hx. destruct Hx as [Hx _].
    rewrite Hx. cbn [orb].
    rewrite (IH (pre ++ [x]) post c fuel (advance q));
      try assumption; cbn [advance set_len set_pos text pos len insidequote
                           start end_ type];
      try (rewrite ?length_app; cbn [length]; lia).
    + f_equal. f_equal; lia.
    + rewrite Ht, <- app_assoc. reflexivity.
Qed.

(** [picolGetToken] at a plain word. *)
Lemma picolGetToken_plain_word (p : picolParser) (pre w post : list Z) :
  text p = pre ++ w ++ post -> pos p = Z.of_nat (length pre) ->
  len p = Z.of_nat (length w + length post) ->
  insidequote p = false ->
  type p = PT_SEP \/ type p = PT_EOL ->
  plain_word w ->
  word_end post ->
  picolGetToken p
  = Ret (PICOL_OK,
         mkParser (text p) (Z.of_nat (length pre + length w))
           (Z.of_nat (length pre)) (Z.of_nat (length pre + length w) - 1)
           (Z.of_nat (length post)) PT_ESC false).
Proof.
  intros Ht Hp Hl Hq Hty [Hw [c [w' [-> [Hb Hh]]]]] Hpost.
  unfold picolGetToken, scan_fuel. cbn [picolGetToken_loop].
  replace (len p >? 0) with true
    by (symmetry; apply Z.gtb_lt; rewrite Hl; cbn [length]; lia).
  assert (Hpk : peek p = Ret c)
    by (unfold peek; rewrite Ht, Hp; apply rd_mid).
  rewrite Hpk. cbn [bind].
  inversion Hw as [ | c' l' Hc Hw']; subst c' l'.
  destruct (plain_char_facts c Hc) as [Hg [? [? [? [? [? [? ?]]]]]]].
  eqb_false. rewrite Hg. cbn [orb].
  unfold picolParseString. rewrite Hpk. cbn [bind].
  eqb_false. rewrite !andb_false_r.
  rewrite (picolParseString_loop_plain (c :: w') pre post);
    cbn [set_start text pos len insidequote start end_ type];
    try assumption.
  - cbn [bind]. unfold set_type, set_end.
    cbn [text pos len insidequote start end_ type].
    do 2 f_equal. rewrite Hp, Hl. f_equal; lia.
  - unfold scan_fuel. cbn [set_start text]. rewrite Ht.
    change (pre ++ c :: w' ++ post) with (pre ++ (c :: w') ++ post).
    rewrite !length_app. lia.
Qed.

(** [picolGetToken] at the blanks between two words. *)
Lemma picolGetToken_blanks (p : picolParser) (pre s post : list Z) (c : Z) :
  text p = pre ++ s ++ c :: post -> pos p = Z.of_nat (length pre) ->
  len p = Z.of_nat (length s + S (length post)) ->
  insidequote p = false ->
  blanks s -> isgraph c = true ->
  picolGetToken p
  = Ret (PICOL_OK,
         mkParser (text p) (Z.of_nat (length pre + length s))
           (Z.of_nat (length pre)) (Z.of_nat (length pre + length s) - 1)
           (Z.of_nat (S (length post))) PT_SEP false).
Proof.
  intros Ht Hp Hl Hq [Hne Hs] Hc.
  destruct s as [ | x s]; [contradiction | ].
  unfold picolGetToken, scan_fuel. cbn [picolGetToken_loop].
  replace (len p >? 0) with true
    by (symmetry; apply Z.gtb_lt; rewrite Hl; cbn [length]; lia).
  assert (Hpk : peek p = Ret x)
    by (unfold peek; rewrite Ht, Hp; apply rd_mid).
  rewrite Hpk. cbn [bind].
  inversion Hs as [ | x' s' Hx Hs']; subst x' s'.
  assert (Hx' := Hx). unfold blank in Hx'.
  apply andb_true_iff in Hx'. destruct Hx' as [Hx' Hnl].
  apply andb_true_iff in Hx'. destruct Hx' as [Hg _].
  apply negb_true_iff in Hg. apply negb_true_iff, Z.eqb_neq in Hnl.
  destruct (not_graph_facts x Hg) as [? [? [? [? [? ?]]]]].
  eqb_false. rewrite Hg, Hq. cbn [orb].
  unfold picolParseSep.
  rewrite (picolParseSep_loop_blanks (x :: s) pre post c);
    cbn [set_start text pos len insidequote start end_ type];
    try assumption.
  - cbn [bind]. unfold set_type, set_end.
    cbn [text pos len insidequote start end_ type].
    change (0 =? 0) with true. cbv iota.
    do 2 f_equal. rewrite Hp, Hl, Hq. f_equal; lia.
  - unfold scan_fuel. cbn [set_start text]. rewrite Ht.
    change (pre ++ x :: s ++ c :: post) with (pre ++ (x :: s) ++ c :: post).
    rewrite !length_app. lia.
Qed.

(** The loop of [picolParseBrace] runs over balanced text and stops at
    the brace that closes the word. *)
Lemma picolParseBrace_loop_balanced (b : cstring) :
  forall (pre post : list Z) (level : Z) (fuel : nat) (q : picolParser),
    text q = pre ++ b ++ ch_rbrace :: post ->
    pos q = Z.of_nat (length pre) ->
    len q = Z.of_nat (length b + S (length post)) ->
    nesting b (level - 1) = true -> 1 <= level -> ~ In ch_bslash b ->
    (length b < fuel)%nat ->
    picolParseBrace_loop fuel q level
    = Ret (mkParser (text q) (pos q + Z.of_nat (length b)) (start q)
             (end_ q) (len q - Z.of_nat (length b)) (type q) (insidequote q)).
Proof.
  induction b as [ | c b IH];
    intros pre post level fuel q Ht Hp Hl Hn Hlv Hb Hf;
    (destruct fuel as [ | fuel]; [cbn [length] in Hf; lia | ]);
    cbn [picolParseBrace_loop]; cbn [app length] in *;
    (replace (len q >? 0) with true
       by (symmetry; apply Z.gtb_lt; rewrite Hl; lia));
    match type of Ht with
    | _ = pre ++ ?y :: _ =>
        assert (Hpk : peek q = Ret y)
          by (unfold peek; rewrite Ht, Hp; apply rd_mid)
    end; rewrite Hpk; cbn [bind].
  - change (ch_rbrace =? ch_lbrace) with false.
    change (ch_rbrace =? ch_bslash) with false. rewrite andb_false_r.
    rewrite Z.eqb_refl. cbn [nesting] in Hn. rewrite Hn.
    destruct q. cbn in *. do 2 f_equal; lia.
  - assert (Hcb : c <> ch_bslash) by (intros ->; apply Hb; left; reflexivity).
    assert (Hb' : ~ In ch_bslash b) by (intros H; apply Hb; right; exact H).
    rewrite (proj2 (Z.eqb_neq c ch_bslash) Hcb), andb_false_r.
    cbn [nesting] in Hn.
    assert (Hgo : forall lv, nesting b (lv - 1) = true -> 1 <= lv ->
              picolParseBrace_loop fuel (advance q) lv
              = Ret (mkParser (text q) (pos q + Z.of_nat (S (length b)))
                       (start q) (end_ q) (len q - Z.of_nat (S (length b)))
                       (type q) (insidequote q))).
    { intros lv Hn' Hlv'.
      rewrite (IH (pre ++ [c]) post lv fuel (advance q));
        cbn [advance set_len set_pos text pos len insidequote start end_
             type];
        try assumption; try (rewrite ?length_app; cbn [length]; lia).
      - f_equal. f_equal; lia.
      - rewrite Ht, <- app_assoc. reflexivity. }
    destruct (c =? ch_lbrace).
    + apply Hgo; [ | lia].
      replace (level + 1 - 1) with (level - 1 + 1) by lia. exact Hn.
    + destruct (c =? ch_rbrace).
      * apply andb_true_iff in Hn. destruct Hn as [Hd Hn].
        apply Z.ltb_lt in Hd.
        replace (level - 1 =? 0) with false
          by (symmetry; apply Z.eqb_neq; lia).
        apply Hgo; [exact Hn | lia].
      * apply Hgo; assumption.
Qed.

(** [picolGetToken] at a word in braces. *)
Lemma picolGetToken_braced (p : picolParser) (pre b post : list Z) :
  text p = pre ++ (ch_lbrace :: b ++ [ch_rbrace]) ++ post ->
  pos p = Z.of_nat (length pre) ->
  len p = Z.of_nat (length (ch_lbrace :: b ++ [ch_rbrace]) + length post) ->
  insidequote p = false ->
  type p = PT_SEP \/ type p = PT_EOL ->
  nesting b 0 = true -> ~ In ch_bslash b ->
  picolGetToken p
  = Ret (PICOL_OK,
         mkParser (text p)
           (Z.of_nat (length pre + length (ch_lbrace :: b ++ [ch_rbrace])))
           (Z.of_nat (length pre) + 1)
           (Z.of_nat (length pre) + Z.of_nat (length b))
           (Z.of_nat (length post)) PT_STR false).
Proof.
  intros Ht Hp Hl Hq Hty Hn Hb.
  cbn [app length] in Ht, Hl. rewrite <- app_assoc in Ht. cbn [app] in Ht.
  rewrite length_app in Hl. cbn [length] in Hl.
  unfold picolGetToken, scan_fuel. cbn [picolGetToken_loop].
  replace (len p >? 0) with true
    by (symmetry; apply Z.gtb_lt; rewrite Hl; lia).
  assert (Hpk : peek p = Ret ch_lbrace)
    by (unfold peek; rewrite Ht, Hp; apply rd_mid).
  rewrite Hpk. cbn [bind].
  change ((ch_lbrace =? ch_nl) || (ch_lbrace =? ch_semi)) with false.
  change (ch_lbrace =? ch_lbracket) with false.
  change (ch_lbrace =? ch_dollar) with false.
  change (ch_lbrace =? ch_hash) with false.
  change (isgraph ch_lbrace) with true. cbn [orb]. cbv iota.
  unfold picolParseString. rewrite Hpk. cbn [bind].
  rewrite Z.eqb_refl.
  replace (ptype_eqb (type p) PT_SEP || ptype_eqb (type p) PT_EOL
           || ptype_eqb (type p) PT_STR) with true
    by (destruct Hty as [-> | ->]; reflexivity).
  cbn [andb]. unfold picolParseBrace.
  rewrite (picolParseBrace_loop_balanced b (pre ++ [ch_lbrace]) post 1);
    unfold set_start, advance, set_len, set_pos;
    cbn [text pos len insidequote start end_ type];
    try assumption; try (rewrite ?length_app; cbn [length]; lia).
  - cbn [bind]. unfold set_type, set_end, advance, set_len, set_pos.
    cbn [text pos len insidequote start end_ type].
    replace (len p - 1 - Z.of_nat (length b) >? 0) with true
      by (symmetry; apply Z.gtb_lt; rewrite Hl; lia).
    cbn [text pos len insidequote start end_ type].
    do 2 f_equal. rewrite Hp, Hl, Hq. cbn [length].
    rewrite ?length_app. cbn [length]. f_equal; lia.
  - rewrite Ht, <- app_assoc. reflexivity.
  - unfold scan_fuel. cbn [text]. rewrite Ht, !length_app. cbn [length].
    rewrite length_app. lia.
Qed.

Lemma rd_end (b : list Z) : rd b (Z.of_nat (length b)) = Ret 0.
Proof.
  unfold rd, strlen.
  destruct (Z.ltb_spec (Z.of_nat (length b)) 0); [lia | ].
  rewrite Z.ltb_irrefl, Z.eqb_refl. reflexivity.
Qed.

(** What is read at the cursor: a byte of the text, or its NUL. *)
Lemma peek_at (q : picolParser) (pre post : list Z) :
  text q = pre ++ post -> pos q = Z.of_nat (length pre) ->
  peek q = Ret (match post with [] => 0 | c :: _ => c end).
Proof.
  intros Ht Hp. unfold peek. rewrite Ht, Hp. destruct post as [ | c post].
  - rewrite app_nil_r. apply rd_end.
  - apply rd_mid.
Qed.

(** The loop of [picolParseVar] runs over the name and stops behind
    it. *)
Lemma picolParseVar_loop_name (n : cstring) :
  forall (pre post : list Z) (fuel : nat) (q : picolParser),
    text q = pre ++ n ++ post -> pos q = Z.of_nat (length pre) ->
    Forall (fun c => var_char c = true) n ->
    match post with [] => True | c :: _ => var_char c = false end ->
    (length n < fuel)%nat ->
    picolParseVar_loop fuel q
    = Ret (mkParser (text q) (pos q + Z.of_nat (length n)) (start q)
             (end_ q) (len q - Z.of_nat (length n)) (type q) (insidequote q)).
Proof.
  induction n as [ | c n IH]; intros pre post fuel q Ht Hp Hn Hpost Hf;
    (destruct fuel as [ | fuel]; [cbn [length] in Hf; lia | ]);
    cbn [picolParseVar_loop]; cbn [app length] in *.
  - rewrite (peek_at q pre post Ht Hp). cbn [bind].
    replace (isalnum _ || (_ =? ch_underscore)) with false
      by (destruct post; [reflexivity | symmetry; exact Hpost]).
    destruct q. cbn in *. do 2 f_equal; lia.
  - rewrite (peek_at q pre (c :: n ++ post) Ht Hp). cbn [bind].
    inversion Hn as [ | c' n' Hc Hn']; subst c' n'.
    unfold var_char in Hc. rewrite Hc.
    rewrite (IH (pre ++ [c]) post fuel (advance q));
      cbn [advance set_len set_pos text pos len insidequote start end_ type];
      try assumption; try (rewrite ?length_app; cbn [length]; lia).
    + f_equal. f_equal; lia.
    + rewrite Ht, <- app_assoc. reflexivity.
Qed.

(** [picolGetToken] at a variable. *)
Lemma picolGetToken_var (p : picolParser) (pre n post : list Z)
  (q : bool) :
  text p = pre ++ (ch_dollar :: n) ++ post ->
  pos p = Z.of_nat (length pre) ->
  len p = Z.of_nat (length (ch_dollar :: n) + length post) ->
  insidequote p = q ->
  n <> [] -> Forall (fun c => var_char c = true) n ->
  match post with [] => True | c :: _ => var_char c = false end ->
  picolGetToken p
  = Ret (PICOL_OK,
         mkParser (text p) (Z.of_nat (length pre + length (ch_dollar :: n)))
           (Z.of_nat (length pre) + 1)
           (Z.of_nat (length pre) + Z.of_nat (length n))
           (Z.of_nat (length post)) PT_VAR q).
Proof.
  intros Ht Hp Hl Hq Hne Hn Hpost.
  cbn [app length] in Ht, Hl.
  unfold picolGetToken, scan_fuel. cbn [picolGetToken_loop].
  replace (len p >? 0) with true
    by (symmetry; apply Z.gtb_lt; rewrite Hl; lia).
  rewrite (peek_at p pre _ Ht Hp). cbn [bind].
  change ((ch_dollar =? ch_nl) || (ch_dollar =? ch_semi)) with false.
  change (ch_dollar =? ch_lbracket) with false.
  rewrite Z.eqb_refl. cbv iota.
  unfold picolParseVar. cbv zeta.
  rewrite (picolParseVar_loop_name n (pre ++ [ch_dollar]) post);
    unfold set_start, advance, set_len, set_pos;
    cbn [text pos len insidequote start end_ type];
    try assumption; try (rewrite ?length_app; cbn [length]; lia).
  - cbn [bind]. cbn [text pos len insidequote start end_ type].
    replace (pos p + 1 =? pos p + 1 + Z.of_nat (length n)) with false
      by (symmetry; apply Z.eqb_neq; destruct n; [contradiction | ];
          cbn [length]; lia).
    unfold set_type, set_end.
    cbn [text pos len insidequote start end_ type].
    do 2 f_equal. rewrite Hp, Hl, Hq. cbn [length]. f_equal; lia.
  - rewrite Ht, <- app_assoc. reflexivity.
  - unfold scan_fuel. cbn [text]. rewrite Ht, !length_app. cbn [length].
    rewrite length_app. lia.
Qed.

Lemma flat_char_facts (c : Z) :
  flat_char c = true ->
  c <> ch_lbracket /\ c <> ch_rbracket /\ c <> ch_lbrace /\ c <> ch_rbrace
  /\ c <> ch_bslash /\ c <> 0.
Proof.
  unfold flat_char. intros H. apply negb_true_iff in H.
  repeat (apply orb_false_iff in H; destruct H as [H ?]).
  repeat match goal with
         | E : (_ =? _) = false |- _ => apply Z.eqb_neq in E
         end.
  repeat split; assumption.
Qed.

(** The loop of [picolParseCommand] runs over a flat script and stops at
    the closing bracket. *)
Lemma picolParseCommand_loop_flat (s : cstring) :
  forall (pre post : list Z) (fuel : nat) (q : picolParser),
    text q = pre ++ s ++ ch_rbracket :: post ->
    pos q = Z.of_nat (length pre) ->
    len q = Z.of_nat (length s + S (length post)) ->
    Forall (fun c => flat_char c = true) s ->
    (length s < fuel)%nat ->
    picolParseCommand_loop fuel q 1 0
    = Ret (mkParser (text q) (pos q + Z.of_nat (length s)) (start q)
             (end_ q) (len q - Z.of_nat (length s)) (type q) (insidequote q)).
Proof.
  induction s as [ | c s IH]; intros pre post fuel q Ht Hp Hl Hs Hf;
    (destruct fuel as [ | fuel]; [cbn [length] in Hf; lia | ]);
    cbn [picolParseCommand_loop]; cbn [app length] in *;
    (replace (len q >? 0) with true
       by (symmetry; apply Z.gtb_lt; rewrite Hl; lia));
    rewrite (peek_at q pre _ Ht Hp); cbn [bind].
  - change (ch_rbracket =? ch_bslash) with false.
    change (ch_rbracket =? ch_lbracket) with false.
    rewrite Z.eqb_refl. change (0 =? 0) with true.
    change (1 - 1 =? 0) with true. cbv iota.
    destruct q. cbn in *. do 2 f_equal; lia.
  - inversion Hs as [ | c' s' Hc Hs']; subst c' s'.
    destruct (flat_char_facts c Hc) as [? [? [? [? [? ?]]]]].
    eqb_false.
    rewrite (IH (pre ++ [c]) post fuel (advance q));
      cbn [advance set_len set_pos text pos len insidequote start end_ type];
      try assumption; try (rewrite ?length_app; cbn [length]; lia).
    + f_equal. f_equal; lia.
    + rewrite Ht, <- app_assoc. reflexivity.
Qed.

(** [picolGetToken] at a script in brackets. *)
Lemma picolGetToken_cmd (p : picolParser) (pre s post : list Z)
  (q : bool) :
  text p = pre ++ (ch_lbracket :: s ++ [ch_rbracket]) ++ post ->
  pos p = Z.of_nat (length pre) ->
  len p = Z.of_nat (length (ch_lbracket :: s ++ [ch_rbracket]) + length post) ->
  insidequote p = q ->
  Forall (fun c => flat_char c = true) s ->
  picolGetToken p
  = Ret (PICOL_OK,
         mkParser (text p)
           (Z.of_nat (length pre + length (ch_lbracket :: s ++ [ch_rbracket])))
           (Z.of_nat (length pre) + 1)
           (Z.of_nat (length pre) + Z.of_nat (length s))
           (Z.of_nat (length post)) PT_CMD q).
Proof.
  intros Ht Hp Hl Hq Hs.
  cbn [app length] in Ht, Hl. rewrite <- app_assoc in Ht. cbn [app] in Ht.
  rewrite length_app in Hl. cbn [length] in Hl.
  unfold picolGetToken, scan_fuel. cbn [picolGetToken_loop].
  replace (len p >? 0) with true
    by (symmetry; apply Z.gtb_lt; rewrite Hl; lia).
  rewrite (peek_at p pre _ Ht Hp). cbn [bind].
  change ((ch_lbracket =? ch_nl) || (ch_lbracket =? ch_semi)) with false.
  rewrite Z.eqb_refl. cbv iota.
  unfold picolParseCommand. cbv zeta.
  rewrite (picolParseCommand_loop_flat s (pre ++ [ch_lbracket]) post);
    unfold set_start, advance, set_len, set_pos;
    cbn [text pos len insidequote start end_ type];
    try assumption; try (rewrite ?length_app; cbn [length]; lia).
  - cbn [bind]. unfold set_type, set_end.
    cbn [text pos len insidequote start end_ type].
    assert (Hpk : peek (mkParser (text p) (pos p + 1 + Z.of_nat (length s))
                          (pos p + 1) (pos p + 1 + Z.of_nat (length s) - 1)
                          (len p - 1 - Z.of_nat (length s)) PT_CMD
                          (insidequote p))
                  = Ret ch_rbracket).
    { rewrite (peek_at _ (pre ++ ch_lbracket :: s) (ch_rbracket :: post));
        cbn [text pos]; [reflexivity | | ].
      - rewrite Ht, <- app_assoc. reflexivity.
      - rewrite Hp, length_app. cbn [length]. lia. }
    rewrite Hpk. cbn [bind]. rewrite Z.eqb_refl.
    unfold advance, set_len, set_pos.
    cbn [text pos len insidequote start end_ type].
    do 2 f_equal. rewrite Hp, Hl, Hq. cbn [length].
    rewrite ?length_app. cbn [length]. f_equal; lia.
  - rewrite Ht, <- app_assoc. reflexivity.
  - unfold scan_fuel. cbn [text]. rewrite Ht, !length_app. cbn [length].
    rewrite length_app. lia.
Qed.

Lemma quoted_char_facts (c : Z) :
  quoted_char c = true ->
  c <> ch_dollar /\ c <> ch_lbracket /\ c <> ch_dquote /\ c <> ch_bslash
  /\ c <> 0.
Proof.
  unfold quoted_char. intros H. apply negb_true_iff in H.
  repeat (apply orb_false_iff in H; destruct H as [H ?]).
  repeat match goal with
         | E : (_ =? _) = false |- _ => apply Z.eqb_neq in E
         end.
  repeat split; assumption.
Qed.

(** Inside quotes the loop of [picolParseString] runs up to the closing
    quote and leaves through its [return]. *)
Lemma picolParseString_loop_quoted (w : cstring) :
  forall (pre post : list Z) (fuel : nat) (q : picolParser),
    text q = pre ++ w ++ ch_dquote :: post ->
    pos q = Z.of_nat (length pre) ->
    len q = Z.of_nat (length w + S (length post)) ->
    insidequote q = true ->
    Forall (fun c => quoted_char c = true) w ->
    (length w < fuel)%nat ->
    picolParseString_loop fuel q
    = Ret (inl (mkParser (text q) (pos q + Z.of_nat (length w) + 1)
                  (start q) (pos q + Z.of_nat (length w) - 1)
                  (len q - Z.of_nat (length w) - 1) PT_ESC false)).
Proof.
  induction w as [ | c w IH]; intros pre post fuel q Ht Hp Hl Hq Hw Hf;
    (destruct fuel as [ | fuel]; [cbn [length] in Hf; lia | ]);
    cbn [picolParseString_loop]; cbn [app length] in *;
    (replace (len q >? 0) with true
       by (symmetry; apply Z.gtb_lt; rewrite Hl; lia));
    rewrite (peek_at q pre _ Ht Hp); cbn [bind].
  - change ((ch_dquote =? ch_dollar) || (ch_dquote =? ch_lbracket))
      with false.
    rewrite Z.eqb_refl, Hq. cbn [negb]. cbv zeta.
    unfold set_insidequote, advance, set_len, set_pos, set_type, set_end.
    cbn [text pos len insidequote start end_ type].
    do 3 f_equal; lia.
  - inversion Hw as [ | c' w' Hc Hw']; subst c' w'.
    destruct (quoted_char_facts c Hc) as [? [? [? [? ?]]]].
    eqb_false. rewrite Hq. cbn [orb negb andb]. rewrite andb_false_r.
    rewrite (IH (pre ++ [c]) post fuel (advance q));
      cbn [advance set_len set_pos text pos len insidequote start end_ type];
      try assumption; try (rewrite ?length_app; cbn [length]; lia).
    + do 2 f_equal. f_equal; lia.
    + rewrite Ht, <- app_assoc. reflexivity.
Qed.

(** [picolGetToken] at a word in double quotes. *)
Lemma picolGetToken_quoted (p : picolParser) (pre w post : list Z) :
  text p = pre ++ (ch_dquote :: w ++ [ch_dquote]) ++ post ->
  pos p = Z.of_nat (length pre) ->
  len p = Z.of_nat (length (ch_dquote :: w ++ [ch_dquote]) + length post) ->
  insidequote p = false ->
  type p = PT_SEP \/ type p = PT_EOL ->
  Forall (fun c => quoted_char c = true) w ->
  picolGetToken p
  = Ret (PICOL_OK,
         mkParser (text p)
           (Z.of_nat (length pre + length (ch_dquote :: w ++ [ch_dquote])))
           (Z.of_nat (length pre) + 1)
           (Z.of_nat (length pre) + Z.of_nat (length w))
           (Z.of_nat (length post)) PT_ESC false).
Proof.
  intros Ht Hp Hl Hq Hty Hw.
  cbn [app length] in Ht, Hl. rewrite <- app_assoc in Ht. cbn [app] in Ht.
  rewrite length_app in Hl. cbn [length] in Hl.
  unfold picolGetToken, scan_fuel. cbn [picolGetToken_loop].
  replace (len p >? 0) with true
    by (symmetry; apply Z.gtb_lt; rewrite Hl; lia).
  rewrite (peek_at p pre _ Ht Hp). cbn [bind].
  change ((ch_dquote =? ch_nl) || (ch_dquote =? ch_semi)) with false.
  change (ch_dquote =? ch_lbracket) with false.
  change (ch_dquote =? ch_dollar) with false.
  change (ch_dquote =? ch_hash) with false.
  change (isgraph ch_dquote) with true. cbn [orb]. cbv iota.
  unfold picolParseString. rewrite (peek_at p pre _ Ht Hp). cbn [bind].
  change (ch_dquote =? ch_lbrace) with false. rewrite andb_false_r.
  rewrite Z.eqb_refl.
  replace (ptype_eqb (type p) PT_SEP || ptype_eqb (type p) PT_EOL
           || ptype_eqb (type p) PT_STR) with true
    by (destruct Hty as [-> | ->]; reflexivity).
  cbn [andb].
  rewrite (picolParseString_loop_quoted w (pre ++ [ch_dquote]) post);
    unfold set_start, advance, set_insidequote, set_len, set_pos;
    cbn [text pos len insidequote start end_ type];
    try assumption; try reflexivity;
    try (rewrite ?length_app; cbn [length]; lia).
  - cbn [bind]. do 2 f_equal. rewrite Hp, Hl. cbn [length].
    rewrite ?length_app. cbn [length]. f_equal; lia.
  - rewrite Ht, <- app_assoc. reflexivity.
  - unfold scan_fuel. cbn [text]. rewrite Ht, !length_app. cbn [length].
    rewrite length_app. lia.
Qed.

(** Inside quotes the loop of [picolParseString] stops at a
    substitution and leaves through the label [end]. *)
Lemma picolParseString_loop_quoted_stop (w : cstring) :
  forall (pre post : list Z) (c : Z) (fuel : nat) (q : picolParser),
    text q = pre ++ w ++ c :: post ->
    pos q = Z.of_nat (length pre) ->
    len q = Z.of_nat (length w + S (length post)) ->
    insidequote q = true ->
    Forall (fun c => quoted_char c = true) w ->
    c = ch_dollar \/ c = ch_lbracket ->
    (length w < fuel)%nat ->
    picolParseString_loop fuel q
    = Ret (inr (mkParser (text q) (pos q + Z.of_nat (length w)) (start q)
                  (end_ q) (len q - Z.of_nat (length w)) (type q) true)).
Proof.
  induction w as [ | x w IH]; intros pre post c fuel q Ht Hp Hl Hq Hw Hc Hf;
    (destruct fuel as [ | fuel]; [cbn [length] in Hf; lia | ]);
    cbn [picolParseString_loop]; cbn [app length] in *;
    (replace (len q >? 0) with true
       by (symmetry; apply Z.gtb_lt; rewrite Hl; lia));
    rewrite (peek_at q pre _ Ht Hp); cbn [bind].
  - replace ((c =? ch_dollar) || (c =? ch_lbracket)) with true
      by (destruct Hc as [-> | ->]; reflexivity).
    destruct q. cbn in *. subst. do 3 f_equal; lia.
  - inversion Hw as [ | x' w' Hx Hw']; subst x' w'.
    destruct (quoted_char_facts x Hx) as [? [? [? [? ?]]]].
    eqb_false. rewrite Hq. cbn [orb negb andb]. rewrite andb_false_r.
    rewrite (IH (pre ++ [x]) post c fuel (advance q));
      cbn [advance set_len set_pos text pos len insidequote start end_ type];
      try assumption; try (rewrite ?length_app; cbn [length]; lia).
    + do 2 f_equal. f_equal; lia.
    + rewrite Ht, <- app_assoc. reflexivity.
Qed.

(** [picolGetToken] at the opening quote of a text with a
    substitution: the token is the text before the substitution. *)
Lemma picolGetToken_quoted_open (p : picolParser) (pre w post : list Z)
  (c : Z) :
  text p = pre ++ (ch_dquote :: w) ++ c :: post ->
  pos p = Z.of_nat (length pre) ->
  len p = Z.of_nat (S (length w) + S (length post)) ->
  insidequote p = false ->
  type p = PT_SEP \/ type p = PT_EOL ->
  Forall (fun c => quoted_char c = true) w ->
  c = ch_dollar \/ c = ch_lbracket ->
  picolGetToken p
  = Ret (PICOL_OK,
         mkParser (text p) (Z.of_nat (length pre + S (length w)))
           (Z.of_nat (length pre) + 1)
           (Z.of_nat (length pre) + Z.of_nat (length w))
           (Z.of_nat (S (length post))) PT_ESC true).
Proof.
  intros Ht Hp Hl Hq Hty Hw Hc.
  cbn [app length] in Ht, Hl.
  unfold picolGetToken, scan_fuel. cbn [picolGetToken_loop].
  replace (len p >? 0) with true
    by (symmetry; apply Z.gtb_lt; rewrite Hl; lia).
  rewrite (peek_at p pre _ Ht Hp). cbn [bind].
  change ((ch_dquote =? ch_nl) || (ch_dquote =? ch_semi)) with false.
  change (ch_dquote =? ch_lbracket) with false.
  change (ch_dquote =? ch_dollar) with false.
  change (ch_dquote =? ch_hash) with false.
  change (isgraph ch_dquote) with true. cbn [orb]. cbv iota.
  unfold picolParseString. rewrite (peek_at p pre _ Ht Hp). cbn [bind].
  change (ch_dquote =? ch_lbrace) with false. rewrite andb_false_r.
  rewrite Z.eqb_refl.
  replace (ptype_eqb (type p) PT_SEP || ptype_eqb (type p) PT_EOL
           || ptype_eqb (type p) PT_STR) with true
    by (destruct Hty as [-> | ->]; reflexivity).
  cbn [andb].
  rewrite (picolParseString_loop_quoted_stop w (pre ++ [ch_dquote]) post c);
    unfold set_start, advance, set_insidequote, set_len, set_pos;
    cbn [text pos len insidequote start end_ type];
    try assumption; try reflexivity;
    try (rewrite ?length_app; cbn [length]; lia).
  - cbn [bind]. unfold set_type, set_end.
    cbn [text pos len insidequote start end_ type].
    do 2 f_equal. rewrite Hp, Hl. f_equal; lia.
  - rewrite Ht, <- app_assoc. reflexivity.
  - unfold scan_fuel. cbn [text]. rewrite Ht, !length_app. cbn [length].
    rewrite ?length_app. cbn [length]. lia.
Qed.

(** Inside quotes, after a token of the word, [picolGetToken] hands a
    byte that does not substitute to the loop of [picolParseString]. *)
Lemma picolGetToken_in_quote (p : picolParser) (pre post : list Z) (x : Z) :
  text p = pre ++ x :: post -> pos p = Z.of_nat (length pre) ->
  0 < len p -> insidequote p = true -> inner_type (type p) ->
  x <> ch_dollar -> x <> ch_lbracket ->
  picolGetToken p
  = (r <- picolParseString_loop (scan_fuel p) (set_start p (pos p)) ;;
     match r with
     | inl p => Ret (PICOL_OK, p)
     | inr p => Ret (PICOL_OK, set_type (set_end p (pos p - 1)) PT_ESC)
     end).
Proof.
  intros Ht Hp Hl Hq Hty Hx1 Hx2.
  assert (Hps : picolParseString p
                = (r <- picolParseString_loop (scan_fuel p)
                          (set_start p (pos p)) ;;
                   match r with
                   | inl p => Ret (PICOL_OK, p)
                   | inr p =>
                       Ret (PICOL_OK, set_type (set_end p (pos p - 1)) PT_ESC)
                   end)).
  { unfold picolParseString. rewrite (peek_at p pre _ Ht Hp). cbn [bind].
    replace (ptype_eqb (type p) PT_SEP || ptype_eqb (type p) PT_EOL
             || ptype_eqb (type p) PT_STR) with false
      by (destruct Hty as [-> | [-> | ->]]; reflexivity).
    reflexivity. }
  unfold picolGetToken. unfold scan_fuel at 1. cbn [picolGetToken_loop].
  replace (len p >? 0) with true by (symmetry; apply Z.gtb_lt; exact Hl).
  rewrite (peek_at p pre _ Ht Hp). cbn [bind].
  rewrite Hq, (proj2 (Z.eqb_neq x ch_lbracket) Hx2),
    (proj2 (Z.eqb_neq x ch_dollar) Hx1), orb_true_r.
  replace (negb (ptype_eqb (type p) PT_EOL)) with true
    by (destruct Hty as [-> | [-> | ->]]; reflexivity).
  rewrite Hps.
  destruct ((x =? ch_nl) || (x =? ch_semi)); [reflexivity | ].
  destruct (x =? ch_hash); reflexivity.
Qed.

(** [picolGetToken] inside quotes at a text that a substitution
    follows. *)
Lemma picolGetToken_quoted_text (p : picolParser) (pre w post : list Z)
  (c : Z) :
  text p = pre ++ w ++ c :: post -> pos p = Z.of_nat (length pre) ->
  len p = Z.of_nat (length w + S (length post)) ->
  insidequote p = true -> inner_type (type p) ->
  w <> [] -> Forall (fun c => quoted_char c = true) w ->
  c = ch_dollar \/ c = ch_lbracket ->
  picolGetToken p
  = Ret (PICOL_OK,
         mkParser (text p) (Z.of_nat (length pre + length w))
           (Z.of_nat (length pre)) (Z.of_nat (length pre + length w) - 1)
           (Z.of_nat (S (length post))) PT_ESC true).
Proof.
  intros Ht Hp Hl Hq Hty Hne Hw Hc.
  destruct w as [ | x w]; [contradiction | ].
  inversion Hw as [ | x' w' Hx _]; subst x' w'.
  destruct (quoted_char_facts x Hx) as [Hx1 [Hx2 _]].
  rewrite (picolGetToken_in_quote p pre (w ++ c :: post) x Ht Hp);
    try assumption; [ | rewrite Hl; cbn [length]; lia].
  rewrite (picolParseString_loop_quoted_stop (x :: w) pre post c);
    unfold set_start; cbn [text pos len insidequote start end_ type];
    try assumption.
  - cbn [bind]. unfold set_type, set_end.
    cbn [text pos len insidequote start end_ type].
    do 2 f_equal. rewrite Hp, Hl. f_equal; lia.
  - unfold scan_fuel. rewrite Ht, !length_app. cbn [length]. lia.
Qed.

(** [picolGetToken] inside quotes at the last text and the closing
    quote. *)
Lemma picolGetToken_quoted_close (p : picolParser) (pre w post : list Z) :
  text p = pre ++ w ++ ch_dquote :: post -> pos p = Z.of_nat (length pre) ->
  len p = Z.of_nat (length w + S (length post)) ->
  insidequote p = true -> inner_type (type p) ->
  Forall (fun c => quoted_char c = true) w ->
  picolGetToken p
  = Ret (PICOL_OK,
         mkParser (text p) (Z.of_nat (length pre + length w) + 1)
           (Z.of_nat (length pre)) (Z.of_nat (length pre + length w) - 1)
           (Z.of_nat (length post)) PT_ESC false).
Proof.
  intros Ht Hp Hl Hq Hty Hw.
  assert (Hhead : exists x rest,
             w ++ ch_dquote :: post = x :: rest
             /\ x <> ch_dollar /\ x <> ch_lbracket).
  { destruct w as [ | x w]; cbn [app].
    - eexists; eexists. split; [reflexivity | split; discriminate].
    - inversion Hw as [ | x' w' Hx _]; subst x' w'.
      destruct (quoted_char_facts x Hx) as [Hx1 [Hx2 _]].
      eexists; eexists. split; [reflexivity | split; assumption]. }
  destruct Hhead as [x [rest [E [Hx1 Hx2]]]].
  assert (Ht' : text p = pre ++ x :: rest) by (rewrite Ht, E; reflexivity).
  rewrite (picolGetToken_in_quote p pre rest x Ht' Hp);
    try assumption; [ | rewrite Hl; lia].
  rewrite (picolParseString_loop_quoted w pre post);
    unfold set_start; cbn [text pos len insidequote start end_ type];
    try assumption.
  - cbn [bind]. do 2 f_equal. rewrite Hp, Hl. f_equal; lia.
  - unfold scan_fuel. rewrite Ht, !length_app. cbn [length]. lia.
Qed.

Lemma memcpy_from_mid (pre w post : list Z) :
  memcpy_from (pre ++ w ++ post) (Z.of_nat (length pre))
    (Z.of_nat (length w))
  = Ret w.
Proof.
  unfold memcpy_from, strlen.
  replace ((0 <=? Z.of_nat (length pre)) && (0 <=? Z.of_nat (length w))
           && (Z.of_nat (length pre) + Z.of_nat (length w)
               <=? Z.of_nat (length (pre ++ w ++ post)) + 1)) with true
    by (symmetry; rewrite !andb_true_iff, !Z.leb_le, !length_app; lia).
  rewrite !Nat2Z.id, <- !app_assoc, skipn_app, Nat.sub_diag, skipn_all.
  cbn [skipn app].
  rewrite firstn_app, Nat.sub_diag, firstn_all. cbn [firstn].
  rewrite app_nil_r. reflexivity.
Qed.

Lemma memcpy_from_defined (b : list Z) (k n : Z) :
  0 <= k -> 0 <= n -> k + n <= strlen b + 1 ->
  exists t, memcpy_from b k n = Ret t.
Proof.
  intros Hk Hn Hb. unfold memcpy_from.
  replace ((0 <=? k) && (0 <=? n) && (k + n <=? strlen b + 1)) with true
    by (symmetry; rewrite !andb_true_iff, !Z.leb_le; lia).
  eexists. reflexivity.
Qed.

Lemma plain_nul_free (w : cstring) :
  Forall (fun c => plain_char c = true) w -> cstr w = w.
Proof.
  induction 1 as [ | c w Hc _ IH]; cbn [cstr]; [reflexivity | ].
  destruct (plain_char_facts c Hc) as [_ [_ [_ [_ [_ [_ [_ H0]]]]]]].
  rewrite (proj2 (Z.eqb_neq c 0) H0), IH. reflexivity.
Qed.

Lemma plain_no_bslash (w : cstring) :
  Forall (fun c => plain_char c = true) w -> ~ In ch_bslash w.
Proof.
  induction 1 as [ | c w Hc _ IH]; [intros [] | ].
  destruct (plain_char_facts c Hc) as [_ [_ [_ [_ [Hb _]]]]].
  intros [H | H]; [congruence | exact (IH H)].
Qed.

Lemma word_text_head (w : word) :
  word_ok w -> exists c t, word_text w = c :: t /\ isgraph c = true.
Proof.
  destruct w as [w | b | q ps | [n | s]]; cbn [word_ok word_text subst_text].
  - intros [Hw [c [w' [-> _]]]]. inversion Hw as [ | c' l Hc _]; subst c' l.
    destruct (plain_char_facts c Hc) as [Hg _].
    exists c, w'. split; [reflexivity | exact Hg].
  - intros _. eexists. eexists. split; reflexivity.
  - intros _. eexists. eexists. split; reflexivity.
  - intros _. eexists. eexists. split; reflexivity.
  - intros _. eexists. eexists. split; reflexivity.
Qed.

Lemma quoted_nul_free (q : cstring) :
  Forall (fun c => quoted_char c = true) q -> cstr q = q.
Proof.
  induction 1 as [ | c w Hc _ IH]; cbn [cstr]; [reflexivity | ].
  destruct (quoted_char_facts c Hc) as [_ [_ [_ [_ H0]]]].
  rewrite (proj2 (Z.eqb_neq c 0) H0), IH. reflexivity.
Qed.

Lemma quoted_no_bslash (q : cstring) :
  Forall (fun c => quoted_char c = true) q -> ~ In ch_bslash q.
Proof.
  induction 1 as [ | c w Hc _ IH]; [intros [] | ].
  destruct (quoted_char_facts c Hc) as [_ [_ [_ [Hb _]]]].
  intros [H | H]; [congruence | exact (IH H)].
Qed.

Lemma flat_nul_free (s : cstring) :
  Forall (fun c => flat_char c = true) s -> cstr s = s.
Proof.
  induction 1 as [ | c w Hc _ IH]; cbn [cstr]; [reflexivity | ].
  destruct (flat_char_facts c Hc) as [_ [_ [_ [_ [_ H0]]]]].
  rewrite (proj2 (Z.eqb_neq c 0) H0), IH. reflexivity.
Qed.

Lemma var_nul_free (n : cstring) :
  Forall (fun c => var_char c = true) n -> cstr n = n.
Proof.
  induction 1 as [ | c w Hc _ IH]; cbn [cstr]; [reflexivity | ].
  destruct (Z.eqb_spec c 0) as [-> | _]; [discriminate Hc | ].
  rewrite IH. reflexivity.
Qed.

Lemma not_graph_not_var (c : Z) : isgraph c = false -> var_char c = false.
Proof.
  unfold var_char, isalnum, isalpha_b, isupper, islower, isdigit, isgraph,
    ch_underscore.
  intros H. apply andb_false_iff in H.
  repeat match goal with
         | |- context [?a <=? ?b] => destruct (Z.leb_spec a b)
         end;
    destruct (Z.eqb_spec c 95); try reflexivity;
    destruct H as [H | H]; apply Z.leb_gt in H; lia.
Qed.

Lemma word_end_not_var (c : Z) :
  negb (isgraph c) || (c =? ch_semi) = true -> var_char c = false.
Proof.
  intros H. apply orb_true_iff in H. destruct H as [H | H].
  - apply not_graph_not_var. apply negb_true_iff. exact H.
  - apply Z.eqb_eq in H. subst c. reflexivity.
Qed.

Lemma retcode_eqb_eq (a b : retcode) : retcode_eqb a b = true -> a = b.
Proof. destruct a, b; cbn; intros H; try reflexivity; discriminate H. Qed.

Lemma cstr_app_cstr (a t : list Z) : cstr (a ++ cstr t) = cstr (a ++ t).
Proof.
  induction a as [ | c a IH]; cbn [app cstr]; [apply cstr_idem | ].
  destruct (c =? 0); [reflexivity | ]. rewrite IH. reflexivity.
Qed.

Lemma firstn_strlen (v : list Z) : firstn (Z.to_nat (strlen v)) v = v.
Proof. unfold strlen. rewrite Nat2Z.id. apply firstn_all. Qed.

Lemma firstn_length_app (t r : list Z) :
  firstn (Z.to_nat (Z.of_nat (length t))) (t ++ r) = t.
Proof.
  rewrite Nat2Z.id, firstn_app, firstn_all, Nat.sub_diag.
  cbn [firstn]. apply app_nil_r.
Qed.

(** The word that follows a separator starts a new argument. *)
Lemma append_word_new (prevtype : ptype) (argv : list cstring)
  (t : list Z) (tlen : Z) :
  prevtype = PT_SEP \/ prevtype = PT_EOL ->
  append_word prevtype argv t tlen = Ret (argv ++ [cstr t]).
Proof.
  intros Hprev. unfold append_word.
  replace (ptype_eqb prevtype PT_SEP || ptype_eqb prevtype PT_EOL)
    with true by (destruct Hprev as [-> | ->]; reflexivity).
  reflexivity.
Qed.

(** The word that follows another token goes on the last argument. *)
Lemma append_word_more (prevtype : ptype) (argv : list cstring)
  (acc : cstring) (t : list Z) (tlen : Z) (v : cstring) :
  inner_type prevtype -> cstr acc = acc ->
  firstn (Z.to_nat tlen) t = v -> cstr v = v ->
  append_word prevtype (argv ++ [acc]) t tlen = Ret (argv ++ [acc ++ v]).
Proof.
  intros Hty Ha Hf Hv. unfold append_word.
  replace (ptype_eqb prevtype PT_SEP || ptype_eqb prevtype PT_EOL)
    with false by (destruct Hty as [-> | [-> | ->]]; reflexivity).
  rewrite rev_unit, rev_involutive, Hf, (cstr_app acc v Ha), Hv.
  reflexivity.
Qed.

Lemma append_word_cstr (prevtype : ptype) (argv : list cstring)
  (t : list Z) :
  append_word prevtype argv (cstr t) (strlen (cstr t))
  = append_word prevtype argv t (strlen t).
Proof.
  unfold append_word. rewrite cstr_idem, !firstn_strlen.
  destruct (ptype_eqb prevtype PT_SEP || ptype_eqb prevtype PT_EOL);
    [reflexivity | ].
  destruct (rev argv) as [ | last front]; [reflexivity | ].
  rewrite cstr_app_cstr. reflexivity.
Qed.

Lemma eval_subst_nul_free
  (ev : picolInterp -> cstring -> outcome (retcode * picolInterp))
  (i i' : picolInterp) (s : subst) (v : cstring) :
  eval_subst ev i s = Ret (inr (i', v)) -> cstr v = v.
Proof.
  destruct s as [n | s]; cbn [eval_subst].
  - destruct (picolGetVar i n) as [[x | ] | u | ]; cbn [bind];
      try discriminate.
    intros E. injection E as _ <-. apply cstr_idem.
  - destruct (ev i s) as [[rc i1] | u | ]; cbn [bind]; try discriminate.
    destruct (negb (retcode_eqb rc PICOL_OK)); try discriminate.
    intros E. injection E as _ <-. apply cstr_idem.
Qed.

(** Rewriting with an equation whose lists of bytes are written as
    strings. *)
Ltac rw H :=
  let E := fresh in
  pose proof H as E; unfold cstring in E |- *; rewrite E; clear E.

Section CommandLine.

Variable ev : picolInterp -> cstring -> outcome (retcode * picolInterp).

(** The pass of the loop of [picolEval] over a token of text without
    escapes. *)
Lemma picolEval_body_esc (p p1 : picolParser) (pre t post : list Z)
  (prevtype : ptype) :
  picolGetToken p = Ret (PICOL_OK, p1) ->
  type p1 = PT_ESC -> text p1 = pre ++ t ++ post ->
  start p1 = Z.of_nat (length pre) ->
  end_ p1 = Z.of_nat (length pre + length t) - 1 ->
  ~ In ch_bslash t ->
  forall call again i argv,
    picolEval_body ev call again i p prevtype argv PICOL_OK
    = (argv' <- append_word prevtype argv (t ++ [0])
                  (Z.of_nat (length t)) ;;
       again i p1 PT_ESC argv' PICOL_OK).
Proof.
  intros Htok Hty Ht Hs He Hb call again i argv.
  unfold picolEval_body. rewrite Htok.
  cbn [bind retcode_eqb negb]. rewrite !Hty. cbn [ptype_eqb]. cbv zeta.
  replace (token_len p1) with (Z.of_nat (length t))
    by (unfold token_len; rewrite He, Hs;
        match goal with
        | |- context [?a <? 0] => destruct (Z.ltb_spec a 0)
        end; lia).
  rewrite Ht, Hs, memcpy_from_mid. cbn [bind].
  unfold picolEscape, strchr.
  rewrite (strchr_from_absent t ch_bslash 0 Hb) by discriminate.
  cbn [bind]. rewrite wrb_app. cbn [bind]. reflexivity.
Qed.

(** The pass over a substitution. *)
Lemma picolEval_body_subst (p : picolParser) (pre : list Z) (s : subst)
  (post : list Z) (q : bool) (prevtype : ptype) :
  text p = pre ++ subst_text s ++ post -> pos p = Z.of_nat (length pre) ->
  len p = Z.of_nat (length (subst_text s) + length post) ->
  insidequote p = q -> subst_ok s ->
  match s, post with
  | Var _, c :: _ => var_char c = false
  | _, _ => True
  end ->
  exists p1,
    (forall call again i argv,
        picolEval_body ev call again i p prevtype argv PICOL_OK
        = (r <- eval_subst ev i s ;;
           match r with
           | inl x => Ret x
           | inr (i', v) =>
               argv' <- append_word prevtype argv v (strlen v) ;;
               again i' p1 (type p1) argv' PICOL_OK
           end))
    /\ text p1 = text p
    /\ pos p1 = Z.of_nat (length pre + length (subst_text s))
    /\ len p1 = Z.of_nat (length post)
    /\ insidequote p1 = q
    /\ (type p1 = PT_VAR \/ type p1 = PT_CMD)
    /\ 0 <= start p1 <= end_ p1 + 1 /\ end_ p1 < pos p1.
Proof.
  intros Ht Hp Hl Hq Hs Hpost.
  destruct s as [n | s]; cbn [subst_text eval_subst subst_ok] in *.
  - destruct Hs as [Hne Hn].
    exists (mkParser (text p) (Z.of_nat (length pre + length (ch_dollar :: n)))
              (Z.of_nat (length pre) + 1)
              (Z.of_nat (length pre) + Z.of_nat (length n))
              (Z.of_nat (length post)) PT_VAR q).
    split; [ | cbn [text pos len insidequote type start end_]].
    + intros call again i argv. unfold picolEval_body.
      rewrite (picolGetToken_var p pre n post q Ht Hp Hl Hq Hne Hn)
        by (destruct post; [exact I | exact Hpost]).
      cbn [bind retcode_eqb negb type ptype_eqb text start]. cbv zeta.
      replace (token_len _) with (Z.of_nat (length n))
        by (unfold token_len; cbn [end_ start];
            destruct (Z.ltb_spec
                        (Z.of_nat (length pre) + Z.of_nat (length n)
                         - (Z.of_nat (length pre) + 1) + 1) 0); lia).
      replace (text p) with ((pre ++ [ch_dollar]) ++ n ++ post) at 1
        by (rewrite Ht; cbn [app]; rewrite <- !app_assoc; reflexivity).
      replace (Z.of_nat (length pre) + 1)
        with (Z.of_nat (length (pre ++ [ch_dollar])))
        by (rewrite length_app; cbn [length]; lia).
      rewrite memcpy_from_mid. cbn [bind].
      rewrite (var_nul_free n Hn).
      destruct (picolGetVar i n) as [[v | ] | u | ]; cbn [bind];
        try reflexivity.
      rewrite append_word_cstr. reflexivity.
    + destruct n as [ | c n]; [contradiction | ]. cbn [length].
      repeat split; try reflexivity; try (left; reflexivity); lia.
  - exists (mkParser (text p)
              (Z.of_nat (length pre
                         + length (ch_lbracket :: s ++ [ch_rbracket])))
              (Z.of_nat (length pre) + 1)
              (Z.of_nat (length pre) + Z.of_nat (length s))
              (Z.of_nat (length post)) PT_CMD q).
    split; [ | cbn [text pos len insidequote type start end_]].
    + intros call again i argv. unfold picolEval_body.
      rewrite (picolGetToken_cmd p pre s post q Ht Hp Hl Hq Hs).
      cbn [bind retcode_eqb negb type ptype_eqb text start]. cbv zeta.
      replace (token_len _) with (Z.of_nat (length s))
        by (unfold token_len; cbn [end_ start];
            destruct (Z.ltb_spec
                        (Z.of_nat (length pre) + Z.of_nat (length s)
                         - (Z.of_nat (length pre) + 1) + 1) 0); lia).
      replace (text p) with ((pre ++ [ch_lbracket]) ++ s ++ ch_rbracket :: post)
        at 1
        by (rewrite Ht; cbn [app]; rewrite <- !app_assoc; reflexivity).
      replace (Z.of_nat (length pre) + 1)
        with (Z.of_nat (length (pre ++ [ch_lbracket])))
        by (rewrite length_app; cbn [length]; lia).
      rewrite memcpy_from_mid. cbn [bind].
      rewrite (flat_nul_free s Hs).
      destruct (ev i s) as [[rc i1] | u | ]; cbn [bind]; try reflexivity.
      destruct (retcode_eqb rc PICOL_OK) eqn:Erc; cbn [negb bind];
        [ | reflexivity].
      apply retcode_eqb_eq in Erc. subst rc.
      rewrite append_word_cstr. reflexivity.
    + cbn [length]. rewrite ?length_app. cbn [length].
      repeat split; try reflexivity; try (right; reflexivity); lia.
Qed.

(** The pass of the loop of [picolEval] that reads a word of one
    token. *)
Lemma picolEval_body_word
  (p : picolParser) (pre : list Z) (w : word)
  (post : list Z) (prevtype : ptype) :
  text p = pre ++ word_text w ++ post -> pos p = Z.of_nat (length pre) ->
  len p = Z.of_nat (length (word_text w) + length post) ->
  insidequote p = false ->
  type p = PT_SEP \/ type p = PT_EOL ->
  prevtype = PT_SEP \/ prevtype = PT_EOL ->
  word_ok w -> word_tokens w = 1%nat ->
  word_end post ->
  exists p1,
    (forall call again i argv,
        picolEval_body ev call again i p prevtype argv PICOL_OK
        = (r <- eval_word ev i w ;;
           match r with
           | inl x => Ret x
           | inr (i', v) => again i' p1 (type p1) (argv ++ [v]) PICOL_OK
           end))
    /\ text p1 = text p
    /\ pos p1 = Z.of_nat (length pre + length (word_text w))
    /\ len p1 = Z.of_nat (length post)
    /\ insidequote p1 = false
    /\ negb (ptype_eqb (type p1) PT_EOL) && negb (ptype_eqb (type p1) PT_EOF)
       = true
    /\ 0 <= start p1 <= end_ p1 + 1 /\ end_ p1 < pos p1.
Proof.
  intros Ht Hp Hl Hq Hty Hprev Hw Hone Hpost.
  assert (Hap : forall argv t tlen,
            append_word prevtype argv t tlen = Ret (argv ++ [cstr t]))
    by (intros; apply append_word_new; exact Hprev).
  assert (Hmid : forall x b y,
            text p = pre ++ (x :: b ++ [y]) ++ post ->
            memcpy_from (text p) (Z.of_nat (length pre) + 1)
              (Z.of_nat (length b))
            = Ret b).
  { intros x b y Ht'.
    replace (text p) with ((pre ++ [x]) ++ b ++ y :: post)
      by (rewrite Ht'; cbn [app]; rewrite <- !app_assoc; reflexivity).
    replace (Z.of_nat (length pre) + 1)
      with (Z.of_nat (length (pre ++ [x])))
      by (rewrite length_app; cbn [length]; lia).
    apply memcpy_from_mid. }
  assert (Hlen : forall (b : cstring) a c,
            token_len (mkParser (text p) a (Z.of_nat (length pre) + 1)
                         (Z.of_nat (length pre) + Z.of_nat (length b))
                         c PT_ESC false)
            = Z.of_nat (length b)).
  { intros b a c. unfold token_len. cbn [end_ start].
    destruct (Z.ltb_spec (Z.of_nat (length pre) + Z.of_nat (length b)
                          - (Z.of_nat (length pre) + 1) + 1) 0); lia. }
  destruct w as [w | b | q [ | part ps] | s];
    cbn [word_text eval_word word_ok word_tokens parts_text eval_parts] in *;
    try discriminate Hone.
  - exists (mkParser (text p) (Z.of_nat (length pre + length w))
              (Z.of_nat (length pre)) (Z.of_nat (length pre + length w) - 1)
              (Z.of_nat (length post)) PT_ESC false).
    split; [ | cbn [text pos len insidequote type start end_]].
    + intros call again i argv. unfold picolEval_body.
      rewrite (picolGetToken_plain_word p pre w post Ht Hp Hl Hq Hty Hw
                 Hpost).
      cbn [bind retcode_eqb negb type ptype_eqb text start]. cbv zeta.
      replace (token_len _) with (Z.of_nat (length w))
        by (unfold token_len; cbn [end_ start];
            destruct (Z.ltb_spec
                        (Z.of_nat (length pre + length w) - 1
                         - Z.of_nat (length pre) + 1) 0); lia).
      rewrite Ht at 1. rewrite memcpy_from_mid. cbn [bind].
      destruct Hw as [Hw _].
      unfold picolEscape, strchr.
      rewrite (strchr_from_absent w ch_bslash 0 (plain_no_bslash w Hw))
        by discriminate.
      cbn [bind]. rewrite wrb_app. cbn [bind].
      rewrite Hap. cbn [bind].
      rewrite (cstr_app_nul w [] (plain_nul_free w Hw)).
      reflexivity.
    + destruct Hw as [_ [c [w' [-> _]]]]. cbn [length].
      repeat split; try reflexivity; lia.
  - destruct Hw as [Hn [Hb H0]].
    exists (mkParser (text p)
              (Z.of_nat (length pre + length (ch_lbrace :: b ++ [ch_rbrace])))
              (Z.of_nat (length pre) + 1)
              (Z.of_nat (length pre) + Z.of_nat (length b))
              (Z.of_nat (length post)) PT_STR false).
    split; [ | cbn [text pos len insidequote type start end_]].
    + intros call again i argv. unfold picolEval_body.
      rewrite (picolGetToken_braced p pre b post Ht Hp Hl Hq Hty Hn Hb).
      cbn [bind retcode_eqb negb type ptype_eqb text start]. cbv zeta.
      replace (token_len _) with (Z.of_nat (length b))
        by (unfold token_len; cbn [end_ start];
            destruct (Z.ltb_spec
                        (Z.of_nat (length pre) + Z.of_nat (length b)
                         - (Z.of_nat (length pre) + 1) + 1) 0); lia).
      rewrite (Hmid _ b _ Ht). cbn [bind].
      rewrite Hap. cbn [bind].
      rewrite (proj2 (nul_free_not_In b) H0). reflexivity.
    + cbn [length]. rewrite ?length_app. cbn [length].
      repeat split; try reflexivity; lia.
  - destruct Hw as [Hw _]. cbn [app] in Ht, Hl.
    exists (mkParser (text p)
              (Z.of_nat (length pre + length (ch_dquote :: q ++ [ch_dquote])))
              (Z.of_nat (length pre) + 1)
              (Z.of_nat (length pre) + Z.of_nat (length q))
              (Z.of_nat (length post)) PT_ESC false).
    split; [ | cbn [text pos len insidequote type start end_]].
    + intros call again i argv. unfold picolEval_body.
      rewrite (picolGetToken_quoted p pre q post Ht Hp Hl Hq Hty Hw).
      cbn [bind retcode_eqb negb type ptype_eqb text start]. cbv zeta.
      rewrite Hlen, (Hmid _ q _ Ht). cbn [bind].
      unfold picolEscape, strchr.
      rewrite (strchr_from_absent q ch_bslash 0 (quoted_no_bslash q Hw))
        by discriminate.
      cbn [bind]. rewrite wrb_app. cbn [bind].
      rewrite Hap. cbn [bind].
      rewrite (cstr_app_nul q [] (quoted_nul_free q Hw)).
      reflexivity.
    + cbn [length]. rewrite ?length_app. cbn [length].
      repeat split; try reflexivity; lia.
  - destruct part as [s1 t1]. destruct ps as [ | [s2 t2] ps], t1;
      discriminate Hone.
  - destruct (picolEval_body_subst p pre s post false prevtype Ht Hp Hl Hq Hw)
      as [p1 [E [Ht1 [Hp1 [Hl1 [Hq1 [Hty1 Hse1]]]]]]].
    { destruct s as [n | s]; [ | destruct post; exact I].
      destruct post as [ | c post]; [exact I | ].
      apply word_end_not_var. exact Hpost. }
    exists p1. split; [ | repeat split; try assumption; try apply Hse1].
    + intros call again i argv. rewrite E.
      destruct (eval_subst ev i s) as [[x | [i' v]] | u | ] eqn:Es;
        cbn [bind]; try reflexivity.
      rewrite Hap. cbn [bind].
      rewrite (eval_subst_nul_free ev i i' s v Es). reflexivity.
    + destruct Hty1 as [-> | ->]; reflexivity.
Qed.

(** The pass that reads the blanks between two words. *)
Lemma picolEval_body_blanks
  (call : picolCmd -> picolInterp -> list cstring
          -> outcome (retcode * picolInterp))
  (again : picolInterp -> picolParser -> ptype -> list cstring -> retcode
           -> outcome (retcode * picolInterp))
  (i : picolInterp) (p : picolParser) (pre s post : list Z) (c : Z)
  (prevtype : ptype) (argv : list cstring) (rc : retcode) :
  text p = pre ++ s ++ c :: post -> pos p = Z.of_nat (length pre) ->
  len p = Z.of_nat (length s + S (length post)) ->
  insidequote p = false ->
  blanks s -> isgraph c = true ->
  picolEval_body ev call again i p prevtype argv rc
  = again i
      (mkParser (text p) (Z.of_nat (length pre + length s))
         (Z.of_nat (length pre)) (Z.of_nat (length pre + length s) - 1)
         (Z.of_nat (S (length post))) PT_SEP false)
      PT_SEP argv rc.
Proof.
  intros Ht Hp Hl Hq Hs Hc. unfold picolEval_body.
  rewrite (picolGetToken_blanks p pre s post c Ht Hp Hl Hq Hs Hc).
  cbn [bind retcode_eqb negb type ptype_eqb text start]. cbv zeta.
  destruct (memcpy_from_defined (text p) (Z.of_nat (length pre))
              (token_len
                 (mkParser (text p) (Z.of_nat (length pre + length s))
                    (Z.of_nat (length pre))
                    (Z.of_nat (length pre + length s) - 1)
                    (Z.of_nat (S (length post))) PT_SEP false)))
    as [t E].
  - lia.
  - unfold token_len. cbn [end_ start].
    destruct (Z.ltb_spec (Z.of_nat (length pre + length s) - 1
                          - Z.of_nat (length pre) + 1) 0); lia.
  - unfold token_len, strlen. cbn [end_ start]. rewrite Ht, !length_app.
    cbn [length].
    destruct (Z.ltb_spec (Z.of_nat (length pre + length s) - 1
                          - Z.of_nat (length pre) + 1) 0); lia.
  - rewrite E. reflexivity.
Qed.

(** The last two passes: at the end of the text the command is looked
    up and called, and the loop is left at EOF. *)
Lemma picolEval_loop_at_end (fuel : nat) (i : picolInterp)
  (p : picolParser) (prevtype : ptype) (argv : list cstring) :
  len p = 0 ->
  negb (ptype_eqb (type p) PT_EOL) && negb (ptype_eqb (type p) PT_EOF)
  = true ->
  0 <= start p -> start p <= end_ p + 1 -> end_ p < strlen (text p) ->
  picolEval_loop ev (S (S fuel)) i p prevtype argv PICOL_OK
  = run_command ev (S fuel) i argv.
Proof.
  intros Hl Hty Hs Hse He.
  rewrite picolEval_loop_S. unfold picolEval_body at 1.
  unfold picolGetToken, scan_fuel. cbn [picolGetToken_loop].
  rewrite Hl. change (0 >? 0) with false. rewrite Hty.
  cbn [bind retcode_eqb negb]. unfold set_type at 1 2 3.
  cbn [type ptype_eqb text start]. cbv zeta.
  destruct (memcpy_from_defined (text p) (start p)
              (token_len (set_type p PT_EOL))) as [t E].
  - exact Hs.
  - unfold token_len. cbn [set_type end_ start].
    destruct (Z.ltb_spec (end_ p - start p + 1) 0); lia.
  - unfold token_len. cbn [set_type end_ start].
    destruct (Z.ltb_spec (end_ p - start p + 1) 0); lia.
  - unfold set_type in E. cbn [text start end_] in E.
    unfold set_type. rewrite E. cbn [bind].
    unfold run_command. destruct argv as [ | a0 argv]; cbn [type].
    + rewrite picolEval_loop_S. unfold picolEval_body.
      unfold picolGetToken, scan_fuel. cbn [picolGetToken_loop text len].
      rewrite Hl. reflexivity.
    + destruct (picolGetCommand i a0) as [c | ]; [ | reflexivity].
      destruct (call_func ev (S fuel) c i (a0 :: argv)) as [[rc i'] | u | ];
        cbn [bind]; try reflexivity.
      destruct rc; cbn [retcode_eqb negb]; try reflexivity.
      rewrite picolEval_loop_S. unfold picolEval_body.
      unfold picolGetToken, scan_fuel. cbn [picolGetToken_loop text len].
      rewrite Hl. reflexivity.
Qed.

Lemma command_line_head (w : word) (rest : list (cstring * word)) :
  word_ok w ->
  exists c post, command_line w rest = c :: post /\ isgraph c = true.
Proof.
  intros Hw. destruct (word_text_head w Hw) as [c [t [E Hc]]].
  destruct rest as [ | [s w1] rest]; cbn [command_line]; rewrite E;
    cbn [app]; eexists; eexists; (split; [reflexivity | exact Hc]).
Qed.

(** What follows a substitution between quotes does not go on the name
    of a variable. *)
Lemma parts_text_head (ps : list (subst * cstring)) (post : list Z) :
  ps <> [] ->
  exists c rest, parts_text ps ++ ch_dquote :: post = c :: rest
                 /\ (c = ch_dollar \/ c = ch_lbracket).
Proof.
  destruct ps as [ | [[n | s] t] ps]; [contradiction | | ]; intros _;
    cbn [parts_text subst_text app]; eexists; eexists;
    (split; [reflexivity | ]); [left | right]; reflexivity.
Qed.

(** The passes of the loop of [picolEval] over the substitutions
    between quotes and the texts after them, up to the closing quote:
    each token goes on the argument that the text after the opening
    quote started. *)
Lemma picolEval_loop_parts (ps : list (subst * cstring)) :
  forall (pre post : list Z) (p : picolParser),
    text p = pre ++ parts_text ps ++ ch_dquote :: post ->
    pos p = Z.of_nat (length pre) ->
    len p = Z.of_nat (length (parts_text ps) + S (length post)) ->
    insidequote p = true -> inner_type (type p) ->
    ps <> [] -> Forall part_ok ps ->
    exists p1,
      (forall fuel i (argv : list cstring) (acc : cstring),
          cstr acc = acc ->
          picolEval_loop ev (parts_tokens ps + fuel) i p (type p)
            (argv ++ [acc]) PICOL_OK
          = (r <- eval_parts ev i acc ps ;;
             match r with
             | inl x => Ret x
             | inr (i', v) =>
                 picolEval_loop ev fuel i' p1 (type p1) (argv ++ [v])
                   PICOL_OK
             end))
      /\ text p1 = text p
      /\ pos p1 = Z.of_nat (length pre + length (parts_text ps) + 1)
      /\ len p1 = Z.of_nat (length post)
      /\ insidequote p1 = false
      /\ type p1 = PT_ESC
      /\ 0 <= start p1 <= end_ p1 + 1 /\ end_ p1 < pos p1.
Proof.
  induction ps as [ | [s t] ps IH]; intros pre post p Ht Hp Hl Hq Hty Hne Hps;
    [contradiction | ].
  inversion Hps as [ | st l [Hs [Htq Hv]] Hps']; subst st l.
  cbn [fst snd] in Hs, Htq, Hv. cbn [parts_text] in Ht, Hl.
  set (after := t ++ parts_text ps ++ ch_dquote :: post).
  assert (Ht_s : text p = pre ++ subst_text s ++ after)
    by (rewrite Ht; unfold after; rewrite <- !app_assoc; reflexivity).
  assert (Hl_s : len p = Z.of_nat (length (subst_text s) + length after))
    by (rewrite Hl; unfold after; rewrite !length_app; cbn [length];
        f_equal; lia).
  assert (Hnv : match s, after with
                | Var _, c :: _ => var_char c = false
                | _, _ => True
                end).
  { destruct s as [n | s]; [ | destruct after; exact I]. unfold after.
    destruct t as [ | c t]; [ | exact Hv]. cbn [app].
    destruct ps as [ | [[n' | s'] t'] ps']; reflexivity. }
  destruct (picolEval_body_subst p pre s after true (type p) Ht_s Hp Hl_s Hq
              Hs Hnv)
    as [pa [Ea [Hta [Hpa [Hla [Hqa [Htya [Hsa Hea]]]]]]]].
  assert (Hia : inner_type (type pa))
    by (destruct Htya as [E | E]; rewrite E;
        [right; left | right; right]; reflexivity).
  assert (Hbs : ~ In ch_bslash t) by exact (quoted_no_bslash t Htq).
  assert (Hnt : cstr t = t) by exact (quoted_nul_free t Htq).
  assert (Hstep : forall fuel i (argv : list cstring) (acc : cstring),
            cstr acc = acc ->
            picolEval_loop ev (S fuel) i p (type p) (argv ++ [acc]) PICOL_OK
            = (r <- eval_subst ev i s ;;
               match r with
               | inl x => Ret x
               | inr (i', v) =>
                   picolEval_loop ev fuel i' pa (type pa)
                     (argv ++ [acc ++ v]) PICOL_OK
               end)).
  { intros fuel i argv acc Hacc. rewrite picolEval_loop_S, Ea.
    destruct (eval_subst ev i s) as [[x | [i' v]] | u | ] eqn:Es;
      cbn [bind]; try reflexivity.
    rw (append_word_more (type p) argv acc v (strlen v) v Hty Hacc
               (firstn_strlen v) (eval_subst_nul_free ev i i' s v Es)).
    reflexivity. }
  assert (Hacc' : forall i i' (acc v : cstring),
            cstr acc = acc -> eval_subst ev i s = Ret (inr (i', v)) ->
            cstr (acc ++ v) = acc ++ v).
  { intros i i' acc v Hacc Es. rewrite (cstr_app acc v Hacc).
    rewrite (eval_subst_nul_free ev i i' s v Es). reflexivity. }
  destruct ps as [ | part ps].
  - (* the last text, and the closing quote *)
    cbn [parts_text app] in *.
    assert (Hta' : text pa = (pre ++ subst_text s) ++ t ++ ch_dquote :: post)
      by (rewrite Hta, Ht, <- !app_assoc; reflexivity).
    assert (Hpa' : pos pa = Z.of_nat (length (pre ++ subst_text s)))
      by (rewrite Hpa, length_app; reflexivity).
    assert (Hla' : len pa = Z.of_nat (length t + S (length post)))
      by (rewrite Hla; unfold after; rewrite length_app; reflexivity).
    pose proof (picolGetToken_quoted_close pa (pre ++ subst_text s) t post
                  Hta' Hpa' Hla' Hqa Hia Htq) as Htok.
    set (pb := mkParser (text pa)
                 (Z.of_nat (length (pre ++ subst_text s) + length t) + 1)
                 (Z.of_nat (length (pre ++ subst_text s)))
                 (Z.of_nat (length (pre ++ subst_text s) + length t) - 1)
                 (Z.of_nat (length post)) PT_ESC false) in *.
    exists pb. split; [ | cbn [pb text pos len insidequote type start end_]].
    + intros fuel i argv acc Hacc.
      change (parts_tokens [(s, t)] + fuel)%nat with (S (S fuel)).
      rw (Hstep (S fuel) i argv acc Hacc). cbn [eval_parts].
      destruct (eval_subst ev i s) as [[x | [i' v]] | u | ] eqn:Es;
        cbn [bind]; try reflexivity.
      rewrite picolEval_loop_S.
      rw (picolEval_body_esc pa pb (pre ++ subst_text s) t
                 (ch_dquote :: post) (type pa) Htok eq_refl Hta' eq_refl
                 eq_refl Hbs).
      rw (append_word_more (type pa) argv (acc ++ v) (t ++ [0])
                 (Z.of_nat (length t)) t Hia (Hacc' i i' acc v Hacc Es)
                 (firstn_length_app t [0]) Hnt).
      cbn [bind]. rewrite <- app_assoc. reflexivity.
    + rewrite !length_app. cbn [length].
      repeat split; try reflexivity; try assumption; lia.
  - assert (Hne' : part :: ps <> []) by discriminate.
    destruct (parts_text_head (part :: ps) post Hne')
      as [c [rest [Erest Hc]]].
    assert (Hlr : length (parts_text (part :: ps) ++ ch_dquote :: post)
                  = S (length rest)) by (rewrite Erest; reflexivity).
    rewrite length_app in Hlr. cbn [length] in Hlr.
    destruct t as [ | x t].
    + (* no text before the next substitution *)
      cbn [app length] in *.
      assert (Hta' : text pa
                     = (pre ++ subst_text s) ++ parts_text (part :: ps)
                       ++ ch_dquote :: post)
        by (rewrite Hta, Ht, <- !app_assoc; reflexivity).
      assert (Hpa' : pos pa = Z.of_nat (length (pre ++ subst_text s)))
        by (rewrite Hpa, length_app; reflexivity).
      assert (Hla' : len pa
                     = Z.of_nat (length (parts_text (part :: ps))
                                 + S (length post)))
        by (rewrite Hla; unfold after; rewrite length_app; reflexivity).
      destruct (IH (pre ++ subst_text s) post pa Hta' Hpa' Hla' Hqa Hia Hne'
                  Hps')
        as [p1 [E1 [Ht1 [Hp1 [Hl1 H1]]]]].
      exists p1.
      split; [ | split; [ | split; [ | split; [exact Hl1 | exact H1]]]].
      * intros fuel i argv acc Hacc.
        change (parts_tokens ((s, []) :: part :: ps) + fuel)%nat
          with (S (parts_tokens (part :: ps) + fuel)).
        rw (Hstep (parts_tokens (part :: ps) + fuel)%nat i argv acc Hacc).
        cbn [eval_parts].
        destruct (eval_subst ev i s) as [[y | [i' v]] | u | ] eqn:Es;
          cbn [bind]; try reflexivity.
        rw (E1 fuel i' argv (acc ++ v) (Hacc' i i' acc v Hacc Es)).
        rewrite app_nil_r. reflexivity.
      * rewrite Ht1. exact Hta.
      * change (parts_text ((s, []) :: part :: ps))
          with (subst_text s ++ parts_text (part :: ps)).
        rewrite Hp1, !length_app. f_equal. lia.
    + (* a text, then the next substitution *)
      assert (Hta' : text pa
                     = (pre ++ subst_text s) ++ (x :: t) ++ c :: rest)
        by (rewrite Hta, Ht, <- Erest, <- !app_assoc; reflexivity).
      assert (Hpa' : pos pa = Z.of_nat (length (pre ++ subst_text s)))
        by (rewrite Hpa, length_app; reflexivity).
      assert (Hla' : len pa = Z.of_nat (length (x :: t) + S (length rest)))
        by (rewrite Hla; unfold after; rewrite !length_app; cbn [length];
            f_equal; lia).
      assert (Hxt : x :: t <> []) by discriminate.
      pose proof (picolGetToken_quoted_text pa (pre ++ subst_text s) (x :: t)
                    rest c Hta' Hpa' Hla' Hqa Hia Hxt Htq Hc) as Htok.
      set (pb := mkParser (text pa)
                   (Z.of_nat (length (pre ++ subst_text s)
                              + length (x :: t)))
                   (Z.of_nat (length (pre ++ subst_text s)))
                   (Z.of_nat (length (pre ++ subst_text s)
                              + length (x :: t)) - 1)
                   (Z.of_nat (S (length rest))) PT_ESC true) in *.
      assert (Htb : text pb
                    = ((pre ++ subst_text s) ++ x :: t)
                      ++ parts_text (part :: ps) ++ ch_dquote :: post)
        by (cbn [pb text]; rewrite Hta, Ht, <- !app_assoc; reflexivity).
      assert (Hpb : pos pb
                    = Z.of_nat (length ((pre ++ subst_text s) ++ x :: t)))
        by (cbn [pb pos]; rewrite (length_app _ (x :: t)); reflexivity).
      assert (Hlb : len pb
                    = Z.of_nat (length (parts_text (part :: ps))
                                + S (length post)))
        by (cbn [pb len]; f_equal; lia).
      assert (Hib : inner_type (type pb)) by (left; reflexivity).
      destruct (IH ((pre ++ subst_text s) ++ x :: t) post pb Htb Hpb Hlb
                  eq_refl Hib Hne' Hps')
        as [p1 [E1 [Ht1 [Hp1 [Hl1 H1]]]]].
      exists p1.
      split; [ | split; [ | split; [ | split; [exact Hl1 | exact H1]]]].
      * intros fuel i argv acc Hacc.
        change (parts_tokens ((s, x :: t) :: part :: ps) + fuel)%nat
          with (S (S (parts_tokens (part :: ps) + fuel))).
        rw (Hstep (S (parts_tokens (part :: ps) + fuel)) i argv acc Hacc).
        cbn [eval_parts].
        destruct (eval_subst ev i s) as [[y | [i' v]] | u | ] eqn:Es;
          cbn [bind]; try reflexivity.
        rewrite picolEval_loop_S.
        rw (picolEval_body_esc pa pb (pre ++ subst_text s) (x :: t)
                   (c :: rest) (type pa) Htok eq_refl Hta' eq_refl eq_refl
                   Hbs).
        rw (append_word_more (type pa) argv (acc ++ v) ((x :: t) ++ [0])
                   (Z.of_nat (length (x :: t))) (x :: t) Hia
                   (Hacc' i i' acc v Hacc Es)
                   (firstn_length_app (x :: t) [0]) Hnt).
        cbn [bind].
        assert (Hacc2 : cstr ((acc ++ v) ++ x :: t) = (acc ++ v) ++ x :: t)
          by (rewrite (cstr_app _ _ (Hacc' i i' acc v Hacc Es)), Hnt;
              reflexivity).
        change PT_ESC with (type pb) at 1.
        rw (E1 fuel i' argv ((acc ++ v) ++ x :: t) Hacc2).
        rewrite <- app_assoc. reflexivity.
      * rewrite Ht1. cbn [pb text]. exact Hta.
      * change (parts_text ((s, x :: t) :: part :: ps))
          with (subst_text s ++ (x :: t) ++ parts_text (part :: ps)).
        rewrite Hp1, !length_app. f_equal. lia.
Qed.

(** The passes of the loop of [picolEval] over a word. *)
Lemma picolEval_loop_word
  (p : picolParser) (pre : list Z) (w : word)
  (post : list Z) (prevtype : ptype) :
  text p = pre ++ word_text w ++ post -> pos p = Z.of_nat (length pre) ->
  len p = Z.of_nat (length (word_text w) + length post) ->
  insidequote p = false ->
  type p = PT_SEP \/ type p = PT_EOL ->
  prevtype = PT_SEP \/ prevtype = PT_EOL ->
  word_ok w ->
  word_end post ->
  exists p1,
    (forall fuel i argv,
        picolEval_loop ev (word_tokens w + fuel) i p prevtype argv PICOL_OK
        = (r <- eval_word ev i w ;;
           match r with
           | inl x => Ret x
           | inr (i', v) =>
               picolEval_loop ev fuel i' p1 (type p1) (argv ++ [v]) PICOL_OK
           end))
    /\ text p1 = text p
    /\ pos p1 = Z.of_nat (length pre + length (word_text w))
    /\ len p1 = Z.of_nat (length post)
    /\ insidequote p1 = false
    /\ negb (ptype_eqb (type p1) PT_EOL) && negb (ptype_eqb (type p1) PT_EOF)
       = true
    /\ 0 <= start p1 <= end_ p1 + 1 /\ end_ p1 < pos p1.
Proof.
  intros Ht Hp Hl Hq Hty Hprev Hw Hpost.
  assert (Hone : word_tokens w = 1%nat ->
                 exists p1,
                   (forall fuel i argv,
                       picolEval_loop ev (word_tokens w + fuel) i p prevtype
                         argv PICOL_OK
                       = (r <- eval_word ev i w ;;
                          match r with
                          | inl x => Ret x
                          | inr (i', v) =>
                              picolEval_loop ev fuel i' p1 (type p1)
                                (argv ++ [v]) PICOL_OK
                          end))
                   /\ text p1 = text p
                   /\ pos p1 = Z.of_nat (length pre + length (word_text w))
                   /\ len p1 = Z.of_nat (length post)
                   /\ insidequote p1 = false
                   /\ negb (ptype_eqb (type p1) PT_EOL)
                      && negb (ptype_eqb (type p1) PT_EOF) = true
                   /\ 0 <= start p1 <= end_ p1 + 1 /\ end_ p1 < pos p1).
  { intros H1.
    destruct (picolEval_body_word p pre w post prevtype Ht Hp Hl Hq Hty Hprev
                Hw H1 Hpost) as [p1 [E Hrest]].
    exists p1. split; [ | exact Hrest].
    intros fuel i argv. rewrite H1. change (1 + fuel)%nat with (S fuel).
    rewrite picolEval_loop_S, E. reflexivity. }
  destruct w as [w | b | q [ | part ps] | s]; try (apply Hone; reflexivity).
  cbn [word_text word_ok word_tokens eval_word] in *.
  destruct Hw as [Hwq Hps].
  assert (Hne : part :: ps <> []) by discriminate.
  destruct (parts_text_head (part :: ps) post Hne) as [c [rest [Erest Hc]]].
  assert (Hlr : length (parts_text (part :: ps) ++ ch_dquote :: post)
                = S (length rest)) by (rewrite Erest; reflexivity).
  rewrite length_app in Hlr. cbn [length] in Hlr.
  assert (Ht0 : text p = pre ++ (ch_dquote :: q) ++ c :: rest)
    by (rewrite Ht, <- Erest; cbn [app]; rewrite <- !app_assoc;
        reflexivity).
  assert (Hl0 : len p = Z.of_nat (S (length q) + S (length rest)))
    by (rewrite Hl; cbn [length]; rewrite !length_app; cbn [length];
        f_equal; lia).
  pose proof (picolGetToken_quoted_open p pre q rest c Ht0 Hp Hl0 Hq Hty Hwq
                Hc) as Htok.
  set (pa := mkParser (text p) (Z.of_nat (length pre + S (length q)))
               (Z.of_nat (length pre) + 1)
               (Z.of_nat (length pre) + Z.of_nat (length q))
               (Z.of_nat (S (length rest))) PT_ESC true) in *.
  assert (Hta : text pa = (pre ++ [ch_dquote]) ++ q ++ c :: rest)
    by (cbn [pa text]; rewrite Ht0, <- app_assoc; reflexivity).
  assert (Hsa : start pa = Z.of_nat (length (pre ++ [ch_dquote])))
    by (cbn [pa start]; rewrite length_app; cbn [length]; lia).
  assert (Hea : end_ pa
                = Z.of_nat (length (pre ++ [ch_dquote]) + length q) - 1)
    by (cbn [pa end_]; rewrite length_app; cbn [length]; lia).
  assert (Htb : text pa
                = (pre ++ ch_dquote :: q)
                  ++ parts_text (part :: ps) ++ ch_dquote :: post)
    by (cbn [pa text]; rewrite Ht; cbn [app]; rewrite <- !app_assoc;
        reflexivity).
  assert (Hpb : pos pa = Z.of_nat (length (pre ++ ch_dquote :: q)))
    by (cbn [pa pos]; rewrite length_app; reflexivity).
  assert (Hlb : len pa
                = Z.of_nat (length (parts_text (part :: ps))
                            + S (length post)))
    by (cbn [pa len]; f_equal; lia).
  assert (Hia : inner_type (type pa)) by (left; reflexivity).
  destruct (picolEval_loop_parts (part :: ps) (pre ++ ch_dquote :: q) post pa
              Htb Hpb Hlb eq_refl Hia Hne Hps)
    as [p1 [E1 [Ht1 [Hp1 [Hl1 [Hq1 [Hty1 Hse1]]]]]]].
  exists p1. split; [ | split; [ | split; [ | split; [exact Hl1 | ]]]].
  - intros fuel i argv.
    change (1 + parts_tokens (part :: ps) + fuel)%nat
      with (S (parts_tokens (part :: ps) + fuel)).
    rewrite picolEval_loop_S.
    rw (picolEval_body_esc p pa (pre ++ [ch_dquote]) q (c :: rest)
               prevtype Htok eq_refl Hta Hsa Hea (quoted_no_bslash q Hwq)).
    rw (append_word_new prevtype argv (q ++ [0]) (Z.of_nat (length q))
          Hprev). cbn [bind].
    rewrite (cstr_app_nul q [] (quoted_nul_free q Hwq)).
    change PT_ESC with (type pa) at 1.
    exact (E1 fuel i argv q (quoted_nul_free q Hwq)).
  - rewrite Ht1. reflexivity.
  - rewrite Hp1, !length_app. cbn [length]. rewrite !length_app.
    cbn [length]. f_equal. lia.
  - split; [exact Hq1 | ]. split; [rewrite Hty1; reflexivity | exact Hse1].
Qed.

(** The loop of [picolEval] from the start of a word of a command
    line: the words are evaluated one after the other, and the loop goes
    on behind the last of them. *)
Lemma picolEval_loop_words (rest : list (cstring * word)) :
  forall (pre : cstring) (w : word) (p : picolParser) (prevtype : ptype)
         (post : list Z),
    text p = pre ++ command_line w rest ++ post ->
    pos p = Z.of_nat (length pre) ->
    len p = Z.of_nat (length (command_line w rest) + length post) ->
    insidequote p = false ->
    type p = PT_SEP \/ type p = PT_EOL ->
    prevtype = PT_SEP \/ prevtype = PT_EOL ->
    word_ok w ->
    Forall (fun sw => blanks (fst sw) /\ word_ok (snd sw)) rest ->
    word_end post ->
    exists p1,
      (forall fuel i argv,
          picolEval_loop ev (command_tokens w rest + fuel) i p prevtype argv
            PICOL_OK
          = (r <- eval_words ev i (w :: map snd rest) argv ;;
             match r with
             | inl x => Ret x
             | inr (i', argv') =>
                 picolEval_loop ev fuel i' p1 (type p1) argv' PICOL_OK
             end))
      /\ text p1 = text p
      /\ pos p1 = Z.of_nat (length pre + length (command_line w rest))
      /\ len p1 = Z.of_nat (length post)
      /\ insidequote p1 = false
      /\ negb (ptype_eqb (type p1) PT_EOL)
         && negb (ptype_eqb (type p1) PT_EOF) = true
      /\ 0 <= start p1 <= end_ p1 + 1 /\ end_ p1 < pos p1.
Proof.
  induction rest as [ | [s w1] rest IH];
    intros pre w p prevtype post Ht Hp Hl Hq Hty Hprev Hw Hrest Hpost.
  - cbn [command_line command_tokens length map] in *.
    destruct (picolEval_loop_word p pre w post prevtype)
      as [p1 [E H1]]; try assumption.
    exists p1. split; [ | exact H1].
    intros fuel i argv.
    rewrite E. cbn [eval_words].
    destruct (eval_word ev i w) as [[x | [i1 v]] | u | ]; reflexivity.
  - cbn [command_line command_tokens length map] in *.
    inversion Hrest as [ | sw l [Hs Hw1] Hrest']; subst sw l.
    cbn [fst snd] in Hs, Hw1.
    destruct (command_line_head w1 rest Hw1) as [c [post1 [Ecl Hc]]].
    assert (Hs1 : word_end (s ++ command_line w1 rest ++ post)).
    { destruct Hs as [Hne Hs]. destruct s as [ | x s]; [contradiction | ].
      cbn [app word_end]. inversion Hs as [ | x' l Hx _]; subst x' l.
      unfold blank in Hx. apply andb_true_iff in Hx. destruct Hx as [Hx _].
      apply andb_true_iff in Hx. destruct Hx as [Hx _].
      rewrite Hx. reflexivity. }
    destruct (picolEval_loop_word p pre w
                (s ++ command_line w1 rest ++ post) prevtype)
      as [p1 [E [Ht1 [Hp1 [Hl1 [Hq1 [Hty1 [Hst1 He1]]]]]]]];
      try assumption;
      [rewrite Ht, <- !app_assoc; reflexivity
      | rewrite Hl, !length_app; f_equal; lia | ].
    assert (Ht1' : text p1
                   = (pre ++ word_text w) ++ s ++ c :: (post1 ++ post))
      by (rewrite Ht1, Ht, Ecl, <- !app_assoc; reflexivity).
    assert (Hp1' : pos p1 = Z.of_nat (length (pre ++ word_text w)))
      by (rewrite Hp1, length_app; reflexivity).
    assert (Hl1' : len p1 = Z.of_nat (length s + S (length (post1 ++ post))))
      by (rewrite Hl1, Ecl; rewrite ?length_app; cbn [length];
          rewrite ?length_app; f_equal; lia).
    set (p2 := mkParser (text p1)
                 (Z.of_nat (length (pre ++ word_text w) + length s))
                 (Z.of_nat (length (pre ++ word_text w)))
                 (Z.of_nat (length (pre ++ word_text w) + length s) - 1)
                 (Z.of_nat (S (length (post1 ++ post)))) PT_SEP false).
    assert (Ht2 : text p2
                  = ((pre ++ word_text w) ++ s) ++ command_line w1 rest
                    ++ post)
      by (cbn [p2 text]; rewrite Ht1', Ecl, <- !app_assoc; reflexivity).
    assert (Hp2 : pos p2 = Z.of_nat (length ((pre ++ word_text w) ++ s)))
      by (cbn [p2 pos]; rewrite !length_app; f_equal; lia).
    assert (Hl2 : len p2
                  = Z.of_nat (length (command_line w1 rest) + length post))
      by (cbn [p2 len]; rewrite Ecl; cbn [length]; rewrite ?length_app;
          f_equal; lia).
    destruct (IH ((pre ++ word_text w) ++ s) w1 p2 PT_SEP post
                Ht2 Hp2 Hl2 eq_refl (or_introl eq_refl) (or_introl eq_refl)
                Hw1 Hrest' Hpost)
      as [p3 [E3 [Ht3 [Hp3 [Hl3 H3]]]]].
    exists p3.
    split; [ | split; [ | split; [ | split; [exact Hl3 | exact H3]]]].
    + intros fuel i argv.
      replace (word_tokens w + 1 + command_tokens w1 rest + fuel)%nat
        with (word_tokens w + S (command_tokens w1 rest + fuel))%nat by lia.
      rewrite E. cbn [eval_words].
      destruct (eval_word ev i w) as [[x | [i1 v]] | u | ]; cbn [bind];
        try reflexivity.
      rewrite picolEval_loop_S.
      rewrite (picolEval_body_blanks _ _ i1 p1 (pre ++ word_text w) s
                 (post1 ++ post) c (type p1) (argv ++ [v]) PICOL_OK
                 Ht1' Hp1' Hl1' Hq1 Hs Hc).
      fold p2. rewrite E3. reflexivity.
    + rewrite Ht3. cbn [p2 text]. exact Ht1.
    + rewrite Hp3, !length_app. f_equal. lia.
Qed.

End CommandLine.

Lemma blanks_nul_free (s : cstring) :
  Forall (fun c => blank c = true) s -> cstr s = s.
Proof.
  induction 1 as [ | c s Hc _ IH]; cbn [cstr]; [reflexivity | ].
  unfold blank in Hc. apply andb_true_iff in Hc. destruct Hc as [Hc _].
  apply andb_true_iff in Hc. destruct Hc as [_ Hc].
  apply negb_true_iff in Hc. rewrite Hc, IH. reflexivity.
Qed.

Lemma cstr_wrapped (x y : Z) (b : cstring) :
  x <> 0 -> y <> 0 -> cstr b = b -> cstr (x :: b ++ [y]) = x :: b ++ [y].
Proof.
  intros Hx Hy Hb. cbn [cstr]. rewrite (proj2 (Z.eqb_neq x 0) Hx).
  rewrite (cstr_app b [y] Hb). cbn [cstr].
  rewrite (proj2 (Z.eqb_neq y 0) Hy). reflexivity.
Qed.

Lemma subst_text_nul_free (s : subst) :
  subst_ok s -> cstr (subst_text s) = subst_text s.
Proof.
  destruct s as [n | s]; cbn [subst_ok subst_text].
  - intros [_ Hn]. cbn [cstr]. change (ch_dollar =? 0) with false.
    cbv iota. rewrite (var_nul_free n Hn). reflexivity.
  - intros Hs. apply cstr_wrapped; try discriminate.
    exact (flat_nul_free s Hs).
Qed.

Lemma parts_text_nul_free (ps : list (subst * cstring)) :
  Forall part_ok ps -> cstr (parts_text ps) = parts_text ps.
Proof.
  induction 1 as [ | [s t] ps [Hs [Ht _]] _ IH]; [reflexivity | ].
  cbn [parts_text fst snd] in *.
  rewrite (cstr_app _ _ (subst_text_nul_free s Hs)).
  rewrite (cstr_app t _ (quoted_nul_free t Ht)).
  rewrite IH. reflexivity.
Qed.

Lemma word_text_nul_free (w : word) :
  word_ok w -> cstr (word_text w) = word_text w.
Proof.
  destruct w as [w | b | q ps | s]; cbn [word_ok word_text].
  - intros [Hw _]. exact (plain_nul_free w Hw).
  - intros [_ [_ H0]]. apply cstr_wrapped; try discriminate.
    apply nul_free_not_In. exact H0.
  - intros [Hq Hps].
    change (ch_dquote :: q ++ parts_text ps ++ [ch_dquote])
      with ([ch_dquote] ++ q ++ parts_text ps ++ [ch_dquote]).
    rewrite (cstr_app [ch_dquote] _ eq_refl).
    rewrite (cstr_app q _ (quoted_nul_free q Hq)).
    rewrite (cstr_app _ _ (parts_text_nul_free ps Hps)).
    reflexivity.
  - exact (subst_text_nul_free s).
Qed.

Lemma command_line_nul_free (rest : list (cstring * word)) :
  forall w, word_ok w ->
    Forall (fun sw => blanks (fst sw) /\ word_ok (snd sw)) rest ->
    cstr (command_line w rest) = command_line w rest.
Proof.
  induction rest as [ | [s w1] rest IH]; intros w Hw Hrest;
    cbn [command_line].
  - exact (word_text_nul_free w Hw).
  - inversion Hrest as [ | sw l [[_ Hs] Hw1] Hrest']; subst sw l.
    cbn [fst snd] in Hs, Hw1.
    rewrite (cstr_app _ _ (word_text_nul_free w Hw)).
    rewrite (cstr_app s _ (blanks_nul_free s Hs)).
    rewrite (IH w1 Hw1 Hrest'). reflexivity.
Qed.

Lemma picolEval_words (fuel : nat) (i : picolInterp) (w0 : word)
  (rest : list (cstring * word)) :
  word_ok w0 ->
  Forall (fun sw => blanks (fst sw) /\ word_ok (snd sw)) rest ->
  picolEval (S (command_tokens w0 rest + 2 + fuel)) i (command_line w0 rest)
  = (r <- eval_words (picolEval (command_tokens w0 rest + 2 + fuel))
            (picolSetResult i []) (w0 :: map snd rest) [] ;;
     match r with
     | inl x => Ret x
     | inr (i', argv) =>
         run_command (picolEval (command_tokens w0 rest + 2 + fuel)) (S fuel)
           i' argv
     end).
Proof.
  intros Hw Hrest. rewrite picolEval_S. unfold picolInitParser.
  rewrite (command_line_nul_free rest w0 Hw Hrest).
  destruct (picolEval_loop_words
              (picolEval (command_tokens w0 rest + 2 + fuel))
              rest [] w0
              (mkParser (command_line w0 rest) 0 0 0
                 (strlen (command_line w0 rest)) PT_EOL false)
              PT_EOL [])
    as [p1 [E [Ht1 [Hp1 [Hl1 [Hq1 [Hty1 [Hs1 He1]]]]]]]];
    cbn [text pos len insidequote type app length]; try assumption;
    try reflexivity; try (right; reflexivity);
    try (rewrite ?app_nil_r, ?Nat.add_0_r; reflexivity); try exact I.
  replace (command_tokens w0 rest + 2 + fuel)%nat
    with (command_tokens w0 rest + S (S fuel))%nat at 2 by lia.
  rewrite E.
  destruct (eval_words _ _ _ _) as [[x | [i' argv]] | u | ]; cbn [bind];
    try reflexivity.
  apply picolEval_loop_at_end; try assumption; try lia.
  cbn [text] in Ht1. unfold strlen. rewrite Ht1. cbn [app length] in Hp1.
  lia.
Qed.

(** Words that need no evaluation are the arguments they stand for. *)
Lemma eval_words_literal
  (ev : picolInterp -> cstring -> outcome (retcode * picolInterp))
  (i : picolInterp) (ws : list word) :
  forall (vals argv : list cstring),
    map literal ws = map Some vals ->
    eval_words ev i ws argv = Ret (inr (i, argv ++ vals)).
Proof.
  induction ws as [ | w ws IH]; intros [ | v vals] argv E;
    try discriminate E; cbn [eval_words].
  - rewrite app_nil_r. reflexivity.
  - cbn [map] in E. injection E as Ew E.
    destruct w as [w | b | q [ | part ps] | s]; cbn [literal] in Ew;
      try discriminate Ew;
      injection Ew as ->; cbn [eval_word eval_parts bind];
      rewrite (IH vals _ E), <- app_assoc; reflexivity.
Qed.

(** Literal words are one token each. *)
Lemma command_tokens_literal (rest : list (cstring * word)) :
  forall (w0 : word) (vals : list cstring),
    word_tokens w0 = 1%nat ->
    map (fun sw => literal (snd sw)) rest = map Some vals ->
    command_tokens w0 rest = (2 * length rest + 1)%nat.
Proof.
  induction rest as [ | [s w] rest IH]; intros w0 [ | v vals] H0 E;
    try discriminate E; cbn [command_tokens length].
  - rewrite H0. reflexivity.
  - cbn [map snd] in E. injection E as Ew E.
    assert (Hw : word_tokens w = 1%nat)
      by (destruct w as [w' | b | q [ | part ps] | s']; cbn [literal] in Ew;
          try discriminate Ew; reflexivity).
    rewrite H0, (IH w vals Hw E). lia.
Qed.

(** X15.  A command line of words separated by blanks: [picolEval] empties
    the result and evaluates the words from left to right -- a plain
    word and text in braces stand for themselves, a variable for its
    value, a script in brackets for the result of its evaluation, text in
    quotes for itself with the variables and scripts in it replaced in the
    same way -- stopping at a variable that does not exist and at a script
    that does not return OK; it then looks the first argument up among
    the commands and returns what the command returns when called with
    the arguments, or the error of the source when there is no such
    command. *)
Theorem picolEval_command_line
  (fuel : nat) (i : picolInterp) (w0 : word)
  (rest : list (cstring * word)) :
  word_ok w0 ->
  Forall (fun sw => blanks (fst sw) /\ word_ok (snd sw)) rest ->
  picolEval (S (command_tokens w0 rest + 2 + fuel)) i (command_line w0 rest)
  = (r <- eval_words (picolEval (command_tokens w0 rest + 2 + fuel))
            (picolSetResult i []) (w0 :: map snd rest) [] ;;
     match r with
     | inl x => Ret x
     | inr (i', []) => Ret (PICOL_OK, i')
     | inr (i', a0 :: argv) =>
         match picolGetCommand i' a0 with
         | None =>
             Ret (PICOL_ERR,
                  picolSetResult i'
                    (bytes "No such command '" ++ a0 ++ bytes "'"))
         | Some c =>
             call_func (picolEval (command_tokens w0 rest + 2 + fuel))
               (S fuel) c i' (a0 :: argv)
         end
     end).
Proof.
  intros Hw Hrest.
  pose proof (picolEval_words fuel i w0 rest Hw Hrest) as E.
  unfold cstring in E |- *. rewrite E.
  destruct (eval_words _ _ _ _) as [[x | [i' [ | a0 argv]]] | u | ];
    reflexivity.
Qed.

Lemma plain_word_intro (w : cstring) (c : Z) (w' : cstring) :
  w = c :: w' -> c <> ch_lbrace -> c <> ch_hash ->
  forallb plain_char w = true -> plain_word w.
Proof.
  intros -> H1 H2 H. split; [ | exists c, w'; auto].
  apply Forall_forall. intros x Hx.
  exact (proj1 (forallb_forall _ _) H x Hx).
Qed.

Lemma forallb_Forall (f : Z -> bool) (l : list Z) :
  forallb f l = true -> Forall (fun c => f c = true) l.
Proof.
  intros H. apply Forall_forall. intros x Hx.
  exact (proj1 (forallb_forall _ _) H x Hx).
Qed.

Lemma picolEval_command_line_witness :
  word_ok (Plain (bytes "set"))
  /\ Forall (fun sw => blanks (fst sw) /\ word_ok (snd sw))
       [([32; 9], Subst (Var (bytes "x")));
        ([32], Quoted (bytes "v=")
                 [(Var (bytes "x"), bytes ", ");
                  (Cmd (bytes "+ 1 2"), bytes ".")])]
  /\ command_line (Plain (bytes "set"))
       [([32; 9], Subst (Var (bytes "x")));
        ([32], Quoted (bytes "v=")
                 [(Var (bytes "x"), bytes ", ");
                  (Cmd (bytes "+ 1 2"), bytes ".")])]
     = bytes "set" ++ [32; 9] ++ bytes "$x " ++ [ch_dquote]
       ++ bytes "v=$x, [+ 1 2]." ++ [ch_dquote]
  /\ exists i2,
       picolEval (S (9 + 2 + 7))
         (set_callframe fresh_interp
            (Some (CallFrame [mkVar (bytes "x") (bytes "y")] None)))
         (command_line (Plain (bytes "set"))
            [([32; 9], Subst (Var (bytes "x")));
             ([32], Quoted (bytes "v=")
                      [(Var (bytes "x"), bytes ", ");
                       (Cmd (bytes "+ 1 2"), bytes ".")])])
       = Ret (PICOL_OK, i2)
       /\ picolGetVar i2 (bytes "y")
          = Ret (Some (mkVar (bytes "y") (bytes "v=y, 3."))).
Proof.
  assert (H1 : word_ok (Plain (bytes "set")))
    by (apply (plain_word_intro _ 115 (bytes "et") eq_refl);
        [discriminate .. | reflexivity]).
  assert (H2 : Forall (fun sw => blanks (fst sw) /\ word_ok (snd sw))
                 [([32; 9], Subst (Var (bytes "x")));
                  ([32], Quoted (bytes "v=")
                           [(Var (bytes "x"), bytes ", ");
                            (Cmd (bytes "+ 1 2"), bytes ".")])]).
  { apply Forall_cons;
      [split;
       [split; [discriminate | repeat constructor]
       | split; [discriminate | apply forallb_Forall; reflexivity]] | ].
    apply Forall_cons; [split | apply Forall_nil].
    - split; [discriminate | repeat constructor].
    - split; [apply forallb_Forall; reflexivity | ].
      apply Forall_cons; [ | apply Forall_cons; [ | apply Forall_nil]].
      + split; [split; [discriminate | apply forallb_Forall; reflexivity] | ].
        split; [apply forallb_Forall; reflexivity | reflexivity].
      + split; [apply forallb_Forall; reflexivity | ].
        split; [apply forallb_Forall; reflexivity | exact I]. }
  split; [exact H1 | ]. split; [exact H2 | ]. split; [reflexivity | ].
  pose proof (picolEval_command_line 7
                (set_callframe fresh_interp
                   (Some (CallFrame [mkVar (bytes "x") (bytes "y")] None)))
                (Plain (bytes "set"))
                [([32; 9], Subst (Var (bytes "x")));
                 ([32], Quoted (bytes "v=")
                          [(Var (bytes "x"), bytes ", ");
                           (Cmd (bytes "+ 1 2"), bytes ".")])]
                H1 H2) as E.
  destruct (picolEval (S (9 + 2 + 7))
              (set_callframe fresh_interp
                 (Some (CallFrame [mkVar (bytes "x") (bytes "y")] None)))
              (command_line (Plain (bytes "set"))
                 [([32; 9], Subst (Var (bytes "x")));
                  ([32], Quoted (bytes "v=")
                           [(Var (bytes "x"), bytes ", ");
                            (Cmd (bytes "+ 1 2"), bytes ".")])]))
    as [[rc i2] | u | ] eqn:E2;
    pose proof (eq_trans (eq_sym E) E2) as E3; vm_compute in E3;
    try discriminate E3.
  injection E3 as <- <-. eexists. split; reflexivity.
Defined.

(** ** Numbers written and read back *)

Lemma bytes_String (a : ascii) (s : string) :
  bytes (String a s) = Z.of_N (N_of_ascii a) :: bytes s.
Proof. reflexivity. Qed.

Lemma atoi_digits_of_uint_acc (d : uint) :
  forall acc : positive,
    atoi_digits (bytes (NilEmpty.string_of_uint d)) (Z.pos acc)
    = Z.pos (Pos.of_uint_acc d acc).
Proof.
  induction d; intros acc; cbn [NilEmpty.string_of_uint Pos.of_uint_acc];
    [reflexivity | ..];
    rewrite bytes_String; cbn [atoi_digits];
    match goal with
    | |- context [Z.of_N (N_of_ascii ?a)] =>
        let k := eval vm_compute in (Z.of_N (N_of_ascii a)) in
        change (Z.of_N (N_of_ascii a)) with k
    end;
    match goal with
    | |- context [isdigit ?c] => change (isdigit c) with true
    end; cbv iota;
    match goal with
    | |- atoi_digits _ ?v = Z.pos (Pos.of_uint_acc _ ?a) =>
        replace v with (Z.pos a) by lia
    end; apply IHd.
Qed.

Lemma atoi_digits_of_uint (d : uint) :
  atoi_digits (bytes (NilEmpty.string_of_uint d)) 0 = Z.of_N (Pos.of_uint d).
Proof.
  induction d; cbn [NilEmpty.string_of_uint Pos.of_uint];
    [reflexivity | ..];
    rewrite bytes_String; cbn [atoi_digits];
    match goal with
    | |- context [isdigit ?c] => change (isdigit c) with true
    end; cbv iota.
  - exact IHd.
  - apply (atoi_digits_of_uint_acc d 1).
  - apply (atoi_digits_of_uint_acc d 2).
  - apply (atoi_digits_of_uint_acc d 3).
  - apply (atoi_digits_of_uint_acc d 4).
  - apply (atoi_digits_of_uint_acc d 5).
  - apply (atoi_digits_of_uint_acc d 6).
  - apply (atoi_digits_of_uint_acc d 7).
  - apply (atoi_digits_of_uint_acc d 8).
  - apply (atoi_digits_of_uint_acc d 9).
Qed.

(** The string of a number that is not [Nil] starts with a digit, which
    [atoi] takes for neither white space nor a sign. *)
Lemma string_of_uint_head (d : uint) :
  d <> Nil ->
  exists c s, bytes (NilEmpty.string_of_uint d) = c :: s
              /\ isspace c = false /\ c <> 45 /\ c <> 43 /\ c <> 0.
Proof.
  intros Hd. destruct d; [contradiction | ..];
    cbn [NilEmpty.string_of_uint]; rewrite bytes_String;
    eexists; eexists; (split; [reflexivity | ]);
    repeat split; discriminate.
Qed.

Lemma string_of_uint_nul_free (d : uint) :
  cstr (bytes (NilEmpty.string_of_uint d)) = bytes (NilEmpty.string_of_uint d).
Proof.
  induction d; cbn [NilEmpty.string_of_uint]; [reflexivity | ..];
    rewrite bytes_String; cbn [cstr];
    match goal with
    | |- context [?c =? 0] => change (c =? 0) with false
    end; cbv iota; rewrite IHd; reflexivity.
Qed.

Lemma decimal_repr_pos (p : positive) :
  decimal_repr (Z.pos p) = bytes (NilEmpty.string_of_uint (Pos.to_uint p)).
Proof.
  unfold decimal_repr. cbn [Z.to_int NilZero.string_of_int].
  unfold NilZero.string_of_uint.
  pose proof (Unsigned.to_uint_nonnil p) as H.
  destruct (Pos.to_uint p); [contradiction | reflexivity ..].
Qed.

Lemma decimal_repr_neg (p : positive) :
  decimal_repr (Z.neg p)
  = 45 :: bytes (NilEmpty.string_of_uint (Pos.to_uint p)).
Proof.
  unfold decimal_repr. cbn [Z.to_int NilZero.string_of_int].
  rewrite bytes_String. f_equal.
  unfold NilZero.string_of_uint.
  pose proof (Unsigned.to_uint_nonnil p) as H.
  destruct (Pos.to_uint p); [contradiction | reflexivity ..].
Qed.

Lemma decimal_repr_nul_free (c : Z) : cstr (decimal_repr c) = decimal_repr c.
Proof.
  destruct c as [ | p | p].
  - reflexivity.
  - rewrite decimal_repr_pos. apply string_of_uint_nul_free.
  - rewrite decimal_repr_neg. cbn [cstr]. change (45 =? 0) with false.
    cbv iota. rewrite string_of_uint_nul_free. reflexivity.
Qed.

(** What ["%d"] prints, [atoi] reads back. *)
Lemma atoi_decimal_repr (c : Z) :
  in_int c = true -> atoi (decimal_repr c) = Ret c.
Proof.
  intros Hc. destruct c as [ | p | p].
  - reflexivity.
  - rewrite decimal_repr_pos.
    destruct (string_of_uint_head (Pos.to_uint p)
                (Unsigned.to_uint_nonnil p)) as [x [s [E [Hsp [Hm [Hpl _]]]]]].
    unfold atoi. rewrite E. cbn [skip_space]. rewrite Hsp.
    rewrite (proj2 (Z.eqb_neq x 45) Hm), (proj2 (Z.eqb_neq x 43) Hpl).
    rewrite <- E, atoi_digits_of_uint, Unsigned.of_to. cbn [Z.of_N].
    rewrite Hc. reflexivity.
  - rewrite decimal_repr_neg. unfold atoi. cbn [skip_space].
    change (isspace 45) with false. cbv iota.
    change (45 =? 45) with true. cbv iota.
    rewrite atoi_digits_of_uint, Unsigned.of_to. cbn [Z.of_N Z.opp].
    rewrite Hc. reflexivity.
Qed.

Lemma int_of_in_int (v : Z) : returns (fun c => in_int c = true) (int_of v).
Proof.
  unfold int_of. intros c. destruct (in_int v) eqn:E; [ | discriminate].
  intros H. injection H as <-. exact E.
Qed.

Lemma int_div_in_int (a b : Z) :
  returns (fun c => in_int c = true) (int_div a b).
Proof.
  unfold int_div. destruct (b =? 0); [intros c; discriminate | ].
  apply int_of_in_int.
Qed.

Lemma int_of_bool_in_int (b : bool) :
  returns (fun c => in_int c = true) (int_of_bool b).
Proof.
  intros c H. unfold int_of_bool in H. injection H as <-.
  destruct b; reflexivity.
Qed.

(** The math command computes what the operator names say. *)
Lemma picolCommandMath_computes
  (i : picolInterp) (op a b : cstring) (x y c : Z) :
  atoi a = Ret x -> atoi b = Ret y ->
  math_spec op x y = Some c ->
  (op = bytes "/" -> y <> 0) ->
  in_int c = true ->
  picolCommandMath i [op; a; b]
  = Ret (PICOL_OK, picolSetResult i (snprintf_d math_buf_size c)).
Proof.
  intros Ha Hb Hop Hdiv Hint.
  unfold math_spec in Hop.
  repeat match type of Hop with
  | (if cstring_eqb op ?k then _ else _) = _ =>
      destruct (cstring_eqb op k) eqn:E;
      [ apply cstring_eqb_eq in E; subst op | clear E ]
  end; try discriminate; injection Hop as <-.
  all: unfold picolCommandMath;
    match goal with
    | |- context [arg [?o; ?u; ?v] 0] =>
        change (arg [o; u; v] 0) with (Ret o);
        change (arg [o; u; v] 1) with (Ret u);
        change (arg [o; u; v] 2) with (Ret v);
        change (argc_of [o; u; v] =? 3) with true
    end;
    cbn [negb bind];
    match goal with
    | |- context [rd ?o 0] =>
        let r0 := eval vm_compute in (rd o 0) in
        let r1 := eval vm_compute in (rd o 1) in
        change (rd o 0) with r0; change (rd o 1) with r1
    end;
    cbn [bind]; rewrite Ha, Hb; cbn [bind].
  1-3: match goal with
       | |- context [Z.lxor ?u ?v =? ?k] =>
           let r := eval vm_compute in (Z.lxor u v =? k) in
           change (Z.lxor u v =? k) with r
       end; cbv iota; unfold int_of; rewrite Hint; reflexivity.
  - unfold int_div, int_of.
    destruct (y =? 0) eqn:E;
      [apply Z.eqb_eq in E; exfalso; apply Hdiv; [reflexivity | exact E] | ].
    rewrite Hint. reflexivity.
  - destruct (x >? y); reflexivity.
  - destruct (x >=? y); reflexivity.
  - destruct (x <? y); reflexivity.
  - destruct (x <=? y); reflexivity.
  - destruct (x =? y); reflexivity.
  - destruct (x =? y); reflexivity.
Qed.

Lemma firstn_nul_free (n : nat) (d : cstring) :
  cstr d = d -> cstr (firstn n d) = firstn n d.
Proof.
  intros Hd. apply nul_free_not_In. intros Hin.
  apply (proj1 (nul_free_not_In d) Hd). rewrite <- (firstn_skipn n d).
  apply in_or_app. left. exact Hin.
Qed.

(** X16.  What a math command leaves in the result is the value of its
    operator on the two numbers read, printed into the ten bytes of its
    buffer; nothing else changes.  When the value takes no more than
    nine characters the result is its decimal representation, and [atoi]
    -- by which [if], [while] and the math commands themselves read a
    number -- reads the same number back. *)
Theorem picolCommandMath_result_reads_back
  (i : picolInterp) (op a b : cstring) (x y c : Z) :
  atoi a = Ret x -> atoi b = Ret y ->
  math_spec op x y = Some c ->
  (op = bytes "/" -> y <> 0) ->
  in_int c = true ->
  exists i',
    picolCommandMath i [op; a; b] = Ret (PICOL_OK, i')
    /\ result i' = firstn 9 (decimal_repr c)
    /\ ((length (decimal_repr c) <= 9)%nat ->
        result i' = decimal_repr c /\ atoi (result i') = Ret c)
    /\ callframe i' = callframe i /\ commands i' = commands i
    /\ stdout i' = stdout i.
Proof.
  intros Ha Hb Hop Hdiv Hint.
  exists (picolSetResult i (snprintf_d math_buf_size c)).
  split; [exact (picolCommandMath_computes i op a b x y c Ha Hb Hop Hdiv Hint)
         | ].
  assert (Hres : result (picolSetResult i (snprintf_d math_buf_size c))
                 = firstn 9 (decimal_repr c)).
  { cbn [result picolSetResult]. unfold snprintf_d.
    change (Z.to_nat (math_buf_size - 1)) with 9%nat.
    apply firstn_nul_free, decimal_repr_nul_free. }
  split; [exact Hres | ].
  split; [ | repeat split; reflexivity].
  intros Hlen. rewrite Hres, (firstn_all2 (decimal_repr c) Hlen).
  split; [reflexivity | ]. apply atoi_decimal_repr. exact Hint.
Qed.

Lemma picolCommandMath_result_reads_back_witness :
  atoi (bytes "-7") = Ret (-7) /\ atoi (bytes "2x") = Ret 2
  /\ math_spec (bytes "/") (-7) 2 = Some (-3)
  /\ exists i',
       picolCommandMath fresh_interp [bytes "/"; bytes "-7"; bytes "2x"]
       = Ret (PICOL_OK, i')
       /\ result i' = bytes "-3" /\ atoi (result i') = Ret (-3).
Proof.
  split; [reflexivity | ]. split; [reflexivity | ]. split; [reflexivity | ].
  destruct (picolCommandMath_result_reads_back fresh_interp (bytes "/")
              (bytes "-7") (bytes "2x") (-7) 2 (-3) eq_refl eq_refl eq_refl
              ltac:(intros _; lia) eq_refl)
    as [i' [E [Hr [Hback _]]]].
  exists i'. split; [exact E | ].
  destruct (Hback ltac:(vm_compute; lia)) as [H1 H2].
  split; [rewrite H1; reflexivity | exact H2].
Defined.

(** ** Defining a procedure and calling it *)

Lemma picolGetCommand_with_proc (i : picolInterp) (name alist body : cstring) :
  picolGetCommand (with_proc i name alist body) name
  = Some (mkCmd name CommandCallProc (Some (alist, body))).
Proof.
  unfold picolGetCommand, with_proc. cbn. rewrite strcmp0_refl. reflexivity.
Qed.

(** X17.  The command [proc name {alist} {body}], where [name] is free, defines
    [name]; a call of [name] with as many words as [alist] has names
    then evaluates [body] in a new frame on top of the caller's, in which
    the names of [alist] are bound to the words of the call, and drops the
    frame when the body is done. *)
Theorem picolEval_proc_then_call
  (i : picolInterp) (cp : picolCmd) (name alist body s1 s2 s3 : cstring) :
  picolGetCommand i (bytes "proc") = Some cp -> func cp = CommandProc ->
  picolGetCommand i name = None ->
  plain_word name -> word_ok (Braced alist) -> word_ok (Braced body) ->
  blanks s1 -> blanks s2 -> blanks s3 ->
  (forall fuel,
      picolEval (10 + fuel) i
        (command_line (Plain (bytes "proc"))
           [(s1, Plain name); (s2, Braced alist); (s3, Braced body)])
      = Ret (PICOL_OK, with_proc i name alist body))
  /\ (forall fuel rest actuals,
         Forall (fun sw => blanks (fst sw) /\ word_ok (snd sw)) rest ->
         map (fun sw => literal (snd sw)) rest = map Some actuals ->
         NoDup (formal_names alist) ->
         length (formal_names alist) = length actuals ->
         picolEval (S (2 * length rest + 3 + fuel))
           (with_proc i name alist body) (command_line (Plain name) rest)
         = ('(rc, i1) <-
              picolEval (2 * length rest + 3 + fuel)
                (set_callframe
                   (picolSetResult (with_proc i name alist body) [])
                   (Some (CallFrame (bound_vars (formal_names alist) actuals)
                            (callframe i))))
                body ;;
            i2 <- picolDropCallFrame i1 ;;
            Ret (if retcode_eqb rc PICOL_RETURN then PICOL_OK else rc, i2))).
Proof.
  intros Hproc Hf Hfree Hname Halist Hbody Hs1 Hs2 Hs3.
  assert (Hn0 : cstr name = name) by (destruct Hname as [H _];
                                      exact (plain_nul_free name H)).
  assert (Ha0 : nul_free alist)
    by (apply nul_free_not_In; exact (proj2 (proj2 Halist))).
  assert (Hb0 : nul_free body)
    by (apply nul_free_not_In; exact (proj2 (proj2 Hbody))).
  split.
  - intros fuel.
    assert (Hp : word_ok (Plain (bytes "proc")))
      by (apply (plain_word_intro _ 112 (bytes "roc") eq_refl);
          [discriminate .. | reflexivity]).
    assert (Hws : Forall (fun sw => blanks (fst sw) /\ word_ok (snd sw))
                    [(s1, Plain name); (s2, Braced alist);
                     (s3, Braced body)])
      by (repeat (apply Forall_cons;
                    [split; cbn [fst snd word_ok]; assumption | ]);
          apply Forall_nil).
    change (10 + fuel)%nat
      with (S (command_tokens (Plain (bytes "proc"))
                 [(s1, Plain name); (s2, Braced alist); (s3, Braced body)]
               + 2 + fuel)).
    rw (picolEval_words fuel i (Plain (bytes "proc"))
          [(s1, Plain name); (s2, Braced alist); (s3, Braced body)] Hp Hws).
    rewrite (eval_words_literal _ _ _ [bytes "proc"; name; alist; body] [])
      by reflexivity.
    cbn [bind app]. unfold run_command.
    change (picolGetCommand (picolSetResult i []) (bytes "proc"))
      with (picolGetCommand i (bytes "proc")).
    rewrite Hproc. unfold call_func. rewrite Hf.
    unfold picolCommandProc.
    change (arg [bytes "proc"; name; alist; body] 0) with (Ret (bytes "proc")).
    change (arg [bytes "proc"; name; alist; body] 1) with (Ret name).
    change (arg [bytes "proc"; name; alist; body] 2) with (Ret alist).
    change (arg [bytes "proc"; name; alist; body] 3) with (Ret body).
    change (argc_of [bytes "proc"; name; alist; body] =? 4) with true.
    cbn [negb bind]. unfold picolRegisterCommand.
    change (picolGetCommand (picolSetResult i []) name)
      with (picolGetCommand i name).
    rewrite Hfree. unfold nul_free in Ha0, Hb0. rewrite Hn0, Ha0, Hb0.
    reflexivity.
  - intros fuel rest actuals Hrest Hlit Hnd Hlen.
    replace (2 * length rest + 3 + fuel)%nat
      with (command_tokens (Plain name) rest + 2 + fuel)%nat
      by (rewrite (command_tokens_literal rest (Plain name) actuals eq_refl
                     Hlit); lia).
    rw (picolEval_words fuel (with_proc i name alist body) (Plain name) rest
          Hname Hrest).
    rewrite (eval_words_literal _ _ _ (name :: actuals) [])
      by (cbn [map literal]; f_equal; rewrite <- Hlit, map_map; reflexivity).
    cbn [bind app]. unfold run_command.
    change (picolGetCommand (picolSetResult (with_proc i name alist body) [])
              name)
      with (picolGetCommand (with_proc i name alist body) name).
    rewrite picolGetCommand_with_proc.
    unfold call_func. cbn [func privdata].
    rewrite picolCommandCallProc_enters;
      [reflexivity | exact Ha0 | exact Hnd | exact Hlen].
Qed.

Lemma picolEval_proc_then_call_witness :
  command_line (Plain (bytes "proc"))
    [([32], Plain (bytes "sq")); ([32], Braced (bytes "x"));
     ([32], Braced (bytes "* $x $x"))]
  = bytes "proc sq {x} {* $x $x}"
  /\ command_line (Plain (bytes "sq")) [([32], Plain (bytes "7"))]
     = bytes "sq 7"
  /\ picolEval (10 + 0) fresh_interp
       (command_line (Plain (bytes "proc"))
          [([32], Plain (bytes "sq")); ([32], Braced (bytes "x"));
           ([32], Braced (bytes "* $x $x"))])
     = Ret (PICOL_OK,
            with_proc fresh_interp (bytes "sq") (bytes "x") (bytes "* $x $x"))
  /\ exists i',
       picolEval 20
         (with_proc fresh_interp (bytes "sq") (bytes "x") (bytes "* $x $x"))
         (command_line (Plain (bytes "sq")) [([32], Plain (bytes "7"))])
       = Ret (PICOL_OK, i')
       /\ result i' = bytes "49".
Proof.
  assert (Hw : forall w c w', w = c :: w' -> c <> ch_lbrace -> c <> ch_hash ->
                forallb plain_char w = true -> word_ok (Plain w))
    by exact plain_word_intro.
  assert (Hin : forall (x : Z) (l : list Z),
            forallb (fun y => negb (y =? x)) l = true -> ~ In x l).
  { intros x l. induction l as [ | y l IH]; cbn [forallb In];
      [intros _ [] | ].
    intros H [-> | H']; apply andb_true_iff in H; destruct H as [H1 H2].
    - rewrite Z.eqb_refl in H1. discriminate H1.
    - exact (IH H2 H'). }
  assert (Hbr : forall b, nesting b 0 = true ->
                  forallb (fun y => negb (y =? ch_bslash)) b = true ->
                  forallb (fun y => negb (y =? 0)) b = true ->
                  word_ok (Braced b)).
  { intros b H1 H2 H3. split; [exact H1 | ]. split; apply Hin; assumption. }
  assert (Hsp : blanks [32]) by (split; [discriminate | repeat constructor]).
  destruct (picolEval_proc_then_call fresh_interp
              (mkCmd (bytes "proc") CommandProc None)
              (bytes "sq") (bytes "x") (bytes "* $x $x") [32] [32] [32]
              eq_refl eq_refl eq_refl
              (Hw _ 115 (bytes "q") eq_refl ltac:(discriminate)
                 ltac:(discriminate) eq_refl)
              (Hbr (bytes "x") eq_refl eq_refl eq_refl)
              (Hbr (bytes "* $x $x") eq_refl eq_refl eq_refl)
              Hsp Hsp Hsp) as [Hdef Hcall].
  split; [reflexivity | ]. split; [reflexivity | ].
  split; [exact (Hdef 0%nat) | ].
  assert (Hrest : Forall (fun sw => blanks (fst sw) /\ word_ok (snd sw))
                    [([32], Plain (bytes "7"))]).
  { repeat constructor; try discriminate.
    apply (Hw _ 55 [] eq_refl); [discriminate .. | reflexivity]. }
  assert (Hnd : NoDup (formal_names (bytes "x"))).
  { change (NoDup [bytes "x"]). repeat constructor. intros []. }
  specialize (Hcall 14%nat [([32], Plain (bytes "7"))] [bytes "7"] Hrest
                eq_refl Hnd eq_refl).
  change (S (2 * length [([32], Plain (bytes "7"))] + 3 + 14)) with 20%nat
    in Hcall.
  rewrite Hcall. vm_compute. eexists. split; reflexivity.
Defined.

(** ** The escape decoder stays in its buffer *)

Lemma wrb_returns (b : list Z) (k v : Z) :
  returns (fun b' => length b' = length b /\ 0 <= k < Z.of_nat (length b)
                     /\ b' = upd b (Z.to_nat k) v)
    (wrb b k v).
Proof.
  unfold wrb. intros b' E.
  destruct ((0 <=? k) && (k <? Z.of_nat (length b))) eqn:Ek;
    [ | discriminate E].
  injection E as <-. apply andb_true_iff in Ek. destruct Ek as [H1 H2].
  apply Z.leb_le in H1. apply Z.ltb_lt in H2.
  split; [apply upd_length | ]. split; [lia | reflexivity].
Qed.

Lemma picolEscape_skip_shrinks (fuel : nat) :
  forall b s n,
    returns (fun r => snd r <= n) (picolEscape_skip fuel b s n).
Proof.
  induction fuel as [ | fuel IH]; intros b s n; cbn [picolEscape_skip];
    [apply returns_Timeout | ].
  destruct (n >? 0); [ | apply returns_Ret; cbn [snd]; lia].
  apply returns_bind_any. intros c.
  destruct (negb (isgraph c)); [ | apply returns_Ret; cbn [snd]; lia].
  intros r E. specialize (IH b (s + 1) (n - 1) r E). cbv beta in IH. lia.
Qed.

Lemma picolEscape_loop_shrinks (fuel : nat) :
  forall b s t n,
    returns (fun r => length (fst r) = length b /\ snd r <= n)
      (picolEscape_loop fuel b s t n).
Proof.
  induction fuel as [ | fuel IH]; intros b s t n; cbn [picolEscape_loop];
    [apply returns_Timeout | ].
  assert (Hgo : forall b1 s1 t1 n1,
            length b1 = length b -> n1 <= n ->
            returns (fun r => length (fst r) = length b /\ snd r <= n)
              (picolEscape_loop fuel b1 s1 t1 n1)).
  { intros b1 s1 t1 n1 Hb Hn r E.
    destruct (IH b1 s1 t1 n1 r E) as [H1 H2]. split; [congruence | lia]. }
  assert (Hwr : forall k v s1 t1 n1,
            n1 <= n ->
            returns (fun r => length (fst r) = length b /\ snd r <= n)
              (b' <- wrb b k v ;; picolEscape_loop fuel b' s1 t1 n1)).
  { intros k v s1 t1 n1 Hn.
    apply (returns_bind _ _ (fun b' => length b' = length b)).
    - intros b' E. exact (proj1 (wrb_returns b k v b' E)).
    - intros b' Hb'. apply Hgo; assumption. }
  apply returns_bind_any. intros c.
  destruct (c =? 0);
    [apply returns_Ret; cbn [fst snd]; split; [reflexivity | lia] | ].
  destruct (c =? ch_bslash); [ | apply Hwr; lia].
  apply returns_bind_any. intros c1.
  destruct ((c1 =? 88) || (c1 =? 120)).
  { cbv zeta. apply returns_bind_any. intros h.
    destruct (isxdigit h); [ | apply Hgo; [reflexivity | lia]].
    apply returns_bind_any. intros l.
    destruct (isxdigit l); apply Hwr; lia. }
  destruct (c1 =? 110); [apply Hwr; lia | ].
  destruct (c1 =? 114); [apply Hwr; lia | ].
  destruct (c1 =? 116); [apply Hwr; lia | ].
  destruct (c1 =? 0); [apply Hgo; [reflexivity | lia] | ].
  cbv zeta. destruct (isgraph c1); [apply Hwr; lia | ].
  apply (returns_bind _ _ (fun r => snd r <= n - 1 - 1)).
  - apply picolEscape_skip_shrinks.
  - intros [s1 n1] Hn1. cbn [snd] in Hn1. apply Hgo; [reflexivity | lia].
Qed.

Lemma cstr_upd_nul (b : list Z) :
  forall k, (k < length b)%nat -> (length (cstr (upd b k 0)) <= k)%nat.
Proof.
  induction b as [ | c b IH]; intros [ | k] Hk; cbn [length] in Hk;
    try lia; cbn [upd cstr].
  - change (0 =? 0) with true. cbn [length]. lia.
  - destruct (c =? 0); cbn [length]; [lia | ].
    specialize (IH k ltac:(lia)). lia.
Qed.

(** X18.  [picolEscape] always returns or leaves defined behaviour within its
    bound of steps; when it returns, the buffer has the size it had, the
    length returned is not more than the length passed in and is the
    offset of a NUL in the buffer, so that the string left is not longer
    than the length returned. *)
Theorem picolEscape_stays_in_buffer (b : list Z) (n : Z) :
  picolEscape b n <> Timeout
  /\ forall b' n',
       picolEscape b n = Ret (b', n') ->
       length b' = length b
       /\ 0 <= n' <= n /\ n' < Z.of_nat (length b)
       /\ rdb b' n' = Ret 0
       /\ strlen (cstr b') <= n'.
Proof.
  split; [exact (proj1 (picolEscape_total b n)) | ].
  intros b' n'. unfold picolEscape.
  destruct (match strchr b ch_bslash with
            | Some s => picolEscape_loop (S (length b)) b s s n
            | None => Ret (b, n)
            end) as [[b1 n1] | u | ] eqn:E1; cbn [bind]; try discriminate.
  assert (H1 : length b1 = length b /\ n1 <= n).
  { destruct (strchr b ch_bslash) as [s | ].
    - exact (picolEscape_loop_shrinks _ b s s n (b1, n1) E1).
    - injection E1 as <- <-. split; [reflexivity | lia]. }
  destruct H1 as [Hlen Hn].
  destruct (wrb b1 n1 0) as [b2 | u | ] eqn:E2; cbn [bind]; try discriminate.
  intros E. injection E as <- <-.
  destruct (wrb_returns b1 n1 0 b2 E2) as [Hlen2 [Hr Hb2]].
  split; [congruence | ]. split; [lia | ]. split; [lia | ].
  assert (Hk : (Z.to_nat n1 < length b1)%nat) by lia.
  split.
  - unfold rdb. rewrite Hlen2.
    replace ((0 <=? n1) && (n1 <? Z.of_nat (length b1))) with true
      by (symmetry; apply andb_true_iff; split;
          [apply Z.leb_le | apply Z.ltb_lt]; lia).
    f_equal. subst b2. clear - Hk. revert Hk.
    generalize (Z.to_nat n1) as k. induction b1 as [ | c b1 IH];
      intros [ | k] Hk; cbn [length] in Hk; try lia; cbn [upd nth];
      [reflexivity | apply IH; lia].
  - subst b2. unfold strlen.
    pose proof (cstr_upd_nul b1 (Z.to_nat n1) Hk). lia.
Qed.

Lemma picolEscape_stays_in_buffer_witness :
  exists b' n',
    picolEscape (bytes "a\x4" ++ [0]) 4 = Ret (b', n')
    /\ length b' = 5%nat /\ 0 <= n' <= 4 /\ rdb b' n' = Ret 0
    /\ strlen (cstr b') <= n'.
Proof.
  destruct (picolEscape (bytes "a\x4" ++ [0]) 4) as [[b' n'] | u | ] eqn:E;
    [ | vm_compute in E; discriminate E | vm_compute in E; discriminate E].
  destruct (proj2 (picolEscape_stays_in_buffer (bytes "a\x4" ++ [0]) 4)
              b' n' E) as [H1 [H2 [_ [H4 H5]]]].
  exists b', n'. split; [reflexivity | ].
  split; [exact H1 | ]. split; [exact H2 | ]. split; [exact H4 | exact H5].
Defined.

(** ** Wrong numbers of arguments *)

(** X19.  A built-in command called with a number of words it does not take
    does nothing but fail: it returns the error code with the message of
    [picolArityErr] about the word it was called by, evaluates nothing,
    writes nothing and sets no variable. *)
Theorem call_func_wrong_arity
  (ev : picolInterp -> cstring -> outcome (retcode * picolInterp))
  (fuel : nat) (c : picolCmd) (i : picolInterp) (a0 : cstring)
  (rest : list cstring) :
  nul_free a0 ->
  arity_ok (func c) (argc_of (a0 :: rest)) = false ->
  exists i',
    call_func ev (S fuel) c i (a0 :: rest) = Ret (PICOL_ERR, i')
    /\ result i' = bytes "Wrong number of args for " ++ a0
    /\ callframe i' = callframe i /\ commands i' = commands i
    /\ stdout i' = stdout i.
Proof.
  intros Ha0 H.
  exists (picolSetResult i (bytes "Wrong number of args for " ++ a0)).
  split; [ | split; [ | repeat split; reflexivity]];
    [ | cbn [result picolSetResult];
        rewrite (cstr_app (bytes "Wrong number of args for ") a0 eq_refl);
        rewrite Ha0; reflexivity].
  revert H. unfold call_func, arity_ok. intros H.
  destruct (func c); try discriminate H.
  - unfold picolCommandMath. change (arg (a0 :: rest) 0) with (Ret a0).
    cbn [bind]. rewrite H. reflexivity.
  - unfold picolCommandSet. change (arg (a0 :: rest) 0) with (Ret a0).
    cbn [bind]. rewrite H. reflexivity.
  - unfold picolCommandPuts. change (arg (a0 :: rest) 0) with (Ret a0).
    cbn [bind]. rewrite H. reflexivity.
  - unfold picolCommandIf. change (arg (a0 :: rest) 0) with (Ret a0).
    cbn [bind]. apply orb_false_iff in H. destruct H as [-> ->]. reflexivity.
  - cbn [picolCommandWhile]. unfold picolCommandWhile_body. rewrite H.
    reflexivity.
  - unfold picolCommandRetCodes. change (arg (a0 :: rest) 0) with (Ret a0).
    cbn [bind]. rewrite H. reflexivity.
  - unfold picolCommandProc. change (arg (a0 :: rest) 0) with (Ret a0).
    cbn [bind]. rewrite H. reflexivity.
  - unfold picolCommandReturn. change (arg (a0 :: rest) 0) with (Ret a0).
    cbn [bind]. apply orb_false_iff in H. destruct H as [-> ->]. reflexivity.
Qed.

Lemma call_func_wrong_arity_witness :
  nul_free (bytes "if")
  /\ arity_ok CommandIf (argc_of [bytes "if"; bytes "1"; bytes "a"; bytes "b"])
  = false
  /\ exists i',
       call_func (picolEval 5) 1 (mkCmd (bytes "if") CommandIf None)
         fresh_interp [bytes "if"; bytes "1"; bytes "a"; bytes "b"]
       = Ret (PICOL_ERR, i')
       /\ result i' = bytes "Wrong number of args for if"
       /\ callframe i' = callframe fresh_interp
       /\ stdout i' = stdout fresh_interp.
Proof.
  split; [reflexivity | ]. split; [reflexivity | ].
  destruct (call_func_wrong_arity (picolEval 5) 0
              (mkCmd (bytes "if") CommandIf None) fresh_interp (bytes "if")
              [bytes "1"; bytes "a"; bytes "b"] eq_refl eq_refl)
    as [i' [H1 [H2 [H3 [_ H4]]]]].
  exists i'. split; [exact H1 | ]. split; [exact H2 | ].
  split; [exact H3 | exact H4].
Defined.

(** ** The program *)

Lemma next_line_none (inp : list Z) :
  next_line inp = None -> forall c, In c inp -> c mod 256 <> ch_nl.
Proof.
  induction inp as [ | x inp IH]; cbn [next_line In]; [intros _ c [] | ].
  destruct (Z.eqb_spec (x mod 256) ch_nl) as [ | Hx]; [discriminate | ].
  destruct (next_line inp) as [[l r] | ]; [discriminate | ].
  intros _ c [<- | Hc]; [exact Hx | exact (IH eq_refl c Hc)].
Qed.

(** What [picolGets] returns, when it returns for a delimiter that is
    not [EOF]: the line up to the delimiter in the buffer, and the stream
    after the delimiter. *)
Lemma picolGets_loop_returns (fill : Z) (fuel : nat) :
  forall (inp done slack : list Z) (n z : Z) (buf' inp' : list Z),
    n = Z.of_nat (length done) ->
    Z.of_nat (length done + length slack) = z + 1 -> n <= z ->
    picolGets_loop fill fuel inp ch_nl (done ++ slack) n z
    = Ret (buf', inp') ->
    exists l slack',
      next_line inp = Some (l, inp') /\ buf' = done ++ l ++ 0 :: slack'.
Proof.
  induction fuel as [ | fuel IH];
    intros inp done slack n z buf' inp' Hn Hlen Hnz;
    cbn [picolGets_loop]; [discriminate | ].
  destruct slack as [ | y slack]; [cbn [length] in Hlen; lia | ].
  subst n. rewrite wrb_app. cbn [bind].
  destruct inp as [ | c inp]; cbn [fgetc next_line].
  - change (EOF =? ch_nl) with false. cbv iota.
    intros E. exfalso. revert E.
    destruct (if Z.of_nat (length done) =? z
              then z0 <- int_of (z + 1 + Z.shiftr z 1) ;;
                   size <- int_of (z0 + 1) ;;
                   Ret (realloc fill (done ++ 0 :: slack) size, z0)
              else Ret (done ++ 0 :: slack, z)) as [[b2 z2] | u | ];
      cbn [bind]; try discriminate.
    destruct (wrb b2 (Z.of_nat (length done)) (to_char EOF)) as [b3 | u | ];
      cbn [bind]; try discriminate.
    destruct (int_of (Z.of_nat (length done) + 1)) as [n3 | u | ];
      cbn [bind]; try discriminate.
    intros E.
    assert (Hnever : forall f b n1 z1 r,
              picolGets_loop fill f [] ch_nl b n1 z1 <> Ret r).
    { clear. induction f as [ | f IHf]; intros b n1 z1 r;
        cbn [picolGets_loop]; [discriminate | ].
      destruct (wrb b n1 0) as [b1 | u | ]; cbn [bind]; try discriminate.
      cbn [fgetc]. change (EOF =? ch_nl) with false. cbv iota.
      destruct (if n1 =? z1
                then z0 <- int_of (z1 + 1 + Z.shiftr z1 1) ;;
                     size <- int_of (z0 + 1) ;;
                     Ret (realloc fill b1 size, z0)
                else Ret (b1, z1)) as [[b2 z2] | u | ];
        cbn [bind]; try discriminate.
      destruct (wrb b2 n1 (to_char EOF)) as [b3 | u | ]; cbn [bind];
        try discriminate.
      destruct (int_of (n1 + 1)) as [n3 | u | ]; cbn [bind];
        try discriminate.
      apply IHf. }
    exact (Hnever _ _ _ _ _ E).
  - destruct (Z.eqb_spec (c mod 256) ch_nl) as [Hc | Hc].
    + intros E. injection E as <- <-. exists [], slack.
      split; reflexivity.
    + assert (Hgrow : forall o,
                (if Z.of_nat (length done) =? z
                 then z0 <- int_of (z + 1 + Z.shiftr z 1) ;;
                      size <- int_of (z0 + 1) ;;
                      Ret (realloc fill (done ++ 0 :: slack) size, z0)
                 else Ret (done ++ 0 :: slack, z)) = Ret o ->
                exists sl,
                  fst o = done ++ 0 :: sl
                  /\ Z.of_nat (length done + S (length sl)) = snd o + 1
                  /\ Z.of_nat (length done) < snd o).
      { intros o. destruct (Z.eqb_spec (Z.of_nat (length done)) z) as [Hz | Hz].
        - destruct (int_of (z + 1 + Z.shiftr z 1)) as [z0 | | ] eqn:Ez0;
            cbn [bind]; try discriminate.
          destruct (int_of (z0 + 1)) as [size | | ] eqn:Esz;
            cbn [bind]; try discriminate.
          intros E. injection E as <-. cbn [fst snd].
          unfold int_of in Ez0, Esz.
          destruct (in_int (z + 1 + Z.shiftr z 1)); [ | discriminate Ez0].
          destruct (in_int (z0 + 1)); [ | discriminate Esz].
          injection Ez0 as <-. injection Esz as <-.
          assert (Hsh : 0 <= Z.shiftr z 1).
          { rewrite Z.shiftr_div_pow2 by lia. apply Z.div_pos; lia. }
          assert (Hs0 : slack = []).
          { destruct slack; [reflexivity | cbn [length] in Hlen; lia]. }
          subst slack.
          rewrite realloc_grow by (rewrite length_app; cbn [length]; lia).
          rewrite <- app_assoc. cbn [app].
          eexists. split; [reflexivity | ].
          rewrite repeat_length, length_app. cbn [length]. lia.
        - intros E. injection E as <-. cbn [fst snd].
          exists slack. split; [reflexivity | ]. cbn [length] in Hlen. lia. }
      destruct (if Z.of_nat (length done) =? z
                then z0 <- int_of (z + 1 + Z.shiftr z 1) ;;
                     size <- int_of (z0 + 1) ;;
                     Ret (realloc fill (done ++ 0 :: slack) size, z0)
                else Ret (done ++ 0 :: slack, z)) as [[b2 z2] | u | ];
        cbn [bind]; try discriminate.
      destruct (Hgrow (b2, z2) eq_refl) as [sl [Hb2 [Hl2 Hn2]]].
      cbn [fst snd] in Hb2, Hl2, Hn2. subst b2.
      rewrite wrb_app. cbn [bind].
      destruct (int_of (Z.of_nat (length done) + 1)) as [n3 | u | ] eqn:En3;
        cbn [bind]; try discriminate.
      unfold int_of in En3.
      destruct (in_int (Z.of_nat (length done) + 1)); [ | discriminate En3].
      injection En3 as <-.
      intros E.
      assert (Hsl : sl <> []) by (intros ->; cbn [length] in Hl2; lia).
      assert (Hcc : to_char (c mod 256) = c mod 256)
        by (unfold to_char; apply Z.mod_mod; lia).
      rewrite Hcc in E.
      replace (done ++ c mod 256 :: sl) with ((done ++ [c mod 256]) ++ sl)
        in E by (rewrite <- app_assoc; reflexivity).
      destruct (IH inp (done ++ [c mod 256]) sl
                  (Z.of_nat (length done) + 1) z2 buf' inp') as
        [l [slack' [Hl Hb]]]; try exact E;
        try (rewrite ?length_app; cbn [length]; lia).
      exists (c mod 256 :: l), slack'. rewrite Hl.
      split; [reflexivity | ].
      rewrite Hb, <- app_assoc. reflexivity.
Qed.

Lemma cstr_app_nul_any (l tl : list Z) : cstr (l ++ 0 :: tl) = cstr l.
Proof.
  induction l as [ | c l IH]; [reflexivity | ].
  change (cstr ((c :: l) ++ 0 :: tl))
    with (if c =? 0 then [] else c :: cstr (l ++ 0 :: tl)).
  change (cstr (c :: l)) with (if c =? 0 then [] else c :: cstr l).
  rewrite IH. reflexivity.
Qed.

Lemma main_prompt_no_quit (fill : Z) (fuel : nat) :
  forall (i : picolInterp) (inp : list Z),
    no_quit inp ->
    forall r, main_prompt fill fuel i inp <> Ret r.
Proof.
  induction fuel as [ | fuel IH]; intros i inp Hq r; cbn [main_prompt];
    [discriminate | ].
  cbv zeta.
  destruct (picolGets fill fuel inp ch_nl) as [[buf inp'] | u | ] eqn:Eg;
    cbn [bind]; try discriminate.
  unfold picolGets in Eg.
  destruct (picolGets_loop_returns fill fuel inp [] [fill] 0 0 buf inp'
              eq_refl eq_refl ltac:(lia) Eg) as [l [slack' [Hl Hb]]].
  cbn [app] in Hb.
  inversion Hq as [inp0 Hnone | inp0 l0 r0 Hsome Hne Hrest]; subst inp0.
  - rewrite Hl in Hnone. discriminate Hnone.
  - rewrite Hl in Hsome. injection Hsome as <- <-.
    rewrite Hb, cstr_app_nul_any.
    rewrite (strcmp0_neq _ _ Hne).
    destruct (picolEval fuel (print i (bytes "picol> ")) (l ++ 0 :: slack'))
      as [[rc i1] | u | ]; cbn [bind]; try discriminate.
    apply IH. exact Hrest.
Qed.

(** X20.  Started without arguments on a standard input none of whose lines is
    [quit], [main] never returns: when the input is used up, [picolGets]
    goes on reading [EOF] for ever. *)
Theorem main_needs_quit
  (fill : Z) (fuel : nat) (a0 : cstring) (inp : list Z)
  (fs : cstring -> option (list Z)) :
  no_quit inp ->
  forall r, main fill fuel [a0] inp fs <> Ret r.
Proof.
  intros Hq r. unfold main.
  destruct (main_prompt fill fuel (picolRegisterCoreCommands picolInitInterp)
              inp) as [[[st i] rest] | u | ] eqn:E;
    cbn [bind]; try discriminate.
  exfalso. exact (main_prompt_no_quit fill fuel _ inp Hq _ E).
Qed.

Lemma main_needs_quit_witness :
  no_quit (bytes "puts hi" ++ [10] ++ bytes "quit")
  /\ main 0 60 [bytes "picol"] (bytes "puts hi" ++ [10] ++ bytes "quit")
       (fun _ => None)
     = Timeout.
Proof.
  assert (H : no_quit (bytes "puts hi" ++ [10] ++ bytes "quit")).
  { apply (no_quit_line _ (bytes "puts hi") (bytes "quit"));
      [reflexivity | discriminate | ].
    apply no_quit_end. reflexivity. }
  split; [exact H | ].
  destruct (main 0 60 [bytes "picol"]
              (bytes "puts hi" ++ [10] ++ bytes "quit") (fun _ => None))
    as [r | u | ] eqn:E.
  - exfalso. exact (main_needs_quit 0 60 _ _ _ H r E).
  - vm_compute in E. discriminate E.
  - reflexivity.
Defined.

Lemma picolEval_cstr (fuel : nat) (i : picolInterp) (s : cstring) :
  picolEval fuel i (cstr s) = picolEval fuel i s.
Proof.
  destruct fuel as [ | fuel]; [reflexivity | ].
  rewrite !picolEval_S. unfold picolInitParser. rewrite cstr_idem.
  reflexivity.
Qed.

(** X21.  One turn of the prompt loop on a complete line: the prompt is
    written; the line [quit] ends the program with [EXIT_SUCCESS],
    leaving what follows it unread; any other line is evaluated as a
    script, its result, if not empty, is written after the return code
    between brackets, and the loop goes on with the next line. *)
Theorem main_prompt_reads_a_line
  (fill : Z) (fuel : nat) (i : picolInterp) (line rest : list Z) :
  Forall (fun c => 0 <= c < 256) line -> ~ In ch_nl line ->
  Z.of_nat (length line) < 2 ^ 30 -> (length line < fuel)%nat ->
  main_prompt fill (S fuel) i (line ++ ch_nl :: rest)
  = if strcmp0 (cstr line) (bytes "quit")
    then Ret (EXIT_SUCCESS, print i (bytes "picol> "), rest)
    else
      '(rc, i1) <- picolEval fuel (print i (bytes "picol> ")) line ;;
      main_prompt fill fuel
        match result i1 with
        | [] => i1
        | _ :: _ =>
            print i1 (bytes "[" ++ decimal_repr (retcode_int rc)
                      ++ bytes "] " ++ result i1 ++ [ch_nl])
        end
        rest.
Proof.
  intros Hb Hnl Hsmall Hf. change (2 ^ 30) with 1073741824 in Hsmall.
  cbn [main_prompt]. cbv zeta. unfold picolGets.
  destruct (picolGets_loop_reads fill ch_nl (ch_nl :: rest) rest eq_refl line
              fuel [] [fill] 0 0 Hb Hnl Hf eq_refl eq_refl)
    as [slack' E]; try lia.
  cbn [app] in E. rewrite E. cbn [bind].
  rewrite cstr_app_nul_any.
  destruct (strcmp0 (cstr line) (bytes "quit")); [reflexivity | ].
  rewrite <- (picolEval_cstr fuel _ (line ++ 0 :: slack')),
    cstr_app_nul_any, picolEval_cstr.
  reflexivity.
Qed.

Lemma main_prompt_reads_a_line_witness :
  main_prompt 0 12 fresh_interp (bytes "+ 1 2" ++ [10] ++ bytes "quit"
                                 ++ [10] ++ bytes "left")
  = Ret (EXIT_SUCCESS,
         print (print (print (picolSetResult fresh_interp (bytes "3"))
                         (bytes "picol> "))
                  (bytes "[0] 3" ++ [10]))
           (bytes "picol> "),
         bytes "left").
Proof.
  assert (H1 : Forall (fun c => 0 <= c < 256) (bytes "+ 1 2"))
    by (repeat constructor; cbn; lia).
  assert (H2 : ~ In ch_nl (bytes "+ 1 2")).
  { cbn. intros H. repeat (destruct H as [H | H]; [discriminate H | ]).
    exact H. }
  assert (H3 : Z.of_nat (length (bytes "+ 1 2")) < 2 ^ 30) by (cbn; lia).
  assert (H4 : (length (bytes "+ 1 2") < 11)%nat) by (cbn; lia).
  pose proof (main_prompt_reads_a_line 0 11 fresh_interp (bytes "+ 1 2")
                (bytes "quit" ++ [10] ++ bytes "left") H1 H2 H3 H4) as E.
  change (bytes "+ 1 2" ++ [10] ++ bytes "quit" ++ [10] ++ bytes "left")
    with (bytes "+ 1 2" ++ ch_nl :: bytes "quit" ++ [10] ++ bytes "left").
  rewrite E. vm_compute. reflexivity.
Defined.

Lemma main_files_status (fill : Z) (fuel : nat)
  (fs : cstring -> option (list Z)) (args : list cstring) :
  forall (i i' : picolInterp) (st : Z),
    main_files fill fuel i fs args = Ret (st, i') ->
    (st = EXIT_SUCCESS /\ Forall (fun a => fs (cstr a) <> None) args)
    \/ (st = EXIT_FAILURE /\ Exists (fun a => fs (cstr a) = None) args).
Proof.
  induction args as [ | a args IH]; intros i i' st; cbn [main_files].
  - intros E. injection E as <- <-. left. split; [reflexivity | constructor].
  - destruct (fs (cstr a)) as [content | ] eqn:Ea.
    + destruct (picolGets fill fuel content EOF) as [[buf rest] | u | ];
        cbn [bind]; try discriminate.
      destruct (picolEval fuel i buf) as [[rc i1] | u | ]; cbn [bind];
        try discriminate.
      cbv zeta. intros E. destruct (IH _ _ _ E) as [[-> H] | [-> H]].
      * left. split; [reflexivity | ]. constructor; [congruence | exact H].
      * right. split; [reflexivity | ]. apply Exists_cons_tl. exact H.
    + intros E. injection E as <- <-. right. split; [reflexivity | ].
      apply Exists_cons_hd. exact Ea.
Qed.

(** X22.  Started with file names, [main] tells by its exit status whether
    every file could be opened, and nothing else: a script that fails has
    its result written, and the status stays [EXIT_SUCCESS]. *)
Theorem main_exit_status
  (fill : Z) (fuel : nat) (a0 a1 : cstring) (args : list cstring)
  (inp : list Z) (fs : cstring -> option (list Z))
  (st : Z) (i : picolInterp) :
  main fill fuel (a0 :: a1 :: args) inp fs = Ret (st, i) ->
  (st = EXIT_SUCCESS /\ Forall (fun a => fs (cstr a) <> None) (a1 :: args))
  \/ (st = EXIT_FAILURE /\ Exists (fun a => fs (cstr a) = None) (a1 :: args)).
Proof.
  unfold main. cbn [tl]. apply main_files_status.
Qed.

Lemma main_exit_status_witness :
  exists i,
    main 0 20 [bytes "picol"; bytes "a.tcl"] []
      (fun n => if cstring_eqb n (bytes "a.tcl")
                then Some (bytes "nosuch 1") else None)
    = Ret (EXIT_SUCCESS, i)
    /\ stdout i = [bytes "No such command 'nosuch'" ++ [10]].
Proof.
  destruct (main 0 20 [bytes "picol"; bytes "a.tcl"] []
              (fun n => if cstring_eqb n (bytes "a.tcl")
                        then Some (bytes "nosuch 1") else None))
    as [[st i] | u | ] eqn:E;
    [ | vm_compute in E; discriminate E | vm_compute in E; discriminate E].
  exists i.
  destruct (main_exit_status _ _ _ _ _ _ _ _ _ E) as [[-> _] | [_ H]].
  - split; [reflexivity | ].
    vm_compute in E. injection E as <-. reflexivity.
  - exfalso. inversion H as [a l Ha | a l Ha]; subst.
    + discriminate Ha.
    + inversion Ha.
Defined.

(** ** A script of several commands *)

Lemma eol_char_facts (c : Z) :
  eol_char c = true ->
  negb (isgraph c) || (c =? ch_semi) = true /\ c <> 0
  /\ c <> ch_lbracket /\ c <> ch_dollar /\ c <> ch_hash.
Proof.
  unfold eol_char. intros H. apply andb_true_iff in H. destruct H as [H H0].
  apply negb_true_iff, Z.eqb_neq in H0.
  split; [exact H | ]. split; [exact H0 | ].
  repeat split; intros ->; discriminate H.
Qed.

(** The loop of [picolParseSep] for an end of line runs over the
    separator and stops at the next word. *)
Lemma picolParseSep_loop_eol (s : cstring) :
  forall (pre post : list Z) (c : Z) (fuel : nat) (q : picolParser),
    text q = pre ++ s ++ c :: post -> pos q = Z.of_nat (length pre) ->
    Forall (fun c => eol_char c = true) s ->
    isgraph c = true -> c <> ch_semi ->
    (length s < fuel)%nat ->
    picolParseSep_loop fuel q ch_semi
    = Ret (mkParser (text q) (pos q + Z.of_nat (length s)) (start q)
             (end_ q) (len q - Z.of_nat (length s)) (type q) (insidequote q)).
Proof.
  induction s as [ | x s IH]; intros pre post c fuel q Ht Hp Hs Hc Hsemi Hf;
    (destruct fuel as [ | fuel]; [cbn [length] in Hf; lia | ]);
    cbn [picolParseSep_loop]; cbn [app length] in *;
    rewrite (peek_at q pre _ Ht Hp); cbn [bind].
  - rewrite Hc, (proj2 (Z.eqb_neq c ch_semi) Hsemi). cbn [negb orb andb].
    rewrite andb_false_r.
    destruct q. cbn in *. do 2 f_equal; lia.
  - inversion Hs as [ | x' s' Hx Hs']; subst x' s'.
    destruct (eol_char_facts x Hx) as [Hx1 _].
    replace (negb (isgraph x) || negb (ch_semi =? 0) && (x =? ch_semi))
      with true by (symmetry; exact Hx1).
    rewrite (IH (pre ++ [x]) post c fuel (advance q));
      cbn [advance set_len set_pos text pos len insidequote start end_ type];
      try assumption; try (rewrite ?length_app; cbn [length]; lia).
    + f_equal. f_equal; lia.
    + rewrite Ht, <- app_assoc. reflexivity.
Qed.

(** [picolGetToken] at the separator of two commands. *)
Lemma picolGetToken_loop_eol (fuel : nat) (p : picolParser)
  (pre s post : list Z) (c : Z) :
  text p = pre ++ s ++ c :: post -> pos p = Z.of_nat (length pre) ->
  len p = Z.of_nat (length s + S (length post)) ->
  insidequote p = false ->
  eol_sep s -> isgraph c = true -> c <> ch_semi ->
  picolGetToken_loop (S fuel) p
  = Ret (PICOL_OK,
         mkParser (text p) (Z.of_nat (length pre + length s))
           (Z.of_nat (length pre)) (Z.of_nat (length pre + length s) - 1)
           (Z.of_nat (S (length post))) PT_EOL false).
Proof.
  intros Ht Hp Hl Hq [Hs [x [s' [-> Hx]]]] Hc Hsemi.
  cbn [picolGetToken_loop].
  replace (len p >? 0) with true
    by (symmetry; apply Z.gtb_lt; rewrite Hl; cbn [length]; lia).
  rewrite (peek_at p pre _ Ht Hp). cbn [app bind].
  replace ((x =? ch_nl) || (x =? ch_semi)) with true
    by (destruct Hx as [-> | ->]; reflexivity).
  rewrite Hq. unfold picolParseSep.
  rewrite (picolParseSep_loop_eol (x :: s') pre post c);
    cbn [set_start text pos len insidequote start end_ type];
    try assumption.
  - cbn [bind]. unfold set_type, set_end.
    cbn [text pos len insidequote start end_ type].
    change (ch_semi =? 0) with false. cbv iota.
    do 2 f_equal. rewrite Hp, Hl, Hq. f_equal; lia.
  - unfold scan_fuel. cbn [set_start text]. rewrite Ht.
    rewrite !length_app. cbn [length]. lia.
Qed.

(** The loop of [picolParseComment] runs up to the newline. *)
Lemma picolParseComment_loop_text (t : cstring) :
  forall (pre post : list Z) (fuel : nat) (q : picolParser),
    text q = pre ++ t ++ ch_nl :: post -> pos q = Z.of_nat (length pre) ->
    len q = Z.of_nat (length t + S (length post)) ->
    Forall (fun c => c <> ch_nl) t ->
    (length t < fuel)%nat ->
    picolParseComment_loop fuel q
    = Ret (mkParser (text q) (pos q + Z.of_nat (length t)) (start q)
             (end_ q) (len q - Z.of_nat (length t)) (type q) (insidequote q)).
Proof.
  induction t as [ | x t IH]; intros pre post fuel q Ht Hp Hl Hs Hf;
    (destruct fuel as [ | fuel]; [cbn [length] in Hf; lia | ]);
    cbn [picolParseComment_loop]; cbn [app length] in *;
    (replace (len q =? 0) with false
       by (symmetry; apply Z.eqb_neq; rewrite Hl; lia));
    cbn [negb]; rewrite (peek_at q pre _ Ht Hp); cbn [bind].
  - rewrite Z.eqb_refl. cbn [negb].
    destruct q. cbn in *. do 2 f_equal; lia.
  - inversion Hs as [ | x' t' Hx Hs']; subst x' t'.
    rewrite (proj2 (Z.eqb_neq x ch_nl) Hx). cbn [negb].
    rewrite (IH (pre ++ [x]) post fuel (advance q));
      cbn [advance set_len set_pos text pos len insidequote start end_ type];
      try assumption; try (rewrite ?length_app; cbn [length]; lia).
    + f_equal. f_equal; lia.
    + rewrite Ht, <- app_assoc. reflexivity.
Qed.

(** [picolGetToken] at a comment where a command may start: the comment
    is passed over, and the token is the separator after it. *)
Lemma picolGetToken_comment (p : picolParser) (pre t s post : list Z)
  (c : Z) :
  text p = pre ++ (ch_hash :: t) ++ s ++ c :: post ->
  pos p = Z.of_nat (length pre) ->
  len p = Z.of_nat (S (length t) + (length s + S (length post))) ->
  insidequote p = false -> type p = PT_EOL ->
  comment_ok (t, s) -> isgraph c = true -> c <> ch_semi ->
  picolGetToken p
  = Ret (PICOL_OK,
         mkParser (text p)
           (Z.of_nat (length (pre ++ ch_hash :: t) + length s))
           (Z.of_nat (length (pre ++ ch_hash :: t)))
           (Z.of_nat (length (pre ++ ch_hash :: t) + length s) - 1)
           (Z.of_nat (S (length post))) PT_EOL false).
Proof.
  intros Ht Hp Hl Hq Hty [Hk [Hs [s' Es]]] Hc Hsemi. cbn [fst snd] in *.
  unfold picolGetToken, scan_fuel. rewrite picolGetToken_loop_S.
  replace (len p >? 0) with true
    by (symmetry; apply Z.gtb_lt; rewrite Hl; lia).
  rewrite (peek_at p pre _ Ht Hp). cbn [app bind].
  change ((ch_hash =? ch_nl) || (ch_hash =? ch_semi)) with false.
  change (ch_hash =? ch_lbracket) with false.
  change (ch_hash =? ch_dollar) with false.
  change (ch_hash =? ch_hash) with true. cbv iota.
  rewrite Hty. cbn [ptype_eqb negb]. unfold picolParseComment.
  assert (Ht' : text p = pre ++ (ch_hash :: t) ++ ch_nl :: s' ++ c :: post)
    by (rewrite Ht, Es; reflexivity).
  rewrite (picolParseComment_loop_text (ch_hash :: t) pre (s' ++ c :: post)
             (scan_fuel p) p Ht' Hp).
  - cbn [bind].
    set (p1 := mkParser (text p) (pos p + Z.of_nat (length (ch_hash :: t)))
                 (start p) (end_ p)
                 (len p - Z.of_nat (length (ch_hash :: t))) (type p)
                 (insidequote p)).
    assert (Ht1 : text p1 = (pre ++ ch_hash :: t) ++ s ++ c :: post)
      by (cbn [p1 text]; rewrite Ht, <- app_assoc; reflexivity).
    assert (Hp1 : pos p1 = Z.of_nat (length (pre ++ ch_hash :: t)))
      by (cbn [p1 pos]; rewrite Hp, length_app; cbn [length]; lia).
    assert (Hl1 : len p1 = Z.of_nat (length s + S (length post)))
      by (cbn [p1 len]; rewrite Hl; cbn [length]; lia).
    exact (picolGetToken_loop_eol _ p1 _ s post c Ht1 Hp1 Hl1 Hq Hs Hc Hsemi).
  - rewrite Hl, Es, length_app. cbn [length]. f_equal; lia.
  - apply Forall_cons; [discriminate | ].
    eapply Forall_impl; [ | exact Hk]. intros a [Ha _]. exact Ha.
  - unfold scan_fuel. rewrite Ht, !length_app. cbn [length]. lia.
Qed.

Section Script.

Variable ev : picolInterp -> cstring -> outcome (retcode * picolInterp).

(** The pass over an end-of-line token: the command is looked up and
    called, and the loop goes on with no arguments if it returned OK. *)
Lemma picolEval_loop_eol_token (fuel : nat) (i : picolInterp)
  (p : picolParser) (pre s post : list Z) (c : Z) (prevtype : ptype)
  (argv : list cstring) :
  text p = pre ++ s ++ c :: post ->
  picolGetToken p
  = Ret (PICOL_OK,
         mkParser (text p) (Z.of_nat (length pre + length s))
           (Z.of_nat (length pre)) (Z.of_nat (length pre + length s) - 1)
           (Z.of_nat (S (length post))) PT_EOL false) ->
  picolEval_loop ev (S fuel) i p prevtype argv PICOL_OK
  = ('(rc, i') <- run_command ev fuel i argv ;;
     if negb (retcode_eqb rc PICOL_OK) then Ret (rc, i')
     else
       picolEval_loop ev fuel i'
         (mkParser (text p) (Z.of_nat (length pre + length s))
            (Z.of_nat (length pre)) (Z.of_nat (length pre + length s) - 1)
            (Z.of_nat (S (length post))) PT_EOL false)
         PT_EOL [] PICOL_OK).
Proof.
  intros Ht Htok.
  rewrite picolEval_loop_S. unfold picolEval_body.
  rewrite Htok.
  cbn [bind retcode_eqb negb type ptype_eqb text start]. cbv zeta.
  destruct (memcpy_from_defined (text p) (Z.of_nat (length pre))
              (token_len
                 (mkParser (text p) (Z.of_nat (length pre + length s))
                    (Z.of_nat (length pre))
                    (Z.of_nat (length pre + length s) - 1)
                    (Z.of_nat (S (length post))) PT_EOL false)))
    as [t E].
  - lia.
  - unfold token_len. cbn [end_ start].
    destruct (Z.ltb_spec (Z.of_nat (length pre + length s) - 1
                          - Z.of_nat (length pre) + 1) 0); lia.
  - unfold token_len, strlen. cbn [end_ start]. rewrite Ht, !length_app.
    cbn [length].
    destruct (Z.ltb_spec (Z.of_nat (length pre + length s) - 1
                          - Z.of_nat (length pre) + 1) 0); lia.
  - rewrite E. cbn [bind]. unfold run_command.
    destruct argv as [ | a0 argv]; [reflexivity | ].
    destruct (picolGetCommand i a0) as [cmd | ]; [ | reflexivity].
    destruct (call_func ev fuel cmd i (a0 :: argv)) as [[rc i'] | u | ];
      cbn [bind]; try reflexivity.
    destruct (retcode_eqb rc PICOL_OK) eqn:Erc; cbn [negb]; [ | reflexivity].
    apply retcode_eqb_eq in Erc. subst rc. reflexivity.
Qed.

(** The pass that reads the separator of two commands. *)
Lemma picolEval_loop_eol (fuel : nat) (i : picolInterp) (p : picolParser)
  (pre s post : list Z) (c : Z) (prevtype : ptype) (argv : list cstring) :
  text p = pre ++ s ++ c :: post -> pos p = Z.of_nat (length pre) ->
  len p = Z.of_nat (length s + S (length post)) ->
  insidequote p = false ->
  eol_sep s -> isgraph c = true -> c <> ch_semi ->
  picolEval_loop ev (S fuel) i p prevtype argv PICOL_OK
  = ('(rc, i') <- run_command ev fuel i argv ;;
     if negb (retcode_eqb rc PICOL_OK) then Ret (rc, i')
     else
       picolEval_loop ev fuel i'
         (mkParser (text p) (Z.of_nat (length pre + length s))
            (Z.of_nat (length pre)) (Z.of_nat (length pre + length s) - 1)
            (Z.of_nat (S (length post))) PT_EOL false)
         PT_EOL [] PICOL_OK).
Proof.
  intros Ht Hp Hl Hq Hs Hc Hsemi.
  apply (picolEval_loop_eol_token fuel i p pre s post c prevtype argv Ht).
  exact (picolGetToken_loop_eol _ p pre s post c Ht Hp Hl Hq Hs Hc Hsemi).
Qed.

(** The pass over a comment and the separator after it does nothing. *)
Lemma picolEval_loop_comment (fuel : nat) (i : picolInterp)
  (p : picolParser) (pre t s post : list Z) (c : Z) :
  text p = pre ++ (ch_hash :: t) ++ s ++ c :: post ->
  pos p = Z.of_nat (length pre) ->
  len p = Z.of_nat (S (length t) + (length s + S (length post))) ->
  insidequote p = false -> type p = PT_EOL ->
  comment_ok (t, s) -> isgraph c = true -> c <> ch_semi ->
  picolEval_loop ev (S fuel) i p PT_EOL [] PICOL_OK
  = picolEval_loop ev fuel i
      (mkParser (text p)
         (Z.of_nat (length (pre ++ ch_hash :: t) + length s))
         (Z.of_nat (length (pre ++ ch_hash :: t)))
         (Z.of_nat (length (pre ++ ch_hash :: t) + length s) - 1)
         (Z.of_nat (S (length post))) PT_EOL false)
      PT_EOL [] PICOL_OK.
Proof.
  intros Ht Hp Hl Hq Hty Hk Hc Hsemi.
  assert (Ht' : text p = (pre ++ ch_hash :: t) ++ s ++ c :: post)
    by (rewrite Ht, <- app_assoc; reflexivity).
  rewrite (picolEval_loop_eol_token fuel i p (pre ++ ch_hash :: t) s post c
             PT_EOL [] Ht'
             (picolGetToken_comment p pre t s post c Ht Hp Hl Hq Hty Hk Hc
                Hsemi)).
  reflexivity.
Qed.

(** The passes over the comments before a command. *)
Lemma picolEval_loop_comments (ks : list comment) :
  forall (pre post : list Z) (c : Z) (p : picolParser),
    text p = pre ++ comments_text ks ++ c :: post ->
    pos p = Z.of_nat (length pre) ->
    len p = Z.of_nat (length (comments_text ks) + S (length post)) ->
    insidequote p = false -> type p = PT_EOL ->
    Forall comment_ok ks -> isgraph c = true -> c <> ch_semi ->
    exists p1,
      (forall fuel i,
          picolEval_loop ev (length ks + fuel) i p PT_EOL [] PICOL_OK
          = picolEval_loop ev fuel i p1 PT_EOL [] PICOL_OK)
      /\ text p1 = text p
      /\ pos p1 = Z.of_nat (length (pre ++ comments_text ks))
      /\ len p1 = Z.of_nat (S (length post))
      /\ insidequote p1 = false /\ type p1 = PT_EOL.
Proof.
  induction ks as [ | [t s] ks IH]; intros pre post c p Ht Hp Hl Hq Hty Hks
    Hc Hsemi; cbn [comments_text length app] in *.
  - exists p. split; [reflexivity | ]. split; [reflexivity | ].
    rewrite app_nil_r. repeat split; assumption.
  - inversion Hks as [ | k l Hk Hks']; subst k l.
    assert (Hhead : exists x rest,
               comments_text ks ++ c :: post = x :: rest
               /\ isgraph x = true /\ x <> ch_semi).
    { destruct ks as [ | [t' s'] ks']; cbn [comments_text app].
      - exists c, post. repeat split; assumption.
      - eexists; eexists. split; [reflexivity | ].
        split; [reflexivity | discriminate]. }
    destruct Hhead as [x [rest [Erest [Hx Hxs]]]].
    assert (Hlr : length (comments_text ks ++ c :: post) = S (length rest))
      by (rewrite Erest; reflexivity).
    rewrite length_app in Hlr. cbn [length] in Hlr.
    assert (Ht' : text p = pre ++ (ch_hash :: t) ++ s ++ x :: rest)
      by (rewrite Ht, <- Erest; cbn [app]; rewrite <- !app_assoc;
          reflexivity).
    assert (Hl' : len p
                  = Z.of_nat (S (length t) + (length s + S (length rest))))
      by (rewrite Hl, !length_app; f_equal; lia).
    set (p2 := mkParser (text p)
                 (Z.of_nat (length (pre ++ ch_hash :: t) + length s))
                 (Z.of_nat (length (pre ++ ch_hash :: t)))
                 (Z.of_nat (length (pre ++ ch_hash :: t) + length s) - 1)
                 (Z.of_nat (S (length rest))) PT_EOL false).
    assert (Ht2 : text p2
                  = ((pre ++ ch_hash :: t) ++ s)
                    ++ comments_text ks ++ c :: post)
      by (cbn [p2 text]; rewrite Ht; cbn [app]; rewrite <- !app_assoc;
          reflexivity).
    assert (Hp2 : pos p2 = Z.of_nat (length ((pre ++ ch_hash :: t) ++ s)))
      by (cbn [p2 pos]; rewrite (length_app _ s); reflexivity).
    assert (Hl2 : len p2
                  = Z.of_nat (length (comments_text ks) + S (length post)))
      by (cbn [p2 len]; f_equal; lia).
    destruct (IH _ post c p2 Ht2 Hp2 Hl2 eq_refl eq_refl Hks' Hc Hsemi)
      as [p1 [E [Ht1 [Hp1 [Hl1 [Hq1 Hty1]]]]]].
    exists p1. split; [ | split; [exact Ht1 | ]].
    + intros fuel i.
      change (S (length ks) + fuel)%nat with (S (length ks + fuel)).
      rewrite (picolEval_loop_comment (length ks + fuel) i p pre t s rest x
                 Ht' Hp Hl' Hq Hty Hk Hx Hxs).
      exact (E fuel i).
    + split; [ | repeat split; assumption].
      rewrite Hp1. f_equal. rewrite <- !app_assoc. reflexivity.
Qed.

Lemma script_text_head (c : command) (more : list (gap * command)) :
  command_ok c ->
  exists x post, script_text c more = x :: post
                 /\ isgraph x = true /\ x <> ch_semi.
Proof.
  intros [Hw _]. destruct c as [w rest]. cbn [fst snd] in *.
  assert (H : exists x t, word_text w = x :: t
                          /\ isgraph x = true /\ x <> ch_semi).
  { destruct w as [w | b | q ps | [n | s]];
      cbn [word_ok word_text subst_text] in *;
      try (eexists; eexists; split; [reflexivity | ];
           split; [reflexivity | discriminate]).
    destruct Hw as [Hw [x [w' [-> _]]]].
    inversion Hw as [ | x' l Hx _]; subst x' l.
    destruct (plain_char_facts x Hx) as [Hg [_ [_ [_ [_ [Hs _]]]]]].
    exists x, w'. split; [reflexivity | ]. split; assumption. }
  destruct H as [x [t [E [Hg Hs]]]].
  assert (H : exists post, command_line w rest = x :: post).
  { destruct rest as [ | [s w1] rest]; cbn [command_line]; rewrite E;
      cbn [app]; eexists; reflexivity. }
  destruct H as [post Ecl].
  destruct more as [ | [s c'] more]; cbn [script_text fst snd];
    rewrite Ecl; cbn [app]; eexists; eexists;
    (split; [reflexivity | split; assumption]).
Qed.

(** The loop of [picolEval] from the start of a command of a script. *)
Lemma picolEval_loop_script (more : list (gap * command)) :
  forall (c : command) (pre : list Z) (p : picolParser) (i : picolInterp)
         (fuel : nat),
    text p = pre ++ script_text c more ->
    pos p = Z.of_nat (length pre) ->
    len p = Z.of_nat (length (script_text c more)) ->
    insidequote p = false -> type p = PT_EOL ->
    command_ok c ->
    Forall (fun gc => gap_ok (fst gc) /\ command_ok (snd gc)) more ->
    picolEval_loop ev (script_tokens c more + fuel) i p PT_EOL [] PICOL_OK
    = run_script ev fuel i c more.
Proof.
  induction more as [ | [[s ks] c'] more IH];
    intros c pre p i fuel Ht Hp Hl Hq Hty [Hw Hrest] Hmore;
    cbn [script_text script_tokens run_script] in *; unfold gap_text in *;
    cbn [fst snd] in *.
  - destruct (picolEval_loop_words ev (snd c) pre (fst c) p PT_EOL [])
      as [p1 [E [Ht1 [Hp1 [Hl1 [Hq1 [Hty1 [Hs1 He1]]]]]]]];
      try assumption; try (right; assumption); try (right; reflexivity);
      try (rewrite ?app_nil_r, ?Nat.add_0_r; assumption); try exact I.
    replace (command_tokens (fst c) (snd c) + 2 + fuel)%nat
      with (command_tokens (fst c) (snd c) + S (S fuel))%nat by lia.
    rewrite E.
    destruct (eval_words _ _ _ _) as [[x | [i' argv]] | u | ]; cbn [bind];
      try reflexivity.
    apply picolEval_loop_at_end; try assumption; try lia.
    unfold strlen. rewrite Ht1, Ht, length_app. lia.
  - inversion Hmore as [ | gc l [[Hs Hks] Hc'] Hmore']; subst gc l.
    cbn [fst snd] in Hs, Hks, Hc'.
    destruct (script_text_head c' more Hc') as [x [post [Est [Hg Hsemi]]]].
    assert (Hhead : exists y rest,
               comments_text ks ++ script_text c' more = y :: rest
               /\ isgraph y = true /\ y <> ch_semi).
    { destruct ks as [ | [t' s'] ks']; cbn [comments_text app].
      - exists x, post. repeat split; assumption.
      - eexists; eexists. split; [reflexivity | ].
        split; [reflexivity | discriminate]. }
    destruct Hhead as [y [rest [Erest [Hy Hys]]]].
    assert (Hlr : length (comments_text ks ++ script_text c' more)
                  = S (length rest)) by (rewrite Erest; reflexivity).
    rewrite length_app in Hlr.
    assert (Hpost : word_end ((s ++ comments_text ks)
                              ++ script_text c' more)).
    { destruct Hs as [_ [z [s' [-> Hz]]]]. cbn [app word_end].
      destruct Hz as [-> | ->]; reflexivity. }
    destruct (picolEval_loop_words ev (snd c) pre (fst c) p PT_EOL
                ((s ++ comments_text ks) ++ script_text c' more))
      as [p1 [E [Ht1 [Hp1 [Hl1 [Hq1 [Hty1 [Hs1 He1]]]]]]]];
      try assumption; try (right; assumption); try (right; reflexivity);
      [rewrite Hl, !length_app; f_equal; lia | ].
    replace (command_tokens (fst c) (snd c) + 1
             + (length ks + script_tokens c' more) + fuel)%nat
      with (command_tokens (fst c) (snd c)
            + S (length ks + script_tokens c' more + fuel))%nat
      by lia.
    rewrite E.
    destruct (eval_words _ _ _ _) as [[z | [i' argv]] | u | ]; cbn [bind];
      try reflexivity.
    assert (Ht1' : text p1
                   = (pre ++ command_line (fst c) (snd c)) ++ s ++ y :: rest)
      by (rewrite Ht1, Ht, <- Erest, <- !app_assoc; reflexivity).
    assert (Hp1' : pos p1
                   = Z.of_nat (length (pre ++ command_line (fst c) (snd c))))
      by (rewrite Hp1, length_app; reflexivity).
    assert (Hl1' : len p1 = Z.of_nat (length s + S (length rest)))
      by (rewrite Hl1, !length_app; f_equal; lia).
    rewrite (picolEval_loop_eol _ i' p1 _ s rest y (type p1) argv
               Ht1' Hp1' Hl1' Hq1 Hs Hy Hys).
    destruct (run_command ev (length ks + script_tokens c' more + fuel)
                i' argv)
      as [[rc i2] | u | ]; cbn [bind]; try reflexivity.
    destruct (negb (retcode_eqb rc PICOL_OK)); [reflexivity | ].
    set (p2 := mkParser (text p1)
                 (Z.of_nat (length (pre ++ command_line (fst c) (snd c))
                            + length s))
                 (Z.of_nat (length (pre ++ command_line (fst c) (snd c))))
                 (Z.of_nat (length (pre ++ command_line (fst c) (snd c))
                            + length s) - 1)
                 (Z.of_nat (S (length rest))) PT_EOL false).
    assert (Ht2 : text p2
                  = ((pre ++ command_line (fst c) (snd c)) ++ s)
                    ++ comments_text ks ++ x :: post)
      by (cbn [p2 text]; rewrite Ht1', <- Erest, Est, <- !app_assoc;
          reflexivity).
    assert (Hp2 : pos p2
                  = Z.of_nat (length ((pre ++ command_line (fst c) (snd c))
                                      ++ s)))
      by (cbn [p2 pos]; rewrite !length_app; f_equal; lia).
    assert (Hl2 : len p2
                  = Z.of_nat (length (comments_text ks) + S (length post)))
      by (cbn [p2 len]; rewrite Est in Hlr; cbn [length] in Hlr;
          f_equal; lia).
    destruct (picolEval_loop_comments ks _ post x p2 Ht2 Hp2 Hl2 eq_refl
                eq_refl Hks Hg Hsemi)
      as [p3 [E3 [Ht3 [Hp3 [Hl3 [Hq3 Hty3]]]]]].
    replace (length ks + script_tokens c' more + fuel)%nat
      with (length ks + (script_tokens c' more + fuel))%nat by lia.
    rewrite E3.
    assert (Ht3' : text p3
                   = (((pre ++ command_line (fst c) (snd c)) ++ s)
                      ++ comments_text ks)
                     ++ script_text c' more)
      by (rewrite Ht3, Ht2, Est, <- !app_assoc; reflexivity).
    assert (Hl3' : len p3 = Z.of_nat (length (script_text c' more)))
      by (rewrite Hl3, Est; reflexivity).
    exact (IH c' _ p3 i2 fuel Ht3' Hp3 Hl3' Hq3 Hty3 Hc' Hmore').
Qed.

(** The loop of [picolEval] from the comments before the first command
    of a script. *)
Lemma picolEval_loop_commented (ks : list comment) (c : command)
  (more : list (gap * command)) (p : picolParser) (i : picolInterp)
  (fuel : nat) :
  text p = comments_text ks ++ script_text c more ->
  pos p = 0 ->
  len p = Z.of_nat (length (comments_text ks ++ script_text c more)) ->
  insidequote p = false -> type p = PT_EOL ->
  Forall comment_ok ks -> command_ok c ->
  Forall (fun gc => gap_ok (fst gc) /\ command_ok (snd gc)) more ->
  picolEval_loop ev (length ks + script_tokens c more + fuel) i p PT_EOL []
    PICOL_OK
  = run_script ev fuel i c more.
Proof.
  intros Ht Hp Hl Hq Hty Hks Hc Hmore.
  destruct (script_text_head c more Hc) as [x [post [Est [Hg Hsemi]]]].
  assert (Ht0 : text p = [] ++ comments_text ks ++ x :: post)
    by (rewrite Ht, Est; reflexivity).
  assert (Hl0 : len p
                = Z.of_nat (length (comments_text ks) + S (length post)))
    by (rewrite Hl, Est, length_app; reflexivity).
  destruct (picolEval_loop_comments ks [] post x p Ht0 Hp Hl0 Hq Hty Hks Hg
              Hsemi)
    as [p1 [E1 [Ht1 [Hp1 [Hl1 [Hq1 Hty1]]]]]].
  replace (length ks + script_tokens c more + fuel)%nat
    with (length ks + (script_tokens c more + fuel))%nat by lia.
  rewrite E1.
  assert (Ht1' : text p1 = ([] ++ comments_text ks) ++ script_text c more)
    by (rewrite Ht1, Ht; reflexivity).
  assert (Hl1' : len p1 = Z.of_nat (length (script_text c more)))
    by (rewrite Hl1, Est; reflexivity).
  exact (picolEval_loop_script more c _ p1 i fuel Ht1' Hp1 Hl1' Hq1 Hty1 Hc
           Hmore).
Qed.

End Script.

Lemma eol_sep_nul_free (s : cstring) :
  Forall (fun c => eol_char c = true) s -> cstr s = s.
Proof.
  induction 1 as [ | c s Hc _ IH]; cbn [cstr]; [reflexivity | ].
  destruct (eol_char_facts c Hc) as [_ [H0 _]].
  rewrite (proj2 (Z.eqb_neq c 0) H0), IH. reflexivity.
Qed.

Lemma comment_nul_free (t : cstring) :
  Forall (fun c => c <> ch_nl /\ c <> 0) t -> cstr t = t.
Proof.
  induction 1 as [ | c t [_ Hc] _ IH]; cbn [cstr]; [reflexivity | ].
  rewrite (proj2 (Z.eqb_neq c 0) Hc), IH. reflexivity.
Qed.

Lemma comments_text_nul_free (ks : list comment) :
  Forall comment_ok ks -> cstr (comments_text ks) = comments_text ks.
Proof.
  induction 1 as [ | [t s] ks [Ht [[Hs _] _]] _ IH]; [reflexivity | ].
  cbn [comments_text fst snd] in *.
  change (ch_hash :: t ++ s ++ comments_text ks)
    with ([ch_hash] ++ t ++ s ++ comments_text ks).
  rewrite (cstr_app [ch_hash] _ eq_refl).
  rewrite (cstr_app t _ (comment_nul_free t Ht)).
  rewrite (cstr_app s _ (eol_sep_nul_free s Hs)).
  rewrite IH. reflexivity.
Qed.

Lemma script_text_nul_free (more : list (gap * command)) :
  forall c, command_ok c ->
    Forall (fun gc => gap_ok (fst gc) /\ command_ok (snd gc)) more ->
    cstr (script_text c more) = script_text c more.
Proof.
  induction more as [ | [[s ks] c'] more IH]; intros c [Hw Hrest] Hmore;
    cbn [script_text]; unfold gap_text; cbn [fst snd].
  - exact (command_line_nul_free (snd c) (fst c) Hw Hrest).
  - inversion Hmore as [ | gc l [[[Hs _] Hks] Hc'] Hmore']; subst gc l.
    cbn [fst snd] in Hs, Hks, Hc'.
    rewrite (cstr_app _ _ (command_line_nul_free (snd c) (fst c) Hw Hrest)).
    rewrite <- app_assoc.
    rewrite (cstr_app s _ (eol_sep_nul_free s Hs)).
    rewrite (cstr_app _ _ (comments_text_nul_free ks Hks)).
    rewrite (IH c' Hc' Hmore'). reflexivity.
Qed.

(** X23.  A script of several commands, each a line of single-token words,
    separated by newlines or semicolons, with comment lines before a
    command: [picolEval] empties the result, passes over the comments and
    runs the commands in order, each in the interpreter the one before
    it left; the first command, or word of a command, that does not
    return OK ends the evaluation with its code, and what the last
    command returns is returned otherwise. *)
Theorem picolEval_script
  (fuel : nat) (i : picolInterp) (ks : list comment) (c : command)
  (more : list (gap * command)) :
  Forall comment_ok ks -> command_ok c ->
  Forall (fun gc => gap_ok (fst gc) /\ command_ok (snd gc)) more ->
  picolEval (S (length ks + script_tokens c more + fuel)) i
    (comments_text ks ++ script_text c more)
  = run_script (picolEval (length ks + script_tokens c more + fuel)) fuel
      (picolSetResult i []) c more.
Proof.
  intros Hks Hc Hmore. rewrite picolEval_S. unfold picolInitParser.
  rewrite (cstr_app _ _ (comments_text_nul_free ks Hks)).
  rewrite (script_text_nul_free more c Hc Hmore).
  apply (picolEval_loop_commented _ ks c more);
    cbn [text pos len insidequote type]; try assumption; reflexivity.
Qed.

Lemma picolEval_script_witness :
  Forall comment_ok [(bytes " setup", [10])]
  /\ command_ok (Plain (bytes "set"),
                 [([32], Plain (bytes "x")); ([32], Plain (bytes "1"))])
  /\ Forall (fun gc => gap_ok (fst gc) /\ command_ok (snd gc))
       [(([10], [(bytes " add", [10])]),
         (Plain (bytes "+"),
          [([32], Subst (Var (bytes "x"))); ([32], Plain (bytes "2"))]))]
  /\ comments_text [(bytes " setup", [10])]
     ++ script_text
          (Plain (bytes "set"),
           [([32], Plain (bytes "x")); ([32], Plain (bytes "1"))])
          [(([10], [(bytes " add", [10])]),
            (Plain (bytes "+"),
             [([32], Subst (Var (bytes "x"))); ([32], Plain (bytes "2"))]))]
     = bytes "# setup" ++ [10] ++ bytes "set x 1" ++ [10]
       ++ bytes "# add" ++ [10] ++ bytes "+ $x 2"
  /\ exists i',
       picolEval (S (1 + 14 + 5)) fresh_interp
         (comments_text [(bytes " setup", [10])]
          ++ script_text
               (Plain (bytes "set"),
                [([32], Plain (bytes "x")); ([32], Plain (bytes "1"))])
               [(([10], [(bytes " add", [10])]),
                 (Plain (bytes "+"),
                  [([32], Subst (Var (bytes "x")));
                   ([32], Plain (bytes "2"))]))])
       = Ret (PICOL_OK, i')
       /\ result i' = bytes "3"
       /\ picolGetVar i' (bytes "x")
          = Ret (Some (mkVar (bytes "x") (bytes "1"))).
Proof.
  assert (Hp : forall w c w', w = c :: w' -> c <> ch_lbrace -> c <> ch_hash ->
                forallb plain_char w = true -> word_ok (Plain w))
    by exact plain_word_intro.
  assert (Hsp : blanks [32]) by (split; [discriminate | repeat constructor]).
  assert (Hnl : eol_sep [10]).
  { split; [repeat constructor | ].
    exists 10, []. split; [reflexivity | left; reflexivity]. }
  assert (Hk : forall t, forallb (fun c => negb (c =? ch_nl) && negb (c =? 0))
                           t = true ->
                         Forall comment_ok [(t, [10])]).
  { intros t Ht. apply Forall_cons; [ | apply Forall_nil].
    split; [ | split; [exact Hnl | exists []; reflexivity]].
    apply Forall_forall. intros x Hx.
    pose proof (proj1 (forallb_forall _ _) Ht x Hx) as H.
    apply andb_true_iff in H. destruct H as [H1 H2].
    split; apply Z.eqb_neq, negb_true_iff; assumption. }
  assert (H0 : Forall comment_ok [(bytes " setup", [10])])
    by (apply Hk; reflexivity).
  assert (H1 : command_ok (Plain (bytes "set"),
                           [([32], Plain (bytes "x"));
                            ([32], Plain (bytes "1"))])).
  { split; cbn [fst snd].
    - apply (Hp _ 115 (bytes "et") eq_refl); [discriminate .. | reflexivity].
    - apply Forall_cons; [split; [exact Hsp | ] | ].
      + apply (Hp _ 120 [] eq_refl); [discriminate .. | reflexivity].
      + apply Forall_cons; [split; [exact Hsp | ] | apply Forall_nil].
        apply (Hp _ 49 [] eq_refl); [discriminate .. | reflexivity]. }
  assert (H2 : Forall (fun gc => gap_ok (fst gc) /\ command_ok (snd gc))
                 [(([10], [(bytes " add", [10])]),
                   (Plain (bytes "+"),
                    [([32], Subst (Var (bytes "x")));
                     ([32], Plain (bytes "2"))]))]).
  { apply Forall_cons; [split | apply Forall_nil].
    - split; [exact Hnl | apply Hk; reflexivity].
    - split; cbn [fst snd].
      + apply (Hp _ 43 [] eq_refl); [discriminate .. | reflexivity].
      + apply Forall_cons; [split; [exact Hsp | ] | ].
        * split; [discriminate | repeat constructor].
        * apply Forall_cons; [split; [exact Hsp | ] | apply Forall_nil].
          apply (Hp _ 50 [] eq_refl); [discriminate .. | reflexivity]. }
  split; [exact H0 | ]. split; [exact H1 | ]. split; [exact H2 | ].
  split; [reflexivity | ].
  pose proof (picolEval_script 5 fresh_interp _ _ _ H0 H1 H2) as E.
  destruct (picolEval (S (1 + 14 + 5)) fresh_interp
              (comments_text [(bytes " setup", [10])]
               ++ script_text
                    (Plain (bytes "set"),
                     [([32], Plain (bytes "x")); ([32], Plain (bytes "1"))])
                    [(([10], [(bytes " add", [10])]),
                      (Plain (bytes "+"),
                       [([32], Subst (Var (bytes "x")));
                        ([32], Plain (bytes "2"))]))]))
    as [[rc i2] | u | ] eqn:E2;
    pose proof (eq_trans (eq_sym E) E2) as E3; vm_compute in E3;
    try discriminate E3.
  injection E3 as <- <-. eexists. split; [reflexivity | ].
  split; reflexivity.
Defined.

(** ** A variable that does not exist *)

(** The words of a command are evaluated up to the first variable that
    does not exist: the words after it are not looked at. *)
Lemma eval_words_undefined
  (ev : picolInterp -> cstring -> outcome (retcode * picolInterp))
  (n : cstring) (k : nat) :
  forall (ws : list word) (i0 i1 : picolInterp) (argv0 argv1 : list cstring),
    nth_error ws k = Some (Subst (Var n)) ->
    eval_words ev i0 (firstn k ws) argv0 = Ret (inr (i1, argv1)) ->
    picolGetVar i1 n = Ret None ->
    eval_words ev i0 ws argv0
    = Ret (inl (picolErr i1 (bytes "No such variable '" ++ n ++ bytes "'"))).
Proof.
  induction k as [ | k IH]; intros [ | w ws] i0 i1 argv0 argv1 Hk Hpre Hvar;
    try discriminate Hk; cbn [nth_error firstn eval_words] in *.
  - injection Hk as ->. injection Hpre as <- _.
    cbn [eval_word eval_subst]. rewrite Hvar. reflexivity.
  - destruct (eval_word ev i0 w) as [[x | [i v]] | u | ]; cbn [bind] in *;
      try discriminate Hpre.
    exact (IH ws i i1 _ argv1 Hk Hpre Hvar).
Qed.

(** C7.  When the token that [picolGetToken] delivers is a variable and
    the current frame has no variable of that name, the pass of the loop
    of [picolEval] returns ERR at once, whatever the state of the loop:
    the result is [No such variable '<name>'], and frames, commands and
    output are as they were.  For a command line, whose word number [k] is
    a variable that does not exist in the interpreter [i1] that the words
    before it have left: [picolEval] returns ERR with that result and
    leaves everything else as in [i1]; the words after the variable are
    not evaluated and no command of the line is called.  In particular
    [puts $undef] on a fresh interpreter returns ERR with the result
    [No such variable 'undef'], and writes nothing. *)
Theorem picolEval_undefined_variable :
  (forall ev (fuel : nat) (i : picolInterp) (p : picolParser)
          (prevtype : ptype) (argv : list cstring) (rc : retcode)
          (p' : picolParser) (t : list Z),
      picolGetToken p = Ret (PICOL_OK, p') ->
      type p' = PT_VAR ->
      memcpy_from (text p') (start p') (token_len p') = Ret t ->
      picolGetVar i (cstr t) = Ret None ->
      exists i',
        picolEval_loop ev (S fuel) i p prevtype argv rc = Ret (PICOL_ERR, i')
        /\ result i' = bytes "No such variable '" ++ cstr t ++ bytes "'"
        /\ callframe i' = callframe i /\ commands i' = commands i
        /\ stdout i' = stdout i)
  /\ (forall (fuel : nat) (i : picolInterp) (w0 : word)
             (rest : list (cstring * word)) (k : nat) (n : cstring)
             (i1 : picolInterp) (argv : list cstring),
         word_ok w0 ->
         Forall (fun sw => blanks (fst sw) /\ word_ok (snd sw)) rest ->
         nth_error (w0 :: map snd rest) k = Some (Subst (Var n)) ->
         eval_words (picolEval (command_tokens w0 rest + 2 + fuel))
           (picolSetResult i []) (firstn k (w0 :: map snd rest)) []
         = Ret (inr (i1, argv)) ->
         picolGetVar i1 n = Ret None ->
         exists i',
           picolEval (S (command_tokens w0 rest + 2 + fuel)) i
             (command_line w0 rest)
           = Ret (PICOL_ERR, i')
           /\ result i' = bytes "No such variable '" ++ n ++ bytes "'"
           /\ callframe i' = callframe i1 /\ commands i' = commands i1
           /\ stdout i' = stdout i1).
Proof.
  split.
  - intros ev fuel i p prevtype argv rc p' t Htok Hty Hcpy Hvar.
    exists (picolSetResult i
              (bytes "No such variable '" ++ cstr t ++ bytes "'")).
    split; [ | split; [ | repeat split; reflexivity]].
    + rewrite picolEval_loop_S. unfold picolEval_body. rewrite Htok.
      cbn [bind retcode_eqb negb]. rewrite Hty. cbn [ptype_eqb]. cbv zeta.
      rewrite Hcpy. cbn [bind]. rewrite Hvar. reflexivity.
    + cbn [result picolSetResult].
      exact (cstr_message (bytes "No such variable '") (cstr t) (bytes "'")
               eq_refl (cstr_idem t) eq_refl).
  - intros fuel i w0 rest k n i1 argv Hw Hrest Hk Hpre Hvar.
    assert (Hn : cstr n = n).
    { assert (Hok : word_ok (Subst (Var n))).
      { destruct k as [ | k]; cbn [nth_error] in Hk.
        - injection Hk as <-. exact Hw.
        - apply nth_error_In in Hk. apply in_map_iff in Hk.
          destruct Hk as [[s w] [E Hin]]. cbn [snd] in E. subst w.
          exact (proj2 (proj1 (Forall_forall _ _) Hrest _ Hin)). }
      exact (var_nul_free n (proj2 Hok)). }
    exists (picolSetResult i1
              (bytes "No such variable '" ++ n ++ bytes "'")).
    split; [ | split; [ | repeat split; reflexivity]].
    + pose proof (picolEval_words fuel i w0 rest Hw Hrest) as E.
      pose proof (eval_words_undefined _ n k _ _ _ _ _ Hk Hpre Hvar) as E1.
      unfold cstring in E, E1 |- *. rewrite E, E1. reflexivity.
    + cbn [result picolSetResult].
      exact (cstr_message (bytes "No such variable '") n (bytes "'")
               eq_refl Hn eq_refl).
Qed.

Lemma picolEval_undefined_variable_witness :
  (exists i',
      picolEval_loop (picolEval 0) 1 fresh_interp
        (picolInitParser (bytes "$undef")) PT_EOL [] PICOL_OK
      = Ret (PICOL_ERR, i')
      /\ result i' = bytes "No such variable 'undef'")
  /\ command_line (Plain (bytes "puts"))
       [([32], Subst (Var (bytes "undef")))]
     = bytes "puts $undef"
  /\ exists i',
       picolEval 6 fresh_interp
         (command_line (Plain (bytes "puts"))
            [([32], Subst (Var (bytes "undef")))])
       = Ret (PICOL_ERR, i')
       /\ result i' = bytes "No such variable 'undef'"
       /\ stdout i' = [].
Proof.
  split; [ | split; [reflexivity | ]].
  - destruct (proj1 picolEval_undefined_variable (picolEval 0) 0%nat
                fresh_interp (picolInitParser (bytes "$undef")) PT_EOL []
                PICOL_OK (mkParser (bytes "$undef") 6 1 5 0 PT_VAR false)
                (bytes "undef") eq_refl eq_refl eq_refl eq_refl)
      as [i' [H1 [H2 _]]].
    exists i'. split; [exact H1 | exact H2].
  - assert (Hw : word_ok (Plain (bytes "puts")))
      by (apply (plain_word_intro _ 112 (bytes "uts") eq_refl);
          [discriminate .. | reflexivity]).
    assert (Hrest : Forall (fun sw => blanks (fst sw) /\ word_ok (snd sw))
                      [([32], Subst (Var (bytes "undef")))]).
    { apply Forall_cons; [split | apply Forall_nil].
      - split; [discriminate | repeat constructor].
      - split; [discriminate | apply forallb_Forall; reflexivity]. }
    destruct (proj2 picolEval_undefined_variable 0%nat fresh_interp
                (Plain (bytes "puts")) [([32], Subst (Var (bytes "undef")))]
                1%nat (bytes "undef") (picolSetResult fresh_interp [])
                [bytes "puts"] Hw Hrest eq_refl eq_refl eq_refl)
      as [i' [H1 [H2 [_ [_ H3]]]]].
    exists i'. split; [exact H1 | ]. split; [exact H2 | exact H3].
Defined.
